(** * lab0-c: the queue over a sentinel-rooted circular doubly linked list

    A shallow embedding of [queue.c] in its two revisions.  The C heap is a
    finite map from addresses to blocks; every function of the source is a
    function on heaps that returns in an error monad: [Ok] with the result,
    [Fault] for an access the C standard leaves undefined (through NULL,
    through a freed or foreign block, outside a buffer) and [Timeout] when
    the iteration budget of a loop is used up. *)

From Stdlib Require Import ZArith Lia Ascii String Sorting.Sorted Permutation.
From stdpp Require Import base tactics option list sorting gmap strings.

Local Open Scope Z_scope.

(** ** Result monad *)

Inductive res (A : Type) : Type :=
| Ok (a : A)
| Fault
| Timeout.
Arguments Ok {A} a.
Arguments Fault {A}.
Arguments Timeout {A}.

#[global] Instance res_ret : MRet res := λ A a, Ok a.
#[global] Instance res_bind : MBind res := λ A B k m,
  match m with
  | Ok a => k a
  | Fault => Fault
  | Timeout => Timeout
  end.

(** ** Addresses, strings and blocks *)

(** Addresses are integers and the null pointer is 0. *)
Definition NULL : Z := 0.

(** [struct list_head { struct list_head *next, *prev; }] *)
Record list_head : Type := LinkPair { next : Z; prev : Z }.

(** [typedef struct { char *value; struct list_head list; } element_t;]
    An element is addressed by its embedded [list] member, so [list_entry]
    (a [container_of] with a constant offset) is the identity on addresses. *)
Record element_t : Type := Element { value : Z; links : list_head }.

Inductive block : Type :=
| Head (l : list_head)      (* malloc(sizeof(struct list_head)) *)
| Elem (e : element_t)      (* malloc(sizeof(element_t)) *)
| Chars (s : string).       (* the array behind a [char *] *)

Abbreviation heap := (gmap Z block).

Definition byte (c : ascii) : Z := Z.of_N (N_of_ascii c).

(** The characters of a C string: what precedes the first NUL. *)
Fixpoint c_str (s : string) : string :=
  match s with
  | EmptyString => EmptyString
  | String c s' => if decide (byte c = 0) then EmptyString else String c (c_str s')
  end.

(** [strcmp]: bytes are compared as [unsigned char], the end of the array
    reads as the terminator, and the comparison stops at a common NUL. *)
Fixpoint strcmp (s t : string) : Z :=
  match s, t with
  | EmptyString, EmptyString => 0
  | EmptyString, String d _ => 0 - byte d
  | String c _, EmptyString => byte c - 0
  | String c s', String d t' =>
      if decide (byte c = byte d)
      then if decide (byte c = 0) then 0 else strcmp s' t'
      else byte c - byte d
  end.

(** ** Heap accesses *)

Definition node_of (b : block) : option list_head :=
  match b with
  | Head l => Some l
  | Elem e => Some (links e)
  | Chars _ => None
  end.

Definition with_node (b : block) (l : list_head) : block :=
  match b with
  | Head _ => Head l
  | Elem e => Elem {| value := value e; links := l |}
  | Chars s => Chars s
  end.

Definition load_node (h : heap) (p : Z) : res list_head :=
  match h !! p ≫= node_of with
  | Some l => Ok l
  | None => Fault
  end.

Definition load_next (h : heap) (p : Z) : res Z :=
  l ← load_node h p; Ok (next l).

Definition load_prev (h : heap) (p : Z) : res Z :=
  l ← load_node h p; Ok (prev l).

Definition load_value (h : heap) (p : Z) : res Z :=
  match h !! p with
  | Some (Elem e) => Ok (value e)
  | _ => Fault
  end.

Definition load_chars (h : heap) (p : Z) : res string :=
  match h !! p with
  | Some (Chars s) => Ok s
  | _ => Fault
  end.

Definition set_next (h : heap) (p v : Z) : heap :=
  alter (λ b, match node_of b with
              | Some l => with_node b {| next := v; prev := prev l |}
              | None => b
              end) p h.

Definition set_prev (h : heap) (p v : Z) : heap :=
  alter (λ b, match node_of b with
              | Some l => with_node b {| next := next l; prev := v |}
              | None => b
              end) p h.

(** [p->next = v] *)
Definition store_next (h : heap) (p v : Z) : res heap :=
  _ ← load_node h p; Ok (set_next h p v).

(** [p->prev = v] *)
Definition store_prev (h : heap) (p v : Z) : res heap :=
  _ ← load_node h p; Ok (set_prev h p v).

(** [list_entry(p, element_t, list)->value], read as a string. *)
Definition strval (h : heap) (p : Z) : res string :=
  v ← load_value h p; load_chars h v.

(** [malloc]: the allocator's answer [pick] is an input.  NULL, or an address
    that is still live, stands for a failed allocation. *)
Definition malloc (h : heap) (pick : Z) (init : block)
  : heap * Z :=
  if decide (pick = NULL) then (h, NULL)
  else match h !! pick with
       | Some _ => (h, NULL)
       | None => (<[pick := init]> h, pick)
       end.

(** [free]: a no-op on NULL, undefined on an address that is not live. *)
Definition free (h : heap) (p : Z) : res heap :=
  if decide (p = NULL) then Ok h
  else match h !! p with
       | Some _ => Ok (delete p h)
       | None => Fault
       end.

(** [strdup]: a fresh array holding the characters of [s]. *)
Definition strdup (h : heap) (pick : Z) (s : string)
  : heap * Z :=
  malloc h pick (Chars (c_str s)).

(** [element->value = v] *)
Definition store_value (h : heap) (p v : Z) : res heap :=
  match h !! p with
  | Some (Elem e) => Ok (<[p := Elem {| value := v; links := links e |}]> h)
  | _ => Fault
  end.

(** ** list.h *)

(** Modelled from the spec: the header list.h (INIT_LIST_HEAD, list_add,
    list_add_tail, list_del, list_empty, list_first_entry, list_last_entry
    and the list_for_each macros) is not among the sources.  A new sentinel
    points to itself in both directions; an element is spliced immediately
    after or immediately before the sentinel; unlinking restores the mutual
    links of the two neighbours and leaves the links of the unlinked node as
    they were; a list is empty when the sentinel's next link is the sentinel. *)
Definition INIT_LIST_HEAD (h : heap) (head : Z) : res heap :=
  h ← store_next h head head;
  store_prev h head head.

(** Modelled from the spec: [list_add] of list.h, which is not among the
    sources; the node is spliced immediately after the sentinel. *)
Definition list_add (h : heap) (node head : Z) : res heap :=
  nx ← load_next h head;
  h ← store_prev h nx node;
  h ← store_next h node nx;
  h ← store_prev h node head;
  store_next h head node.

(** Modelled from the spec: [list_add_tail] of list.h, which is not among
    the sources; the node is spliced immediately before the sentinel. *)
Definition list_add_tail (h : heap) (node head : Z) : res heap :=
  pv ← load_prev h head;
  h ← store_next h pv node;
  h ← store_next h node head;
  h ← store_prev h node pv;
  store_prev h head node.

(** Modelled from the spec: [list_del] of list.h, which is not among the
    sources; unlinking restores the mutual links of the two neighbours. *)
Definition list_del (h : heap) (node : Z) : res heap :=
  nx ← load_next h node;
  pv ← load_prev h node;
  h ← store_prev h nx pv;
  store_next h pv nx.

(** Modelled from the spec: [list_empty] of list.h, which is not among the
    sources; emptiness is [sentinel.next == sentinel]. *)
Definition list_empty (h : heap) (head : Z) : res bool :=
  nx ← load_next h head; Ok (bool_decide (nx = head)).

(** ** Functions common to both revisions of queue.c *)

Definition blank_element : block :=
  Elem {| value := NULL; links := {| next := NULL; prev := NULL |} |}.

Definition blank_head : block := Head {| next := NULL; prev := NULL |}.

Definition q_new (h : heap) (pick : Z) : res (heap * Z) :=
  let '(h, head) := malloc h pick blank_head in
  if decide (head = NULL) then Ok (h, NULL)
  else h ← INIT_LIST_HEAD h head; Ok (h, head).

(** The two allocations of an insertion; [link] is [list_add] or
    [list_add_tail]. *)
Definition q_insert (link : heap → Z → Z → res heap)
    (h : heap) (head : Z) (s : string) (pick_e pick_s : Z) : res (heap * bool) :=
  if decide (head = NULL) then Ok (h, false)
  else
    let '(h, element) := malloc h pick_e blank_element in
    if decide (element = NULL) then Ok (h, false)
    else
      let '(h, v) := strdup h pick_s s in
      h ← store_value h element v;
      if decide (v = NULL) then h ← free h element; Ok (h, false)
      else h ← link h element head; Ok (h, true).

Definition q_insert_head := q_insert list_add.
Definition q_insert_tail := q_insert list_add_tail.

(** [size_t] arithmetic. *)
Definition SIZE_MAX : Z := 2 ^ 64 - 1.
Definition size_sub (a b : Z) : Z := (a - b) mod 2 ^ 64.

Definition NUL : ascii := zero.

(** [strncpy(dst, src, n)] writes exactly [n] bytes: the characters of
    [src], then NUL padding. *)
Definition strncpy (dst : list ascii) (src : string) (n : Z) : res (list ascii) :=
  if decide (Z.of_nat (length dst) < n) then Fault
  else
    let k := Z.to_nat n in
    let chars := list_ascii_of_string (c_str src) in
    Ok (take k chars ++ replicate (k - length chars)%nat NUL ++ drop k dst).

(** [dst[i] = c] *)
Definition store_char (dst : list ascii) (i : Z) (c : ascii) : res (list ascii) :=
  if decide (0 <= i < Z.of_nat (length dst)) then Ok (<[Z.to_nat i := c]> dst)
  else Fault.

(** The [if (sp) { strncpy(...); sp[bufsize - 1] = '\0'; }] of the two
    removals.  [None] is a NULL [sp]; [Some buf] is the caller's buffer with
    its real capacity [length buf]. *)
Definition copy_out (h : heap) (element : Z) (sp : option (list ascii))
    (bufsize : Z) : res (option (list ascii)) :=
  match sp with
  | None => Ok None
  | Some buf =>
      v ← load_value h element;
      s ← load_chars h v;
      buf ← strncpy buf s (size_sub bufsize 1);
      buf ← store_char buf (size_sub bufsize 1) NUL;
      Ok (Some buf)
  end.

Definition q_remove (entry : heap → Z → res Z)
    (h : heap) (head : Z) (sp : option (list ascii)) (bufsize : Z)
  : res (heap * Z * option (list ascii)) :=
  if decide (head = NULL) then Ok (h, NULL, sp)
  else
    e ← list_empty h head;
    if (e : bool) then Ok (h, NULL, sp)
    else
      element ← entry h head;
      h ← list_del h element;
      sp ← copy_out h element sp bufsize;
      Ok (h, element, sp).

Definition q_remove_head := q_remove load_next.   (* list_first_entry *)
Definition q_remove_tail := q_remove load_prev.   (* list_last_entry *)

Definition q_release_element (h : heap) (e : Z) : res heap :=
  v ← load_value h e;
  h ← free h v;
  free h e.

(** ** Shared pieces of the two merge-sort engines *)

(** Where a merge writes the next link of its output: the local variable
    that starts the output chain ([&head] in the first revision, the next
    field of the dummy [struct list_head head] on the stack in the second),
    or the next field of a node on the heap. *)
Inductive place : Type :=
| Local
| NextOf (p : Z).

(** [*tail = v], respectively [tail->next = v]; the local cell is threaded
    through as [head]. *)
Definition assign (h : heap) (head : Z) (tail : place) (v : Z) : res (heap * Z) :=
  match tail with
  | Local => Ok (h, v)
  | NextOf p => h ← store_next h p v; Ok (h, head)
  end.

(** The local array of pending runs; an index outside it is a fault. *)
Definition array_get (a : list Z) (i : nat) : res Z :=
  match a !! i with
  | Some p => Ok p
  | None => Fault
  end.

Definition array_set (a : list Z) (i : nat) (v : Z) : res (list Z) :=
  if decide (i < length a)%nat then Ok (<[i := v]> a) else Fault.

(** The size of the array of pending runs: the literal [32] of the first
    revision, [SORT_BUFSIZE] in the second. *)
Definition SORT_BUFSIZE : nat := 32.

(** The loops over the pending runs have the same text in both revisions;
    [merge] is the revision's own two-way merge.  The callers give the loops
    over the array a budget of [SORT_BUFSIZE] iterations, which they cannot
    exceed. *)
Section engine.
  Context (merge : nat → heap → Z → Z → res (heap * Z)).

  (** [for (i = 0; i < SORT_BUFSIZE && pending[i]; i++)
         { result = merge(pending[i], result); pending[i] = NULL; }] *)
Fixpoint carry (fuel inner : nat) (h : heap) (pending : list Z) (i : nat)
      (result : Z) : res (heap * list Z * nat * Z) :=
    if decide (i < SORT_BUFSIZE)%nat then
      p ← array_get pending i;
      if decide (p = NULL) then Ok (h, pending, i, result)
      else match fuel with
           | O => Timeout
           | S fuel =>
               '(h, result) ← merge inner h p result;
               pending ← array_set pending i NULL;
               carry fuel inner h pending (S i) result
           end
    else Ok (h, pending, i, result).

  (** [while (result) { next = result->next; result->next = NULL; ...;
         if (i == SORT_BUFSIZE) i--; pending[i] = result; result = next; }] *)
Fixpoint sort_loop (fuel inner : nat) (h : heap) (pending : list Z) (result : Z)
    : res (heap * list Z) :=
    if decide (result = NULL) then Ok (h, pending)
    else match fuel with
         | O => Timeout
         | S fuel =>
             nx ← load_next h result;
             h ← store_next h result NULL;
             '(h, pending, i, result) ← carry SORT_BUFSIZE inner h pending 0 result;
             let i := if decide (i = SORT_BUFSIZE) then (i - 1)%nat else i in
             pending ← array_set pending i result;
             sort_loop fuel inner h pending nx
         end.

  (** [for (i = 0; i < bound; i++) result = merge(pending[i], result);] *)
Fixpoint merge_all (bound fuel inner : nat) (h : heap) (pending : list Z)
      (i : nat) (result : Z) : res (heap * Z) :=
    if decide (i < bound)%nat then
      match fuel with
      | O => Timeout
      | S fuel =>
          p ← array_get pending i;
          '(h, result) ← merge inner h p result;
          merge_all bound fuel inner h pending (S i) result
      end
    else Ok (h, result).
End engine.

(** [while (node->next) { node->next->prev = node; node = node->next; }],
    in [q_sort] of the first revision and in [merge_final] of the second. *)
Fixpoint relink_loop (fuel : nat) (h : heap) (node : Z) : res (heap * Z) :=
  nx ← load_next h node;
  if decide (nx = NULL) then Ok (h, node)
  else match fuel with
       | O => Timeout
       | S fuel =>
           h ← store_prev h nx node;
           nx ← load_next h node;
           relink_loop fuel h nx
       end.

(** * First revision (src/unnamed/part_000) *)
Module Part0.

(** The walk of [q_delete_mid]: [forward] from the first element,
    [backward] from the sentinel. *)
Fixpoint mid_loop (fuel : nat) (h : heap) (forward backward : Z) : res Z :=
  if decide (forward = backward) then Ok forward
  else match fuel with
       | O => Timeout
       | S fuel =>
           backward ← load_prev h backward;
           if decide (forward = backward) then Ok forward
           else forward ← load_next h forward;
                mid_loop fuel h forward backward
       end.

Definition q_delete_mid (fuel : nat) (h : heap) (head : Z) : res (heap * bool) :=
  if decide (head = NULL) then Ok (h, false)
  else
    e ← list_empty h head;
    if (e : bool) then Ok (h, false)
    else
      forward ← load_next h head;
      forward ← mid_loop fuel h forward head;
      h ← list_del h forward;
      h ← q_release_element h forward;
      Ok (h, true).

(** The inner loop of [q_delete_dup]; [element] is [list_entry(node)]. *)
Fixpoint dup_run (fuel : nat) (h : heap) (head node element prev_element : Z)
  : res (heap * Z * Z) :=
  if decide (node = head) then Ok (h, node, prev_element)
  else
    sa ← strval h element;
    sb ← strval h prev_element;
    if decide (strcmp sa sb = 0) then
      match fuel with
      | O => Timeout
      | S fuel =>
          node ← load_next h node;
          h ← q_release_element h prev_element;
          dup_run fuel h head node node element
      end
    else Ok (h, node, prev_element).

Fixpoint dup_loop (fuel inner : nat) (h : heap) (head node prev : Z) : res heap :=
  if decide (node = head) then Ok h
  else match fuel with
       | O => Timeout
       | S fuel =>
           prev_element ← load_prev h node;
           sa ← strval h node;
           sb ← strval h prev_element;
           if decide (strcmp sa sb = 0) then
             '(h, node, prev_element) ← dup_run inner h head node node prev_element;
             h ← q_release_element h prev_element;
             h ← store_next h prev node;
             h ← store_prev h node prev;
             node ← (if decide (node = head) then Ok node else load_next h node);
             dup_loop fuel inner h head node prev
           else
             node ← load_next h node;
             prev ← load_next h prev;
             dup_loop fuel inner h head node prev
       end.

Definition q_delete_dup (fuel : nat) (h : heap) (head : Z) : res (heap * bool) :=
  if decide (head = NULL) then Ok (h, false)
  else
    first ← load_next h head;
    node ← load_next h first;
    h ← dup_loop fuel fuel h head node head;
    Ok (h, true).

Fixpoint swap_loop (fuel : nat) (h : heap) (head node : Z) (toggle : bool) : res heap :=
  if decide (node = head) then Ok h
  else match fuel with
       | O => Timeout
       | S fuel =>
           '(h, node) ←
             (if toggle then
                prev ← load_prev h node;
                nn ← load_next h node;
                h ← store_next h prev nn;        (* prev->next = node->next *)
                pp ← load_prev h prev;
                h ← store_prev h node pp;        (* node->prev = prev->prev *)
                nn ← load_next h node;
                h ← store_prev h nn prev;        (* node->next->prev = prev *)
                pp ← load_prev h prev;
                h ← store_next h pp node;        (* prev->prev->next = node *)
                h ← store_prev h prev node;      (* prev->prev = node *)
                h ← store_next h node prev;      (* node->next = prev *)
                Ok (h, prev)
              else Ok (h, node));
           node ← load_next h node;
           swap_loop fuel h head node (negb toggle)
       end.

Definition q_swap (fuel : nat) (h : heap) (head : Z) : res heap :=
  if decide (head = NULL) then Ok h
  else
    e ← list_empty h head;
    if (e : bool) then Ok h
    else node ← load_next h head; swap_loop fuel h head node false.

(** [list_for_each_safe (node, safe, head)] with the body of [q_reverse]. *)
Fixpoint reverse_loop (fuel : nat) (h : heap) (head node safe : Z) : res heap :=
  if decide (node = head) then Ok h
  else match fuel with
       | O => Timeout
       | S fuel =>
           nx ← load_next h node;
           pv ← load_prev h node;
           h ← store_next h node pv;
           h ← store_prev h node nx;
           let node := safe in
           safe ← load_next h node;
           reverse_loop fuel h head node safe
       end.

Definition q_reverse (fuel : nat) (h : heap) (head : Z) : res heap :=
  if decide (head = NULL) then Ok h
  else
    e ← list_empty h head;
    if (e : bool) then Ok h
    else
      node ← load_next h head;
      safe ← load_next h node;
      h ← reverse_loop fuel h head node safe;
      nx ← load_next h head;
      pv ← load_prev h head;
      h ← store_next h head pv;
      store_prev h head nx.

(** The [for (;;)] of [merge]; [head] is the local variable, [tail] points
    to it or to the next field of the last node taken. *)
Fixpoint merge_loop (fuel : nat) (h : heap) (head : Z) (tail : place) (a b : Z)
  : res (heap * Z) :=
  match fuel with
  | O => Timeout
  | S fuel =>
      sa ← strval h a;
      sb ← strval h b;
      if decide (strcmp sa sb <= 0) then
        '(h, head) ← assign h head tail a;
        a' ← load_next h a;
        if decide (a' = NULL) then assign h head (NextOf a) b
        else merge_loop fuel h head (NextOf a) a' b
      else
        '(h, head) ← assign h head tail b;
        b' ← load_next h b;
        if decide (b' = NULL) then assign h head (NextOf b) a
        else merge_loop fuel h head (NextOf b) a b'
  end.

Definition merge (fuel : nat) (h : heap) (a b : Z) : res (heap * Z) :=
  if decide (a = NULL ∨ b = NULL)
  then Ok (h, if decide (a ≠ NULL) then a else b)
  else merge_loop fuel h NULL Local a b.

Definition q_sort (fuel : nat) (h : heap) (head : Z) : res heap :=
  if decide (head = NULL) then Ok h
  else
    first ← load_next h head;
    last ← load_prev h head;
    if decide (first = last) then Ok h
    else
      h ← store_next h last NULL;
      '(h, array) ← sort_loop merge fuel fuel h (replicate SORT_BUFSIZE NULL) first;
      '(h, result) ← merge_all merge SORT_BUFSIZE SORT_BUFSIZE fuel h array 0 NULL;
      h ← store_next h head result;
      '(h, node) ← relink_loop fuel h head;
      h ← store_next h node head;
      store_prev h head node.

End Part0.

(** * Second revision (src/unnamed/part_001) *)
Module Part1.

(** The [do ... while] of [q_delete_mid]; both pointers start at the
    sentinel. *)
Fixpoint mid_loop (fuel : nat) (h : heap) (forward backward : Z) : res Z :=
  match fuel with
  | O => Timeout
  | S fuel =>
      forward ← load_next h forward;
      if decide (forward = backward) then Ok forward
      else backward ← load_prev h backward;
           if decide (forward ≠ backward) then mid_loop fuel h forward backward
           else Ok forward
  end.

Definition q_delete_mid (fuel : nat) (h : heap) (head : Z) : res (heap * bool) :=
  if decide (head = NULL) then Ok (h, false)
  else
    e ← list_empty h head;
    if (e : bool) then Ok (h, false)
    else
      forward ← mid_loop fuel h head head;
      h ← list_del h forward;
      h ← q_release_element h forward;
      Ok (h, true).

(** [list_for_each_entry_safe (entry, safe, head, list)] with the body of
    [q_delete_dup]. *)
Fixpoint dup_loop (fuel : nat) (h : heap) (head entry safe : Z)
    (is_dup : bool) (prev : Z) : res heap :=
  if decide (entry = head) then Ok h
  else match fuel with
       | O => Timeout
       | S fuel =>
           same ← (if decide (safe ≠ head) then
                     sa ← strval h entry;
                     sb ← strval h safe;
                     Ok (bool_decide (strcmp sa sb = 0))
                   else Ok false);
           '(h, is_dup, prev) ←
             (if (same : bool) then
                h ← q_release_element h entry;
                Ok (h, true, prev)
              else if is_dup then
                h ← q_release_element h entry;
                h ← store_next h prev safe;
                h ← store_prev h safe prev;
                Ok (h, false, prev)
              else
                prev ← load_next h prev;
                Ok (h, is_dup, prev));
           let entry := safe in
           safe ← load_next h safe;
           dup_loop fuel h head entry safe is_dup prev
       end.

Definition q_delete_dup (fuel : nat) (h : heap) (head : Z) : res (heap * bool) :=
  if decide (head = NULL) then Ok (h, false)
  else
    entry ← load_next h head;
    safe ← load_next h entry;
    h ← dup_loop fuel h head entry safe false head;
    Ok (h, true).

Fixpoint swap_loop (fuel : nat) (h : heap) (head node : Z) : res heap :=
  if decide (node = head) then Ok h
  else
    nx ← load_next h node;
    if decide (nx = head) then Ok h
    else match fuel with
         | O => Timeout
         | S fuel =>
             pv ← load_prev h node;
             h ← store_next h pv nx;           (* node->prev->next = next *)
             nn ← load_next h nx;
             h ← store_prev h nn node;         (* next->next->prev = node *)
             nn ← load_next h nx;
             h ← store_next h node nn;         (* node->next = next->next *)
             h ← store_next h nx node;         (* next->next = node *)
             pv ← load_prev h node;
             h ← store_prev h nx pv;           (* next->prev = node->prev *)
             h ← store_prev h node nx;         (* node->prev = next *)
             node ← load_next h node;
             swap_loop fuel h head node
         end.

Definition q_swap (fuel : nat) (h : heap) (head : Z) : res heap :=
  if decide (head = NULL) then Ok h
  else
    e ← list_empty h head;
    if (e : bool) then Ok h
    else node ← load_next h head; swap_loop fuel h head node.

(** The [do ... while (node != head)] of [q_reverse]. *)
Fixpoint reverse_loop (fuel : nat) (h : heap) (head node nx : Z) : res heap :=
  match fuel with
  | O => Timeout
  | S fuel =>
      pv ← load_prev h node;
      h ← store_next h node pv;
      h ← store_prev h node nx;
      let node := nx in
      nx ← load_next h node;
      if decide (node ≠ head) then reverse_loop fuel h head node nx
      else Ok h
  end.

Definition q_reverse (fuel : nat) (h : heap) (head : Z) : res heap :=
  if decide (head = NULL) then Ok h
  else
    e ← list_empty h head;
    if (e : bool) then Ok h
    else nx ← load_next h head; reverse_loop fuel h head head nx.

(** [while (a && b)] of [merge]; [head] is the next field of the dummy
    node on the stack and [tail] points to the dummy or to a heap node. *)
Fixpoint merge_loop (fuel : nat) (h : heap) (head : Z) (tail : place) (a b : Z)
  : res (heap * Z) :=
  if decide (a ≠ NULL ∧ b ≠ NULL) then
    match fuel with
    | O => Timeout
    | S fuel =>
        sa ← strval h a;
        sb ← strval h b;
        if decide (strcmp sa sb <= 0) then
          '(h, head) ← assign h head tail a;
          a' ← load_next h a;
          merge_loop fuel h head (NextOf a) a' b
        else
          '(h, head) ← assign h head tail b;
          b' ← load_next h b;
          merge_loop fuel h head (NextOf b) a b'
    end
  else assign h head tail (Z.lor a b).

Definition merge (fuel : nat) (h : heap) (a b : Z) : res (heap * Z) :=
  merge_loop fuel h NULL Local a b.

(** The first loop of [merge_final]: as [merge], on the sentinel, and
    setting each [prev]. *)
Fixpoint final_loop (fuel : nat) (h : heap) (tail a b : Z) : res (heap * Z) :=
  if decide (a ≠ NULL ∧ b ≠ NULL) then
    match fuel with
    | O => Timeout
    | S fuel =>
        sa ← strval h a;
        sb ← strval h b;
        if decide (strcmp sa sb <= 0) then
          h ← store_next h tail a;
          h ← store_prev h a tail;
          tail ← load_next h tail;
          a' ← load_next h a;
          final_loop fuel h tail a' b
        else
          h ← store_next h tail b;
          h ← store_prev h b tail;
          tail ← load_next h tail;
          b' ← load_next h b;
          final_loop fuel h tail a b'
    end
  else h ← store_next h tail (Z.lor a b); Ok (h, tail).

Definition merge_final (fuel : nat) (h : heap) (head a b : Z) : res heap :=
  '(h, tail) ← final_loop fuel h head a b;
  '(h, tail) ← relink_loop fuel h tail;
  h ← store_next h tail head;
  store_prev h head tail.

Definition q_sort (fuel : nat) (h : heap) (head : Z) : res heap :=
  if decide (head = NULL) then Ok h
  else
    first ← load_next h head;
    last ← load_prev h head;
    if decide (first = last) then Ok h
    else
      h ← store_next h last NULL;
      '(h, pending) ← sort_loop merge fuel fuel h (replicate SORT_BUFSIZE NULL) first;
      '(h, result) ← merge_all merge (SORT_BUFSIZE - 1) SORT_BUFSIZE fuel h pending 0 NULL;
      p ← array_get pending (SORT_BUFSIZE - 1);
      merge_final fuel h head result p.

End Part1.

(** ** Building and reading queues (for examples) *)

(** Insert the strings at the tail, element [i] at address [base + 2 i] with
    its characters at [base + 2 i + 1]. *)
Fixpoint fill (h : heap) (head base : Z) (ss : list string) : res heap :=
  match ss with
  | [] => Ok h
  | s :: ss =>
      '(h, _) ← q_insert_tail h head s base (base + 1);
      fill h head (base + 2) ss
  end.

(** A queue with sentinel at address 1 and elements from address 2 on. *)
Definition queue_of (ss : list string) : res heap :=
  '(h, head) ← q_new ∅ 1;
  fill h head 2 ss.

(** Follow [next] from [p] until [head], collecting addresses. *)
Fixpoint walk (fuel : nat) (h : heap) (head p : Z) : res (list Z) :=
  if decide (p = head) then Ok []
  else match fuel with
       | O => Timeout
       | S fuel => nx ← load_next h p; l ← walk fuel h head nx; Ok (p :: l)
       end.

Fixpoint walk_back (fuel : nat) (h : heap) (head p : Z) : res (list Z) :=
  if decide (p = head) then Ok []
  else match fuel with
       | O => Timeout
       | S fuel => pv ← load_prev h p; l ← walk_back fuel h head pv; Ok (p :: l)
       end.

Fixpoint strvals (h : heap) (ns : list Z) : res (list string) :=
  match ns with
  | [] => Ok []
  | p :: ns => s ← strval h p; l ← strvals h ns; Ok (s :: l)
  end.

Definition to_list (fuel : nat) (h : heap) (head : Z) : res (list string) :=
  first ← load_next h head;
  ns ← walk fuel h head first;
  strvals h ns.

Definition to_list_back (fuel : nat) (h : heap) (head : Z) : res (list string) :=
  last ← load_prev h head;
  ns ← walk_back fuel h head last;
  strvals h ns.

(** * Specification vocabulary *)

(** ** Shape of the heap around a queue *)

Definition is_node (h : heap) (p : Z) : Prop := is_Some (h !! p ≫= node_of).

(** [fwd h [x0; x1; ...; xn]]: each [xi->next] is [x(i+1)]. *)
Fixpoint fwd (h : heap) (l : list Z) : Prop :=
  match l with
  | a :: l' => match l' with
               | b :: _ => load_next h a = Ok b ∧ fwd h l'
               | [] => True
               end
  | [] => True
  end.

(** [bwd h [x0; x1; ...; xn]]: each [x(i+1)->prev] is [xi]. *)
Fixpoint bwd (h : heap) (l : list Z) : Prop :=
  match l with
  | a :: l' => match l' with
               | b :: _ => load_prev h b = Ok a ∧ bwd h l'
               | [] => True
               end
  | [] => True
  end.

(** The doubly linked circle: from the sentinel [head] through the nodes
    [ns], in this order, and back to the sentinel. *)
Definition ring (h : heap) (head : Z) (ns : list Z) : Prop :=
  (h !! NULL = None) ∧
  NoDup (head :: ns) ∧
  fwd h (head :: ns ++ [head]) ∧
  bwd h (head :: ns ++ [head]).

(** A forward chain that ends in NULL, as the sort engines use it. *)
Definition chain (h : heap) (p : Z) (l : list Z) : Prop :=
  (NULL ∉ l) ∧ p = hd NULL l ∧ fwd h (l ++ [NULL]).

Definition valptr (h : heap) (p : Z) : Z :=
  match h !! p with
  | Some (Elem e) => value e
  | _ => NULL
  end.

Definition is_chars (h : heap) (v : Z) : Prop :=
  match h !! v with
  | Some (Chars _) => True
  | _ => False
  end.

(** The string of the element at [p] (empty when [p] is no element). *)
Definition key (h : heap) (p : Z) : string :=
  match strval h p with
  | Ok s => s
  | _ => EmptyString
  end.

(** The nodes [ns] are elements and each owns its own array of characters. *)
Definition payload (h : heap) (ns : list Z) : Prop :=
  NoDup (valptr h <$> ns) ∧ Forall (λ p, is_chars h (valptr h p)) ns.

(** A well-formed queue: a circle of elements with their strings. *)
Definition queue (h : heap) (head : Z) (ns : list Z) : Prop :=
  ring h head ns ∧ payload h ns.

(** The strings of a queue, front to back. *)
Definition contents (h : heap) (ns : list Z) : list string := key h <$> ns.

(** ** Frames *)

(** A block without its links. *)
Definition erase (b : block) : block :=
  with_node b {| next := NULL; prev := NULL |}.

(** [relinked S h h']: the two heaps have the same blocks with the same
    payloads, and differ at most in the links of the nodes of [S]. *)
Definition relinked (S : list Z) (h h' : heap) : Prop :=
  ∀ p, erase <$> h' !! p = erase <$> h !! p ∧ (p ∉ S → h' !! p = h !! p).

(** The heap without the elements [l] and their character arrays; [h0]
    tells which array belongs to which element. *)
Definition released (h0 : heap) (l : list Z) (h : heap) : heap :=
  foldr (λ p h, delete p (delete (valptr h0 p) h)) h l.

(** Exchanging [next] and [prev] in a block, and in all the nodes of a list. *)
Definition swap_block (b : block) : block :=
  match node_of b with
  | Some l => with_node b {| next := prev l; prev := next l |}
  | None => b
  end.

Definition exchange (l : list Z) (h : heap) : heap :=
  foldl (λ h p, alter swap_block p h) h l.

(** ** The invariant as the specification words it *)

Inductive reachable (h : heap) (head : Z) : Z → Prop :=
| reach_head : reachable h head head
| reach_next x y : reachable h head x → load_next h x = Ok y → reachable h head y.

(** [x.next.prev == x] and [x.prev.next == x] for every reachable [x]. *)
Definition circular (h : heap) (head : Z) : Prop :=
  ∀ x, reachable h head x →
    ∃ n p, load_next h x = Ok n ∧ load_prev h n = Ok x ∧
           load_prev h x = Ok p ∧ load_next h p = Ok x.

(** The last element of [d :: l]. *)
Fixpoint lastd (d : Z) (l : list Z) : Z :=
  match l with
  | [] => d
  | x :: l' => lastd x l'
  end.

(** An insertion either fails and leaves the heap as it was, or links one
    new element that owns a copy of the string. *)
Definition inserted (h : heap) (pick_e pick_s : Z) (s : string) : heap :=
  <[pick_e := Elem {| value := pick_s; links := {| next := NULL; prev := NULL |} |}]>
    (<[pick_s := Chars (c_str s)]> h).

Definition alloc_ok (h : heap) (pick_e pick_s : Z) : Prop :=
  pick_e ≠ NULL ∧ pick_s ≠ NULL ∧ pick_e ≠ pick_s ∧ h !! pick_e = None ∧ h !! pick_s = None.

#[global] Instance alloc_ok_dec h pick_e pick_s : Decision (alloc_ok h pick_e pick_s).
Proof. unfold alloc_ok. apply _. Defined.

(** ** List-level models *)

(** Exchanging adjacent pairs. *)
Fixpoint swap_pairs (l : list Z) : list Z :=
  match l with
  | a :: b :: l' => b :: a :: swap_pairs l'
  | _ => l
  end.

(** [q_delete_dup] as a function on lists: an element goes when it equals
    its successor, or when [is_dup] says that it equalled its predecessor. *)
Fixpoint dedup (same : Z → Z → bool) (is_dup : bool) (l : list Z) : list Z :=
  match l with
  | [] => []
  | x :: l' =>
      if match l' with y :: _ => same x y | [] => false end
      then dedup same true l'
      else if is_dup then dedup same false l'
           else x :: dedup same false l'
  end.

(** Equality of strings as [strcmp] sees it, under a key function. *)
Definition same_key (k : Z → string) (x y : Z) : bool :=
  bool_decide (strcmp (k x) (k y) = 0).

(** A ring cut open between the nodes [K] after the sentinel and the nodes
    [R] before it: both parts are intact, the links between them are not. *)
Definition broken (h : heap) (head : Z) (K R : list Z) : Prop :=
  (h !! NULL = None) ∧
  is_node h head ∧
  NoDup (head :: K ++ R) ∧
  fwd h (head :: K) ∧ bwd h (head :: K) ∧
  fwd h (R ++ [head]) ∧ bwd h (R ++ [head]).

(** [reshaped D S h h']: the blocks at [D] are gone, every other block has
    kept its payload, and only nodes of [S] have changed links. *)
Definition reshaped (D S : list Z) (h h' : heap) : Prop :=
  ∀ p, (p ∈ D → h' !! p = None) ∧
       (p ∉ D → erase <$> h' !! p = erase <$> h !! p ∧ (p ∉ S → h' !! p = h !! p)).

(** The blocks of the elements [l]: the elements and their character arrays. *)
Definition cells (h : heap) (l : list Z) : list Z := l ++ (valptr h <$> l).

(** The order of the sort under a key function: [strcmp(a, b) <= 0]. *)
Definition le_key (k : Z → string) (x y : Z) : bool :=
  bool_decide (strcmp (k x) (k y) ≤ 0).

(** [keyed h k l]: the strings of the elements [l] are given by [k]. *)
Definition keyed (h : heap) (k : Z → string) (l : list Z) : Prop :=
  ∀ p, p ∈ l → strval h p = Ok (k p).

(** The sort engines on lists: a run is a list, NULL is the empty run. *)
Section sort_model.
  Context (le : Z → Z → bool).

  (** The two-way merge; on a tie the element of the first list goes first. *)
Fixpoint merge_lists (l1 l2 : list Z) {struct l1} : list Z :=
    let fix merge_aux (l2 : list Z) : list Z :=
      match l1, l2 with
      | [], _ => l2
      | _, [] => l1
      | a1 :: l1', a2 :: l2' =>
          if le a1 a2 then a1 :: merge_lists l1' l2 else a2 :: merge_aux l2'
      end
    in merge_aux l2.

  (** Carrying the run [r] into the pending runs from some index on: it is
      merged through the occupied entries into the first empty one; when
      the last entry is occupied too, the merge stays in the last entry. *)
Fixpoint carry_runs (runs : list (list Z)) (r : list Z) : list (list Z) :=
    match runs with
    | [] => []
    | p :: rest =>
        match p with
        | [] => r :: rest
        | _ :: _ =>
            match rest with
            | [] => [merge_lists p r]
            | _ :: _ => [] :: carry_runs rest (merge_lists p r)
            end
        end
    end.

  (** Consuming the input chain, one element at a time. *)
Definition fill_runs (runs : list (list Z)) (l : list Z) : list (list Z) :=
    foldl (λ runs x, carry_runs runs [x]) runs l.

  (** [for (...) result = merge(pending[i], result)] *)
Definition merge_runs (runs : list (list Z)) (r : list Z) : list Z :=
    foldl (λ r p, merge_lists p r) r runs.

  (** [q_sort] of the first revision: every pending run is merged in. *)
Definition sort0 (l : list Z) : list Z :=
    merge_runs (fill_runs (replicate SORT_BUFSIZE []) l) [].

  (** [q_sort] of the second revision: the runs but the last are merged,
      and [merge_final] takes the result as [a] and the last run as [b]. *)
Definition sort1 (l : list Z) : list Z :=
    let runs := fill_runs (replicate SORT_BUFSIZE []) l in
    merge_lists (merge_runs (take (SORT_BUFSIZE - 1) runs) [])
                (nth (SORT_BUFSIZE - 1)%nat runs []).
End sort_model.

(** What a merge has written through [tail]. *)
Definition at_place (h : heap) (head : Z) (tail : place) (v : Z) : Prop :=
  match tail with
  | Local => head = v
  | NextOf t => load_next h t = Ok v
  end.

Definition place_nodes (tail : place) : list Z :=
  match tail with
  | Local => []
  | NextOf t => [t]
  end.

Definition place_ok (h : heap) (tail : place) (l : list Z) : Prop :=
  match tail with
  | Local => True
  | NextOf t => is_node h t ∧ t ∉ l
  end.

(** What the engines need of a two-way merge. *)
Definition merge_spec (k : Z → string)
    (merge : nat → heap → Z → Z → res (heap * Z)) : Prop :=
  ∀ la lb h fuel,
    chain h (hd NULL la) la → chain h (hd NULL lb) lb →
    NoDup (la ++ lb) → keyed h k (la ++ lb) →
    (length la + length lb ≤ fuel)%nat →
    ∃ h',
      merge fuel h (hd NULL la) (hd NULL lb)
        = Ok (h', hd NULL (merge_lists (le_key k) la lb)) ∧
      chain h' (hd NULL (merge_lists (le_key k) la lb)) (merge_lists (le_key k) la lb) ∧
      relinked (la ++ lb) h h'.

(** ** Order and stability *)

(** Non-decreasing under [strcmp]: every element is at most every later one. *)
Definition sorted_by (k : Z → string) (l : list Z) : Prop :=
  StronglySorted (λ x y, le_key k x y = true) l.

(** [out] has the elements of every key in the order that they have in [l]. *)
Definition stable_for (k : Z → string) (l out : list Z) : Prop :=
  ∀ c, filter (λ y, same_key k c y = true) out = filter (λ y, same_key k c y = true) l.

(** The elements of the pending runs in the order of their arrival: a run
    at a higher index holds older elements. *)
Definition history (runs : list (list Z)) : list Z := concat (reverse runs).

(** The sizes of the pending runs from index [i] on: a run is empty or has
    [2^i] elements, and the last one, which takes what overflows, is empty
    or has at least that many. *)
Fixpoint sized (i : Z) (runs : list (list Z)) : Prop :=
  match runs with
  | [] => True
  | p :: rest =>
      match rest with
      | [] => p = [] ∨ 2 ^ i ≤ Z.of_nat (length p)
      | _ :: _ => (p = [] ∨ Z.of_nat (length p) = 2 ^ i) ∧ sized (i + 1) rest
      end
  end.

(** [x] is the only element of [ns] with its string. *)
Definition unique_key (k : Z → string) (ns : list Z) (x : Z) : Prop :=
  length (filter (λ y, same_key k x y = true) ns) = 1%nat.

#[global] Instance unique_key_dec k ns x : Decision (unique_key k ns x).
Proof. unfold unique_key. apply _. Defined.

(** ** The buffer of a removal *)

(** The caller's buffer has room for [bufsize] bytes, and [bufsize] is
    at least one. *)
Definition buffer_ok (sp : option (list ascii)) (bufsize : Z) : Prop :=
  match sp with
  | None => True
  | Some buf => 1 ≤ bufsize ≤ Z.of_nat (length buf) ∧ Z.of_nat (length buf) < 2 ^ 64
  end.

(** The buffer after the copy: the string cut to [bufsize - 1] characters,
    NUL up to the terminator at index [bufsize - 1], and what the buffer
    held behind it. *)
Definition copied (buf : list ascii) (s : string) (bufsize : Z) : list ascii :=
  let n := Z.to_nat (bufsize - 1) in
  let chars := list_ascii_of_string (c_str s) in
  take n chars ++ replicate (n - length chars)%nat NUL ++ NUL :: drop (S n) buf.

(** ** What an operation leaves behind *)

Definition heap_after {A} (f : A → heap) (r : res A) : res heap := a ← r; Ok (f a).

(** The operation returns, and in its heap the links around every node
    that the sentinel reaches are mutual; an empty list is the sentinel
    linked to itself in both directions. *)
Definition keeps_circular (head : Z) (r : res heap) : Prop :=
  ∃ h', r = Ok h' ∧ circular h' head ∧
    (load_next h' head = Ok head → load_prev h' head = Ok head).

(** ** Deciding the shape of a concrete heap *)

#[global] Instance list_head_eq_dec : EqDecision list_head.
Proof. solve_decision. Defined.

#[global] Instance element_t_eq_dec : EqDecision element_t.
Proof. solve_decision. Defined.

#[global] Instance block_eq_dec : EqDecision block.
Proof. solve_decision. Defined.

#[global] Instance res_eq_dec {A} `{EqDecision A} : EqDecision (res A).
Proof. solve_decision. Defined.

#[global] Instance fwd_dec h l : Decision (fwd h l).
Proof.
  induction l as [|a l IH]; [left; exact I|].
  destruct l as [|b l]; [left; exact I|].
  simpl in *. apply and_dec; [apply _|exact IH].
Defined.

#[global] Instance bwd_dec h l : Decision (bwd h l).
Proof.
  induction l as [|a l IH]; [left; exact I|].
  destruct l as [|b l]; [left; exact I|].
  simpl in *. apply and_dec; [apply _|exact IH].
Defined.

#[global] Instance ring_dec h head ns : Decision (ring h head ns).
Proof. unfold ring. apply _. Defined.

#[global] Instance is_chars_dec h v : Decision (is_chars h v).
Proof. unfold is_chars. destruct (h !! v) as [[| |]|]; apply _. Defined.

#[global] Instance payload_dec h ns : Decision (payload h ns).
Proof. unfold payload. apply _. Defined.

#[global] Instance queue_dec h head ns : Decision (queue h head ns).
Proof. unfold queue. apply _. Defined.

#[global] Instance sorted_by_dec k l : Decision (sorted_by k l).
Proof. unfold sorted_by. apply _. Defined.

#[global] Instance buffer_ok_dec sp bufsize : Decision (buffer_ok sp bufsize).
Proof. unfold buffer_ok. destruct sp; apply _. Defined.

(** ** Outcomes of the operations *)

(** [q_sort] returned: the same elements in the same blocks, only relinked,
    with their strings in non-decreasing order. *)
Definition sorts_to (h : heap) (head : Z) (ns : list Z) (r : res heap) : Prop :=
  ∃ h' out, r = Ok h' ∧ queue h' head out ∧ out ≡ₚ ns ∧
    relinked (head :: ns) h h' ∧
    Sorted (λ s t, strcmp s t ≤ 0) (contents h' out) ∧
    ((length ns ≤ 1)%nat → h' = h).

(** [q_sort] returned, and the elements of every string kept their order. *)
Definition sorts_stably (h : heap) (head : Z) (ns : list Z) (r : res heap) : Prop :=
  ∃ h' out, r = Ok h' ∧ queue h' head out ∧ stable_for (key h) ns out.

(** [q_delete_dup] returned true: what is left are the elements whose
    string occurred once, in their order; the others are released. *)
Definition dedups_to (h : heap) (head : Z) (ns : list Z) (r : res (heap * bool)) : Prop :=
  ∃ h' D, r = Ok (h', true) ∧
    queue h' head (filter (unique_key (key h) ns) ns) ∧
    ns ≡ₚ D ++ filter (unique_key (key h) ns) ns ∧
    reshaped (cells h D) (head :: ns) h h' ∧
    (ns = [] → h' = h).

(** [q_delete_mid] returned true: the element [x] is unlinked and released. *)
Definition deletes_mid (h : heap) (head : Z) (ns : list Z) (x : Z)
    (r : res (heap * bool)) : Prop :=
  ∃ h', r = Ok (h', true) ∧
    queue h' head (delete (length ns / 2)%nat ns) ∧
    relinked (head :: ns) (released h [x] h) h'.

(** [q_swap] returned: the pairs are exchanged, by relinking. *)
Definition swaps_to (h : heap) (head : Z) (ns : list Z) (r : res heap) : Prop :=
  ∃ h', r = Ok h' ∧ queue h' head (swap_pairs ns) ∧ relinked (head :: ns) h h' ∧
    (ns = [] → h' = h).

(** A removal returned the element [x]: it is unlinked and still owns its
    string, and the buffer, if there is one, holds the copy. *)
Definition removes (h : heap) (head : Z) (x : Z) (rest : list Z)
    (sp : option (list ascii)) (bufsize : Z)
    (r : res (heap * Z * option (list ascii))) : Prop :=
  ∃ h', r = Ok (h', x, (λ buf, copied buf (key h x) bufsize) <$> sp) ∧
    x ≠ NULL ∧ queue h' head rest ∧
    (∀ p, erase <$> h' !! p = erase <$> h !! p) ∧
    strval h' x = Ok (key h x).

(** An insertion returned true: the new element [pe] owns a copy of the
    string at [ps], and nothing else has changed but links. *)
Definition inserts (h : heap) (head : Z) (ns' : list Z) (s : string) (pe ps : Z)
    (r : res (heap * bool)) : Prop :=
  ∃ h', r = Ok (h', true) ∧ queue h' head ns' ∧
    relinked (head :: ns') (inserted h pe ps s) h' ∧
    strval h' pe = Ok (c_str s).

(** ** Concrete queues *)

(** The queue of the given strings as [q_new] and [q_insert_tail] build
    it: sentinel at 1, elements at 2, 4, ... *)
Definition demo (ss : list string) : heap :=
  match queue_of ss with
  | Ok h => h
  | _ => ∅
  end.

Definition fruits : heap := demo ["banana"; "apple"; "cherry"]%string.
Definition digits : heap := demo ["1"; "1"; "2"; "3"; "3"; "3"]%string.
Definition letters : heap := demo ["a"; "b"; "c"; "d"; "e"; "f"]%string.
Definition five : heap := demo ["1"; "2"; "3"; "4"; "5"]%string.
Definition tagged : heap := demo ["b"; "a"; "b"]%string.

(** The elements of a queue in its order, by address. *)
Definition nodes (fuel : nat) (h : heap) (head : Z) : res (list Z) :=
  first ← load_next h head; walk fuel h head first.

(** * The rest of queue.c *)

(** [list_for_each_safe (node, safe, head)] with the body of [q_free]:
    [node] starts at [head->next] and [safe] at [node->next]; after the body
    [node] becomes [safe] and [safe] its next, until [node] is [head]. *)
Fixpoint free_loop (fuel : nat) (h : heap) (head node safe : Z) : res heap :=
  if decide (node = head) then Ok h
  else match fuel with
       | O => Timeout
       | S fuel =>
           h ← q_release_element h node;
           let node := safe in
           safe ← load_next h node;
           free_loop fuel h head node safe
       end.

Definition q_free (fuel : nat) (h : heap) (head : Z) : res heap :=
  if decide (head = NULL) then Ok h
  else
    node ← load_next h head;
    safe ← load_next h node;
    h ← free_loop fuel h head node safe;
    free h head.

Definition INT_MAX : Z := 2 ^ 31 - 1.

(** [list_for_each (node, head) len++;] with [len] an [int]: [node] runs
    from [head->next] along the next links until it is [head]; the
    increment of [INT_MAX] is undefined. *)
Fixpoint size_loop (fuel : nat) (h : heap) (head node : Z) (len : Z) : res Z :=
  if decide (node = head) then Ok len
  else match fuel with
       | O => Timeout
       | S fuel =>
           if decide (len = INT_MAX) then Fault
           else
             node ← load_next h node;
             size_loop fuel h head node (len + 1)
       end.

Definition q_size (fuel : nat) (h : heap) (head : Z) : res Z :=
  if decide (head = NULL) then Ok 0
  else
    node ← load_next h head;
    size_loop fuel h head node 0.

(** ** Vocabulary for the rest *)

(** [h'] is [h] without the blocks at [D]; every other block is as it was. *)
Definition freed (D : list Z) (h h' : heap) : Prop :=
  ∀ p, h' !! p = if decide (p ∈ D) then None else h !! p.

(** No two neighbours of the list have the same string. *)
Fixpoint no_twins (k : Z → string) (l : list Z) : Prop :=
  match l with
  | x :: l' =>
      match l' with
      | y :: _ => same_key k x y = false ∧ no_twins k l'
      | [] => True
      end
  | [] => True
  end.

#[global] Instance no_twins_dec k l : Decision (no_twins k l).
Proof.
  induction l as [|x l IH]; [left; exact I|].
  destruct l as [|y l]; [left; exact I|].
  simpl in *. apply and_dec; [apply _|exact IH].
Defined.

(** [q_sort] and then [q_delete_dup] returned: what is left are the
    elements whose string occurred once, with their strings, in strictly
    ascending order. *)
Definition uniques_of (h : heap) (head : Z) (ns : list Z) (r : res (heap * bool)) : Prop :=
  ∃ h' kept, r = Ok (h', true) ∧ queue h' head kept ∧
    kept ≡ₚ filter (unique_key (key h) ns) ns ∧
    contents h' kept = contents h kept ∧
    StronglySorted (λ s t, strcmp s t < 0) (contents h' kept).

(** More concrete queues. *)
Definition sorted_fruits : heap := demo ["apple"; "banana"; "cherry"]%string.
Definition mixed : heap := demo ["b"; "a"; "b"; "c"; "a"]%string.

#[global] Instance chain_dec h p l : Decision (chain h p l).
Proof. unfold chain. apply _. Defined.

#[global] Instance keyed_dec h k l : Decision (keyed h k l).
Proof.
  refine (cast_if (decide (Forall (λ p, strval h p = Ok (k p)) l)));
    unfold keyed; by rewrite <- Forall_forall.
Defined.

(** Two runs as [q_sort] hands them to [merge]: the elements of
    ["a"; "c"; "b"] cut into the chains 2, 4 and 6, each ending in NULL. *)
Definition two_runs : heap :=
  set_next (set_next (demo ["a"; "c"; "b"]%string) 4 NULL) 6 NULL.

(** * The measurements of dudect/fixture.c (src/unnamed/part_001) *)

(** A result of [int64_t] arithmetic: outside the range of the type the
    subtraction is undefined. *)
Definition int64 (z : Z) : res Z :=
  if decide (- 2 ^ 63 ≤ z < 2 ^ 63) then Ok z else Fault.

(** [for (size_t i = 0; i < n_measure; i++)
       exec_times[i] = after_ticks[i] - before_ticks[i];]
    with [count = n_measure - i] iterations to go; an index outside an array
    is a fault. *)
Fixpoint differentiate_loop (count i : nat) (exec_times before_ticks after_ticks : list Z)
  : res (list Z) :=
  match count with
  | O => Ok exec_times
  | S count =>
      a ← array_get after_ticks i;
      b ← array_get before_ticks i;
      d ← int64 (a - b);
      exec_times ← array_set exec_times i d;
      differentiate_loop count (S i) exec_times before_ticks after_ticks
  end.

Definition differentiate (n_measure : nat) (exec_times before_ticks after_ticks : list Z)
  : res (list Z) :=
  differentiate_loop n_measure 0 exec_times before_ticks after_ticks.

(** [update_statistics]; the context of the t-test and [t_push] of ttest.c
    are not part of the sources at hand and are taken as given. *)
Section statistics.
  Context {T : Type} (t_push : T → Z → Z → T).

Fixpoint update_loop (count i : nat) (t : T) (exec_times classes : list Z) : res T :=
    match count with
    | O => Ok t
    | S count =>
        difference ← array_get exec_times i;
        if decide (difference ≤ 0) then update_loop count (S i) t exec_times classes
        else
          c ← array_get classes i;
          update_loop count (S i) (t_push t difference c) exec_times classes
    end.

Definition update_statistics (n_measure : nat) (t : T) (exec_times classes : list Z)
    : res T :=
    update_loop n_measure 0 t exec_times classes.

  (** What a run of measurements pushes: the positive differences, each
      with its class, in the order of the measurements. *)
Definition pushed (t : T) (times classes : list Z) : T :=
    foldl (λ t dc, t_push t dc.1 dc.2) t (filter (λ dc, 0 < dc.1) (zip times classes)).
End statistics.

(** * Proofs *)

(** ** The monad *)

Lemma bind_Ok {A B} (m : res A) (k : A → res B) (b : B) :
  m ≫= k = Ok b ↔ ∃ a, m = Ok a ∧ k a = Ok b.
Proof.
  destruct m; simpl; split; try (intros [a' [? ?]]); try discriminate; eauto.
  congruence.
Qed.

(** ** Loads and stores *)

Lemma is_node_load h p : is_node h p ↔ ∃ l, load_node h p = Ok l.
Proof.
  unfold is_node, load_node. destruct (h !! p ≫= node_of) as [l|]; split.
  - eauto.
  - intros _. by exists l.
  - intros [? ?]. done.
  - intros [? ?]. done.
Qed.

Lemma load_next_is_node h p q : load_next h p = Ok q → is_node h p.
Proof.
  unfold load_next. intros [l [Hl _]]%bind_Ok. apply is_node_load. eauto.
Qed.

Lemma load_prev_is_node h p q : load_prev h p = Ok q → is_node h p.
Proof.
  unfold load_prev. intros [l [Hl _]]%bind_Ok. apply is_node_load. eauto.
Qed.

Lemma is_node_next h p : is_node h p → ∃ q, load_next h p = Ok q.
Proof. intros [l Hl]%is_node_load. unfold load_next. rewrite Hl. simpl. eauto. Qed.

Lemma is_node_prev h p : is_node h p → ∃ q, load_prev h p = Ok q.
Proof. intros [l Hl]%is_node_load. unfold load_prev. rewrite Hl. simpl. eauto. Qed.

Lemma is_node_lookup h p : is_node h p → is_Some (h !! p).
Proof. unfold is_node. destruct (h !! p); simpl; [eauto | intros [? ?]; done]. Qed.

Lemma node_of_with_node b l l' : node_of b = Some l → node_of (with_node b l') = Some l'.
Proof. destruct b; simpl; intros; try done. Qed.

Lemma store_next_ok h p v : is_node h p → store_next h p v = Ok (set_next h p v).
Proof. intros [l Hl]%is_node_load. unfold store_next. by rewrite Hl. Qed.

Lemma store_prev_ok h p v : is_node h p → store_prev h p v = Ok (set_prev h p v).
Proof. intros [l Hl]%is_node_load. unfold store_prev. by rewrite Hl. Qed.

Lemma lookup_set_next h p v q :
  set_next h p v !! q =
    if decide (p = q)
    then (λ b, match node_of b with
               | Some l => with_node b {| next := v; prev := prev l |}
               | None => b
               end) <$> h !! q
    else h !! q.
Proof. unfold set_next. rewrite lookup_alter. by case_decide; subst. Qed.

Lemma lookup_set_prev h p v q :
  set_prev h p v !! q =
    if decide (p = q)
    then (λ b, match node_of b with
               | Some l => with_node b {| next := next l; prev := v |}
               | None => b
               end) <$> h !! q
    else h !! q.
Proof. unfold set_prev. rewrite lookup_alter. by case_decide; subst. Qed.

Lemma load_node_set_next h p v q :
  load_node (set_next h p v) q =
    if decide (p = q) then l ← load_node h q; Ok {| next := v; prev := prev l |}
    else load_node h q.
Proof.
  unfold load_node. rewrite lookup_set_next. case_decide; [|done].
  destruct (h !! q) as [[]|]; done.
Qed.

Lemma load_node_set_prev h p v q :
  load_node (set_prev h p v) q =
    if decide (p = q) then l ← load_node h q; Ok {| next := next l; prev := v |}
    else load_node h q.
Proof.
  unfold load_node. rewrite lookup_set_prev. case_decide; [|done].
  destruct (h !! q) as [[]|]; done.
Qed.

Lemma load_next_set_next_eq h p v : is_node h p → load_next (set_next h p v) p = Ok v.
Proof.
  intros [l Hl]%is_node_load. unfold load_next. rewrite load_node_set_next.
  rewrite decide_True by done. by rewrite Hl.
Qed.

Lemma load_next_set_next_ne h p v q : p ≠ q → load_next (set_next h p v) q = load_next h q.
Proof. intros. unfold load_next. rewrite load_node_set_next. by rewrite decide_False. Qed.

Lemma load_prev_set_next h p v q : load_prev (set_next h p v) q = load_prev h q.
Proof.
  unfold load_prev. rewrite load_node_set_next. case_decide; [|done].
  destruct (load_node h q); done.
Qed.

Lemma load_prev_set_prev_eq h p v : is_node h p → load_prev (set_prev h p v) p = Ok v.
Proof.
  intros [l Hl]%is_node_load. unfold load_prev. rewrite load_node_set_prev.
  rewrite decide_True by done. by rewrite Hl.
Qed.

Lemma load_prev_set_prev_ne h p v q : p ≠ q → load_prev (set_prev h p v) q = load_prev h q.
Proof. intros. unfold load_prev. rewrite load_node_set_prev. by rewrite decide_False. Qed.

Lemma load_next_set_prev h p v q : load_next (set_prev h p v) q = load_next h q.
Proof.
  unfold load_next. rewrite load_node_set_prev. case_decide; [|done].
  destruct (load_node h q); done.
Qed.

Lemma is_node_set_next h p v q : is_node (set_next h p v) q ↔ is_node h q.
Proof.
  rewrite !is_node_load. rewrite load_node_set_next. case_decide; [|done].
  destruct (load_node h q); simpl; split; intros [? ?]; eauto; done.
Qed.

Lemma is_node_set_prev h p v q : is_node (set_prev h p v) q ↔ is_node h q.
Proof.
  rewrite !is_node_load. rewrite load_node_set_prev. case_decide; [|done].
  destruct (load_node h q); simpl; split; intros [? ?]; eauto; done.
Qed.

(** ** Frames *)

Lemma erase_with_node b l : erase (with_node b l) = erase b.
Proof. by destruct b. Qed.

Lemma erase_set_next h p v q : erase <$> set_next h p v !! q = erase <$> h !! q.
Proof.
  rewrite lookup_set_next. case_decide; [|done].
  destruct (h !! q) as [b|]; simpl; [|done].
  destruct (node_of b); [|done]. by rewrite erase_with_node.
Qed.

Lemma erase_set_prev h p v q : erase <$> set_prev h p v !! q = erase <$> h !! q.
Proof.
  rewrite lookup_set_prev. case_decide; [|done].
  destruct (h !! q) as [b|]; simpl; [|done].
  destruct (node_of b); [|done]. by rewrite erase_with_node.
Qed.

Lemma relinked_refl S h : relinked S h h.
Proof. by intros p. Qed.

Lemma relinked_trans S h1 h2 h3 :
  relinked S h1 h2 → relinked S h2 h3 → relinked S h1 h3.
Proof.
  intros H12 H23 p. destruct (H12 p) as [E1 F1], (H23 p) as [E2 F2]. split.
  - by rewrite E2.
  - intros Hp. rewrite F2, F1; done.
Qed.

Lemma relinked_mono S S' h h' : S ⊆ S' → relinked S h h' → relinked S' h h'.
Proof.
  intros Hsub H p. destruct (H p) as [E F]. split; [done|].
  intros Hp. apply F. intros Hin. apply Hp, Hsub, Hin.
Qed.

Lemma relinked_set_next S h p v : p ∈ S → relinked S h (set_next h p v).
Proof.
  intros Hp q. split; [apply erase_set_next|].
  intros Hq. rewrite lookup_set_next. rewrite decide_False; [done|]. by intros ->.
Qed.

Lemma relinked_set_prev S h p v : p ∈ S → relinked S h (set_prev h p v).
Proof.
  intros Hp q. split; [apply erase_set_prev|].
  intros Hq. rewrite lookup_set_prev. rewrite decide_False; [done|]. by intros ->.
Qed.

Lemma erase_eq_value b b' : erase b = erase b' →
  match b, b' with
  | Elem e, Elem e' => value e = value e'
  | Chars s, Chars s' => s = s'
  | Head _, Head _ => True
  | _, _ => False
  end.
Proof. destruct b, b'; simpl; unfold erase; simpl; intros; simplify_eq; done. Qed.

Lemma erase_eq_node b b' : erase b = erase b' → is_Some (node_of b) ↔ is_Some (node_of b').
Proof.
  intros H%erase_eq_value. destruct b, b'; simpl in *; try done;
    split; intros [? ?]; eauto; done.
Qed.

Section relinked.
  Context (S : list Z) (h h' : heap) (R : relinked S h h').

Lemma relinked_lookup_None p : h' !! p = None ↔ h !! p = None.
  Proof.
    destruct (R p) as [E _]. destruct (h' !! p), (h !! p); simpl in E; split; intros; done.
  Qed.

Lemma relinked_load_value p : load_value h' p = load_value h p.
  Proof.
    destruct (R p) as [E _]. unfold load_value.
    destruct (h' !! p) as [b'|], (h !! p) as [b|]; simpl in E; try done.
    injection E as E. apply erase_eq_value in E. destruct b', b; try done. by rewrite E.
  Qed.

Lemma relinked_load_chars p : load_chars h' p = load_chars h p.
  Proof.
    destruct (R p) as [E _]. unfold load_chars.
    destruct (h' !! p) as [b'|], (h !! p) as [b|]; simpl in E; try done.
    injection E as E. apply erase_eq_value in E. destruct b', b; try done. by rewrite E.
  Qed.

Lemma relinked_strval p : strval h' p = strval h p.
  Proof.
    unfold strval. rewrite relinked_load_value.
    destruct (load_value h p); simpl; [apply relinked_load_chars|done..].
  Qed.

Lemma relinked_key p : key h' p = key h p.
  Proof. unfold key. by rewrite relinked_strval. Qed.

Lemma relinked_valptr p : valptr h' p = valptr h p.
  Proof.
    destruct (R p) as [E _]. unfold valptr.
    destruct (h' !! p) as [b'|], (h !! p) as [b|]; simpl in E; try done.
    injection E as E. apply erase_eq_value in E. destruct b', b; try done.
  Qed.

Lemma relinked_is_chars p : is_chars h' p ↔ is_chars h p.
  Proof.
    destruct (R p) as [E _]. unfold is_chars.
    destruct (h' !! p) as [b'|], (h !! p) as [b|]; simpl in E; try done.
    injection E as E. apply erase_eq_value in E. destruct b', b; try done.
  Qed.

Lemma relinked_is_node p : is_node h' p ↔ is_node h p.
  Proof.
    destruct (R p) as [E _]. unfold is_node.
    destruct (h' !! p) as [b'|], (h !! p) as [b|]; simpl in E; try done.
    injection E as E. simpl. by apply erase_eq_node.
  Qed.

Lemma relinked_load_next p : p ∉ S → load_next h' p = load_next h p.
  Proof. intros Hp. destruct (R p) as [_ F]. unfold load_next, load_node. by rewrite F. Qed.

Lemma relinked_load_prev p : p ∉ S → load_prev h' p = load_prev h p.
  Proof. intros Hp. destruct (R p) as [_ F]. unfold load_prev, load_node. by rewrite F. Qed.

Lemma relinked_contents l : contents h' l = contents h l.
  Proof. unfold contents. apply list_fmap_ext. intros. apply relinked_key. Qed.
End relinked.

Lemma relinked_sym S h h' : relinked S h h' → relinked S h' h.
Proof. intros R p. destruct (R p) as [E F]. split; [done|]. intros. symmetry. auto. Qed.

(** Two heaps that differ at most in links and agree on every link are equal. *)
Lemma block_eq b b' : erase b = erase b' → node_of b = node_of b' → b = b'.
Proof.
  destruct b as [l|[v l]|s], b' as [l'|[v' l']|s']; unfold erase; simpl; intros; simplify_eq; done.
Qed.

Lemma relinked_eq S h h' :
  relinked S h h' → (∀ p, p ∈ S → load_node h' p = load_node h p) → h' = h.
Proof.
  intros R Hl. apply map_eq. intros p. destruct (R p) as [E F].
  destruct (decide (p ∈ S)) as [Hp|Hp]; [|auto].
  specialize (Hl p Hp). unfold load_node in Hl.
  destruct (h' !! p) as [b'|], (h !! p) as [b|]; simpl in *; try done.
  f_equal. injection E as E. apply block_eq; [done|].
  destruct (node_of b') eqn:E1, (node_of b) eqn:E2; try done; try congruence.
Qed.

(** ** Paths *)

Lemma fwd_cons h a b l : fwd h (a :: b :: l) ↔ load_next h a = Ok b ∧ fwd h (b :: l).
Proof. done. Qed.

Lemma bwd_cons h a b l : bwd h (a :: b :: l) ↔ load_prev h b = Ok a ∧ bwd h (b :: l).
Proof. done. Qed.

Lemma fwd_app h l1 x l2 : fwd h (l1 ++ x :: l2) ↔ fwd h (l1 ++ [x]) ∧ fwd h (x :: l2).
Proof.
  induction l1 as [|a l1 IH]; simpl.
  - tauto.
  - destruct l1 as [|b l1]; simpl in *; tauto.
Qed.

Lemma bwd_app h l1 x l2 : bwd h (l1 ++ x :: l2) ↔ bwd h (l1 ++ [x]) ∧ bwd h (x :: l2).
Proof.
  induction l1 as [|a l1 IH]; simpl.
  - tauto.
  - destruct l1 as [|b l1]; simpl in *; tauto.
Qed.

Lemma fwd_snoc_ext h h' l x :
  (∀ p, p ∈ l → load_next h' p = load_next h p) → fwd h (l ++ [x]) → fwd h' (l ++ [x]).
Proof.
  induction l as [|a l IH]; simpl; [done|]. intros Hext.
  destruct (l ++ [x]) eqn:E; [done|]. intros [H1 H2]. split.
  - rewrite Hext; [done|]. left.
  - apply IH; [|done]. intros. apply Hext. by right.
Qed.

Lemma bwd_cons_ext h h' x l :
  (∀ p, p ∈ l → load_prev h' p = load_prev h p) → bwd h (x :: l) → bwd h' (x :: l).
Proof.
  revert x. induction l as [|a l IH]; intros x Hext; simpl; [done|].
  intros [H1 H2]. split.
  - rewrite Hext; [done|]. left.
  - apply IH; [|done]. intros. apply Hext. by right.
Qed.

Lemma fwd_snoc_is_node h l x p : fwd h (l ++ [x]) → p ∈ l → is_node h p.
Proof.
  induction l as [|a l IH]; simpl; [by intros _ ?%elem_of_nil|].
  destruct (l ++ [x]) eqn:E; [by destruct l|].
  intros [H1 H2] [->|Hp]%elem_of_cons; [by eapply load_next_is_node|auto].
Qed.

Lemma bwd_cons_is_node h l x p : bwd h (x :: l) → p ∈ l → is_node h p.
Proof.
  revert x. induction l as [|a l IH]; intros x; simpl; [by intros _ ?%elem_of_nil|].
  intros [H1 H2] [->|Hp]%elem_of_cons; [by eapply load_prev_is_node|eauto].
Qed.

Lemma fwd_hd h a l d : fwd h (a :: l) → l ≠ [] → load_next h a = Ok (hd d l).
Proof. destruct l; [done|]. by intros [? _] _. Qed.

Lemma fwd_tail h a l : fwd h (a :: l) → fwd h l.
Proof. destruct l; [done|]. by intros [_ ?]. Qed.

Lemma bwd_tail h a l : bwd h (a :: l) → bwd h l.
Proof. destruct l; [done|]. by intros [_ ?]. Qed.

(** Reading a forward path backwards. *)
Lemma fwd_reverse h h' x l :
  (∀ p, p ∈ l → load_next h' p = load_prev h p) → bwd h (x :: l) → fwd h' (reverse (x :: l)).
Proof.
  revert x. induction l as [|a l IH]; intros x Hx; [done|].
  intros [H1 H2]. rewrite reverse_cons.
  assert (fwd h' (reverse (a :: l))) as IH'.
  { apply IH; [|done]. intros. apply Hx. by right. }
  rewrite reverse_cons in IH'. rewrite reverse_cons, <- (assoc_L (++)). simpl.
  apply fwd_app. split; [done|].
  simpl. split; [|done]. rewrite Hx; [done|]. left.
Qed.

Lemma bwd_reverse h h' l x :
  (∀ p, p ∈ l → load_prev h' p = load_next h p) → fwd h (l ++ [x]) → bwd h' (reverse (l ++ [x])).
Proof.
  induction l as [|a l IH]; intros Hx; [done|]. simpl.
  destruct (l ++ [x]) as [|b l'] eqn:E; [by destruct l|].
  intros [H1 H2]. rewrite reverse_cons.
  assert (bwd h' (reverse (b :: l'))) as IH'.
  { apply IH; [|done]. intros. apply Hx. by right. }
  rewrite reverse_cons in IH'. rewrite reverse_cons, <- (assoc_L (++)). simpl.
  apply bwd_app. split; [done|].
  simpl. split; [|done]. rewrite Hx; [done|]. left.
Qed.

(** ** Rings *)

Lemma ring_is_node h head ns p : ring h head ns → p ∈ head :: ns → is_node h p.
Proof.
  intros (_ & _ & F & _) Hp.
  change (head :: ns ++ [head]) with ((head :: ns) ++ [head]) in F.
  by eapply fwd_snoc_is_node.
Qed.

Lemma ring_nonnull h head ns p : ring h head ns → p ∈ head :: ns → p ≠ NULL.
Proof.
  intros R Hp ->. pose proof (ring_is_node _ _ _ _ R Hp) as [x Hx]%is_node_lookup.
  destruct R as (H0 & _). congruence.
Qed.

Lemma ring_next_head h head ns : ring h head ns → load_next h head = Ok (hd head ns).
Proof.
  intros (_ & _ & F & _). destruct ns; simpl in *; by destruct F.
Qed.

(** ** Reversal *)

Lemma swap_block_involutive b : swap_block (swap_block b) = b.
Proof. by destruct b as [[]|[? []]|]. Qed.

Lemma erase_swap_block b : erase (swap_block b) = erase b.
Proof. by destruct b as [[]|[? []]|]. Qed.

Lemma swap_node_eq h p nx pv :
  load_next h p = Ok nx → load_prev h p = Ok pv →
  set_prev (set_next h p pv) p nx = alter swap_block p h.
Proof.
  unfold load_next, load_prev, load_node. intros Hn Hp. apply map_eq. intros q.
  rewrite lookup_set_prev, lookup_set_next, lookup_alter.
  case_decide; [subst q|done].
  destruct (h !! p) as [[[]|[? []]|]|]; simpl in *; simplify_eq; done.
Qed.

Lemma exchange_cons a l h : exchange (a :: l) h = exchange l (alter swap_block a h).
Proof. done. Qed.

Lemma exchange_snoc a l h : exchange (l ++ [a]) h = alter swap_block a (exchange l h).
Proof. unfold exchange. by rewrite foldl_app. Qed.

#[global] Arguments exchange : simpl never.

Lemma lookup_exchange_notin l h p : p ∉ l → exchange l h !! p = h !! p.
Proof.
  revert h. induction l as [|a l IH]; intros h Hp; [done|]. rewrite exchange_cons.
  apply not_elem_of_cons in Hp as [? ?].
  rewrite IH by done. by rewrite lookup_alter_ne.
Qed.

Lemma lookup_exchange_in l h p :
  NoDup l → p ∈ l → exchange l h !! p = swap_block <$> h !! p.
Proof.
  revert h. induction l as [|a l IH]; intros h ND Hp; [by apply elem_of_nil in Hp|].
  apply NoDup_cons in ND as [Ha ND]. rewrite exchange_cons.
  destruct (decide (p = a)) as [->|Hne].
  - rewrite lookup_exchange_notin by done. by rewrite lookup_alter_eq.
  - apply elem_of_cons in Hp as [?|Hp]; [done|].
    rewrite IH by done. by rewrite lookup_alter_ne.
Qed.

Lemma load_next_swap_block h h' p :
  h' !! p = swap_block <$> h !! p → load_next h' p = load_prev h p.
Proof.
  unfold load_next, load_prev, load_node. intros ->.
  by destruct (h !! p) as [[[]|[? []]|]|].
Qed.

Lemma load_prev_swap_block h h' p :
  h' !! p = swap_block <$> h !! p → load_prev h' p = load_next h p.
Proof.
  unfold load_next, load_prev, load_node. intros ->.
  by destruct (h !! p) as [[[]|[? []]|]|].
Qed.

Lemma exchange_relinked l h : NoDup l → relinked l h (exchange l h).
Proof.
  intros ND p. split.
  - destruct (decide (p ∈ l)).
    + rewrite lookup_exchange_in by done. rewrite <- option_fmap_compose.
      apply option_fmap_ext. intros b. apply erase_swap_block.
    + by rewrite lookup_exchange_notin.
  - intros. by apply lookup_exchange_notin.
Qed.

Lemma exchange_exchange l l' h :
  NoDup l → NoDup l' → (∀ p, p ∈ l ↔ p ∈ l') → exchange l' (exchange l h) = h.
Proof.
  intros ND ND' Hl. apply map_eq. intros p. destruct (decide (p ∈ l)) as [Hp|Hp].
  - rewrite lookup_exchange_in; [|done|by apply Hl]. rewrite lookup_exchange_in by done.
    rewrite <- option_fmap_compose. rewrite <- (option_fmap_id (h !! p)) at 2.
    apply option_fmap_ext. intros b. apply swap_block_involutive.
  - rewrite lookup_exchange_notin; [|by rewrite <- Hl].
    by rewrite lookup_exchange_notin.
Qed.

Lemma exchange_perm l l' h :
  NoDup l → NoDup l' → (∀ p, p ∈ l ↔ p ∈ l') → exchange l h = exchange l' h.
Proof.
  intros ND ND' Hl. apply map_eq. intros p. destruct (decide (p ∈ l)) as [Hp|Hp].
  - rewrite !lookup_exchange_in; try done. by apply Hl.
  - rewrite !lookup_exchange_notin; try done. by rewrite <- Hl.
Qed.

Lemma exchange_ring h head ns :
  ring h head ns → ring (exchange (head :: ns) h) head (reverse ns).
Proof.
  intros (H0 & ND & F & B).
  assert (NULL ∉ head :: ns) as Hnull.
  { intros Hin. eapply ring_nonnull; [|exact Hin|done]. done. }
  split; [|split; [|split]].
  - by rewrite lookup_exchange_notin.
  - apply NoDup_cons. apply NoDup_cons in ND as [? ?]. split.
    + by rewrite elem_of_reverse.
    + by rewrite reverse_Permutation.
  - replace (head :: reverse ns ++ [head]) with (reverse (head :: ns ++ [head])).
    2:{ rewrite reverse_cons, reverse_app. done. }
    eapply fwd_reverse; [|exact B].
    intros p Hp. apply load_next_swap_block. apply lookup_exchange_in; [done|].
    apply elem_of_app in Hp as [?| ->%list_elem_of_singleton]; [by right|left].
  - replace (head :: reverse ns ++ [head]) with (reverse ((head :: ns) ++ [head])).
    2:{ simpl. rewrite reverse_cons, reverse_app. done. }
    eapply bwd_reverse; [|exact F].
    intros p Hp. apply load_prev_swap_block. by apply lookup_exchange_in.
Qed.

(** The [do ... while] of the second revision. *)
Lemma reverse_loop1_spec head l : ∀ node h fuel,
  NoDup (node :: l) → head ∉ l → fwd h (node :: l ++ [head]) → is_node h head →
  (length l < fuel)%nat →
  Part1.reverse_loop fuel h head node (hd head l) = Ok (exchange (node :: l) h).
Proof.
  induction l as [|x l IH]; intros node h fuel ND Hh F Nh Hf;
    (destruct fuel as [|fuel]; [simpl in Hf; lia|]); simpl.
  - destruct F as [Fn _].
    destruct (is_node_prev h node) as [pv Hpv]; [by eapply load_next_is_node|].
    rewrite Hpv. simpl. rewrite store_next_ok by (by eapply load_next_is_node). simpl.
    rewrite store_prev_ok by (apply is_node_set_next; by eapply load_next_is_node). simpl.
    rewrite (swap_node_eq _ _ head pv) by done.
    destruct (is_node_next (alter swap_block node h) head) as [y Hy].
    { eapply relinked_is_node; [|exact Nh].
      apply (exchange_relinked [node]). apply NoDup_singleton. }
    rewrite Hy. simpl. by rewrite decide_False by (by intros ?).
  - destruct F as [Fn F]. apply NoDup_cons in ND as [Hnode ND].
    destruct (is_node_prev h node) as [pv Hpv]; [by eapply load_next_is_node|].
    rewrite Hpv. simpl. rewrite store_next_ok by (by eapply load_next_is_node). simpl.
    rewrite store_prev_ok by (apply is_node_set_next; by eapply load_next_is_node). simpl.
    rewrite (swap_node_eq _ _ x pv) by done.
    assert (fwd (alter swap_block node h) (x :: l ++ [head])) as F'.
    { change (x :: l ++ [head]) with ((x :: l) ++ [head]).
      eapply fwd_snoc_ext; [|exact F]. intros p Hp.
      unfold load_next, load_node. rewrite lookup_alter_ne; [done|]. by intros ->. }
    assert (load_next (alter swap_block node h) x = Ok (hd head l)) as Hx.
    { destruct l; simpl in *; by destruct F'. }
    rewrite Hx. simpl. rewrite decide_True.
    2:{ intros ->. apply Hh. left. }
    apply IH; try done.
    + intros ?. apply Hh. by right.
    + eapply relinked_is_node; [|exact Nh].
      apply (exchange_relinked [node]). apply NoDup_singleton.
    + simpl in Hf. lia.
Qed.

(** The [list_for_each_safe] of the first revision. *)
Lemma reverse_loop0_spec head l : ∀ h fuel,
  NoDup l → head ∉ l → fwd h (l ++ [head]) → is_node h head →
  (length l ≤ fuel)%nat →
  ∀ safe, (l ≠ [] → load_next h (hd head l) = Ok safe) →
  Part0.reverse_loop fuel h head (hd head l) safe = Ok (exchange l h).
Proof.
  induction l as [|x l IH]; intros h fuel ND Hh F Nh Hf safe Hs.
  - destruct fuel; simpl; by rewrite decide_True.
  - destruct fuel as [|fuel]; [simpl in Hf; lia|].
    specialize (Hs ltac:(done)). simpl in Hs |- *.
    rewrite decide_False. 2:{ intros ->. apply Hh. left. }
    rewrite Hs. simpl.
    assert (is_node h x) as Nx by (by eapply load_next_is_node).
    destruct (is_node_prev h x) as [pv Hpv]; [done|].
    rewrite Hpv. simpl. rewrite store_next_ok by done. simpl.
    rewrite store_prev_ok by (by apply is_node_set_next). simpl.
    rewrite (swap_node_eq _ _ safe pv); [|done|done].
    apply NoDup_cons in ND as [Hx ND].
    assert (safe = hd head (l ++ [head])) as ->.
    { simpl in F. destruct (l ++ [head]) eqn:E; [by destruct l|].
      destruct F as [F _]. simpl. congruence. }
    assert (fwd (alter swap_block x h) (l ++ [head])) as F'.
    { eapply fwd_snoc_ext; [|by eapply fwd_tail]. intros p Hp.
      unfold load_next, load_node. rewrite lookup_alter_ne; [done|]. by intros ->. }
    assert (is_node (alter swap_block x h) head) as Nh'.
    { eapply relinked_is_node; [|exact Nh].
      apply (exchange_relinked [x]). apply NoDup_singleton. }
    destruct (is_node_next _ _ Nh') as [y Hy].
    replace (hd head (l ++ [head])) with (hd head l) by (by destruct l).
    assert (∃ s, load_next (alter swap_block x h) (hd head l) = Ok s) as [s Hs'].
    { destruct l as [|z l']; [by eauto|]. exists (hd head (l' ++ [head])).
      apply fwd_hd; [done|by destruct l']. }
    rewrite Hs'. simpl. apply IH; try done.
    + intros ?. apply Hh. by right.
    + simpl in Hf. lia.
Qed.

Lemma list_empty_ring h head ns :
  ring h head ns → list_empty h head = Ok (bool_decide (ns = [])).
Proof.
  intros R. unfold list_empty. rewrite (ring_next_head _ _ _ R). simpl. f_equal.
  destruct ns as [|x ns]; simpl.
  - by rewrite !bool_decide_true.
  - rewrite !bool_decide_false; [done..|].
    intros ->. destruct R as (_ & ND & _). apply NoDup_cons in ND as [ND _].
    apply ND. left.
Qed.

Lemma exchange_empty_ring h head : ring h head [] → exchange [head] h = h.
Proof.
  intros (_ & _ & [F _] & [B _]). simpl. apply alter_id. intros b Hb.
  unfold load_next, load_prev, load_node in *. rewrite Hb in *. simpl in *.
  destruct b as [[]|[? []]|]; simpl in *; simplify_eq; done.
Qed.

Lemma q_reverse1_spec h head ns fuel :
  ring h head ns → (length ns < fuel)%nat →
  Part1.q_reverse fuel h head = Ok (exchange (head :: ns) h).
Proof.
  intros R Hf. unfold Part1.q_reverse.
  rewrite decide_False by (eapply ring_nonnull; [done|left]).
  rewrite (list_empty_ring _ _ _ R). simpl.
  destruct ns as [|x ns].
  - rewrite bool_decide_true by done. f_equal. symmetry. by apply exchange_empty_ring.
  - rewrite bool_decide_false by done.
    rewrite (ring_next_head _ _ _ R). simpl.
    destruct R as (H0 & ND & F & B).
    apply (reverse_loop1_spec head (x :: ns)); try done.
    + by apply NoDup_cons in ND as [? _].
    + eapply load_next_is_node. by destruct F.
Qed.

Lemma q_reverse0_spec h head ns fuel :
  ring h head ns → (length ns ≤ fuel)%nat →
  Part0.q_reverse fuel h head = Ok (exchange (head :: ns) h).
Proof.
  intros R Hf. unfold Part0.q_reverse.
  rewrite decide_False by (eapply ring_nonnull; [done|left]).
  rewrite (list_empty_ring _ _ _ R). simpl.
  destruct ns as [|x ns].
  - rewrite bool_decide_true by done. f_equal. symmetry. by apply exchange_empty_ring.
  - rewrite bool_decide_false by done.
    rewrite (ring_next_head _ _ _ R). simpl.
    pose proof R as (H0 & ND & F & B).
    apply NoDup_cons in ND as [Hh ND].
    assert (is_node h head) as Nh by (eapply ring_is_node; [done|left]).
    assert (is_node h x) as Nx by (eapply ring_is_node; [done|right; left]).
    destruct (is_node_next _ _ Nx) as [s Hs]. rewrite Hs. simpl.
    rewrite (reverse_loop0_spec head (x :: ns) h fuel); try done.
    2:{ by eapply fwd_tail. }
    simpl.
    assert (relinked (x :: ns) h (exchange (x :: ns) h)) as Rl by (by apply exchange_relinked).
    assert (is_node (exchange (x :: ns) h) head) as Nh' by (by eapply relinked_is_node).
    destruct (is_node_next _ _ Nh') as [nx Hnx]. destruct (is_node_prev _ _ Nh') as [pv Hpv].
    rewrite Hnx, Hpv. simpl. rewrite store_next_ok by done. simpl.
    rewrite store_prev_ok by (by apply is_node_set_next). f_equal.
    rewrite (swap_node_eq _ _ nx pv) by done.
    rewrite <- exchange_snoc.
    apply exchange_perm.
    + apply NoDup_app. split; [done|]. split; [|apply NoDup_singleton].
      intros p Hp ->%list_elem_of_singleton. done.
    + by apply NoDup_cons.
    + intros p. rewrite elem_of_app, !elem_of_cons, elem_of_nil. tauto.
Qed.

(** ** Joining paths, and frames for them *)

Lemma lastd_snoc d l x : lastd d (l ++ [x]) = x.
Proof. revert d. induction l; simpl; auto. Qed.

Lemma lastd_in d l : lastd d l ∈ d :: l.
Proof.
  revert d. induction l as [|a l IH]; intros d; simpl; [left|]. right. apply IH.
Qed.

Lemma lastd_in_ne d l : l ≠ [] → lastd d l ∈ l.
Proof. destruct l; [done|]. intros _. simpl. apply lastd_in. Qed.

Lemma lastd_app d l1 x l2 : lastd d (l1 ++ x :: l2) = lastd x l2.
Proof. revert d. induction l1; simpl; auto. Qed.

Lemma hd_in (d : Z) l : hd d l ∈ l ++ [d].
Proof. destruct l; simpl; left. Qed.

Lemma hd_app_ne (d : Z) l1 l2 : l1 ≠ [] → hd d (l1 ++ l2) = hd d l1.
Proof. by destruct l1. Qed.

Lemma hd_snoc (d : Z) l : hd d (l ++ [d]) = hd d l.
Proof. by destruct l. Qed.

Lemma fwd_join h a l B d :
  B ≠ [] →
  fwd h ((a :: l) ++ B) ↔
    fwd h (a :: l) ∧ load_next h (lastd a l) = Ok (hd d B) ∧ fwd h B.
Proof.
  intros HB. revert a. induction l as [|x l IH]; intros a.
  - destruct B as [|b B]; [done|]. simpl. tauto.
  - change ((a :: x :: l) ++ B) with (a :: x :: (l ++ B)).
    rewrite fwd_cons. change (x :: l ++ B) with ((x :: l) ++ B). rewrite IH.
    rewrite fwd_cons. simpl. tauto.
Qed.

Lemma bwd_join h a l B d :
  B ≠ [] →
  bwd h ((a :: l) ++ B) ↔
    bwd h (a :: l) ∧ load_prev h (hd d B) = Ok (lastd a l) ∧ bwd h B.
Proof.
  intros HB. revert a. induction l as [|x l IH]; intros a.
  - destruct B as [|b B]; [done|]. simpl. tauto.
  - change ((a :: x :: l) ++ B) with (a :: x :: (l ++ B)).
    rewrite bwd_cons. change (x :: l ++ B) with ((x :: l) ++ B). rewrite IH.
    rewrite bwd_cons. simpl. tauto.
Qed.

(** [fwd h (a :: l)] reads the next link of every node but the last. *)
Lemma fwd_ext_nolast h h' a l :
  NoDup (a :: l) →
  (∀ p, p ∈ a :: l → p ≠ lastd a l → load_next h' p = load_next h p) →
  fwd h (a :: l) → fwd h' (a :: l).
Proof.
  revert a. induction l as [|x l IH]; intros a ND Hext; [done|].
  rewrite !fwd_cons. intros [H1 H2]. apply NoDup_cons in ND as [Ha ND]. split.
  - rewrite Hext; [done|left|]. simpl. intros E. apply Ha. rewrite E. apply lastd_in.
  - apply IH; [done| |done]. intros p Hp Hne. apply Hext; [by right|done].
Qed.

(** [bwd h (l ++ [b])] reads the prev link of every node but the first. *)
Lemma bwd_ext_nofirst h h' l b :
  NoDup (l ++ [b]) →
  (∀ p, p ∈ l ++ [b] → p ≠ hd b l → load_prev h' p = load_prev h p) →
  bwd h (l ++ [b]) → bwd h' (l ++ [b]).
Proof.
  destruct l as [|a l]; [done|]. simpl. intros ND Hext.
  apply NoDup_cons in ND as [Ha ND].
  apply bwd_cons_ext. intros p Hp. apply Hext; [by right|]. by intros ->.
Qed.

(** The two views of a ring: the closed path, and a path through distinct
    nodes with the closing links. *)
Lemma ring_open h head ns :
  ring h head ns ↔
    h !! NULL = None ∧ NoDup (head :: ns) ∧
    fwd h (head :: ns) ∧ bwd h (head :: ns) ∧
    load_next h (lastd head ns) = Ok head ∧ load_prev h head = Ok (lastd head ns).
Proof.
  unfold ring. change (head :: ns ++ [head]) with ((head :: ns) ++ [head]).
  rewrite (fwd_join _ _ _ _ head), (bwd_join _ _ _ _ head) by done. simpl.
  destruct ns; simpl; tauto.
Qed.

(** A ring is determined by the links of its nodes. *)
Lemma ring_ext h h' head ns :
  h' !! NULL = None →
  (∀ p, p ∈ head :: ns → load_next h' p = load_next h p ∧ load_prev h' p = load_prev h p) →
  ring h head ns → ring h' head ns.
Proof.
  intros H0 Hext (_ & ND & F & B). split; [done|]. split; [done|]. split.
  - change (head :: ns ++ [head]) with ((head :: ns) ++ [head]).
    eapply fwd_snoc_ext; [|exact F]. intros. by apply Hext.
  - eapply bwd_cons_ext; [|exact B]. intros p Hp. apply Hext.
    apply elem_of_app in Hp as [?|?%list_elem_of_singleton]; [by right|subst; left].
Qed.

Lemma ring_relinked S h h' head ns :
  relinked S h h' → (∀ p, p ∈ head :: ns → p ∉ S) → ring h head ns → ring h' head ns.
Proof.
  intros R Hd Hr. eapply ring_ext; [| |done].
  - rewrite (relinked_lookup_None _ _ _ R). by destruct Hr.
  - intros p Hp. split; [eapply relinked_load_next|eapply relinked_load_prev]; eauto.
Qed.

(** ** Unlinking a node: the heap after [list_del], in terms of its loads *)

Lemma ring_del_pw h h' head l1 x l2 :
  ring h head (l1 ++ x :: l2) →
  h' !! NULL = None →
  (∀ p, p ≠ x → load_next h' p =
      if decide (p = lastd head l1) then Ok (hd head l2) else load_next h p) →
  (∀ p, p ≠ x → load_prev h' p =
      if decide (p = hd head l2) then Ok (lastd head l1) else load_prev h p) →
  ring h' head (l1 ++ l2).
Proof.
  intros R H0 Hn Hp. apply ring_open in R as (_ & ND & F & B & Fc & Bc).
  pose proof (lastd_in head l1) as Hpv. pose proof (hd_in head l2) as Hnx.
  set (pv := lastd head l1) in *. set (nx := hd head l2) in *.
  change (head :: l1 ++ x :: l2) with ((head :: l1) ++ x :: l2) in *.
  apply NoDup_app in ND as (ND1 & ND12 & ND2). apply NoDup_cons in ND2 as [Hx2 ND2].
  assert (x ∉ head :: l1) as Hx1.
  { intros Hin. apply (ND12 x Hin). left. }
  assert (∀ p, p ∈ head :: l1 → p ∉ l2) as ND12'.
  { intros p Hin Hin2. apply (ND12 p Hin). by right. }
  apply (fwd_join _ _ _ _ head) in F as (F1 & Fx & F2); [|done].
  apply (bwd_join _ _ _ _ head) in B as (B1 & Bx & B2); [|done]. simpl in Fx, Bx.
  assert (pv ≠ x) as Hpvx by (intros E; apply Hx1; by rewrite <- E).
  apply ring_open. split; [done|].
  change (head :: l1 ++ l2) with ((head :: l1) ++ l2).
  assert (NoDup ((head :: l1) ++ l2)) as ND'.
  { apply NoDup_app. done. }
  split; [done|].
  assert (fwd h' (head :: l1)) as F1'.
  { eapply fwd_ext_nolast; [done| |done]. intros p Hin Hne.
    rewrite Hn by (intros ->; done). by rewrite decide_False. }
  assert (bwd h' (head :: l1)) as B1'.
  { eapply bwd_cons_ext; [|done]. intros p Hin.
    assert (p ≠ x) by (intros ->; apply Hx1; by right).
    rewrite Hp by done. rewrite decide_False; [done|].
    intros ->. apply elem_of_app in Hnx as [Hnx|Hnx%list_elem_of_singleton].
    - apply (ND12' nx); [by right|done].
    - apply NoDup_cons in ND1 as [ND1 _]. apply ND1. by rewrite <- Hnx.  }
  destruct l2 as [|y l2].
  - rewrite !app_nil_r in *. simpl in *. subst nx. fold pv.
    split; [done|]. split; [done|]. split.
    + rewrite Hn by done. by rewrite decide_True.
    + assert (head ≠ x) by (intros ->; apply Hx1; left).
      rewrite Hp by done. by rewrite decide_True.
  - simpl in nx. subst nx.
    assert (y ≠ x) as Hyx by (intros ->; apply Hx2; left).
    assert (head ≠ x) as Hhx by (intros ->; apply Hx1; left).
    assert (head ≠ y) as Hhy.
    { intros <-. apply (ND12' head); left. }
    rewrite (fwd_join _ _ _ _ head), (bwd_join _ _ _ _ head) by done. simpl hd.
    rewrite lastd_app in *. fold pv.
    apply fwd_tail in F2. apply bwd_tail in B2.
    assert (pv ∉ y :: l2) as Hpv2 by (intros ?; by apply (ND12' pv)).
    split; [split; [done|split]|split; [split; [done|split]|split]].
    + rewrite Hn by done. by rewrite decide_True.
    + eapply fwd_ext_nolast; [done| |done]. intros p Hin _.
      assert (p ≠ x) by (intros ->; done).
      rewrite Hn by done. rewrite decide_False; [done|]. by intros ->.
    + rewrite Hp by done. by rewrite decide_True.
    + eapply bwd_cons_ext; [|done]. intros p Hin.
      assert (p ≠ x) by (intros ->; apply Hx2; by right).
      rewrite Hp by done. rewrite decide_False; [done|].
      intros ->. apply NoDup_cons in ND2 as [ND2 _]. done.
    + assert (lastd y l2 ≠ x).
      { intros E. apply Hx2. rewrite <- E. apply lastd_in. }
      rewrite Hn by done. rewrite decide_False; [done|].
      intros E. apply Hpv2. rewrite <- E. apply lastd_in.
    + rewrite Hp by done. by rewrite decide_False.
Qed.

(** The links around a node of a ring. *)
Lemma ring_at h head l1 x l2 :
  ring h head (l1 ++ x :: l2) →
  load_next h x = Ok (hd head l2) ∧ load_prev h x = Ok (lastd head l1) ∧
  load_next h (lastd head l1) = Ok x ∧ load_prev h (hd head l2) = Ok x.
Proof.
  intros (_ & _ & F & B).
  replace (head :: (l1 ++ x :: l2) ++ [head])
    with ((head :: l1) ++ x :: (l2 ++ [head])) in *
    by (simpl; by rewrite <- (assoc_L (++))).
  apply (fwd_join _ _ _ _ head) in F as (_ & F1 & F2); [|done].
  apply (bwd_join _ _ _ _ head) in B as (_ & B1 & B2); [|done].
  simpl in F1, B1.
  destruct l2; simpl in *; destruct F2, B2; done.
Qed.

Lemma load_next_set_next h q v p :
  is_node h q →
  load_next (set_next h q v) p = if decide (p = q) then Ok v else load_next h p.
Proof.
  intros. case_decide; [subst; by apply load_next_set_next_eq|].
  by apply load_next_set_next_ne.
Qed.

Lemma load_prev_set_prev h q v p :
  is_node h q →
  load_prev (set_prev h q v) p = if decide (p = q) then Ok v else load_prev h p.
Proof.
  intros. case_decide; [subst; by apply load_prev_set_prev_eq|].
  by apply load_prev_set_prev_ne.
Qed.

Lemma hd_in_cons (d : Z) l : hd d l ∈ d :: l.
Proof. destruct l; simpl; [left|right; left]. Qed.

(** List membership by unfolding [++] and [::]. *)
Ltac in_solver :=
  repeat first [ rewrite elem_of_app in * | rewrite elem_of_cons in *
               | rewrite elem_of_nil in * ];
  intuition (subst; eauto 12; congruence).

(** Lists up to the associativity of [++]. *)
Ltac norm_app :=
  repeat first [ progress cbn [app] | rewrite <- (assoc_L (++)) ].

Tactic Notation "norm_app" "in" hyp(H) :=
  repeat first [ progress cbn [app] in H | rewrite <- (assoc_L (++)) in H ].

Ltac list_eq := norm_app; done.

Ltac solve_elem :=
  first [ assumption
        | apply lastd_in
        | apply hd_in_cons
        | left
        | apply elem_of_app; left; solve_elem
        | apply elem_of_app; right; solve_elem
        | right; solve_elem ].

Ltac solve_is_node :=
  repeat first [apply is_node_set_next | apply is_node_set_prev];
  first [ assumption
        | eapply load_next_is_node; eassumption
        | eapply load_prev_is_node; eassumption
        | eapply ring_is_node; [eassumption|]; solve_elem ].

Ltac heap_loads :=
  repeat first
    [ rewrite load_next_set_prev
    | rewrite load_prev_set_next
    | rewrite load_next_set_next by solve_is_node
    | rewrite load_prev_set_prev by solve_is_node ].

Lemma lookup_NULL_set_next h p v : set_next h p v !! NULL = None ↔ h !! NULL = None.
Proof. unfold set_next. apply lookup_alter_None. Qed.

Lemma lookup_NULL_set_prev h p v : set_prev h p v !! NULL = None ↔ h !! NULL = None.
Proof. unfold set_prev. apply lookup_alter_None. Qed.

Lemma list_del_spec h head l1 x l2 :
  ring h head (l1 ++ x :: l2) →
  let pv := lastd head l1 in
  let nx := hd head l2 in
  let h' := set_next (set_prev h nx pv) pv nx in
  list_del h x = Ok h' ∧ ring h' head (l1 ++ l2) ∧ relinked [pv; nx] h h'.
Proof.
  intros R pv nx h'. pose proof (ring_at _ _ _ _ _ R) as (Hn & Hp & Hpn & Hnp).
  fold pv nx in Hn, Hp, Hpn, Hnp.
  assert (is_node h pv) by solve_is_node. assert (is_node h nx) by solve_is_node.
  split; [|split].
  - unfold list_del. rewrite Hn, Hp. simpl. rewrite store_prev_ok by done. simpl.
    by rewrite store_next_ok by solve_is_node.
  - eapply ring_del_pw; [exact R| | |].
    + apply lookup_NULL_set_next, lookup_NULL_set_prev. by destruct R.
    + intros p _. unfold h'. heap_loads. done.
    + intros p _. unfold h'. heap_loads. done.
  - eapply relinked_trans.
    + apply relinked_set_prev. right. left.
    + apply relinked_set_next. left.
Qed.

(** ** Linking a node in *)

Lemma ring_ins_pw h h' head l1 x l2 :
  ring h head (l1 ++ l2) →
  x ∉ head :: l1 ++ l2 →
  h' !! NULL = None →
  (∀ p, p ≠ x → load_next h' p =
      if decide (p = lastd head l1) then Ok x else load_next h p) →
  (∀ p, p ≠ x → load_prev h' p =
      if decide (p = hd head l2) then Ok x else load_prev h p) →
  load_next h' x = Ok (hd head l2) →
  load_prev h' x = Ok (lastd head l1) →
  ring h' head (l1 ++ x :: l2).
Proof.
  intros R Hx H0 Hn Hp Hxn Hxp. apply ring_open in R as (_ & ND & F & B & Fc & Bc).
  pose proof (lastd_in head l1) as Hpv. pose proof (hd_in head l2) as Hnx.
  set (pv := lastd head l1) in *. set (nx := hd head l2) in *.
  change (head :: l1 ++ l2) with ((head :: l1) ++ l2) in *.
  assert (x ∉ head :: l1) as Hx1 by (intros ?; apply Hx, elem_of_app; by left).
  assert (x ∉ l2) as Hx2 by (intros ?; apply Hx, elem_of_app; by right).
  assert (pv ≠ x) as Hpvx by (intros E; apply Hx1; by rewrite <- E).
  assert (head ≠ x) as Hhx by (intros ->; apply Hx1; left).
  assert (nx ≠ x) as Hnxx.
  { intros E. apply elem_of_app in Hnx as [?|?%list_elem_of_singleton]; [|congruence].
    apply Hx2. by rewrite <- E. }
  pose proof ND as ND0.
  apply NoDup_app in ND as (ND1 & ND12 & ND2).
  apply ring_open. split; [done|].
  change (head :: l1 ++ x :: l2) with ((head :: l1) ++ x :: l2).
  split.
  { apply NoDup_app. split; [done|]. split.
    - intros p Hin [->|Hin2]%elem_of_cons; [done|]. by apply (ND12 p).
    - by apply NoDup_cons. }
  assert (fwd h' (head :: l1)) as F1'.
  { destruct l2.
    - rewrite app_nil_r in F. eapply fwd_ext_nolast; [done| |done]. intros p Hin Hne.
      rewrite Hn by (intros ->; done). by rewrite decide_False.
    - apply (fwd_join _ _ _ _ head) in F as (F & _); [|done].
      eapply fwd_ext_nolast; [done| |done]. intros p Hin Hne.
      rewrite Hn by (intros ->; done). by rewrite decide_False. }
  assert (bwd h' (head :: l1)) as B1'.
  { assert (bwd h (head :: l1)) as B1.
    { destruct l2; [by rewrite app_nil_r in B|].
      by apply (bwd_join _ _ _ _ head) in B as (B & _). }
    eapply bwd_cons_ext; [|done]. intros p Hin.
    assert (p ≠ x) by (intros ->; apply Hx1; by right).
    rewrite Hp by done. rewrite decide_False; [done|].
    intros ->. apply elem_of_app in Hnx as [Hnx|Hnx%list_elem_of_singleton].
    - apply (ND12 nx); [by right|done].
    - apply NoDup_cons in ND1 as [ND1 _]. apply ND1. by rewrite <- Hnx. }
  rewrite (fwd_join _ _ _ _ head), (bwd_join _ _ _ _ head) by done. simpl hd.
  rewrite lastd_app. fold pv.
  destruct l2 as [|y l2].
  - rewrite !app_nil_r in *. simpl in *. subst nx.
    split; [split; [done|split; [|done]]|split; [split; [done|split; [|done]]|split]]; try done.
    + rewrite Hn by done. by rewrite decide_True.
    + rewrite Hp by done. by rewrite decide_True.
  - simpl in nx. subst nx.
    apply (fwd_join _ _ _ _ head) in F as (_ & Fl & F2); [|done].
    apply (bwd_join _ _ _ _ head) in B as (_ & Bl & B2); [|done].
    rewrite lastd_app in *. simpl in Fl, Bl.
    assert (head ≠ y) as Hhy.
    { intros <-. apply (ND12 head); left. }
    assert (pv ∉ y :: l2) as Hpv2 by (intros ?; by apply (ND12 pv)).
    rewrite !fwd_cons, !bwd_cons.
    split; [split; [done|split; [|split; [done|]]]
           |split; [split; [done|split; [done|split]]|split]].
    + rewrite Hn by done. by rewrite decide_True.
    + eapply fwd_ext_nolast; [done| |done]. intros p Hin _.
      assert (p ≠ x) by (intros ->; done).
      rewrite Hn by done. rewrite decide_False; [done|]. by intros ->.
    + rewrite Hp by done. by rewrite decide_True.
    + eapply bwd_cons_ext; [|done]. intros p Hin.
      assert (p ≠ x) by (intros ->; apply Hx2; by right).
      rewrite Hp by done. rewrite decide_False; [done|].
      intros ->. apply NoDup_cons in ND2 as [ND2 _]. done.
    + assert (lastd y l2 ≠ x).
      { intros E. apply Hx2. rewrite <- E. apply lastd_in. }
      simpl. rewrite Hn by done. rewrite decide_False; [done|].
      intros E. apply Hpv2. rewrite <- E. apply lastd_in.
    + rewrite Hp by done. by rewrite decide_False.
Qed.

(** ** Queues under relinking *)

Lemma submseteq_NoDup (l k : list Z) : l ⊆+ k → NoDup k → NoDup l.
Proof.
  intros [k' Hk]%submseteq_Permutation ND. rewrite Hk in ND.
  by apply NoDup_app in ND as (? & _ & _).
Qed.

Lemma queue_relinked S h h' head ns ns' :
  relinked S h h' → ring h' head ns' → ns' ⊆+ ns → queue h head ns → queue h' head ns'.
Proof.
  intros R Hr Hsub (_ & NDv & Hc). split; [done|]. split.
  - rewrite (list_fmap_ext (valptr h') (valptr h) ns') by
      (intros; by apply (relinked_valptr _ _ _ R)).
    eapply submseteq_NoDup; [|exact NDv]. by apply fmap_submseteq.
  - apply Forall_forall. intros p Hp. rewrite Forall_forall in Hc.
    rewrite (relinked_valptr _ _ _ R). apply (relinked_is_chars _ _ _ R).
    apply Hc. by eapply elem_of_submseteq.
Qed.

Lemma queue_ring h head ns : queue h head ns → ring h head ns.
Proof. by intros [? _]. Qed.

Lemma queue_strval h head ns p : queue h head ns → p ∈ ns → strval h p = Ok (key h p).
Proof.
  intros ((H0 & _) & _ & Hc) Hp. rewrite Forall_forall in Hc. specialize (Hc p Hp).
  unfold key, strval, load_value, load_chars, is_chars, valptr in *.
  destruct (h !! p) as [[l|e|s]|] eqn:E; simpl in *; try (by rewrite H0 in Hc).
  destruct (h !! value e) as [[| |]|]; done.
Qed.

Lemma queue_load_value h head ns p :
  queue h head ns → p ∈ ns → load_value h p = Ok (valptr h p).
Proof.
  intros ((H0 & _) & _ & Hc) Hp. rewrite Forall_forall in Hc. specialize (Hc p Hp).
  unfold load_value, is_chars, valptr in *.
  destruct (h !! p) as [[| |]|] eqn:E; simpl; try done; by rewrite H0 in Hc.
Qed.

(** ** Removal *)

Lemma copy_out_None h e bufsize : copy_out h e None bufsize = Ok None.
Proof. done. Qed.

Lemma q_remove_NULL entry h sp bufsize : q_remove entry h NULL sp bufsize = Ok (h, NULL, sp).
Proof. done. Qed.

Lemma q_remove_empty entry h head sp bufsize :
  ring h head [] → q_remove entry h head sp bufsize = Ok (h, NULL, sp).
Proof.
  intros R. unfold q_remove.
  rewrite decide_False by (eapply ring_nonnull; [done|left]).
  rewrite (list_empty_ring _ _ _ R). by rewrite bool_decide_true.
Qed.

Lemma ring_cons_at h head x l :
  ring h head (x :: l) →
  load_next h x = Ok (hd head l) ∧ load_prev h x = Ok head ∧
  load_next h head = Ok x ∧ load_prev h (hd head l) = Ok x.
Proof. intros R. by apply (ring_at h head [] x l). Qed.

Lemma ring_snoc_at h head l x :
  ring h head (l ++ [x]) →
  load_next h x = Ok head ∧ load_prev h x = Ok (lastd head l) ∧
  load_next h (lastd head l) = Ok x ∧ load_prev h head = Ok x.
Proof. intros R. by apply (ring_at h head l x []). Qed.

(** What [q_remove_head] does to a non-empty queue. *)
Lemma q_remove_head_spec h head x ns sp bufsize :
  queue h head (x :: ns) →
  let h' := set_next (set_prev h (hd head ns) head) head (hd head ns) in
  q_remove_head h head sp bufsize =
    (sp' ← copy_out h' x sp bufsize; Ok (h', x, sp')) ∧
  queue h' head ns ∧ relinked [head; hd head ns] h h'.
Proof.
  intros Q h'. pose proof (queue_ring _ _ _ Q) as R.
  destruct (list_del_spec h head [] x ns R) as (Hd & Hr & Hl). simpl in Hd, Hr, Hl.
  split; [|split; [|done]].
  - unfold q_remove_head, q_remove.
    rewrite decide_False by (eapply ring_nonnull; [done|left]).
    rewrite (list_empty_ring _ _ _ R). rewrite bool_decide_false by done. simpl.
    destruct (ring_cons_at _ _ _ _ R) as (_ & _ & Hn & _). rewrite Hn. simpl.
    rewrite Hd. done.
  - eapply queue_relinked; [done|done| |done]. by apply submseteq_cons.
Qed.

Lemma q_remove_tail_spec h head ns x sp bufsize :
  queue h head (ns ++ [x]) →
  let h' := set_next (set_prev h head (lastd head ns)) (lastd head ns) head in
  q_remove_tail h head sp bufsize =
    (sp' ← copy_out h' x sp bufsize; Ok (h', x, sp')) ∧
  queue h' head ns ∧ relinked [lastd head ns; head] h h'.
Proof.
  intros Q h'. pose proof (queue_ring _ _ _ Q) as R.
  destruct (list_del_spec h head ns x [] R) as (Hd & Hr & Hl). simpl in Hd, Hr, Hl.
  rewrite app_nil_r in Hr.
  split; [|split; [|done]].
  - unfold q_remove_tail, q_remove.
    rewrite decide_False by (eapply ring_nonnull; [done|left]).
    rewrite (list_empty_ring _ _ _ R). rewrite bool_decide_false by (by destruct ns). simpl.
    destruct (ring_snoc_at _ _ _ _ R) as (_ & _ & _ & Hp). rewrite Hp. simpl.
    rewrite Hd. done.
  - eapply queue_relinked; [done|done| |done]. by apply submseteq_inserts_r.
Qed.

(** The copy into the caller's buffer. *)
Lemma strncpy_ok dst src n :
  0 ≤ n ≤ Z.of_nat (length dst) →
  strncpy dst src n =
    Ok (take (Z.to_nat n) (list_ascii_of_string (c_str src))
        ++ replicate (Z.to_nat n - length (list_ascii_of_string (c_str src)))%nat NUL
        ++ drop (Z.to_nat n) dst).
Proof. intros. unfold strncpy. rewrite decide_False by lia. done. Qed.

Lemma strncpy_length dst src n dst' :
  0 ≤ n → strncpy dst src n = Ok dst' → length dst' = length dst.
Proof.
  unfold strncpy. intros Hn. case_decide; [done|]. intros [= <-].
  rewrite !length_app, length_take, length_replicate, length_drop. lia.
Qed.

(** ** Insertion *)

Lemma list_add_spec h head ns x :
  ring h head ns → is_node h x → x ∉ head :: ns →
  let nx := hd head ns in
  let h' := set_next (set_prev (set_next (set_prev h nx x) x nx) x head) head x in
  list_add h x head = Ok h' ∧ ring h' head (x :: ns) ∧ relinked (x :: head :: ns) h h'.
Proof.
  intros R Nx Hx nx h'.
  assert (is_node h head) by solve_is_node.
  assert (nx ∈ head :: ns) as Hnx.
  { unfold nx. destruct ns; simpl; [left|right; left]. }
  assert (is_node h nx) by solve_is_node.
  split; [|split].
  - unfold list_add. rewrite (ring_next_head _ _ _ R). simpl. fold nx.
    rewrite store_prev_ok by done. simpl.
    rewrite store_next_ok by solve_is_node. simpl.
    rewrite store_prev_ok by solve_is_node. simpl.
    by rewrite store_next_ok by solve_is_node.
  - apply (ring_ins_pw h h' head [] x ns); try done.
    + unfold h'. rewrite lookup_NULL_set_next, lookup_NULL_set_prev,
        lookup_NULL_set_next, lookup_NULL_set_prev. by destruct R.
    + intros p Hp. unfold h'. heap_loads. simpl. repeat case_decide; done.
    + intros p Hp. unfold h'. heap_loads. fold nx. repeat case_decide; done.
    + unfold h'. heap_loads. fold nx. rewrite decide_False.
      2:{ intros ->. apply Hx. left. }
      by rewrite decide_True.
    + unfold h'. heap_loads. simpl. by rewrite decide_True.
  - unfold h'.
    eapply relinked_trans; [|apply relinked_set_next; right; left].
    eapply relinked_trans; [|apply relinked_set_prev; left].
    eapply relinked_trans; [|apply relinked_set_next; left].
    apply relinked_set_prev. by right.
Qed.

Lemma list_add_tail_spec h head ns x :
  ring h head ns → is_node h x → x ∉ head :: ns →
  let pv := lastd head ns in
  let h' := set_prev (set_prev (set_next (set_next h pv x) x head) x pv) head x in
  list_add_tail h x head = Ok h' ∧ ring h' head (ns ++ [x]) ∧
  relinked (x :: head :: ns) h h'.
Proof.
  intros R Nx Hx pv h'.
  assert (is_node h head) by solve_is_node.
  assert (pv ∈ head :: ns) as Hpv by apply lastd_in.
  assert (is_node h pv) by solve_is_node.
  assert (load_prev h head = Ok pv) as Hph.
  { by apply ring_open in R as (_ & _ & _ & _ & _ & ?). }
  split; [|split].
  - unfold list_add_tail. rewrite Hph. simpl.
    rewrite store_next_ok by done. simpl.
    rewrite store_next_ok by solve_is_node. simpl.
    rewrite store_prev_ok by solve_is_node. simpl.
    by rewrite store_prev_ok by solve_is_node.
  - apply (ring_ins_pw h h' head ns x []); try done.
    + by rewrite app_nil_r.
    + by rewrite app_nil_r.
    + unfold h'. rewrite !lookup_NULL_set_prev, !lookup_NULL_set_next. by destruct R.
    + intros p Hp. unfold h'. heap_loads. fold pv. repeat case_decide; done.
    + intros p Hp. unfold h'. heap_loads. simpl. repeat case_decide; done.
    + unfold h'. heap_loads. simpl. rewrite decide_True by done. done.
    + unfold h'. heap_loads. rewrite decide_False.
      2:{ intros ->. apply Hx. left. }
      by rewrite decide_True.
  - unfold h'.
    eapply relinked_trans; [|apply relinked_set_prev; right; left].
    eapply relinked_trans; [|apply relinked_set_prev; left].
    eapply relinked_trans; [|apply relinked_set_next; left].
    apply relinked_set_next. by right.
Qed.

(** Fresh blocks do not disturb a queue. *)
Lemma ring_insert_fresh h head ns k b :
  h !! k = None → k ≠ NULL → ring h head ns → ring (<[k := b]> h) head ns.
Proof.
  intros Hk Hk0 R. eapply ring_ext; [| |exact R].
  - rewrite lookup_insert_ne by done. by destruct R.
  - intros p Hp. assert (k ≠ p).
    { intros ->. pose proof (ring_is_node _ _ _ _ R Hp) as [? ?]%is_node_lookup. congruence. }
    unfold load_next, load_prev, load_node. by rewrite lookup_insert_ne.
Qed.

Lemma ring_insert_elem h head ns k e e' :
  h !! k = Some (Elem e) → k ∉ head :: ns → links e' = links e →
  ring h head ns → ring (<[k := Elem e']> h) head ns.
Proof.
  intros Hk Hkn Hl R. eapply ring_ext; [| |exact R].
  - rewrite lookup_insert_ne; [by destruct R|]. intros E. destruct R as (H0 & _). congruence.
  - intros p Hp. assert (k ≠ p) by (by intros ->).
    unfold load_next, load_prev, load_node. by rewrite lookup_insert_ne.
Qed.

Lemma q_insert_fail link h head s pick_e pick_s :
  head = NULL ∨ ¬ alloc_ok h pick_e pick_s →
  q_insert link h head s pick_e pick_s = Ok (h, false).
Proof.
  intros Hf. unfold q_insert. case_decide as Hh; [done|].
  destruct Hf as [?|Hf]; [done|].
  unfold malloc at 1. case_decide as He; [by rewrite decide_True|].
  destruct (h !! pick_e) eqn:Ee; [by rewrite decide_True|].
  rewrite decide_False by done.
  assert (pick_s = NULL ∨ pick_s = pick_e ∨ is_Some (h !! pick_s)) as Hs.
  { destruct (decide (pick_s = NULL)); [by left|]. right.
    destruct (decide (pick_s = pick_e)); [by left|]. right.
    destruct (h !! pick_s) eqn:Es; [by eauto|]. destruct Hf. done. }
  assert (strdup (<[pick_e:=blank_element]> h) pick_s s = (<[pick_e:=blank_element]> h, NULL)) as ->.
  { unfold strdup, malloc. case_decide; [done|].
    destruct Hs as [?|[->|[b Hb]]]; [done| |].
    - by rewrite lookup_insert_eq.
    - rewrite lookup_insert_ne by congruence. by rewrite Hb. }
  unfold store_value. rewrite lookup_insert_eq. simpl.
  unfold free. rewrite decide_False by done.
  rewrite lookup_insert_eq. simpl. rewrite insert_insert_eq.
  rewrite delete_insert_eq. by rewrite delete_id.
Qed.

Lemma inserted_lookup_ne h pe ps s p :
  p ≠ pe → p ≠ ps → inserted h pe ps s !! p = h !! p.
Proof. intros. unfold inserted. by rewrite !lookup_insert_ne. Qed.

Lemma q_insert_ok link (put : Z → list Z → list Z) h head ns s pe ps :
  (∀ h x, ring h head ns → is_node h x → x ∉ head :: ns →
     ∃ h', link h x head = Ok h' ∧ ring h' head (put x ns) ∧
           relinked (x :: head :: ns) h h') →
  put pe ns ≡ₚ pe :: ns →
  queue h head ns → alloc_ok h pe ps →
  ∃ h', q_insert link h head s pe ps = Ok (h', true) ∧
        queue h' head (put pe ns) ∧
        relinked (pe :: head :: ns) (inserted h pe ps s) h' ∧
        valptr h' pe = ps ∧ load_chars h' ps = Ok (c_str s).
Proof.
  intros Hlink Hput Q (He & Hs & Hes & Ee & Es).
  pose proof (queue_ring _ _ _ Q) as R.
  assert (pe ∉ head :: ns) as Hpe.
  { intros Hin. pose proof (ring_is_node _ _ _ _ R Hin) as [? ?]%is_node_lookup. congruence. }
  assert (ps ∉ head :: ns) as Hps.
  { intros Hin. pose proof (ring_is_node _ _ _ _ R Hin) as [? ?]%is_node_lookup. congruence. }
  assert (ring (inserted h pe ps s) head ns) as R2.
  { unfold inserted. apply ring_insert_fresh; [by rewrite lookup_insert_ne|done|].
    by apply ring_insert_fresh. }
  assert (is_node (inserted h pe ps s) pe) as Npe.
  { unfold is_node, inserted. rewrite lookup_insert_eq. simpl. eauto. }
  destruct (Hlink _ _ R2 Npe Hpe) as (h' & Hl & R' & Rl).
  exists h'. split; [|split; [|split; [done|]]].
  - unfold q_insert. rewrite decide_False by (eapply ring_nonnull; [done|left]).
    unfold malloc at 1. rewrite decide_False by done. rewrite Ee.
    rewrite decide_False by done.
    unfold strdup, malloc. rewrite decide_False by done.
    rewrite lookup_insert_ne by done. rewrite Es.
    unfold store_value. rewrite lookup_insert_ne by done. rewrite lookup_insert_eq. simpl.
    rewrite decide_False by done.
    rewrite (insert_insert_ne _ pe ps) by done. rewrite insert_insert_eq.
    rewrite (insert_insert_ne _ ps pe) by done.
    fold (inserted h pe ps s). by rewrite Hl.
  - split; [done|].
    assert (∀ p, p ∈ ns → valptr h' p = valptr h p) as Hv.
    { intros p Hp. rewrite (relinked_valptr _ _ _ Rl). unfold valptr.
      rewrite inserted_lookup_ne; [done| |]; intros ->; [apply Hpe|apply Hps]; by right. }
    assert (valptr h' pe = ps) as Hvpe.
    { rewrite (relinked_valptr _ _ _ Rl). unfold valptr, inserted. by rewrite lookup_insert_eq. }
    destruct Q as (_ & NDv & Hc). rewrite Forall_forall in Hc.
    assert (ps ∉ valptr h <$> ns) as Hpv.
    { intros (p & -> & Hp)%list_elem_of_fmap. specialize (Hc p Hp).
      unfold is_chars in Hc. by rewrite Es in Hc. }
    split.
    + rewrite Hput. rewrite fmap_cons. rewrite Hvpe.
      rewrite (list_fmap_ext (valptr h') (valptr h) ns) by (intros; apply Hv; by eapply list_elem_of_lookup_2).
      by apply NoDup_cons.
    + apply Forall_forall. intros p Hp. rewrite Hput in Hp.
      apply (relinked_is_chars _ _ _ Rl).
      apply elem_of_cons in Hp as [->|Hp].
      * rewrite Hvpe. unfold is_chars, inserted.
        rewrite lookup_insert_ne by done. by rewrite lookup_insert_eq.
      * rewrite Hv by done. specialize (Hc p Hp). unfold is_chars in *.
        rewrite inserted_lookup_ne; [done| |].
        -- intros E. rewrite E, Ee in Hc. done.
        -- intros E. rewrite E, Es in Hc. done.
  - split.
    + rewrite (relinked_valptr _ _ _ Rl). unfold valptr, inserted. by rewrite lookup_insert_eq.
    + rewrite (relinked_load_chars _ _ _ Rl). unfold load_chars, inserted.
      rewrite lookup_insert_ne by done. by rewrite lookup_insert_eq.
Qed.

Lemma q_insert_head_ok h head ns s pe ps :
  queue h head ns → alloc_ok h pe ps →
  ∃ h', q_insert_head h head s pe ps = Ok (h', true) ∧
        queue h' head (pe :: ns) ∧
        relinked (pe :: head :: ns) (inserted h pe ps s) h' ∧
        valptr h' pe = ps ∧ load_chars h' ps = Ok (c_str s).
Proof.
  intros Q A. apply (q_insert_ok list_add (λ x l, x :: l)); try done.
  intros h0 x R N Hx. destruct (list_add_spec h0 head ns x R N Hx) as (? & ? & ?). eauto.
Qed.

Lemma q_insert_tail_ok h head ns s pe ps :
  queue h head ns → alloc_ok h pe ps →
  ∃ h', q_insert_tail h head s pe ps = Ok (h', true) ∧
        queue h' head (ns ++ [pe]) ∧
        relinked (pe :: head :: ns) (inserted h pe ps s) h' ∧
        valptr h' pe = ps ∧ load_chars h' ps = Ok (c_str s).
Proof.
  intros Q A. apply (q_insert_ok list_add_tail (λ x l, l ++ [x])); try done.
  - intros h0 x R N Hx.
    destruct (list_add_tail_spec h0 head ns x R N Hx) as (? & ? & ?). eauto.
  - by rewrite Permutation_app_comm.
Qed.

(** ** Releasing an element *)

Lemma payload_relinked S h h' ns ns' :
  relinked S h h' → ns' ⊆+ ns → payload h ns → payload h' ns'.
Proof.
  intros R Hsub (NDv & Hc). split.
  - rewrite (list_fmap_ext (valptr h') (valptr h) ns') by
      (intros; by apply (relinked_valptr _ _ _ R)).
    eapply submseteq_NoDup; [|exact NDv]. by apply fmap_submseteq.
  - apply Forall_forall. intros p Hp. rewrite Forall_forall in Hc.
    rewrite (relinked_valptr _ _ _ R). apply (relinked_is_chars _ _ _ R).
    apply Hc. by eapply elem_of_submseteq.
Qed.

Lemma is_chars_not_node h v : is_chars h v → ¬ is_node h v.
Proof.
  unfold is_chars, is_node. destruct (h !! v) as [[| |]|]; simpl; try done.
Qed.

Lemma is_chars_elem h p : h !! NULL = None → is_chars h (valptr h p) →
  ∃ e, h !! p = Some (Elem e) ∧ valptr h p = value e ∧ value e ≠ NULL.
Proof.
  unfold is_chars, valptr. intros H0.
  destruct (h !! p) as [[| |]|] eqn:E; try (by rewrite H0).
  intros Hc. exists e. split; [done|]. split; [done|]. intros Hv. by rewrite Hv, H0 in Hc.
Qed.

Lemma q_release_element_spec h head ns x :
  ring h head ns → payload h (x :: ns) → x ∉ head :: ns →
  let h' := delete x (delete (valptr h x) h) in
  q_release_element h x = Ok h' ∧ queue h' head ns.
Proof.
  intros R (NDv & Hc) Hx h'. pose proof R as (H0 & _).
  apply Forall_cons in Hc as [Hcx Hc]. rewrite fmap_cons in NDv.
  apply NoDup_cons in NDv as [Hvx NDv].
  destruct (is_chars_elem _ _ H0 Hcx) as (e & He & Hv & Hv0).
  assert (x ≠ NULL) as Hx0 by (intros ->; congruence).
  assert (valptr h x ≠ x) as Hvx'.
  { intros E. rewrite E in Hcx. unfold is_chars in Hcx. by rewrite He in Hcx. }
  assert (h' !! NULL = None) as H0'.
  { unfold h'. rewrite !lookup_delete_ne by congruence. done. }
  rewrite Forall_forall in Hc.
  assert (∀ p, p ∈ head :: ns → h' !! p = h !! p) as Hsame.
  { intros p Hp. unfold h'. rewrite !lookup_delete_ne; [done| |].
    - intros E. pose proof (ring_is_node _ _ _ _ R Hp) as N.
      rewrite <- E in N. by apply (is_chars_not_node _ _ Hcx).
    - by intros ->. }
  split; [|split; [|split]].
  - unfold q_release_element, load_value. rewrite He. simpl. rewrite <- Hv.
    unfold free. rewrite decide_False by congruence.
    assert (is_Some (h !! valptr h x)) as [b Hb].
    { unfold is_chars in Hcx. destruct (h !! valptr h x); [eauto|done]. }
    rewrite Hb. simpl. rewrite decide_False by done.
    rewrite lookup_delete_ne by done. by rewrite He.
  - eapply ring_ext; [done| |exact R]. intros p Hp.
    unfold load_next, load_prev, load_node. by rewrite Hsame.
  - rewrite (list_fmap_ext (valptr h') (valptr h) ns); [done|].
    intros i p Hp. unfold valptr. rewrite Hsame; [done|].
    right. by eapply list_elem_of_lookup_2.
  - apply Forall_forall. intros p Hp.
    assert (valptr h' p = valptr h p) as ->.
    { unfold valptr. rewrite Hsame; [done|by right]. }
    specialize (Hc p Hp). unfold is_chars in *. unfold h'.
    rewrite !lookup_delete_ne; [done| |].
    + intros E. apply Hvx. rewrite E. by apply list_elem_of_fmap_2.
    + intros E. rewrite <- E, He in Hc. done.
Qed.

(** ** Deleting the middle element *)

Lemma ring_prev_hd h head l1 l2 :
  ring h head (l1 ++ l2) → load_prev h (hd head l2) = Ok (lastd head l1).
Proof.
  intros R. destruct l2 as [|x l2].
  - rewrite app_nil_r in R. by apply ring_open in R as (_ & _ & _ & _ & _ & ?).
  - by apply ring_at in R as (_ & ? & _ & _).
Qed.

Lemma ring_next_last h head l1 l2 :
  ring h head (l1 ++ l2) → load_next h (lastd head l1) = Ok (hd head l2).
Proof.
  intros R. destruct l2 as [|x l2].
  - rewrite app_nil_r in R. by apply ring_open in R as (_ & _ & _ & _ & ? & _).
  - by apply ring_at in R as (_ & _ & ? & _).
Qed.

Lemma snoc_destruct (l : list Z) : l = [] ∨ ∃ l' a, l = l' ++ [a].
Proof. induction l using rev_ind; [by left|right; eauto]. Qed.

Lemma ring_NoDup h head ns : ring h head ns → NoDup (head :: ns).
Proof. by intros (_ & ? & _). Qed.

Lemma NoDup_app_cons_ne (l1 : list Z) x l2 y :
  NoDup (l1 ++ x :: l2) → y ∈ l1 ++ l2 → x ≠ y.
Proof.
  intros ND Hy ->. apply NoDup_app in ND as (_ & H1 & H2).
  apply NoDup_cons in H2 as [H2 _].
  apply elem_of_app in Hy as [?|?]; [|done]. apply (H1 y); [done|left].
Qed.

Lemma mid_loop0_spec h head n : ∀ M A B fuel,
  length M = n →
  ring h head (A ++ M ++ B) →
  (length M ≤ fuel)%nat →
  Part0.mid_loop fuel h (hd (hd head B) M) (hd head B)
    = Ok (nth (length M / 2) (M ++ B ++ [head]) head).
Proof.
  induction n as [n IH] using lt_wf_ind. intros M A B fuel Hlen R Hf.
  pose proof (ring_NoDup _ _ _ R) as ND.
  destruct M as [|m1 M1].
  { simpl. destruct fuel; simpl; rewrite decide_True by done; f_equal; by destruct B. }
  destruct fuel as [|fuel]; [simpl in Hf; lia|].
  assert (m1 ≠ hd head B) as Hne.
  { apply (NoDup_app_cons_ne (head :: A) m1 (M1 ++ B)); [done|].
    destruct B; simpl; in_solver. }
  remember (nth (length (m1 :: M1) / 2) ((m1 :: M1) ++ B ++ [head]) head) as r eqn:Hr.
  simpl hd. simpl Part0.mid_loop. rewrite decide_False by done.
  rewrite (ring_prev_hd h head (A ++ m1 :: M1) B) by (by norm_app).
  simpl. rewrite lastd_app.
  destruct (snoc_destruct M1) as [->|(M' & m2 & ->)].
  { simpl. rewrite decide_True by done. by subst r. }
  rewrite lastd_snoc. norm_app in R. norm_app in ND.
  assert (m1 ≠ m2) as Hne2.
  { apply (NoDup_app_cons_ne (head :: A) m1 (M' ++ m2 :: B)); [done|]. in_solver. }
  rewrite decide_False by done.
  destruct (ring_at h head A m1 (M' ++ m2 :: B) R) as (Hn & _). rewrite Hn. simpl.
  replace (hd head (M' ++ m2 :: B)) with (hd (hd head (m2 :: B)) M') by (by destruct M').
  rewrite (IH (length M') ltac:(simpl in Hlen; rewrite length_app in Hlen; simpl in Hlen; lia)
             M' (A ++ [m1]) (m2 :: B)); try done.
  - f_equal. subst r.
    replace (length (m1 :: M' ++ [m2])) with (1 * 2 + length M')%nat
      by (simpl; rewrite length_app; simpl; lia).
    rewrite Nat.div_add_l by lia.
    generalize (length M' / 2)%nat. intros k. cbn [Nat.add nth app]. f_equal. list_eq.
  - by norm_app.
  - simpl in Hf. rewrite length_app in Hf. simpl in Hf. lia.
Qed.

Lemma mid_loop1_spec h head n : ∀ M A B fuel,
  length M = n →
  ring h head (A ++ M ++ B) →
  (length M < fuel)%nat →
  Part1.mid_loop fuel h (lastd head A) (hd head B)
    = Ok (nth (length M / 2) (M ++ B ++ [head]) head).
Proof.
  induction n as [n IH] using lt_wf_ind. intros M A B fuel Hlen R Hf.
  pose proof (ring_NoDup _ _ _ R) as ND.
  destruct fuel as [|fuel]; [lia|].
  remember (nth (length M / 2) (M ++ B ++ [head]) head) as r eqn:Hr.
  simpl Part1.mid_loop. rewrite (ring_next_last _ _ _ _ R). simpl.
  destruct M as [|m1 M1].
  { simpl. rewrite decide_True by done. subst r. f_equal. by destruct B. }
  simpl hd.
  assert (m1 ≠ hd head B) as Hne.
  { apply (NoDup_app_cons_ne (head :: A) m1 (M1 ++ B)); [done|].
    destruct B; simpl; in_solver. }
  rewrite decide_False by done.
  rewrite (ring_prev_hd h head (A ++ m1 :: M1) B) by (by norm_app).
  simpl. rewrite lastd_app.
  destruct (snoc_destruct M1) as [->|(M' & m2 & ->)].
  { simpl. rewrite decide_False by (by intros ?). by subst r. }
  rewrite lastd_snoc. norm_app in R. norm_app in ND.
  assert (m1 ≠ m2) as Hne2.
  { apply (NoDup_app_cons_ne (head :: A) m1 (M' ++ m2 :: B)); [done|]. in_solver. }
  rewrite decide_True by done.
  replace m1 with (lastd head (A ++ [m1])) at 1 by apply lastd_snoc.
  change m2 with (hd head (m2 :: B)) at 1.
  rewrite (IH (length M') ltac:(simpl in Hlen; rewrite length_app in Hlen; simpl in Hlen; lia)
             M' (A ++ [m1]) (m2 :: B)); try done.
  - f_equal. subst r.
    replace (length (m1 :: M' ++ [m2])) with (1 * 2 + length M')%nat
      by (simpl; rewrite length_app; simpl; lia).
    rewrite Nat.div_add_l by lia.
    generalize (length M' / 2)%nat. intros k. cbn [Nat.add nth app]. f_equal. list_eq.
  - by norm_app.
  - simpl in Hf. rewrite length_app in Hf. simpl in Hf. lia.
Qed.

Lemma relinked_delete S h h' k : relinked S h h' → relinked S (delete k h) (delete k h').
Proof.
  intros R p. destruct (R p) as [E F]. rewrite !lookup_delete. case_decide; [done|]. done.
Qed.

Lemma div2_lt n : (0 < n → n / 2 < n)%nat.
Proof. intros. apply Nat.div_lt; lia. Qed.

(** Both revisions unlink and release the element at index [n / 2]. *)
Lemma delete_mid_finish h head ns x :
  queue h head ns → ns !! (length ns / 2)%nat = Some x →
  ∃ h', (h1 ← list_del h x; h2 ← q_release_element h1 x; Ok (h2, true)) = Ok (h', true) ∧
        queue h' head (delete (length ns / 2)%nat ns) ∧
        relinked (head :: ns) (released h [x] h) h'.
Proof.
  intros Q Hx. pose proof (queue_ring _ _ _ Q) as R.
  set (i := (length ns / 2)%nat) in *.
  pose proof (take_drop_middle _ _ _ Hx) as Hns.
  rewrite delete_take_drop. set (l1 := take i ns) in *. set (l2 := drop (S i) ns) in *.
  rewrite <- Hns in R.
  destruct (list_del_spec h head l1 x l2 R) as (Hd & R1 & Rl).
  set (h1 := set_next _ _ _) in *.
  assert (payload h1 (x :: l1 ++ l2)) as P1.
  { destruct Q as [_ P]. eapply payload_relinked; [done| |done].
    rewrite <- Hns. by rewrite Permutation_middle. }
  assert (x ∉ head :: l1 ++ l2) as Hxn.
  { pose proof (ring_NoDup _ _ _ R) as ND.
    intros Hin. by apply (NoDup_app_cons_ne (head :: l1) x l2 x ND). }
  destruct (q_release_element_spec h1 head (l1 ++ l2) x R1 P1 Hxn) as (Hr & Q').
  eexists. split; [|split].
  - rewrite Hd. simpl. rewrite Hr. done.
  - done.
  - simpl. rewrite (relinked_valptr _ _ _ Rl).
    apply relinked_delete, relinked_delete. eapply relinked_mono; [|done].
    intros p [->|[->|?%elem_of_nil]%elem_of_cons]%elem_of_cons; [| |done].
    + rewrite <- Hns. change (head :: l1 ++ x :: l2) with ((head :: l1) ++ x :: l2).
      apply elem_of_app. left. apply lastd_in.
    + rewrite <- Hns. generalize l1 l2. clear. intros l1 l2.
      pose proof (hd_in head l2). in_solver.
Qed.

Lemma nth_middle_lookup (ns : list Z) head :
  ns ≠ [] →
  ∃ x, ns !! (length ns / 2)%nat = Some x ∧
       nth (length ns / 2) (ns ++ [] ++ [head]) head = x.
Proof.
  intros Hne. assert (length ns / 2 < length ns)%nat as Hlt.
  { apply div2_lt. destruct ns; [done|simpl; lia]. }
  destruct (lookup_lt_is_Some_2 ns _ Hlt) as [x Hx]. exists x. split; [done|].
  rewrite nth_lookup. cbn [app]. rewrite lookup_app_l by done. by rewrite Hx.
Qed.

Lemma q_delete_mid0_spec h head ns fuel :
  queue h head ns → ns ≠ [] → (length ns ≤ fuel)%nat →
  ∃ h' x, ns !! (length ns / 2)%nat = Some x ∧
          Part0.q_delete_mid fuel h head = Ok (h', true) ∧
          queue h' head (delete (length ns / 2)%nat ns) ∧
          relinked (head :: ns) (released h [x] h) h'.
Proof.
  intros Q Hne Hf. pose proof (queue_ring _ _ _ Q) as R.
  destruct (nth_middle_lookup ns head Hne) as (x & Hx & Hnth).
  destruct (delete_mid_finish _ _ _ _ Q Hx) as (h' & Hfin & Q' & Rl).
  exists h', x. split; [done|]. split; [|done].
  unfold Part0.q_delete_mid.
  rewrite decide_False by (eapply ring_nonnull; [done|left]).
  rewrite (list_empty_ring _ _ _ R). rewrite bool_decide_false by done. simpl.
  rewrite (ring_next_head _ _ _ R). simpl.
  pose proof (mid_loop0_spec h head (length ns) ns [] [] fuel eq_refl) as Hm.
  simpl in Hm. rewrite app_nil_r in Hm. rewrite (Hm R Hf). simpl.
  simpl in Hnth. rewrite Hnth. exact Hfin.
Qed.

Lemma q_delete_mid1_spec h head ns fuel :
  queue h head ns → ns ≠ [] → (length ns < fuel)%nat →
  ∃ h' x, ns !! (length ns / 2)%nat = Some x ∧
          Part1.q_delete_mid fuel h head = Ok (h', true) ∧
          queue h' head (delete (length ns / 2)%nat ns) ∧
          relinked (head :: ns) (released h [x] h) h'.
Proof.
  intros Q Hne Hf. pose proof (queue_ring _ _ _ Q) as R.
  destruct (nth_middle_lookup ns head Hne) as (x & Hx & Hnth).
  destruct (delete_mid_finish _ _ _ _ Q Hx) as (h' & Hfin & Q' & Rl).
  exists h', x. split; [done|]. split; [|done].
  unfold Part1.q_delete_mid.
  rewrite decide_False by (eapply ring_nonnull; [done|left]).
  rewrite (list_empty_ring _ _ _ R). rewrite bool_decide_false by done. simpl.
  pose proof (mid_loop1_spec h head (length ns) ns [] [] fuel eq_refl) as Hm.
  simpl in Hm. rewrite app_nil_r in Hm. rewrite (Hm R Hf). simpl.
  simpl in Hnth. rewrite Hnth. exact Hfin.
Qed.

Lemma q_delete_mid_none h head :
  head = NULL ∨ ring h head [] →
  ∀ fuel, Part0.q_delete_mid fuel h head = Ok (h, false) ∧
          Part1.q_delete_mid fuel h head = Ok (h, false).
Proof.
  intros [->|R] fuel.
  { unfold Part0.q_delete_mid, Part1.q_delete_mid. by rewrite !decide_True by done. }
  unfold Part0.q_delete_mid, Part1.q_delete_mid.
  rewrite !decide_False by (eapply ring_nonnull; [done|left]).
  rewrite (list_empty_ring _ _ _ R). by rewrite bool_decide_true.
Qed.

(** ** Pairwise swap *)

Lemma ring_swap_pw h h' head l1 a b l2 :
  ring h head (l1 ++ a :: b :: l2) →
  h' !! NULL = None →
  (∀ p, p ≠ a → load_next h' p =
      if decide (p = b) then Ok a
      else if decide (p = lastd head l1) then Ok b else load_next h p) →
  (∀ p, p ≠ a → load_prev h' p =
      if decide (p = hd head l2) then Ok a
      else if decide (p = b) then Ok (lastd head l1) else load_prev h p) →
  load_next h' a = Ok (hd head l2) →
  load_prev h' a = Ok b →
  ring h' head (l1 ++ b :: a :: l2).
Proof.
  intros R H0 Hn Hp Han Hap.
  destruct (list_del_spec h head l1 a (b :: l2) R) as (_ & R1 & _).
  simpl hd in R1. set (pv := lastd head l1) in *.
  set (h1 := set_next (set_prev h b pv) pv b) in *.
  pose proof (ring_NoDup _ _ _ R) as ND.
  assert (is_node h b) by solve_is_node.
  assert (is_node h pv).
  { eapply ring_is_node; [done|]. pose proof (lastd_in head l1). in_solver. }
  replace (l1 ++ b :: a :: l2) with ((l1 ++ [b]) ++ a :: l2) by list_eq.
  apply (ring_ins_pw h1 h'); try done.
  - by norm_app.
  - norm_app. intros Hin.
    by apply (NoDup_app_cons_ne (head :: l1) a (b :: l2) a ND).
  - intros p Hpa. rewrite lastd_snoc. rewrite Hn by done.
    case_decide; [done|]. unfold h1. heap_loads. done.
  - intros p Hpa. rewrite Hp by done.
    case_decide; [done|]. unfold h1. heap_loads. done.
  - by rewrite lastd_snoc.
Qed.

Lemma ring_ne_head h head ns p : ring h head ns → p ∈ ns → p ≠ head.
Proof.
  intros R Hp ->. apply ring_NoDup in R. by apply NoDup_cons in R as [? _].
Qed.

Lemma ring_pair_at h head l1 a b l2 :
  ring h head (l1 ++ a :: b :: l2) →
  load_next h a = Ok b ∧ load_prev h b = Ok a ∧
  load_prev h a = Ok (lastd head l1) ∧ load_next h b = Ok (hd head l2) ∧
  a ≠ b ∧ a ≠ head ∧ b ≠ head ∧ a ≠ lastd head l1 ∧ b ≠ lastd head l1 ∧
  a ≠ hd head l2 ∧ b ≠ hd head l2 ∧
  is_node h a ∧ is_node h b ∧ is_node h (lastd head l1) ∧ is_node h (hd head l2).
Proof.
  intros R. pose proof (ring_NoDup _ _ _ R) as ND.
  destruct (ring_at h head l1 a (b :: l2) R) as (Han & Hap & _ & _).
  destruct (ring_at h head (l1 ++ [a]) b l2) as (Hbn & Hbp & _ & _); [by norm_app|].
  rewrite lastd_snoc in Hbp. simpl in Han.
  pose proof (lastd_in head l1) as Hpv. pose proof (hd_in head l2) as Hnx.
  pose proof (λ y, NoDup_app_cons_ne (head :: l1) a (b :: l2) y ND) as Ha.
  assert (NoDup ((head :: l1 ++ [a]) ++ b :: l2)) as ND' by (by norm_app).
  pose proof (λ y, NoDup_app_cons_ne (head :: l1 ++ [a]) b l2 y ND') as Hb.
  split; [done|]. split; [done|]. split; [done|]. split; [done|].
  split; [apply Ha; in_solver|]. split; [apply Ha; in_solver|].
  split; [apply Hb; in_solver|]. split; [apply Ha; in_solver|].
  split; [apply Hb; in_solver|]. split; [apply Ha; in_solver|].
  split; [apply Hb; in_solver|].
  split; [solve_is_node|]. split; [solve_is_node|].
  split; eapply ring_is_node; try done; in_solver.
Qed.

Lemma relinked_set_chain S h h' : relinked S h h' → ∀ p v,
  p ∈ S → relinked S h (set_next h' p v) ∧ relinked S h (set_prev h' p v).
Proof.
  intros R p v Hp. split; (eapply relinked_trans; [exact R|]).
  - by apply relinked_set_next.
  - by apply relinked_set_prev.
Qed.

Ltac solve_relinked :=
  repeat first
    [ apply relinked_refl
    | eapply relinked_trans; [|apply relinked_set_next; solve [in_solver]]
    | eapply relinked_trans; [|apply relinked_set_prev; solve [in_solver]] ].

Lemma swap_pairs_length l : length (swap_pairs l) = length l.
Proof.
  induction l as [l IH] using (induction_ltof1 _ (@length Z)). unfold ltof in IH.
  destruct l as [|a [|b l]]; simpl; try done. rewrite IH; simpl; lia.
Qed.

Lemma swap_pairs_perm l : swap_pairs l ≡ₚ l.
Proof.
  induction l as [l IH] using (induction_ltof1 _ (@length Z)). unfold ltof in IH.
  destruct l as [|a [|b l]]; simpl; try done.
  rewrite IH by (simpl; lia). apply perm_swap.
Qed.

Lemma NULL_set_chain h : h !! NULL = None →
  ∀ p v, set_next h p v !! NULL = None ∧ set_prev h p v !! NULL = None.
Proof.
  intros H0 p v. by rewrite lookup_NULL_set_next, lookup_NULL_set_prev.
Qed.

Ltac solve_NULL :=
  repeat first [ rewrite lookup_NULL_set_next | rewrite lookup_NULL_set_prev ];
  first [ assumption | eapply ring_open; eassumption | idtac ].

Lemma swap_loop1_spec head n : ∀ rest done h fuel,
  length rest = n →
  ring h head (done ++ rest) →
  (length rest ≤ fuel)%nat →
  ∃ h', Part1.swap_loop fuel h head (hd head rest) = Ok h' ∧
        ring h' head (done ++ swap_pairs rest) ∧
        relinked (head :: done ++ rest) h h'.
Proof.
  induction n as [n IH] using lt_wf_ind. intros rest dn h fuel Hlen R Hf.
  pose proof R as (H0 & _).
  destruct rest as [|a [|b l2]].
  - exists h. simpl. destruct fuel; simpl; rewrite decide_True by done;
      (split; [done|split; [done|apply relinked_refl]]).
  - exists h. destruct (ring_at _ _ _ _ _ R) as (Han & _). simpl in Han.
    assert (a ≠ head) by (eapply ring_ne_head; [done|in_solver]).
    destruct fuel; simpl; rewrite decide_False by done; rewrite Han; simpl;
      rewrite decide_True by done; (split; [done|split; [done|apply relinked_refl]]).
  - destruct fuel as [|fuel]; [simpl in Hf; lia|].
    destruct (ring_pair_at _ _ _ _ _ _ R)
      as (Han & Hbp & Hap & Hbn & Hab & Hah & Hbh & Hapv & Hbpv & Hanx & Hbnx
          & Na & Nb & Npv & Nnx).
    set (pv := lastd head dn) in *. set (nx := hd head l2) in *.
    set (h6 := set_prev (set_prev (set_next (set_next
                 (set_prev (set_next h pv b) nx a) a nx) b a) b pv) a b).
    assert (ring h6 head (dn ++ b :: a :: l2)) as R6.
    { apply (ring_swap_pw h); try done.
      - unfold h6. solve_NULL.
      - intros p Hpa. unfold h6. heap_loads. fold pv. repeat case_decide; congruence.
      - intros p Hpa. unfold h6. heap_loads. fold pv nx. repeat case_decide; congruence.
      - unfold h6. heap_loads. fold nx. repeat case_decide; congruence.
      - unfold h6. heap_loads. repeat case_decide; congruence. }
    destruct (IH (length l2) ltac:(simpl in Hlen; lia) l2 (dn ++ [b; a]) h6 fuel)
      as (h' & Hloop & R' & Rl'); [done|by norm_app|simpl in Hf; lia|].
    exists h'. split; [|split].
    + simpl hd. simpl Part1.swap_loop. rewrite decide_False by done.
      rewrite Han. simpl. rewrite decide_False by done.
      rewrite Hap. simpl. rewrite store_next_ok by done. simpl.
      heap_loads. rewrite decide_False by done. rewrite Hbn. simpl.
      rewrite store_prev_ok by solve_is_node. simpl.
      heap_loads. rewrite decide_False by done. rewrite Hbn. simpl.
      rewrite store_next_ok by solve_is_node. simpl.
      rewrite store_next_ok by solve_is_node. simpl.
      heap_loads. rewrite decide_False by done. rewrite Hap. simpl.
      rewrite store_prev_ok by solve_is_node. simpl.
      rewrite store_prev_ok by solve_is_node. simpl.
      fold h6. replace (load_next h6 a) with (@Ok Z nx).
      2:{ unfold h6. heap_loads. repeat case_decide; congruence. }
      simpl. exact Hloop.
    + simpl. by norm_app in R'.
    + eapply relinked_trans.
      2:{ eapply relinked_mono; [|exact Rl']. intros p. clear. in_solver. }
      unfold h6. pose proof (lastd_in head dn). pose proof (hd_in head l2).
      fold pv nx in H, H1. solve_relinked.
Qed.

Lemma swap_loop0_spec head n : ∀ rest done h fuel,
  length rest = n →
  ring h head (done ++ rest) →
  (length rest ≤ fuel)%nat →
  ∃ h', Part0.swap_loop fuel h head (hd head rest) false = Ok h' ∧
        ring h' head (done ++ swap_pairs rest) ∧
        relinked (head :: done ++ rest) h h'.
Proof.
  induction n as [n IH] using lt_wf_ind. intros rest dn h fuel Hlen R Hf.
  pose proof R as (H0 & _).
  destruct rest as [|a [|b l2]].
  - exists h. simpl. destruct fuel; simpl; rewrite decide_True by done;
      (split; [done|split; [done|apply relinked_refl]]).
  - exists h. destruct (ring_at _ _ _ _ _ R) as (Han & _). simpl in Han.
    assert (a ≠ head) by (eapply ring_ne_head; [done|in_solver]).
    destruct fuel as [|fuel]; [simpl in Hf; lia|].
    simpl. rewrite decide_False by done. rewrite Han. simpl.
    destruct fuel; simpl; rewrite decide_True by done;
      (split; [done|split; [done|apply relinked_refl]]).
  - destruct fuel as [|[|fuel]]; [simpl in Hf; lia..|].
    destruct (ring_pair_at _ _ _ _ _ _ R)
      as (Han & Hbp & Hap & Hbn & Hab & Hah & Hbh & Hapv & Hbpv & Hanx & Hbnx
          & Na & Nb & Npv & Nnx).
    set (pv := lastd head dn) in *. set (nx := hd head l2) in *.
    set (h6 := set_next (set_prev (set_next (set_prev (set_prev
                 (set_next h a nx) b pv) nx a) pv b) a b) b a).
    assert (ring h6 head (dn ++ b :: a :: l2)) as R6.
    { apply (ring_swap_pw h); try done.
      - unfold h6. solve_NULL.
      - intros p Hpa. unfold h6. heap_loads. fold pv. repeat case_decide; congruence.
      - intros p Hpa. unfold h6. heap_loads. fold pv nx. repeat case_decide; congruence.
      - unfold h6. heap_loads. fold nx. repeat case_decide; congruence.
      - unfold h6. heap_loads. repeat case_decide; congruence. }
    destruct (IH (length l2) ltac:(simpl in Hlen; lia) l2 (dn ++ [b; a]) h6 fuel)
      as (h' & Hloop & R' & Rl'); [done|by norm_app|simpl in Hf; lia|].
    exists h'. split; [|split].
    + simpl hd. simpl Part0.swap_loop. rewrite decide_False by done.
      rewrite Han. simpl. rewrite decide_False by done.
      rewrite Hbp. simpl. rewrite Hbn. simpl.
      rewrite store_next_ok by done. simpl.
      heap_loads. rewrite Hap. simpl.
      rewrite store_prev_ok by solve_is_node. simpl.
      heap_loads. rewrite decide_False by done. rewrite Hbn. simpl.
      rewrite store_prev_ok by solve_is_node. simpl.
      heap_loads. rewrite decide_False by done. rewrite decide_False by done.
      rewrite Hap. simpl.
      rewrite store_next_ok by solve_is_node. simpl.
      rewrite store_prev_ok by solve_is_node. simpl.
      rewrite store_next_ok by solve_is_node. simpl.
      fold h6. replace (load_next h6 a) with (@Ok Z nx).
      2:{ unfold h6. heap_loads. repeat case_decide; congruence. }
      simpl. exact Hloop.
    + simpl. by norm_app in R'.
    + eapply relinked_trans.
      2:{ eapply relinked_mono; [|exact Rl']. intros p. clear. in_solver. }
      unfold h6. pose proof (lastd_in head dn). pose proof (hd_in head l2).
      fold pv nx in H, H1. solve_relinked.
Qed.

Lemma q_swap0_spec h head ns fuel :
  ring h head ns → (length ns ≤ fuel)%nat →
  ∃ h', Part0.q_swap fuel h head = Ok h' ∧
        ring h' head (swap_pairs ns) ∧ relinked (head :: ns) h h'.
Proof.
  intros R Hf. unfold Part0.q_swap.
  rewrite decide_False by (eapply ring_nonnull; [done|left]).
  rewrite (list_empty_ring _ _ _ R). simpl.
  destruct ns as [|x ns].
  - rewrite bool_decide_true by done. exists h. split; [done|]. split; [done|apply relinked_refl].
  - rewrite bool_decide_false by done. rewrite (ring_next_head _ _ _ R). simpl.
    apply (swap_loop0_spec head (length (x :: ns)) (x :: ns) [] h fuel); done.
Qed.

Lemma q_swap1_spec h head ns fuel :
  ring h head ns → (length ns ≤ fuel)%nat →
  ∃ h', Part1.q_swap fuel h head = Ok h' ∧
        ring h' head (swap_pairs ns) ∧ relinked (head :: ns) h h'.
Proof.
  intros R Hf. unfold Part1.q_swap.
  rewrite decide_False by (eapply ring_nonnull; [done|left]).
  rewrite (list_empty_ring _ _ _ R). simpl.
  destruct ns as [|x ns].
  - rewrite bool_decide_true by done. exists h. split; [done|]. split; [done|apply relinked_refl].
  - rewrite bool_decide_false by done. rewrite (ring_next_head _ _ _ R). simpl.
    apply (swap_loop1_spec head (length (x :: ns)) (x :: ns) [] h fuel); done.
Qed.

(** ** Heaps that lose blocks *)

Lemma reshaped_nil S h h' : reshaped [] S h h' ↔ relinked S h h'.
Proof.
  split; intros H p; destruct (H p) as [A B].
  - destruct B as [? ?]; [by intros ?%elem_of_nil|done].
  - split; [by intros ?%elem_of_nil|done].
Qed.

Lemma reshaped_trans D1 D2 S h h1 h2 :
  reshaped D1 S h h1 → reshaped D2 S h1 h2 → reshaped (D1 ++ D2) S h h2.
Proof.
  intros H1 H2 p. destruct (H1 p) as [A1 B1], (H2 p) as [A2 B2]. split.
  - intros Hin. destruct (decide (p ∈ D2)) as [?|Hn]; [auto|].
    apply elem_of_app in Hin as [?|?]; [|done].
    destruct (B2 Hn) as [E _]. rewrite A1 in E by done.
    destruct (h2 !! p); done.
  - intros Hn. apply not_elem_of_app in Hn as [Hn1 Hn2].
    destruct (B1 Hn1) as [E1 F1], (B2 Hn2) as [E2 F2]. split.
    + by rewrite E2.
    + intros. rewrite F2, F1; done.
Qed.

Lemma reshaped_mono D D' S S' h h' :
  (∀ p, p ∈ D ↔ p ∈ D') → S ⊆ S' → reshaped D S h h' → reshaped D' S' h h'.
Proof.
  intros HD HS H p. destruct (H p) as [A B]. split.
  - intros ?%HD. auto.
  - intros Hn. destruct B as [E F]; [by rewrite HD|]. split; [done|].
    intros Hp. apply F. intros ?. apply Hp. by apply HS.
Qed.

Lemma reshaped_delete S h x v : reshaped [x; v] S h (delete x (delete v h)).
Proof.
  intros p. rewrite !lookup_delete. split.
  - intros [->|[->|?%elem_of_nil]%elem_of_cons]%elem_of_cons; [|by repeat case_decide|done].
    by rewrite decide_True.
  - intros Hn. rewrite !decide_False; [done|intros ->; apply Hn..]; in_solver.
Qed.

Lemma relinked_reshaped D S h h1 h2 :
  reshaped D S h h1 → relinked S h1 h2 → reshaped D S h h2.
Proof.
  intros H1 H2%reshaped_nil. rewrite <- (app_nil_r D). by eapply reshaped_trans.
Qed.

(** ** Rings cut open *)

Lemma ring_broken h head K R : ring h head (K ++ R) → broken h head K R.
Proof.
  intros R0. pose proof R0 as (H0 & ND & F & B). split; [done|].
  split; [eapply ring_is_node; [done|left]|]. split; [done|].
  replace (head :: (K ++ R) ++ [head]) with ((head :: K) ++ (R ++ [head])) in * by list_eq.
  apply (fwd_join _ _ _ _ head) in F as (? & _ & ?); [|by destruct R].
  apply (bwd_join _ _ _ _ head) in B as (? & _ & ?); [|by destruct R]. done.
Qed.

Lemma broken_link h h' head K R :
  broken h head K R →
  h' !! NULL = None →
  (∀ p, load_next h' p =
     if decide (p = lastd head K) then Ok (hd head R) else load_next h p) →
  (∀ p, load_prev h' p =
     if decide (p = hd head R) then Ok (lastd head K) else load_prev h p) →
  ring h' head (K ++ R).
Proof.
  intros (_ & _ & ND & F1 & B1 & F2 & B2) H0 Hn Hp.
  pose proof (lastd_in head K) as Hpv. pose proof (hd_in head R) as Hnx.
  set (pv := lastd head K) in *. set (nx := hd head R) in *.
  change (head :: K ++ R) with ((head :: K) ++ R) in ND.
  pose proof ND as (ND1 & ND12 & ND2)%NoDup_app.
  assert (NoDup (R ++ [head])) as ND2'.
  { apply NoDup_app. split; [done|]. split; [|apply NoDup_singleton].
    intros p Hin ->%list_elem_of_singleton. apply (ND12 head); [left|done]. }
  split; [done|]. split; [done|].
  replace (head :: (K ++ R) ++ [head]) with ((head :: K) ++ (R ++ [head])) by list_eq.
  rewrite (fwd_join _ _ _ _ head), (bwd_join _ _ _ _ head) by (by destruct R).
  rewrite hd_snoc. fold pv nx.
  split; [split; [|split]|split; [|split]].
  - eapply fwd_ext_nolast; [done| |done]. intros p Hin Hne.
    rewrite Hn. by rewrite decide_False.
  - rewrite Hn. by rewrite decide_True.
  - eapply fwd_snoc_ext; [|done]. intros p Hin. rewrite Hn.
    rewrite decide_False; [done|]. intros ->. by apply (ND12 pv).
  - eapply bwd_cons_ext; [|done]. intros p Hin. rewrite Hp.
    rewrite decide_False; [done|]. intros ->.
    apply elem_of_app in Hnx as [?| ->%list_elem_of_singleton].
    + apply (ND12 nx); [by right|done].
    + apply NoDup_cons in ND1 as [? _]. done.
  - rewrite Hp. by rewrite decide_True.
  - eapply bwd_ext_nofirst; [done| |done]. intros p Hin Hne.
    rewrite Hp. by rewrite decide_False.
Qed.

Lemma broken_is_node h head K R p : broken h head K R → p ∈ head :: K ++ R → is_node h p.
Proof.
  intros (_ & Nh & _ & F1 & B1 & F2 & B2) [->|[Hp|Hp]%elem_of_app]%elem_of_cons; [done| |].
  - by eapply bwd_cons_is_node.
  - by eapply fwd_snoc_is_node.
Qed.

Lemma broken_link_stores h head K R :
  broken h head K R →
  let pv := lastd head K in
  let nx := hd head R in
  let h' := set_prev (set_next h pv nx) nx pv in
  (h1 ← store_next h pv nx; store_prev h1 nx pv) = Ok h' ∧
  ring h' head (K ++ R) ∧ relinked [pv; nx] h h'.
Proof.
  intros Br pv nx h'. pose proof Br as (H0 & _).
  assert (is_node h pv) as Npv.
  { eapply broken_is_node; [done|]. pose proof (lastd_in head K). in_solver. }
  assert (is_node h nx) as Nnx.
  { eapply broken_is_node; [done|]. pose proof (hd_in head R). in_solver. }
  split; [|split].
  - rewrite store_next_ok by done. simpl. by rewrite store_prev_ok by solve_is_node.
  - eapply broken_link; [done| | |].
    + unfold h'. solve_NULL.
    + intros p. unfold h'. heap_loads. done.
    + intros p. unfold h'. heap_loads. done.
  - unfold h'. solve_relinked.
Qed.

(** ** Releasing elements of a queue under construction *)

Lemma payload_strval h l p :
  h !! NULL = None → payload h l → p ∈ l → strval h p = Ok (key h p).
Proof.
  intros H0 (_ & Hc) Hp. rewrite Forall_forall in Hc. specialize (Hc p Hp).
  unfold key, strval, load_value, load_chars, is_chars, valptr in *.
  destruct (h !! p) as [[l0|e|s]|] eqn:E; simpl in *; try (by rewrite H0 in Hc).
  destruct (h !! value e) as [[| |]|]; done.
Qed.

Lemma payload_is_node h l p : h !! NULL = None → payload h l → p ∈ l → is_node h p.
Proof.
  intros H0 (_ & Hc) Hp. rewrite Forall_forall in Hc. specialize (Hc p Hp).
  destruct (is_chars_elem _ _ H0 Hc) as (e & He & _). unfold is_node. rewrite He. simpl. eauto.
Qed.

Lemma release_frame h x l :
  h !! NULL = None → payload h (x :: l) →
  let h' := delete x (delete (valptr h x) h) in
  q_release_element h x = Ok h' ∧ payload h' l ∧ h' !! NULL = None ∧
  (∀ p, is_node h p → p ≠ x → h' !! p = h !! p) ∧
  (∀ p, p ∈ l → key h' p = key h p ∧ valptr h' p = valptr h p) ∧
  x ∉ l.
Proof.
  intros H0 P h'. pose proof P as (NDv & Hc).
  apply Forall_cons in Hc as [Hcx Hc]. rewrite fmap_cons in NDv.
  apply NoDup_cons in NDv as [Hvx NDv].
  destruct (is_chars_elem _ _ H0 Hcx) as (e & He & Hv & Hv0).
  assert (x ≠ NULL) as Hx0 by (intros ->; congruence).
  assert (valptr h x ≠ x) as Hvx'.
  { intros E. rewrite E in Hcx. unfold is_chars in Hcx. by rewrite He in Hcx. }
  assert (x ∉ l) as Hxl.
  { intros Hin. apply Hvx. by apply list_elem_of_fmap_2. }
  rewrite Forall_forall in Hc.
  assert (∀ p, is_node h p → p ≠ x → h' !! p = h !! p) as Hsame.
  { intros p N Hp. unfold h'. rewrite !lookup_delete_ne; [done| |done].
    intros E. rewrite <- E in N. by apply (is_chars_not_node _ _ Hcx). }
  assert (∀ p, p ∈ l → h' !! p = h !! p ∧ h' !! valptr h p = h !! valptr h p) as Hl.
  { intros p Hp. assert (p ≠ x) by (by intros ->). split.
    - apply Hsame; [|done]. by apply (payload_is_node h (x :: l)); [| |right].
    - unfold h'. specialize (Hc p Hp). rewrite !lookup_delete_ne; [done| |].
      + intros E. apply Hvx. rewrite E. by apply list_elem_of_fmap_2.
      + intros E. unfold is_chars in Hc. by rewrite <- E, He in Hc. }
  split; [|split; [split|split; [|split; [done|split; [|done]]]]].
  - unfold q_release_element, load_value. rewrite He. simpl. rewrite <- Hv.
    unfold free. rewrite decide_False by congruence.
    assert (is_Some (h !! valptr h x)) as [b Hb].
    { unfold is_chars in Hcx. destruct (h !! valptr h x); [eauto|done]. }
    rewrite Hb. simpl. rewrite decide_False by done.
    rewrite lookup_delete_ne by done. by rewrite He.
  - rewrite (list_fmap_ext (valptr h') (valptr h) l); [done|].
    intros i p Hp. unfold valptr. destruct (Hl p) as [-> _]; [|done].
    by eapply list_elem_of_lookup_2.
  - apply Forall_forall. intros p Hp. destruct (Hl p Hp) as [E1 E2].
    unfold is_chars, valptr. rewrite E1. fold (valptr h p). rewrite E2. by apply Hc.
  - unfold h'. rewrite !lookup_delete_ne by congruence. done.
  - intros p Hp. destruct (Hl p Hp) as [E1 E2].
    assert (valptr h' p = valptr h p) as Ev by (unfold valptr; by rewrite E1).
    split; [|done]. unfold key, strval, load_value, load_chars. rewrite E1.
    destruct (h !! p) as [[| |]|] eqn:E; simpl; try done.
    unfold valptr in E2. rewrite E in E2. by rewrite E2.
Qed.

Lemma broken_frame h h' head K R :
  broken h head K R → h' !! NULL = None →
  (∀ p, p ∈ head :: K ++ R → h' !! p = h !! p) →
  broken h' head K R.
Proof.
  intros (H0 & Nh & ND & F1 & B1 & F2 & B2) H0' Hs.
  assert (∀ p, p ∈ head :: K ++ R →
            load_next h' p = load_next h p ∧ load_prev h' p = load_prev h p) as Hl.
  { intros p Hp. unfold load_next, load_prev, load_node. by rewrite Hs. }
  split; [done|]. split; [|split; [done|split; [|split; [|split]]]].
  - unfold is_node. rewrite Hs; [done|left].
  - destruct (snoc_destruct K) as [->|(K' & k & ->)]; [done|].
    change (head :: K' ++ [k]) with ((head :: K') ++ [k]) in *.
    eapply fwd_snoc_ext; [|done]. intros p Hp. apply Hl. in_solver.
  - eapply bwd_cons_ext; [|done]. intros p Hp. apply Hl. in_solver.
  - eapply fwd_snoc_ext; [|done]. intros p Hp. apply Hl. in_solver.
  - destruct R as [|r R]; [done|]. simpl in *.
    eapply bwd_cons_ext; [|done]. intros p Hp. apply Hl. in_solver.
Qed.

Lemma broken_drop h head K x R : broken h head K (x :: R) → broken h head K R.
Proof.
  intros (H0 & Nh & ND & F1 & B1 & F2 & B2).
  split; [done|]. split; [done|]. split; [|split; [done|split; [done|split]]].
  - change (head :: K ++ x :: R) with ((head :: K) ++ x :: R) in ND.
    apply NoDup_app in ND as (ND1 & ND12 & ND2).
    change (head :: K ++ R) with ((head :: K) ++ R). apply NoDup_app.
    split; [done|]. split.
    + intros p Hp Hin. apply (ND12 p Hp). by right.
    + by apply NoDup_cons in ND2 as [_ ?].
  - by eapply fwd_tail.
  - by eapply bwd_tail.
Qed.

(** Releasing an element that is outside both parts of a cut ring. *)
Lemma broken_release h head K R x :
  broken h head K R → payload h (x :: K ++ R) → x ≠ head →
  let h' := delete x (delete (valptr h x) h) in
  q_release_element h x = Ok h' ∧ broken h' head K R ∧ payload h' (K ++ R) ∧
  (∀ p, p ∈ K ++ R → key h' p = key h p ∧ valptr h' p = valptr h p) ∧
  reshaped [x; valptr h x] (head :: K ++ R) h h'.
Proof.
  intros Br P Hxh h'. pose proof Br as (H0 & _).
  destruct (release_frame h x (K ++ R) H0 P) as (Hr & P' & H0' & Hs & Hk & Hx).
  split; [done|]. split; [|split; [done|split; [done|apply reshaped_delete]]].
  eapply broken_frame; [done|done|]. intros p Hp. apply Hs.
  - by eapply broken_is_node.
  - intros ->. apply elem_of_cons in Hp as [?|?]; done.
Qed.

Lemma payload_submseteq h l l' : l' ⊆+ l → payload h l → payload h l'.
Proof. intros. eapply payload_relinked; [apply (relinked_refl [])|done..]. Qed.

Lemma cells_cons_reshaped h h1 h' S x D :
  (∀ p, p ∈ D → valptr h1 p = valptr h p) →
  reshaped [x; valptr h x] S h h1 →
  reshaped (cells h1 D) S h1 h' →
  reshaped (cells h (x :: D)) S h h'.
Proof.
  intros Hv H1 H2. eapply reshaped_mono; [|done|by eapply reshaped_trans].
  intros p. unfold cells.
  rewrite (list_fmap_ext (valptr h1) (valptr h) D)
    by (intros; apply Hv; by eapply list_elem_of_lookup_2).
  rewrite fmap_cons. clear. in_solver.
Qed.

Lemma same_key_strcmp h l k x y :
  h !! NULL = None → payload h l → x ∈ l → y ∈ l →
  key h x = k x → key h y = k y →
  (sa ← strval h x; sb ← strval h y; Ok (bool_decide (strcmp sa sb = 0)))
    = Ok (same_key k x y).
Proof.
  intros H0 P Hx Hy Ex Ey.
  rewrite (payload_strval h l x), (payload_strval h l y) by done. simpl.
  unfold same_key. by rewrite Ex, Ey.
Qed.

(** The loop of the second revision. *)
Lemma dup_loop1_spec head k : ∀ R K h (is_dup : bool) fuel safe,
  (if is_dup then broken h head K R ∧ R ≠ [] else ring h head (K ++ R)) →
  payload h (K ++ R) →
  (∀ p, p ∈ R → key h p = k p) →
  (length R ≤ fuel)%nat →
  (R ≠ [] → safe = hd head (tail R)) →
  ∃ h' D,
    Part1.dup_loop fuel h head (hd head R) safe is_dup (lastd head K) = Ok h' ∧
    queue h' head (K ++ dedup (same_key k) is_dup R) ∧
    R ≡ₚ D ++ dedup (same_key k) is_dup R ∧
    reshaped (cells h D) (head :: K ++ R) h h'.
Proof.
  induction R as [|x R' IH]; intros K h is_dup fuel safe Inv P Hk Hf Hsafe.
  { destruct is_dup; [by destruct Inv|]. exists h, []. rewrite app_nil_r in *.
    split; [|split; [done|split; [done|]]].
    - destruct fuel; simpl; by rewrite decide_True.
    - apply reshaped_nil, relinked_refl. }
  destruct fuel as [|fuel]; [simpl in Hf; lia|].
  specialize (Hsafe ltac:(done)). simpl in Hsafe. subst safe.
  assert (broken h head K (x :: R')) as Br.
  { destruct is_dup; [by destruct Inv|by apply ring_broken]. }
  pose proof Br as (H0 & Nh & ND & F1 & B1 & F2 & B2).
  assert (x ≠ head) as Hxh.
  { intros ->. apply NoDup_cons in ND as [ND _]. apply ND. in_solver. }
  assert (payload h (x :: K ++ R')) as Px.
  { eapply payload_submseteq; [|done]. by rewrite Permutation_middle. }
  (* the comparison with the next element *)
  assert ((if decide (hd head R' ≠ head)
           then sa ← strval h x; sb ← strval h (hd head R');
                Ok (bool_decide (strcmp sa sb = 0))
           else Ok false)
          = Ok (match R' with y :: _ => same_key k x y | [] => false end)) as Hsame.
  { destruct R' as [|y R'']; simpl.
    - by rewrite decide_False by (by intros ?).
    - rewrite decide_True.
      2:{ intros ->. apply NoDup_cons in ND as [ND _]. apply ND. in_solver. }
      apply (same_key_strcmp h (K ++ x :: y :: R'')); try done; try in_solver.
      + apply Hk. in_solver.
      + apply Hk. in_solver. }
  simpl hd. simpl Part1.dup_loop. rewrite decide_False by done.
  rewrite Hsame. simpl.
  assert (∀ K' h1, broken h1 head K' R' ∨ ring h1 head (K' ++ R') →
            ∃ s, load_next h1 (hd head R') = Ok s ∧ (R' ≠ [] → s = hd head (tail R'))) as Hnext.
  { intros K' h1 Hh1.
    assert (broken h1 head K' R') as Br1 by (destruct Hh1; [done|by apply ring_broken]).
    destruct R' as [|y R''].
    - destruct (is_node_next h1 head) as [s Hs]; [by destruct Br1 as (_ & ? & _)|].
      exists s. done.
    - exists (hd head R''). split; [|done].
      destruct Br1 as (_ & _ & _ & _ & _ & F & _).
      simpl. rewrite <- (hd_snoc head R'').
      apply (fwd_hd h1 y (R'' ++ [head]) head); [done|by destruct R'']. }
  destruct (match R' with y :: _ => same_key k x y | [] => false end) eqn:Esame.
  - (* equal to the successor: released, a run is open *)
    destruct (broken_release h head K R' x (broken_drop _ _ _ _ _ Br) Px Hxh)
      as (Hrel & Br1 & P1 & Hk1 & Rs1).
    set (h1 := delete x (delete (valptr h x) h)) in *.
    rewrite Hrel. simpl.
    destruct (Hnext K h1 (or_introl Br1)) as (s & Hs & Hs'). rewrite Hs. simpl.
    destruct (IH K h1 true fuel s) as (h' & D & Hloop & Q' & HD & Rs').
    { split; [done|]. by destruct R'. }
    { done. }
    { intros p Hp. destruct (Hk1 p) as [-> _]; [in_solver|]. apply Hk. by right. }
    { simpl in Hf. lia. }
    { done. }
    exists h', (x :: D). split; [done|]. split; [done|]. split.
    + simpl. by rewrite <- HD.
    + eapply cells_cons_reshaped.
      * intros p Hp. apply Hk1. apply elem_of_app. right.
        eapply elem_of_Permutation_proper; [exact HD|]. in_solver.
      * eapply reshaped_mono; [done| |exact Rs1]. intros p. clear. in_solver.
      * eapply reshaped_mono; [done| |exact Rs']. intros p. clear. in_solver.
  - destruct is_dup.
    + (* the last element of a run: released, and the ring is closed again *)
      destruct (broken_release h head K R' x (broken_drop _ _ _ _ _ Br) Px Hxh)
        as (Hrel & Br1 & P1 & Hk1 & Rs1).
      set (h1 := delete x (delete (valptr h x) h)) in *.
      rewrite Hrel. simpl.
      destruct (broken_link_stores h1 head K R' Br1) as (Hst & R2 & Rl2).
      set (h2 := set_prev _ _ _) in *.
      apply bind_Ok in Hst as (h1' & Hst1 & Hst2). rewrite Hst1. simpl.
      rewrite Hst2. simpl.
      destruct (Hnext K h2 (or_intror R2)) as (s & Hs & Hs'). rewrite Hs. simpl.
      destruct (IH K h2 false fuel s) as (h' & D & Hloop & Q' & HD & Rs').
      { done. }
      { eapply payload_relinked; [exact Rl2|done|done]. }
      { intros p Hp. rewrite (relinked_key _ _ _ Rl2).
        destruct (Hk1 p) as [-> _]; [in_solver|]. apply Hk. by right. }
      { simpl in Hf. lia. }
      { done. }
      exists h', (x :: D). split; [done|]. split; [done|]. split.
      * simpl. by rewrite <- HD.
      * eapply cells_cons_reshaped.
        -- intros p Hp. rewrite (relinked_valptr _ _ _ Rl2). apply Hk1.
           apply elem_of_app. right.
           eapply elem_of_Permutation_proper; [exact HD|]. in_solver.
        -- eapply relinked_reshaped.
           ++ eapply reshaped_mono; [done| |exact Rs1]. intros p. clear. in_solver.
           ++ eapply relinked_mono; [|exact Rl2].
              intros p. pose proof (lastd_in head K). pose proof (hd_in head R').
              clear -H H1. in_solver.
        -- eapply reshaped_mono; [done| |exact Rs']. intros p. clear. in_solver.
    + (* kept *)
      rewrite (ring_next_last _ _ _ _ Inv). simpl.
      replace (K ++ x :: R') with ((K ++ [x]) ++ R') in Inv by list_eq.
      destruct (Hnext (K ++ [x]) h (or_intror Inv)) as (s & Hs & Hs'). rewrite Hs. simpl.
      destruct (IH (K ++ [x]) h false fuel s) as (h' & D & Hloop & Q' & HD & Rs').
      { done. }
      { by replace ((K ++ [x]) ++ R') with (K ++ x :: R') by list_eq. }
      { intros p Hp. apply Hk. by right. }
      { simpl in Hf. lia. }
      { done. }
      rewrite lastd_snoc in Hloop.
      exists h', D. split; [done|]. split; [|split].
      * by replace (K ++ x :: dedup (same_key k) false R')
          with ((K ++ [x]) ++ dedup (same_key k) false R') by list_eq.
      * rewrite <- Permutation_middle. by rewrite <- HD.
      * by replace (K ++ x :: R') with ((K ++ [x]) ++ R') by list_eq.
Qed.

Lemma q_delete_dup1_spec h head ns fuel :
  queue h head ns → (length ns ≤ fuel)%nat →
  ∃ h' D,
    Part1.q_delete_dup fuel h head = Ok (h', true) ∧
    queue h' head (dedup (same_key (key h)) false ns) ∧
    ns ≡ₚ D ++ dedup (same_key (key h)) false ns ∧
    reshaped (cells h D) (head :: ns) h h'.
Proof.
  intros [R P] Hf. unfold Part1.q_delete_dup.
  rewrite decide_False by (eapply ring_nonnull; [done|left]).
  rewrite (ring_next_head _ _ _ R). simpl.
  assert (∃ s, load_next h (hd head ns) = Ok s ∧ (ns ≠ [] → s = hd head (tail ns)))
    as (s & Hs & Hs').
  { destruct ns as [|x ns'].
    - exists head. split; [|done]. by apply (ring_next_head h head []).
    - exists (hd head ns'). split; [|done]. by destruct (ring_cons_at _ _ _ _ R) as (? & _). }
  rewrite Hs. simpl.
  destruct (dup_loop1_spec head (key h) ns [] h false fuel s) as (h' & D & Hl & Q' & HD & Rs);
    try done.
  exists h', D. simpl in Hl. rewrite Hl. done.
Qed.

Lemma dedup_cons2 same d x y l :
  dedup same d (x :: y :: l) =
    if same x y then dedup same true (y :: l)
    else if d then dedup same false (y :: l) else x :: dedup same false (y :: l).
Proof. done. Qed.

(** The inner loop of the first revision: [pe] is the element that started
    or continued a run and is still to be released. *)
Lemma dup_run0_spec head k K : ∀ R h pe fuel,
  broken h head K R →
  payload h (pe :: K ++ R) → pe ≠ head →
  (∀ p, p ∈ pe :: R → key h p = k p) →
  (length R ≤ fuel)%nat →
  ∃ h' R2 pe' D,
    Part0.dup_run fuel h head (hd head R) (hd head R) pe = Ok (h', hd head R2, pe') ∧
    broken h' head K R2 ∧ payload h' (pe' :: K ++ R2) ∧ pe' ≠ head ∧
    (∀ p, p ∈ pe' :: K ++ R2 → key h' p = key h p ∧ valptr h' p = valptr h p) ∧
    (length R2 ≤ length R)%nat ∧
    dedup (λ a b, same_key k b a) true (pe :: R)
      = dedup (λ a b, same_key k b a) false R2 ∧
    pe :: R ≡ₚ D ++ pe' :: R2 ∧
    reshaped (cells h D) (head :: K ++ R) h h'.
Proof.
  induction R as [|x R' IH]; intros h pe fuel Br P Hpe Hk Hf.
  { exists h, [], pe, []. split; [|split; [done|split; [done|split; [done|split; [done|]]]]].
    - destruct fuel; simpl; by rewrite decide_True.
    - split; [done|]. split; [done|]. split; [done|]. apply reshaped_nil, relinked_refl. }
  pose proof Br as (H0 & Nh & ND & F1 & B1 & F2 & B2).
  assert (x ≠ head) as Hxh.
  { intros ->. apply NoDup_cons in ND as [ND _]. apply ND. in_solver. }
  assert (Part0.dup_run fuel h head x x pe =
            if same_key k x pe
            then match fuel with
                 | O => Timeout
                 | S fuel =>
                     node ← load_next h x;
                     h ← q_release_element h pe;
                     Part0.dup_run fuel h head node node x
                 end
            else Ok (h, x, pe)) as Hstep.
  { assert (strval h x = Ok (k x)) as Sx.
    { rewrite (payload_strval h (pe :: K ++ x :: R') x) by (done || in_solver).
      by rewrite (Hk x) by in_solver. }
    assert (strval h pe = Ok (k pe)) as Sp.
    { rewrite (payload_strval h (pe :: K ++ x :: R') pe) by (done || in_solver).
      by rewrite (Hk pe) by in_solver. }
    unfold same_key. destruct fuel; simpl; rewrite decide_False by done;
      rewrite Sx, Sp; simpl;
      (destruct (decide (strcmp (k x) (k pe) = 0));
       [rewrite bool_decide_true by done|rewrite bool_decide_false by done]; done). }
  simpl hd. rewrite Hstep. destruct (same_key k x pe) eqn:Esame.
  - destruct fuel as [|fuel]; [simpl in Hf; lia|].
    assert (load_next h x = Ok (hd head R')) as Hn.
    { rewrite <- (hd_snoc head R').
      apply (fwd_hd h x (R' ++ [head]) head); [done|by destruct R']. }
    rewrite Hn. simpl.
    destruct (broken_release h head K (x :: R') pe Br P Hpe) as (Hrel & Br1 & P1 & Hk1 & Rs1).
    set (h1 := delete pe (delete (valptr h pe) h)) in *.
    rewrite Hrel. simpl.
    destruct (IH h1 x fuel) as (h' & R2 & pe' & D & Hrun & Br' & P' & Hpe' & Hk' & Hlen & Hm & HD & Rs').
    { by eapply broken_drop. }
    { eapply payload_submseteq; [|done]. by rewrite Permutation_middle. }
    { done. }
    { intros p Hp. destruct (Hk1 p) as [-> _]; [in_solver|]. apply Hk. by right. }
    { simpl in Hf. lia. }
    exists h', R2, pe', (pe :: D).
    split; [done|]. split; [done|]. split; [done|]. split; [done|].
    assert (∀ p, p ∈ pe' :: K ++ R2 → p ∈ K ++ x :: R') as Hsub.
    { intros p Hp.
      assert (p ∈ K ++ pe' :: R2) as Hp' by in_solver.
      assert (p ∈ K ++ D ++ pe' :: R2) as Hp'' by in_solver.
      rewrite <- HD in Hp''. done. }
    split; [|split; [simpl; lia|split; [|split]]].
    + intros p Hp. destruct (Hk' p Hp) as [-> ->]. apply Hk1. by apply Hsub.
    + simpl. rewrite Esame. done.
    + simpl. rewrite HD. done.
    + eapply cells_cons_reshaped.
      * intros p Hp. apply Hk1. apply elem_of_app. right.
        eapply elem_of_Permutation_proper; [exact HD|]. in_solver.
      * eapply reshaped_mono; [done| |exact Rs1]. intros p. clear. in_solver.
      * eapply reshaped_mono; [done| |exact Rs']. intros p. clear. in_solver.
  - exists h, (x :: R'), pe, [].
    split; [done|]. split; [done|]. split; [done|]. split; [done|].
    split; [done|]. split; [done|]. split; [|split; [done|]].
    + simpl. rewrite Esame. done.
    + apply reshaped_nil, relinked_refl.
Qed.

(** The outer loop of the first revision: [pe] is the element before [node]. *)
Lemma dup_loop0_spec head k n : ∀ R K h pe fuel inner,
  length R = n →
  ring h head (K ++ pe :: R) →
  payload h (K ++ pe :: R) →
  (∀ p, p ∈ pe :: R → key h p = k p) →
  (length R ≤ fuel)%nat → (length R ≤ inner)%nat →
  ∃ h' D,
    Part0.dup_loop fuel inner h head (hd head R) (lastd head K) = Ok h' ∧
    queue h' head (K ++ dedup (λ a b, same_key k b a) false (pe :: R)) ∧
    pe :: R ≡ₚ D ++ dedup (λ a b, same_key k b a) false (pe :: R) ∧
    reshaped (cells h D) (head :: K ++ pe :: R) h h'.
Proof.
  induction n as [n IH] using lt_wf_ind.
  intros R K h pe fuel inner Hlen Rg P Hk Hf Hi.
  pose proof Rg as (H0 & _).
  destruct R as [|x R'].
  { exists h, []. split; [|split; [done|split; [done|apply reshaped_nil, relinked_refl]]].
    destruct fuel; simpl; by rewrite decide_True. }
  destruct fuel as [|fuel]; [simpl in Hf; lia|].
  remember (dedup (λ a b, same_key k b a) false (pe :: x :: R')) as keep eqn:Hkeep.
  assert (x ≠ head) as Hxh by (eapply ring_ne_head; [done|in_solver]).
  assert (pe ≠ head) as Hpeh by (eapply ring_ne_head; [done|in_solver]).
  destruct (ring_pair_at _ _ _ _ _ _ Rg)
    as (Hpen & Hxp & Hpep & Hxn & _).
  assert (strval h x = Ok (k x)) as Sx.
  { rewrite (payload_strval h (K ++ pe :: x :: R') x) by (done || in_solver).
    by rewrite (Hk x) by in_solver. }
  assert (strval h pe = Ok (k pe)) as Sp.
  { rewrite (payload_strval h (K ++ pe :: x :: R') pe) by (done || in_solver).
    by rewrite (Hk pe) by in_solver. }
  simpl hd. simpl Part0.dup_loop. rewrite decide_False by done.
  rewrite Hxp. simpl. rewrite Sx, Sp. simpl.
  destruct (decide (strcmp (k x) (k pe) = 0)) as [Esame|Esame].
  - (* a run starts at [pe] *)
    assert (broken h head K (x :: R')) as Br.
    { eapply broken_drop. by apply ring_broken. }
    assert (payload h (pe :: K ++ x :: R')) as Ppe.
    { eapply payload_submseteq; [|done]. by rewrite Permutation_middle. }
    destruct (dup_run0_spec head k K (x :: R') h pe inner Br Ppe Hpeh Hk Hi)
      as (h1 & R2 & pe' & D1 & Hrun & Br1 & P1 & Hpe' & Hk1 & Hlen2 & Hm & HD1 & Rs1).
    simpl hd in Hrun. rewrite Hrun. simpl.
    destruct (broken_release h1 head K R2 pe' Br1 P1 Hpe') as (Hrel & Br2 & P2 & Hk2 & Rs2).
    set (h2 := delete pe' (delete (valptr h1 pe') h1)) in *.
    rewrite Hrel. simpl.
    destruct (broken_link_stores h2 head K R2 Br2) as (Hst & R3 & Rl3).
    set (h3 := set_prev _ _ _) in *.
    apply bind_Ok in Hst as (h2' & Hst1 & Hst2). rewrite Hst1. simpl. rewrite Hst2. simpl.
    assert (reshaped (cells h (D1 ++ [pe'])) (head :: K ++ pe :: x :: R') h h3) as Rs3.
    { eapply relinked_reshaped.
      2:{ eapply relinked_mono; [|exact Rl3]. intros p Hp.
          assert (p ∈ head :: K ++ R2) as Hp'.
          { pose proof (lastd_in head K). pose proof (hd_in head R2).
            clear -H H1 Hp. in_solver. }
          assert (p ∈ head :: K ++ D1 ++ pe' :: R2) as Hp'' by (clear -Hp'; in_solver).
          rewrite <- HD1 in Hp''. clear -Hp''. in_solver. }
      apply (reshaped_mono (cells h D1 ++ [pe'; valptr h1 pe']) _
               (head :: K ++ pe :: x :: R') _); [|done|eapply reshaped_trans].
      - intros p. unfold cells. rewrite !fmap_app. simpl.
        destruct (Hk1 pe') as [_ <-]; [left|]. clear. in_solver.
      - eapply reshaped_mono; [done| |exact Rs1]. intros p. clear. in_solver.
      - eapply reshaped_mono; [done| |exact Rs2]. intros p Hp.
        assert (p ∈ head :: K ++ D1 ++ pe' :: R2) as Hp'' by (clear -Hp; in_solver).
        rewrite <- HD1 in Hp''. clear -Hp''. in_solver. }
    assert (∀ p, p ∈ K ++ R2 → key h3 p = key h p ∧ valptr h3 p = valptr h p) as Hk3.
    { intros p Hp. rewrite (relinked_key _ _ _ Rl3), (relinked_valptr _ _ _ Rl3).
      destruct (Hk2 p Hp) as [-> ->]. apply Hk1. clear -Hp. in_solver. }
    assert (payload h3 (K ++ R2)) as P3 by (by eapply payload_relinked).
    assert (dedup (λ a b, same_key k b a) false (pe :: x :: R')
            = dedup (λ a b, same_key k b a) false R2) as Hmodel.
    { rewrite <- Hm. rewrite !dedup_cons2.
      assert (same_key k x pe = true) as -> by (unfold same_key; by rewrite bool_decide_true).
      done. }
    rewrite Hmodel in Hkeep. subst keep.
    destruct R2 as [|y R2'].
    + (* the run reached the sentinel *)
      simpl hd. rewrite decide_True by done. simpl.
      exists h3, (D1 ++ [pe']). split; [|split; [|split; [|done]]].
      * destruct fuel; simpl; by rewrite decide_True.
      * simpl. rewrite app_nil_r in *. done.
      * simpl. rewrite app_nil_r. rewrite HD1. done.
    + simpl hd. rewrite decide_False.
      2:{ eapply ring_ne_head; [exact R3|in_solver]. }
      destruct (ring_at h3 head K y R2' R3) as (Hyn & _). rewrite Hyn. simpl.
      destruct (IH (length R2') ltac:(simpl in *; lia) R2' K h3 y fuel inner)
        as (h' & D & Hloop & Q' & HD & Rs'); try done.
      { intros p Hp. destruct (Hk3 p) as [-> _]; [clear -Hp; in_solver|].
        apply Hk. assert (p ∈ D1 ++ pe' :: y :: R2') as Hp' by (clear -Hp; in_solver).
        rewrite <- HD1 in Hp'. done. }
      { simpl in *. lia. }
      { simpl in *. lia. }
      exists h', ((D1 ++ [pe']) ++ D). split; [done|]. split; [done|]. split.
      * rewrite HD1. rewrite <- (assoc_L (++)). simpl. rewrite <- (assoc_L (++)).
        apply Permutation_app_head. simpl. apply perm_skip. done.
      * apply (reshaped_mono (cells h (D1 ++ [pe']) ++ cells h3 D) _
                 (head :: K ++ pe :: x :: R') _); [|done|eapply reshaped_trans; [exact Rs3|]].
        2:{ eapply reshaped_mono; [done| |exact Rs']. intros p Hp.
            assert (p ∈ head :: K ++ D1 ++ pe' :: y :: R2') as Hp'' by (clear -Hp; in_solver).
            rewrite <- HD1 in Hp''. clear -Hp''. in_solver. }
        intros p. unfold cells. rewrite !fmap_app.
        rewrite (list_fmap_ext (valptr h3) (valptr h) D).
        2:{ intros i q Hq. apply Hk3. apply elem_of_app. right.
            eapply elem_of_Permutation_proper; [exact HD|].
            apply elem_of_app. left. by eapply list_elem_of_lookup_2. }
        clear. in_solver.
  - (* [pe] stays *)
    rewrite Hxn. simpl. rewrite (ring_next_last h head K (pe :: x :: R') Rg). simpl.
    destruct (IH (length R') ltac:(simpl in *; lia) R' (K ++ [pe]) h x fuel inner)
      as (h' & D & Hloop & Q' & HD & Rs'); try done.
    { by norm_app. }
    { by norm_app. }
    { intros p Hp. apply Hk. by right. }
    { simpl in *. lia. }
    { simpl in *. lia. }
    rewrite lastd_snoc in Hloop. norm_app in Q'. norm_app in Rs'.
    assert (dedup (λ a b, same_key k b a) false (pe :: x :: R')
            = pe :: dedup (λ a b, same_key k b a) false (x :: R')) as Hmodel.
    { rewrite dedup_cons2.
      assert (same_key k x pe = false) as -> by (unfold same_key; by rewrite bool_decide_false).
      done. }
    rewrite Hmodel in Hkeep. subst keep.
    exists h', D. split; [done|]. split; [done|]. split; [|done].
    rewrite <- Permutation_middle. by rewrite <- HD.
Qed.

Lemma q_delete_dup0_spec h head ns fuel :
  queue h head ns → (length ns ≤ fuel)%nat →
  ∃ h' D,
    Part0.q_delete_dup fuel h head = Ok (h', true) ∧
    queue h' head (dedup (λ a b, same_key (key h) b a) false ns) ∧
    ns ≡ₚ D ++ dedup (λ a b, same_key (key h) b a) false ns ∧
    reshaped (cells h D) (head :: ns) h h'.
Proof.
  intros [R P] Hf. unfold Part0.q_delete_dup.
  rewrite decide_False by (eapply ring_nonnull; [done|left]).
  rewrite (ring_next_head _ _ _ R). simpl.
  destruct ns as [|pe ns'].
  - simpl. rewrite (ring_next_head _ _ _ R). simpl.
    exists h, []. split; [|split; [done|split; [done|apply reshaped_nil, relinked_refl]]].
    destruct fuel; simpl; by rewrite decide_True.
  - simpl hd. destruct (ring_cons_at _ _ _ _ R) as (Hn & _). rewrite Hn. simpl.
    destruct (dup_loop0_spec head (key h) (length ns') ns' [] h pe fuel fuel)
      as (h' & D & Hl & Q' & HD & Rs); try done; try (simpl in Hf; lia).
    exists h', D. simpl in Hl. rewrite Hl. done.
Qed.

(** ** Chains *)

Lemma chain_nil h p : chain h p [] ↔ p = NULL.
Proof.
  unfold chain. simpl. split; [by intros (_ & ? & _)|].
  intros ->. split; [by intros ?%elem_of_nil|done].
Qed.

Lemma chain_cons h p x l :
  chain h p (x :: l) ↔
    p = x ∧ x ≠ NULL ∧ load_next h x = Ok (hd NULL l) ∧ chain h (hd NULL l) l.
Proof.
  unfold chain. change ((x :: l) ++ [NULL]) with (x :: l ++ [NULL]).
  split.
  - intros (Hn & -> & F). apply not_elem_of_cons in Hn as [? ?].
    split; [done|]. split; [done|]. split.
    + rewrite <- (hd_snoc NULL l). apply fwd_hd; [done|by destruct l].
    + split; [done|]. split; [done|]. by eapply fwd_tail.
  - intros (-> & Hx & Hn & Hl & _ & F). split; [|split; [done|]].
    + apply not_elem_of_cons. done.
    + destruct l as [|y l]; simpl in *; done.
Qed.

Lemma chain_ext h h' p l :
  (∀ q, q ∈ l → load_next h' q = load_next h q) → chain h p l → chain h' p l.
Proof.
  intros Hext (Hn & Hp & F). split; [done|]. split; [done|]. by eapply fwd_snoc_ext.
Qed.

Lemma chain_relinked S h h' p l :
  relinked S h h' → (∀ q, q ∈ l → q ∉ S) → chain h p l → chain h' p l.
Proof.
  intros R Hd. apply chain_ext. intros q Hq. eapply relinked_load_next; eauto.
Qed.

Lemma chain_is_node h p l q : chain h p l → q ∈ l → is_node h q.
Proof. intros (_ & _ & F) Hq. by eapply fwd_snoc_is_node. Qed.

Lemma chain_hd h p l : chain h p l → p = hd NULL l.
Proof. by intros (_ & ? & _). Qed.

Lemma chain_NULL h p l : chain h p l → p = NULL ↔ l = [].
Proof.
  intros (Hn & -> & _). destruct l as [|x l]; simpl; [done|].
  split; [|done]. intros ->. exfalso. apply Hn. left.
Qed.

Lemma keyed_relinked S h h' k l : relinked S h h' → keyed h k l → keyed h' k l.
Proof. intros R Hk p Hp. rewrite (relinked_strval _ _ _ R). by apply Hk. Qed.

Lemma keyed_mono h k l l' : (∀ p, p ∈ l' → p ∈ l) → keyed h k l → keyed h k l'.
Proof. intros Hsub Hk p Hp. apply Hk. by apply Hsub. Qed.

(** ** The list-level merge *)

Section merge_lists.
  Context (le : Z → Z → bool).

Lemma merge_nil_l l : merge_lists le [] l = l.
  Proof. by destruct l. Qed.

Lemma merge_nil_r l : merge_lists le l [] = l.
  Proof. by destruct l. Qed.

Lemma merge_cons x a y b :
    merge_lists le (x :: a) (y :: b) =
      if le x y then x :: merge_lists le a (y :: b)
      else y :: merge_lists le (x :: a) b.
  Proof. done. Qed.

Lemma merge_perm a b : merge_lists le a b ≡ₚ a ++ b.
  Proof.
    revert b. induction a as [|x a IHa]; intros b; [by rewrite merge_nil_l|].
    induction b as [|y b IHb]; [by rewrite merge_nil_r, app_nil_r|].
    rewrite merge_cons. destruct (le x y).
    - by rewrite IHa.
    - rewrite IHb. by rewrite <- Permutation_middle.
  Qed.

Lemma merge_length a b : length (merge_lists le a b) = (length a + length b)%nat.
  Proof. by rewrite merge_perm, length_app. Qed.

Lemma merge_nil_inv a b : merge_lists le a b = [] → a = [] ∧ b = [].
  Proof.
    intros H. pose proof (merge_length a b) as Hl. rewrite H in Hl.
    destruct a, b; simpl in *; try done; lia.
  Qed.
End merge_lists.

(** ** The two-way merge on the heap *)

Lemma assign_spec h head tail v l :
  place_ok h tail l →
  ∃ h' head', assign h head tail v = Ok (h', head') ∧
    at_place h' head' tail v ∧ relinked (place_nodes tail) h h' ∧
    (tail ≠ Local → head' = head).
Proof.
  destruct tail as [|t]; simpl.
  - intros _. exists h, v. split; [done|]. split; [done|]. split; [apply relinked_refl|done].
  - intros [N _]. exists (set_next h t v), head. rewrite store_next_ok by done.
    split; [done|]. split; [by apply load_next_set_next_eq|].
    split; [apply relinked_set_next; left|done].
Qed.

Lemma Zlor_NULL_l b : Z.lor NULL b = b.
Proof. done. Qed.

Lemma Zlor_NULL_r a : Z.lor a NULL = a.
Proof. apply Z.lor_0_r. Qed.

Lemma at_place_relinked S h h' head tail v :
  relinked S h h' → (∀ t, tail = NextOf t → t ∉ S) →
  at_place h head tail v → at_place h' head tail v.
Proof.
  intros R Ht. destruct tail as [|t]; simpl; [done|].
  intros <-. eapply relinked_load_next; [done|]. by apply Ht.
Qed.

Lemma merge_loop1_done fuel h head tail a b :
  a = NULL ∨ b = NULL →
  Part1.merge_loop fuel h head tail a b = assign h head tail (Z.lor a b).
Proof.
  intros H. destruct fuel; simpl;
    rewrite decide_False by (intros [? ?]; destruct H; done); done.
Qed.

(** The [while (a && b)] of the second revision. *)
Lemma merge_loop1_spec k n : ∀ la lb h head tail fuel,
  (length la + length lb = n)%nat →
  chain h (hd NULL la) la → chain h (hd NULL lb) lb →
  NoDup (la ++ lb) → keyed h k (la ++ lb) → place_ok h tail (la ++ lb) →
  (length la + length lb ≤ fuel)%nat →
  ∃ h' head',
    Part1.merge_loop fuel h head tail (hd NULL la) (hd NULL lb) = Ok (h', head') ∧
    at_place h' head' tail (hd NULL (merge_lists (le_key k) la lb)) ∧
    chain h' (hd NULL (merge_lists (le_key k) la lb)) (merge_lists (le_key k) la lb) ∧
    relinked (place_nodes tail ++ la ++ lb) h h' ∧
    (tail ≠ Local → head' = head).
Proof.
  induction n as [|n IH]; intros la lb h head tail fuel Hn Ca Cb ND Hk Hp Hf.
  { destruct la, lb; simpl in Hn; try lia.
    destruct (assign_spec h head tail NULL [] ltac:(by destruct tail as [|t]; [|destruct Hp]))
      as (h' & head' & Has & Hat & Rl & Hh).
    exists h', head'. split; [|split; [done|split; [|split; [|done]]]].
    - simpl hd. rewrite merge_loop1_done by (by left). exact Has.
    - apply chain_nil. done.
    - by rewrite app_nil_r. }
  destruct la as [|x la'].
  { (* a is NULL *)
    rewrite merge_nil_l. simpl hd at 1. simpl in Hp, ND, Hk.
    destruct (assign_spec h head tail (hd NULL lb) lb Hp) as (h' & head' & Has & Hat & Rl & Hh).
    exists h', head'. split; [|split; [done|split; [|split; [|done]]]].
    - rewrite merge_loop1_done by (by left). by rewrite Zlor_NULL_l.
    - eapply chain_relinked; [done| |done]. intros q Hq.
      destruct tail as [|t]; simpl; [by intros ?%elem_of_nil|].
      destruct Hp as [_ Hp]. intros ->%list_elem_of_singleton. done.
    - eapply relinked_mono; [|done]. intros p. in_solver. }
  destruct lb as [|y lb'].
  { (* b is NULL *)
    rewrite merge_nil_r. simpl hd at 2. rewrite app_nil_r in *.
    destruct (assign_spec h head tail (hd NULL (x :: la')) (x :: la') Hp)
      as (h' & head' & Has & Hat & Rl & Hh).
    exists h', head'. split; [|split; [done|split; [|split; [|done]]]].
    - rewrite merge_loop1_done by (by right). by rewrite Zlor_NULL_r.
    - eapply chain_relinked; [done| |done]. intros q Hq.
      destruct tail as [|t]; simpl; [by intros ?%elem_of_nil|].
      destruct Hp as [_ Hp]. intros ->%list_elem_of_singleton. done.
    - eapply relinked_mono; [|done]. intros p. in_solver. }
  destruct fuel as [|fuel]; [simpl in Hf; lia|].
  apply chain_cons in Ca as (_ & Hx0 & Hxn & Ca'). apply chain_cons in Cb as (_ & Hy0 & Hyn & Cb').
  assert (chain h y (y :: lb')) as Cb by (apply chain_cons; done).
  assert (chain h x (x :: la')) as Ca by (apply chain_cons; done).
  remember (merge_lists (le_key k) (x :: la') (y :: lb')) as m eqn:Hm.
  rewrite merge_cons in Hm. unfold le_key in Hm at 1.
  simpl hd at 1 2. simpl Part1.merge_loop.
  rewrite decide_True by done.
  rewrite (Hk x), (Hk y) by in_solver. simpl.
  destruct (assign_spec h head tail x _ Hp) as (h1 & head1 & Has & Hat & Rl & Hh).
  destruct (assign_spec h head tail y _ Hp) as (h1' & head1' & Has' & Hat' & Rl' & Hh').
  assert (∀ q, q ∈ (x :: la') ++ y :: lb' → q ∉ place_nodes tail) as Hdisj.
  { intros q Hq. destruct tail as [|t]; simpl; [by intros ?%elem_of_nil|].
    destruct Hp as [_ Hp]. intros ->%list_elem_of_singleton. done. }
  destruct (decide (strcmp (k x) (k y) ≤ 0)) as [Hle|Hle].
  - rewrite bool_decide_true in Hm by done. subst m. rewrite Has. simpl.
    rewrite (relinked_load_next _ _ _ Rl) by (apply Hdisj; in_solver).
    rewrite Hxn. simpl.
    destruct (IH la' (y :: lb') h1 head1 (NextOf x) fuel) as (h' & head' & Hl & Hat2 & Cm & Rl2 & Hh2).
    { simpl in Hn |- *. lia. }
    { eapply chain_relinked; [done| |done]. intros q Hq. apply Hdisj. in_solver. }
    { eapply chain_relinked; [done| |done]. intros q Hq. apply Hdisj. in_solver. }
    { by apply NoDup_cons in ND as [_ ?]. }
    { eapply keyed_relinked; [done|]. eapply keyed_mono; [|done]. intros p. in_solver. }
    { split.
      - apply (relinked_is_node _ _ _ Rl). by eapply chain_is_node; [|left].
      - by apply NoDup_cons in ND as [? _]. }
    { simpl in Hf |- *. lia. }
    exists h', head'. split; [done|]. simpl in Hat2.
    split; [|split; [|split]].
    + simpl hd. destruct tail as [|t]; simpl in *.
      * rewrite Hh2 by done. done.
      * rewrite (relinked_load_next _ _ _ Rl2); [done|].
        destruct Hp as [_ Hp]. clear -Hp. in_solver.
    + apply chain_cons. done.
    + eapply relinked_trans.
      * eapply relinked_mono; [|exact Rl]. intros p. clear. in_solver.
      * eapply relinked_mono; [|exact Rl2]. intros p. clear. simpl. in_solver.
    + intros Ht. rewrite Hh2 by done. by apply Hh.
  - rewrite bool_decide_false in Hm by done. subst m. rewrite Has'. simpl.
    rewrite (relinked_load_next _ _ _ Rl') by (apply Hdisj; in_solver).
    rewrite Hyn. simpl.
    destruct (IH (x :: la') lb' h1' head1' (NextOf y) fuel) as (h' & head' & Hl & Hat2 & Cm & Rl2 & Hh2).
    { simpl in Hn |- *. lia. }
    { eapply chain_relinked; [done| |done]. intros q Hq. apply Hdisj. in_solver. }
    { eapply chain_relinked; [done| |done]. intros q Hq. apply Hdisj. in_solver. }
    { eapply submseteq_NoDup; [|done]. apply submseteq_skips_l. apply submseteq_cons. done. }
    { eapply keyed_relinked; [done|]. eapply keyed_mono; [|done]. intros p. in_solver. }
    { split.
      - apply (relinked_is_node _ _ _ Rl'). by eapply chain_is_node; [|left].
      - intros Hin. eapply (NoDup_app_cons_ne (x :: la') y lb' y); [done|done|done]. }
    { simpl in Hf |- *. lia. }
    exists h', head'. split; [done|]. simpl in Hat2.
    split; [|split; [|split]].
    + simpl hd. destruct tail as [|t]; simpl in *.
      * rewrite Hh2 by done. done.
      * rewrite (relinked_load_next _ _ _ Rl2); [done|].
        destruct Hp as [_ Hp]. clear -Hp. in_solver.
    + apply chain_cons. done.
    + eapply relinked_trans.
      * eapply relinked_mono; [|exact Rl']. intros p. clear. in_solver.
      * eapply relinked_mono; [|exact Rl2]. intros p. clear. simpl. in_solver.
    + intros Ht. rewrite Hh2 by done. by apply Hh'.
Qed.

Lemma merge1_spec k : merge_spec k Part1.merge.
Proof.
  intros la lb h fuel Ca Cb ND Hk Hf. unfold Part1.merge.
  destruct (merge_loop1_spec k _ la lb h NULL Local fuel eq_refl Ca Cb ND Hk I Hf)
    as (h' & head' & Hl & Hat & Cm & Rl & _).
  simpl in Hat. subst head'. exists h'. done.
Qed.

(** The [for (;;)] of the first revision; both chains are non-empty. *)
Lemma merge_loop0_spec k n : ∀ x la y lb h head tail fuel,
  (length la + length lb = n)%nat →
  chain h x (x :: la) → chain h y (y :: lb) →
  NoDup ((x :: la) ++ y :: lb) → keyed h k ((x :: la) ++ y :: lb) →
  place_ok h tail ((x :: la) ++ y :: lb) →
  (length la + length lb < fuel)%nat →
  ∃ h' head',
    Part0.merge_loop fuel h head tail x y = Ok (h', head') ∧
    at_place h' head' tail (hd NULL (merge_lists (le_key k) (x :: la) (y :: lb))) ∧
    chain h' (hd NULL (merge_lists (le_key k) (x :: la) (y :: lb)))
      (merge_lists (le_key k) (x :: la) (y :: lb)) ∧
    relinked (place_nodes tail ++ (x :: la) ++ y :: lb) h h' ∧
    (tail ≠ Local → head' = head).
Proof.
  induction n as [n IH] using lt_wf_ind.
  intros x la y lb h head tail fuel Hn Ca Cb ND Hk Hp Hf.
  destruct fuel as [|fuel]; [lia|].
  pose proof Ca as (_ & Hx0 & Hxn & Ca')%chain_cons.
  pose proof Cb as (_ & Hy0 & Hyn & Cb')%chain_cons.
  remember (merge_lists (le_key k) (x :: la) (y :: lb)) as m eqn:Hm.
  rewrite merge_cons in Hm. unfold le_key in Hm at 1.
  simpl Part0.merge_loop.
  rewrite (Hk x), (Hk y) by in_solver. simpl.
  destruct (assign_spec h head tail x _ Hp) as (h1 & head1 & Has & Hat & Rl & Hh).
  destruct (assign_spec h head tail y _ Hp) as (h1' & head1' & Has' & Hat' & Rl' & Hh').
  assert (∀ q, q ∈ (x :: la) ++ y :: lb → q ∉ place_nodes tail) as Hdisj.
  { intros q Hq. destruct tail as [|t]; simpl; [by intros ?%elem_of_nil|].
    destruct Hp as [_ Hp]. intros ->%list_elem_of_singleton. done. }
  assert (∀ t, tail = NextOf t → t ∉ (x :: la) ++ y :: lb) as Htail.
  { intros t ->. by destruct Hp. }
  destruct (decide (strcmp (k x) (k y) ≤ 0)) as [Hle|Hle].
  - rewrite bool_decide_true in Hm by done. subst m. rewrite Has. simpl.
    rewrite (relinked_load_next _ _ _ Rl) by (apply Hdisj; in_solver).
    rewrite Hxn. simpl.
    assert (chain h1 y (y :: lb)) as Cb1.
    { eapply chain_relinked; [done| |done]. intros q Hq. apply Hdisj. in_solver. }
    assert (is_node h1 x) as Nx1.
    { apply (relinked_is_node _ _ _ Rl). by eapply chain_is_node; [|left]. }
    assert (x ∉ la ++ y :: lb) as Hxn' by (by apply NoDup_cons in ND as [? _]).
    destruct la as [|x' la'].
    + (* the first chain is used up *)
      simpl hd. rewrite decide_True by done. rewrite ?merge_nil_l.
      simpl. rewrite store_next_ok by done. simpl.
      exists (set_next h1 x y), head1. split; [done|]. split; [|split; [|split; [|done]]].
      * eapply at_place_relinked; [apply (relinked_set_next [x]); left| |done].
        intros t ->. destruct Hp as [_ Hp]. clear -Hp. in_solver.
      * apply chain_cons. split; [done|]. split; [done|]. split.
        -- by apply load_next_set_next_eq.
        -- simpl. eapply chain_relinked; [apply (relinked_set_next [x]); left| |done].
           intros q Hq ->%list_elem_of_singleton. apply Hxn'. done.
      * eapply relinked_trans.
        -- eapply relinked_mono; [|exact Rl]. intros p. clear. in_solver.
        -- apply relinked_set_next. clear. in_solver.
    + simpl hd. rewrite decide_False.
      2:{ apply chain_cons in Ca' as (_ & ? & _). done. }
      destruct (IH (length la' + length lb)%nat ltac:(simpl in Hn; lia)
                  x' la' y lb h1 head1 (NextOf x) fuel)
        as (h' & head' & Hl & Hat2 & Cm & Rl2 & Hh2).
      { done. }
      { eapply chain_relinked; [done| |done]. intros q Hq. apply Hdisj. in_solver. }
      { done. }
      { by apply NoDup_cons in ND as [_ ?]. }
      { eapply keyed_relinked; [done|]. eapply keyed_mono; [|done]. intros p. in_solver. }
      { done. }
      { simpl in Hf |- *. lia. }
      exists h', head'. split; [done|]. simpl in Hat2.
      split; [|split; [|split]].
      * simpl hd. destruct tail as [|t]; simpl in *.
        -- rewrite Hh2 by done. done.
        -- rewrite (relinked_load_next _ _ _ Rl2); [done|].
           destruct Hp as [_ Hp]. clear -Hp. in_solver.
      * apply chain_cons. done.
      * eapply relinked_trans.
        -- eapply relinked_mono; [|exact Rl]. intros p. clear. in_solver.
        -- eapply relinked_mono; [|exact Rl2]. intros p. clear. simpl. in_solver.
      * intros Ht. rewrite Hh2 by done. by apply Hh.
  - rewrite bool_decide_false in Hm by done. subst m. rewrite Has'. simpl.
    rewrite (relinked_load_next _ _ _ Rl') by (apply Hdisj; in_solver).
    rewrite Hyn. simpl.
    assert (chain h1' x (x :: la)) as Ca1.
    { eapply chain_relinked; [done| |done]. intros q Hq. apply Hdisj. in_solver. }
    assert (is_node h1' y) as Ny1.
    { apply (relinked_is_node _ _ _ Rl'). by eapply chain_is_node; [|left]. }
    assert (y ∉ (x :: la) ++ lb) as Hyn'.
    { intros Hin. by eapply (NoDup_app_cons_ne (x :: la) y lb y). }
    destruct lb as [|y' lb'].
    + simpl hd. rewrite decide_True by done. rewrite ?merge_nil_r.
      simpl. rewrite store_next_ok by done. simpl.
      exists (set_next h1' y x), head1'. split; [done|]. split; [|split; [|split; [|done]]].
      * eapply at_place_relinked; [apply (relinked_set_next [y]); left| |done].
        intros t ->. destruct Hp as [_ Hp]. clear -Hp. in_solver.
      * apply chain_cons. split; [done|]. split; [done|]. split.
        -- by apply load_next_set_next_eq.
        -- simpl. eapply chain_relinked; [apply (relinked_set_next [y]); left| |done].
           intros q Hq ->%list_elem_of_singleton. apply Hyn'. clear -Hq. in_solver.
      * eapply relinked_trans.
        -- eapply relinked_mono; [|exact Rl']. intros p. clear. in_solver.
        -- apply relinked_set_next. clear. in_solver.
    + simpl hd. rewrite decide_False.
      2:{ apply chain_cons in Cb' as (_ & ? & _). done. }
      destruct (IH (length la + length lb')%nat ltac:(simpl in Hn; lia)
                  x la y' lb' h1' head1' (NextOf y) fuel)
        as (h' & head' & Hl & Hat2 & Cm & Rl2 & Hh2).
      { done. }
      { done. }
      { eapply chain_relinked; [done| |done]. intros q Hq. apply Hdisj. in_solver. }
      { eapply submseteq_NoDup; [|exact ND]. apply submseteq_skips_l, submseteq_cons. done. }
      { eapply keyed_relinked; [done|]. eapply keyed_mono; [|done]. intros p. in_solver. }
      { split; [done|]. clear -Hyn'. in_solver. }
      { simpl in Hf |- *. lia. }
      exists h', head'. split; [done|]. simpl in Hat2.
      split; [|split; [|split]].
      * simpl hd. destruct tail as [|t]; simpl in *.
        -- rewrite Hh2 by done. done.
        -- rewrite (relinked_load_next _ _ _ Rl2); [done|].
           destruct Hp as [_ Hp]. clear -Hp. in_solver.
      * apply chain_cons. done.
      * eapply relinked_trans.
        -- eapply relinked_mono; [|exact Rl']. intros p. clear. in_solver.
        -- eapply relinked_mono; [|exact Rl2]. intros p. clear. simpl. in_solver.
      * intros Ht. rewrite Hh2 by done. by apply Hh'.
Qed.

Lemma merge0_spec k : merge_spec k Part0.merge.
Proof.
  intros la lb h fuel Ca Cb ND Hk Hf. unfold Part0.merge.
  destruct la as [|x la].
  { rewrite merge_nil_l. exists h. rewrite decide_True by (by left).
    rewrite decide_False by (by intros ?). split; [done|]. split; [done|apply relinked_refl]. }
  destruct lb as [|y lb].
  { rewrite merge_nil_r. exists h. rewrite decide_True by (by right).
    rewrite decide_True by (by apply chain_cons in Ca as (_ & ? & _)).
    split; [done|]. split; [done|apply relinked_refl]. }
  simpl hd at 2 3 4 5.
  rewrite decide_False.
  2:{ apply chain_cons in Ca as (_ & ? & _). apply chain_cons in Cb as (_ & ? & _).
      intros [?|?]; done. }
  destruct (merge_loop0_spec k _ x la y lb h NULL Local fuel eq_refl Ca Cb ND Hk I)
    as (h' & head' & Hl & Hat & Cm & Rl & _); [simpl in Hf; lia|].
  simpl in Hat. subst head'. exists h'. done.
Qed.

(** ** The pending runs *)

Section runs.
  Context (le : Z → Z → bool).

Lemma carry_runs_length runs r : length (carry_runs le runs r) = length runs.
  Proof.
    revert r. induction runs as [|p rest IH]; intros r; [done|].
    destruct p; [done|]. destruct rest; [done|]. simpl in *. by rewrite IH.
  Qed.

Lemma carry_runs_perm runs r :
    runs ≠ [] → concat (carry_runs le runs r) ≡ₚ concat runs ++ r.
  Proof.
    revert r. induction runs as [|p rest IH]; intros r Hne; [done|].
    destruct p as [|x p].
    { simpl. apply Permutation_app_comm. }
    destruct rest as [|q rest].
    { cbn [carry_runs concat]. rewrite !app_nil_r. apply merge_perm. }
    change (carry_runs le ((x :: p) :: q :: rest) r)
      with ([] :: carry_runs le (q :: rest) (merge_lists le (x :: p) r)).
    rewrite !concat_cons. rewrite IH by done. rewrite merge_perm.
    rewrite !concat_cons. solve_Permutation.
  Qed.

Lemma fill_runs_length runs l : length (fill_runs le runs l) = length runs.
  Proof.
    revert runs. induction l as [|x l IH]; intros runs; [done|].
    simpl. rewrite IH. apply carry_runs_length.
  Qed.

Lemma fill_runs_perm runs l :
    runs ≠ [] → concat (fill_runs le runs l) ≡ₚ concat runs ++ l.
  Proof.
    revert runs. induction l as [|x l IH]; intros runs Hne; [by rewrite app_nil_r|].
    simpl. rewrite IH.
    - rewrite carry_runs_perm by done. by rewrite <- (assoc_L (++)).
    - intros E. apply (f_equal length) in E. rewrite carry_runs_length in E.
      by destruct runs.
  Qed.

Lemma merge_runs_perm runs r : merge_runs le runs r ≡ₚ concat runs ++ r.
  Proof.
    revert r. induction runs as [|p rest IH]; intros r; [done|].
    simpl. rewrite IH, merge_perm.
    rewrite (assoc_L (++)). by rewrite (Permutation_app_comm (concat rest)).
  Qed.
End runs.

(** ** The loops over the pending runs, for any merge that meets its
    specification *)

Lemma Forall2_chain_relinked S h h' ps runs :
  relinked S h h' → (∀ q, q ∈ concat runs → q ∉ S) →
  Forall2 (chain h) ps runs → Forall2 (chain h') ps runs.
Proof.
  intros R Hd F. induction F as [|p l ps runs Hc F IH]; [constructor|].
  constructor.
  - eapply chain_relinked; [done| |done]. intros q Hq. apply Hd. simpl. in_solver.
  - apply IH. intros q Hq. apply Hd. simpl. in_solver.
Qed.

Lemma array_get_app (plo : list Z) p phi : array_get (plo ++ p :: phi) (length plo) = Ok p.
Proof. unfold array_get. by rewrite list_lookup_middle. Qed.

Lemma array_set_app (plo : list Z) p phi v :
  array_set (plo ++ p :: phi) (length plo) v = Ok (plo ++ v :: phi).
Proof.
  unfold array_set. rewrite decide_True by (rewrite length_app; simpl; lia).
  f_equal. rewrite insert_app_r_alt by lia. by rewrite Nat.sub_diag.
Qed.

Section engine.
  Context (k : Z → string) (merge : nat → heap → Z → Z → res (heap * Z)).
  Context (Hmerge : merge_spec k merge).

Lemma carry_spec : ∀ hi lo plo phi h r fuel inner,
    Forall2 (chain h) plo lo → Forall2 (chain h) phi hi →
    (length lo + length hi = SORT_BUFSIZE)%nat → hi ≠ [] →
    chain h (hd NULL r) r → r ≠ [] →
    NoDup (concat lo ++ concat hi ++ r) → keyed h k (concat hi ++ r) →
    (length hi ≤ fuel)%nat → (length (concat hi) + length r ≤ inner)%nat →
    ∃ h' pending' i' result' final,
      carry merge fuel inner h (plo ++ phi) (length lo) (hd NULL r)
        = Ok (h', pending', i', result') ∧
      array_set pending' (if decide (i' = SORT_BUFSIZE) then (i' - 1)%nat else i') result'
        = Ok final ∧
      Forall2 (chain h') final (lo ++ carry_runs (le_key k) hi r) ∧
      relinked (concat hi ++ r) h h'.
  Proof.
    induction hi as [|p rest IH]; intros lo plo phi h r fuel inner Flo Fhi Hlen Hne Cr Hr ND Hk Hf Hi;
      [done|].
    pose proof (Forall2_length _ _ _ Flo) as Hlo.
    apply Forall2_cons_inv_r in Fhi as (pp & prest & Cp & Frest & ->).
    assert (length lo < SORT_BUFSIZE)%nat as Hlt by (simpl in Hlen; lia).
    assert (∀ f, carry merge f inner h (plo ++ pp :: prest) (length lo) (hd NULL r) =
              if decide (pp = NULL) then Ok (h, plo ++ pp :: prest, length lo, hd NULL r)
              else match f with
                   | O => Timeout
                   | S f =>
                       '(h, result) ← merge inner h pp (hd NULL r);
                       pending ← array_set (plo ++ pp :: prest) (length lo) NULL;
                       carry merge f inner h pending (S (length lo)) result
                   end) as Hstep.
    { intros f. rewrite <- Hlo.
      destruct f; simpl; rewrite decide_True by lia; rewrite array_get_app; done. }
    rewrite Hstep. clear Hstep.
    destruct p as [|x p].
    { (* an empty entry *)
      apply chain_nil in Cp as ->. rewrite decide_True by done.
      eexists h, _, _, _, _. split; [done|]. rewrite decide_False by lia.
      rewrite <- Hlo, array_set_app. split; [done|]. split; [|apply relinked_refl].
      apply Forall2_app; [done|]. simpl. by constructor. }
    assert (pp ≠ NULL) as Hpp.
    { apply chain_cons in Cp as (-> & ? & _). done. }
    rewrite decide_False by done.
    destruct fuel as [|fuel]; [simpl in Hf; lia|].
    assert (pp = hd NULL (x :: p)) as Epp by (by apply chain_hd in Cp). rewrite Epp in Cp |- *.
    destruct (Hmerge (x :: p) r h inner) as (h1 & Hm & Cm & Rl1); try done.
    { eapply submseteq_NoDup; [|exact ND]. rewrite concat_cons. solve_submseteq. }
    { eapply keyed_mono; [|done]. intros q. simpl. in_solver. }
    { simpl in Hi |- *. rewrite length_app in Hi. lia. }
    rewrite Hm. simpl. rewrite <- Hlo, array_set_app. simpl.
    set (m := merge_lists (le_key k) (x :: p) r) in *.
    assert (∀ q, q ∈ concat lo ++ concat rest → q ∉ (x :: p) ++ r) as Hdisj.
    { intros q Hq Hin. simpl in ND.
      assert (NoDup (concat lo ++ x :: p ++ concat rest ++ r)) as ND' by (by norm_app in ND).
      clear -ND' Hq Hin. revert ND'. rewrite !NoDup_app, NoDup_cons, !NoDup_app.
      intros (_ & H1 & Hx & _ & H2 & _ & H3 & _).
      rewrite !elem_of_app, elem_of_cons in *.
      destruct Hq as [Hq|Hq].
      - apply (H1 q Hq). in_solver.
      - destruct Hin as [[->|Hin]|Hin].
        + apply Hx. in_solver.
        + apply (H2 q Hin). in_solver.
        + by apply (H3 q Hq). }
    assert (Forall2 (chain h1) plo lo) as Flo1.
    { eapply Forall2_chain_relinked; [done| |done]. intros q Hq. apply Hdisj. in_solver. }
    assert (Forall2 (chain h1) prest rest) as Frest1.
    { eapply Forall2_chain_relinked; [done| |done]. intros q Hq. apply Hdisj. in_solver. }
    destruct rest as [|q rest].
    { (* the last entry was occupied: the merge stays in it *)
      apply Forall2_nil_inv_r in Frest as ->.
      assert (S (length plo) = SORT_BUFSIZE) as E by (simpl in Hlen; lia).
      eexists h1, _, _, _, _. split.
      { destruct fuel; simpl; rewrite decide_False by lia; done. }
      rewrite decide_True by done. rewrite E.
      replace (SORT_BUFSIZE - 1)%nat with (length plo) by lia.
      rewrite array_set_app. split; [done|]. split.
      - apply Forall2_app; [done|]. cbn [carry_runs]. constructor; [done|constructor].
      - eapply relinked_mono; [|done]. intros z. simpl. in_solver. }
    destruct (IH (lo ++ [[]]) (plo ++ [NULL]) prest h1 m fuel inner)
      as (h' & pending' & i' & result' & final & Hc & Hset & Ff & Rl').
    { apply Forall2_app; [done|]. constructor; [by apply chain_nil|constructor]. }
    { done. }
    { rewrite length_app. simpl in Hlen |- *. lia. }
    { done. }
    { done. }
    { unfold m. intros E%merge_nil_inv. by destruct E. }
    { rewrite concat_app. simpl. rewrite app_nil_r. unfold m.
      eapply NoDup_Permutation_proper; [|exact ND].
      rewrite merge_perm, !concat_cons. solve_Permutation. }
    { eapply keyed_relinked; [done|]. intros z Hz. apply Hk. unfold m in Hz.
      rewrite elem_of_app, merge_perm, elem_of_app in Hz.
      rewrite (concat_cons (x :: p)), !elem_of_app. tauto. }
    { simpl in Hf |- *. lia. }
    { unfold m. rewrite merge_length. simpl in Hi |- *. rewrite !length_app in *. simpl. lia. }
    rewrite length_app in Hc. simpl in Hc. rewrite Nat.add_1_r in Hc.
    rewrite <- (assoc_L (++)) in Hc. simpl in Hc. rewrite Hlo.
    eexists h', pending', i', result', final. split; [exact Hc|]. split; [exact Hset|]. split.
    - rewrite <- (assoc_L (++)) in Ff. exact Ff.
    - eapply relinked_trans.
      + eapply relinked_mono; [|exact Rl1]. intros z. simpl. clear. in_solver.
      + eapply relinked_mono; [|exact Rl']. intros z Hz. unfold m in Hz.
        rewrite elem_of_app, merge_perm in Hz. simpl in Hz |- *. clear -Hz. in_solver.
  Qed.

Lemma sort_loop_spec : ∀ rest pending runs h fuel inner,
    Forall2 (chain h) pending runs → length runs = SORT_BUFSIZE →
    chain h (hd NULL rest) rest →
    NoDup (concat runs ++ rest) → keyed h k (concat runs ++ rest) →
    (length rest ≤ fuel)%nat → (length (concat runs) + length rest ≤ inner)%nat →
    ∃ h' pending',
      sort_loop merge fuel inner h pending (hd NULL rest) = Ok (h', pending') ∧
      Forall2 (chain h') pending' (fill_runs (le_key k) runs rest) ∧
      relinked (concat runs ++ rest) h h'.
  Proof.
    induction rest as [|x rest IH]; intros pending runs h fuel inner F Hlen C ND Hk Hf Hi.
    { exists h, pending. split; [by destruct fuel|]. split; [done|apply relinked_refl]. }
    apply chain_cons in C as (_ & Hx & Hnx & C).
    destruct fuel as [|fuel]; [simpl in Hf; lia|].
    cbn [sort_loop hd]. rewrite decide_False by done. rewrite Hnx. simpl.
    assert (is_node h x) as Nx by (by eapply load_next_is_node).
    rewrite store_next_ok by done. simpl.
    set (h1 := set_next h x NULL).
    assert ((x ∉ concat runs) ∧ (x ∉ rest) ∧ NoDup (concat runs ++ rest)) as (Hx1 & Hx2 & ND').
    { clear -ND. apply NoDup_app in ND as (N1 & N2 & N3). apply NoDup_cons in N3 as (N3 & N4).
      split; [|split; [done|]].
      - intros Hin. apply (N2 x Hin). left.
      - apply NoDup_app. split; [done|]. split; [|done].
        intros z Hz Hz'. apply (N2 z Hz). by right. }
    assert (relinked [x] h h1) as R1 by (apply relinked_set_next; left).
    assert (Forall2 (chain h1) pending runs) as F1.
    { eapply Forall2_chain_relinked; [done| |done].
      intros q Hq ->%list_elem_of_singleton. done. }
    assert (chain h1 (hd NULL [x]) [x]) as Cx.
    { apply chain_cons. split; [done|]. split; [done|]. split.
      - by apply load_next_set_next_eq.
      - by apply chain_nil. }
    assert (runs ≠ []) as Hne.
    { intros ->. simpl in Hlen. unfold SORT_BUFSIZE in Hlen. lia. }
    destruct (carry_spec runs [] [] pending h1 [x] SORT_BUFSIZE inner)
      as (h2 & pending2 & i2 & result2 & final & Hc & Hset & Ff & R2).
    { constructor. }
    { done. }
    { simpl. lia. }
    { done. }
    { done. }
    { done. }
    { simpl. eapply submseteq_NoDup; [|exact ND]. solve_submseteq. }
    { eapply keyed_relinked; [done|]. eapply keyed_mono; [|done].
      intros z. clear. in_solver. }
    { lia. }
    { simpl in Hi |- *. lia. }
    simpl in Hc. rewrite Hc. simpl. rewrite Hset. simpl.
    simpl in Ff.
    assert (chain h2 (hd NULL rest) rest) as C2.
    { eapply chain_relinked; [exact R2| |].
      - intros q Hq. clear -Hq ND. apply NoDup_app in ND as (N1 & N2 & N3).
        apply NoDup_cons in N3 as (N3 & N4).
        rewrite elem_of_app, list_elem_of_singleton. intros [Hin| ->]; [|done].
        apply (N2 q Hin). by right.
      - eapply chain_relinked; [exact R1| |done].
        intros q Hq ->%list_elem_of_singleton. done. }
    destruct (IH final (carry_runs (le_key k) runs [x]) h2 fuel inner)
      as (h' & pending' & Hs & Ff' & R').
    { done. }
    { by rewrite carry_runs_length. }
    { done. }
    { eapply NoDup_Permutation_proper; [|exact ND].
      rewrite carry_runs_perm by done. by rewrite <- (assoc_L (++)). }
    { eapply keyed_relinked; [exact R2|]. eapply keyed_relinked; [exact R1|].
      eapply keyed_mono; [|done]. intros z.
      rewrite elem_of_app, carry_runs_perm by done. clear. in_solver. }
    { simpl in Hf. lia. }
    { rewrite carry_runs_perm by done. rewrite length_app. simpl in Hi |- *. lia. }
    exists h', pending'. split; [exact Hs|]. split; [exact Ff'|].
    eapply relinked_trans; [|eapply relinked_trans].
    - eapply relinked_mono; [|exact R1]. intros z. clear. in_solver.
    - eapply relinked_mono; [|exact R2]. intros z. clear. in_solver.
    - eapply relinked_mono; [|exact R']. intros z.
      rewrite elem_of_app, carry_runs_perm by done. clear. in_solver.
  Qed.

Lemma merge_all_spec bound : ∀ (mid lo : list (list Z)) (plo pmid phi : list Z) h r fuel inner,
    length plo = length lo → Forall2 (chain h) pmid mid →
    (length lo + length mid = bound)%nat →
    chain h (hd NULL r) r →
    NoDup (concat mid ++ r) → keyed h k (concat mid ++ r) →
    (length mid ≤ fuel)%nat → (length (concat mid) + length r ≤ inner)%nat →
    ∃ h',
      merge_all merge bound fuel inner h (plo ++ pmid ++ phi) (length lo) (hd NULL r)
        = Ok (h', hd NULL (merge_runs (le_key k) mid r)) ∧
      chain h' (hd NULL (merge_runs (le_key k) mid r)) (merge_runs (le_key k) mid r) ∧
      relinked (concat mid ++ r) h h'.
  Proof.
    induction mid as [|p mid IH]; intros lo plo pmid phi h r fuel inner Hlo F Hlen C ND Hk Hf Hi.
    { exists h. split; [|split; [done|apply relinked_refl]].
      simpl in Hlen. destruct fuel; simpl; rewrite decide_False by lia; done. }
    apply Forall2_cons_inv_r in F as (pp & prest & Cp & F & ->).
    destruct fuel as [|fuel]; [simpl in Hf; lia|].
    cbn [merge_all]. rewrite decide_True by (simpl in Hlen; lia).
    rewrite <- Hlo. change ((pp :: prest) ++ phi) with (pp :: prest ++ phi).
    rewrite array_get_app. simpl.
    assert (pp = hd NULL p) as -> by (by apply chain_hd in Cp).
    destruct (Hmerge p r h inner) as (h1 & Hm & Cm & R1); try done.
    { eapply submseteq_NoDup; [|exact ND]. rewrite concat_cons. solve_submseteq. }
    { eapply keyed_mono; [|done]. intros z. rewrite concat_cons. clear. in_solver. }
    { rewrite concat_cons, length_app in Hi. lia. }
    rewrite Hm. simpl.
    set (m := merge_lists (le_key k) p r) in *.
    destruct (IH (lo ++ [p]) (plo ++ [hd NULL p]) prest phi h1 m fuel inner) as (h' & Ha & Ca & R').
    { rewrite !length_app. simpl. lia. }
    { eapply Forall2_chain_relinked; [done| |done].
      intros q Hq Hin. clear -ND Hq Hin. rewrite concat_cons in ND.
      revert ND. rewrite !NoDup_app. intros ((_ & H1 & _) & H2 & _).
      apply elem_of_app in Hin as [Hin|Hin].
      - apply (H1 q Hin Hq).
      - apply (H2 q); [|done]. in_solver. }
    { rewrite length_app. simpl in Hlen |- *. lia. }
    { done. }
    { eapply NoDup_Permutation_proper; [|exact ND]. unfold m.
      rewrite merge_perm, concat_cons. solve_Permutation. }
    { eapply keyed_relinked; [done|]. eapply keyed_mono; [|done]. intros z. unfold m.
      rewrite elem_of_app, merge_perm, concat_cons. clear. in_solver. }
    { simpl in Hf. lia. }
    { unfold m. rewrite merge_length. rewrite concat_cons, length_app in Hi. lia. }
    rewrite length_app in Ha. simpl in Ha. rewrite Nat.add_1_r in Ha.
    rewrite <- (assoc_L (++)) in Ha. simpl in Ha. rewrite Hlo.
    exists h'. split; [exact Ha|]. split; [exact Ca|].
    eapply relinked_trans.
    - eapply relinked_mono; [|exact R1]. intros z. clear. in_solver.
    - eapply relinked_mono; [|exact R']. intros z. unfold m.
      rewrite elem_of_app, merge_perm. clear. in_solver.
  Qed.
End engine.

(** ** Restoring the back links and closing the circle *)

Lemma chain_fwd h p l : chain h p l → fwd h l.
Proof.
  intros (_ & _ & F). destruct l as [|x l]; [done|].
  change ((x :: l) ++ [NULL]) with ((x :: l) ++ [NULL]) in F.
  by apply (fwd_join _ _ _ _ NULL) in F as (F & _).
Qed.

Lemma chain_snoc h x l :
  NULL ∉ x :: l → fwd h (x :: l) → load_next h (lastd x l) = Ok NULL → chain h x (x :: l).
Proof.
  intros Hn F Hl. split; [done|]. split; [done|].
  apply (fwd_join _ _ _ _ NULL); done.
Qed.

Lemma relink_loop_spec : ∀ l t h fuel,
  load_next h t = Ok (hd NULL l) → chain h (hd NULL l) l →
  t ∉ l → NoDup l → (length l ≤ fuel)%nat →
  ∃ h', relink_loop fuel h t = Ok (h', lastd t l) ∧
    bwd h' (t :: l) ∧ relinked l h h' ∧ (∀ p, load_next h' p = load_next h p).
Proof.
  induction l as [|x l IH]; intros t h fuel Ht C Hnt ND Hf.
  { exists h. split; [|split; [done|split; [apply relinked_refl|done]]].
    simpl in Ht. destruct fuel; simpl; rewrite Ht; done. }
  apply chain_cons in C as (_ & Hx & Hnx & C).
  destruct fuel as [|fuel]; [simpl in Hf; lia|].
  simpl in Ht. cbn [relink_loop]. rewrite Ht. simpl. rewrite decide_False by done.
  assert (is_node h x) as Nx by (by eapply load_next_is_node).
  rewrite store_prev_ok by done. simpl. rewrite load_next_set_prev, Ht. simpl.
  apply NoDup_cons in ND as (Hxl & ND).
  destruct (IH x (set_prev h x t) fuel) as (h' & Hr & B & R & Hn).
  { by rewrite load_next_set_prev. }
  { eapply chain_ext; [|done]. intros q _. apply load_next_set_prev. }
  { done. }
  { done. }
  { simpl in Hf. lia. }
  exists h'. split; [exact Hr|]. split; [|split].
  - apply bwd_cons. split; [|done].
    rewrite (relinked_load_prev _ _ _ R) by done. by apply load_prev_set_prev_eq.
  - eapply relinked_trans.
    + apply relinked_set_prev. left.
    + eapply relinked_mono; [|done]. intros z. clear. in_solver.
  - intros p. by rewrite Hn, load_next_set_prev.
Qed.

Lemma ring_close h head m :
  h !! NULL = None → is_node h head → NoDup (head :: m) →
  fwd h (head :: m) → bwd h (head :: m) →
  ring (set_prev (set_next h (lastd head m) head) head (lastd head m)) head m.
Proof.
  intros H0 Nh ND F B.
  assert (is_node h (lastd head m)) as Nl.
  { pose proof (lastd_in head m) as Hl. apply elem_of_cons in Hl as [E|Hin]; [by rewrite E|].
    by eapply bwd_cons_is_node. }
  apply ring_open. split; [by apply lookup_NULL_set_prev, lookup_NULL_set_next|].
  split; [done|]. split; [|split; [|split]].
  - eapply fwd_ext_nolast; [done| |done]. intros p Hp Hne.
    rewrite load_next_set_prev. by apply load_next_set_next_ne.
  - eapply bwd_cons_ext; [|done]. intros p Hp.
    rewrite load_prev_set_prev_ne, load_prev_set_next; [done|].
    apply NoDup_cons in ND as (Hh & _). by intros ->.
  - rewrite load_next_set_prev. by apply load_next_set_next_eq.
  - apply load_prev_set_prev_eq. by apply is_node_set_next.
Qed.

(** The clean-up pass of both revisions: from the node [lastd head P] on,
    the chain [m] gets its back links, and the circle is closed. *)
Lemma relink_close h head P m fuel :
  h !! NULL = None → is_node h head → NoDup (head :: P ++ m) →
  fwd h (head :: P) → bwd h (head :: P) →
  load_next h (lastd head P) = Ok (hd NULL m) → chain h (hd NULL m) m →
  (length m ≤ fuel)%nat →
  ∃ h1 h',
    relink_loop fuel h (lastd head P) = Ok (h1, lastd head (P ++ m)) ∧
    store_next h1 (lastd head (P ++ m)) head
      = Ok (set_next h1 (lastd head (P ++ m)) head) ∧
    store_prev (set_next h1 (lastd head (P ++ m)) head) head (lastd head (P ++ m)) = Ok h' ∧
    ring h' head (P ++ m) ∧ relinked (head :: P ++ m) h h'.
Proof.
  intros H0 Nh ND F B Hl C Hf.
  assert ((lastd head P ∉ m) ∧ NoDup m ∧ NoDup (head :: P) ∧ ∀ q, q ∈ head :: P → q ∉ m)
    as (Hlm & NDm & NDP & Hdisj).
  { change (head :: P ++ m) with ((head :: P) ++ m) in ND.
    apply NoDup_app in ND as (N1 & N2 & N3). split; [|done].
    apply N2, lastd_in. }
  destruct (relink_loop_spec m (lastd head P) h fuel) as (h1 & Hr & B1 & R1 & Hn); try done.
  assert (lastd (lastd head P) m = lastd head (P ++ m)) as El.
  { destruct m as [|y m]; [by rewrite app_nil_r|]. by rewrite lastd_app. }
  rewrite El in Hr.
  assert (fwd h1 (head :: P)) as FP.
  { eapply fwd_ext_nolast; [done| |done]. intros p _ _. apply Hn. }
  assert (bwd h1 (head :: P)) as BP.
  { destruct P as [|y P]; [done|]. eapply bwd_cons_ext; [|done]. intros p Hp.
    eapply relinked_load_prev; [done|]. apply Hdisj. by right. }
  assert (fwd h1 (head :: P ++ m) ∧ bwd h1 (head :: P ++ m)) as (F1 & B2).
  { destruct m as [|y m]; [by rewrite app_nil_r|].
    change (head :: P ++ y :: m) with ((head :: P) ++ y :: m).
    rewrite (fwd_join _ _ _ _ NULL), (bwd_join _ _ _ _ NULL) by done.
    apply bwd_cons in B1 as (B1 & B1').
    split; (split; [done|]); (split; [|try done]).
    - by rewrite Hn.
    - eapply fwd_ext_nolast; [done| |by eapply chain_fwd]. intros p _ _. apply Hn.
    - done. }
  assert (is_node h1 (lastd head (P ++ m))) as Nl.
  { pose proof (lastd_in head (P ++ m)) as Hl'. apply elem_of_cons in Hl' as [E|Hin].
    - rewrite E. by apply (relinked_is_node _ _ _ R1).
    - by eapply bwd_cons_is_node. }
  exists h1, (set_prev (set_next h1 (lastd head (P ++ m)) head) head (lastd head (P ++ m))).
  split; [done|]. split; [by apply store_next_ok|].
  split; [apply store_prev_ok; apply is_node_set_next; by apply (relinked_is_node _ _ _ R1)|].
  split.
  - apply ring_close; try done.
    + by apply (relinked_lookup_None _ _ _ R1).
    + by apply (relinked_is_node _ _ _ R1).
  - eapply relinked_trans; [|eapply relinked_trans].
    + eapply relinked_mono; [|exact R1]. intros z. clear. in_solver.
    + apply relinked_set_next. apply lastd_in.
    + apply relinked_set_prev. left.
Qed.

(** ** The final merge of the second revision *)

Lemma lastd_is_node h head P : is_node h head → bwd h (head :: P) → is_node h (lastd head P).
Proof.
  intros Nh B. pose proof (lastd_in head P) as Hl.
  apply elem_of_cons in Hl as [E|Hin]; [by rewrite E|]. by eapply bwd_cons_is_node.
Qed.

Lemma NoDup_disjoint (A B big : list Z) q :
  NoDup big → A ++ B ⊆+ big → q ∈ A → q ∉ B.
Proof.
  intros ND Hsub HA HB. eapply submseteq_NoDup in ND; [|done].
  apply NoDup_app in ND as (_ & N2 & _). by apply (N2 q).
Qed.

(** One node more on the restored part of the list. *)
Lemma final_step h head P z :
  is_node h head → is_node h z → z ∉ head :: P → NoDup (head :: P) →
  fwd h (head :: P) → bwd h (head :: P) →
  fwd (set_prev (set_next h (lastd head P) z) z (lastd head P)) (head :: P ++ [z]) ∧
  bwd (set_prev (set_next h (lastd head P) z) z (lastd head P)) (head :: P ++ [z]) ∧
  relinked [lastd head P; z] h (set_prev (set_next h (lastd head P) z) z (lastd head P)) ∧
  load_next (set_prev (set_next h (lastd head P) z) z (lastd head P)) (lastd head P) = Ok z ∧
  load_next (set_prev (set_next h (lastd head P) z) z (lastd head P)) z = load_next h z.
Proof.
  intros Nh Nz Hz ND F B.
  assert (is_node h (lastd head P)) as Nl by (by apply lastd_is_node).
  assert (lastd head P ≠ z) as Hne.
  { intros E. apply Hz. rewrite <- E. apply lastd_in. }
  change (head :: P ++ [z]) with ((head :: P) ++ [z]).
  rewrite (fwd_join _ _ _ _ NULL), (bwd_join _ _ _ _ NULL) by done.
  split; [|split; [|split; [|split]]].
  - split; [|split; [|done]].
    + eapply fwd_ext_nolast; [done| |done]. intros p Hp Hpl.
      rewrite load_next_set_prev. by apply load_next_set_next_ne.
    + rewrite load_next_set_prev. by apply load_next_set_next_eq.
  - split; [|split; [|done]].
    + destruct P as [|y P]; [done|]. eapply bwd_cons_ext; [|done]. intros p Hp.
      rewrite load_prev_set_prev_ne, load_prev_set_next; [done|].
      intros ->. apply Hz. by right.
    + apply load_prev_set_prev_eq. by apply is_node_set_next.
  - eapply relinked_trans.
    + apply relinked_set_next. left.
    + apply relinked_set_prev. right. left.
  - rewrite load_next_set_prev. by apply load_next_set_next_eq.
  - rewrite load_next_set_prev. by apply load_next_set_next_ne.
Qed.

Lemma final_loop_done fuel h tail a b :
  a = NULL ∨ b = NULL →
  Part1.final_loop fuel h tail a b = (h ← store_next h tail (Z.lor a b); Ok (h, tail)).
Proof.
  intros H. destruct fuel; simpl; rewrite decide_False; try done; by intros [? ?]; destruct H.
Qed.

Lemma final_loop_spec k n : ∀ la lb P h head fuel,
  (length la + length lb = n)%nat →
  is_node h head → fwd h (head :: P) → bwd h (head :: P) →
  chain h (hd NULL la) la → chain h (hd NULL lb) lb →
  NoDup (head :: P ++ la ++ lb) → keyed h k (la ++ lb) →
  (n ≤ fuel)%nat →
  ∃ h' m1 m2,
    Part1.final_loop fuel h (lastd head P) (hd NULL la) (hd NULL lb)
      = Ok (h', lastd head (P ++ m1)) ∧
    m1 ++ m2 = merge_lists (le_key k) la lb ∧
    fwd h' (head :: P ++ m1) ∧ bwd h' (head :: P ++ m1) ∧
    load_next h' (lastd head (P ++ m1)) = Ok (hd NULL m2) ∧
    chain h' (hd NULL m2) m2 ∧
    relinked (head :: P ++ la ++ lb) h h'.
Proof.
  induction n as [|n IH]; intros la lb P h head fuel Hn Nh F B Ca Cb ND Hk Hf.
  all: assert (is_node h (lastd head P)) as Nl by (by apply lastd_is_node).
  all: assert (NoDup (head :: P) ∧ ∀ q, q ∈ la ++ lb → q ∉ head :: P) as (NDP & Hdisj).
  1, 3: change (head :: P ++ la ++ lb) with ((head :: P) ++ la ++ lb) in ND;
    apply NoDup_app in ND as (N1 & N2 & N3); split; [done|];
    intros q Hq Hq'; by apply (N2 q Hq' Hq).
  all: assert (∀ v m, hd NULL m = v → merge_lists (le_key k) la lb = m →
         chain h (hd NULL m) m → (∀ q, q ∈ m → q ∈ la ++ lb) →
         (la = [] ∨ lb = []) → Z.lor (hd NULL la) (hd NULL lb) = v →
         ∃ h' m1 m2,
           Part1.final_loop fuel h (lastd head P) (hd NULL la) (hd NULL lb)
             = Ok (h', lastd head (P ++ m1)) ∧
           m1 ++ m2 = merge_lists (le_key k) la lb ∧
           fwd h' (head :: P ++ m1) ∧ bwd h' (head :: P ++ m1) ∧
           load_next h' (lastd head (P ++ m1)) = Ok (hd NULL m2) ∧
           chain h' (hd NULL m2) m2 ∧
           relinked (head :: P ++ la ++ lb) h h') as Hdone.
  1, 3: intros v m Hv Hm Cm Hsub Hnil Hor;
    exists (set_next h (lastd head P) v), [], m; rewrite app_nil_r;
    (split; [rewrite final_loop_done by
               (destruct Hnil as [-> | ->]; [by left|by right]);
             rewrite Hor, store_next_ok by done; done|]);
    (split; [done|]);
    (split; [eapply fwd_ext_nolast; [done| |done]; intros p Hp Hpl;
             by apply load_next_set_next_ne|]);
    (split; [destruct P as [|y P]; [done|]; eapply bwd_cons_ext; [|done]; intros p Hp;
             apply load_prev_set_next|]);
    (split; [rewrite Hv; by apply load_next_set_next_eq|]);
    (split; [eapply chain_ext; [|done]; intros q Hq; apply load_next_set_next_ne;
             intros E; apply (Hdisj q); [by apply Hsub|rewrite <- E; apply lastd_in]|]);
    (eapply relinked_mono; [|apply (relinked_set_next [lastd head P]); left]);
    intros z ->%list_elem_of_singleton;
    pose proof (lastd_in head P) as Hl; clear -Hl; in_solver.
  { destruct la, lb; simpl in Hn; try lia.
    apply (Hdone NULL []); [done|done|done|done|by left|done]. }
  destruct la as [|x la'].
  { apply (Hdone (hd NULL lb) lb); [done|by rewrite merge_nil_l|done|done|by left|done]. }
  destruct lb as [|y lb'].
  { apply (Hdone (hd NULL (x :: la')) (x :: la'));
      [done|by rewrite merge_nil_r|done| |by right|apply Zlor_NULL_r].
    intros q. by rewrite app_nil_r. }
  clear Hdone.
  destruct fuel as [|fuel]; [lia|].
  apply chain_cons in Ca as (_ & Hx0 & Hxn & Ca'). apply chain_cons in Cb as (_ & Hy0 & Hyn & Cb').
  assert (chain h y (y :: lb')) as Cb by (apply chain_cons; done).
  assert (chain h x (x :: la')) as Ca by (apply chain_cons; done).
  remember (merge_lists (le_key k) (x :: la') (y :: lb')) as m eqn:Hm.
  rewrite merge_cons in Hm. unfold le_key in Hm at 1.
  simpl hd at 1 2. simpl Part1.final_loop.
  rewrite decide_True by done.
  rewrite (Hk x), (Hk y) by in_solver. simpl.
  assert (is_node h x) as Nx by (by eapply load_next_is_node).
  assert (is_node h y) as Ny by (by eapply load_next_is_node).
  destruct (decide (strcmp (k x) (k y) ≤ 0)) as [Hle|Hle].
  - rewrite bool_decide_true in Hm by done. subst m.
    destruct (final_step h head P x) as (F1 & B1 & R1 & Ht & Hx1); try done.
    { apply Hdisj. clear. in_solver. }
    rewrite store_next_ok by done. simpl.
    rewrite store_prev_ok by (by apply is_node_set_next). simpl.
    rewrite Ht. simpl. rewrite Hx1, Hxn. simpl.
    set (h1 := set_prev (set_next h (lastd head P) x) x (lastd head P)) in *.
    assert (∀ q, q ∈ la' ++ (y :: lb') → q ∉ [lastd head P; x]) as Hfr.
    { intros q Hq Hin. apply elem_of_cons in Hin as [->| ->%list_elem_of_singleton].
      - apply (Hdisj (lastd head P)); [clear -Hq; in_solver|apply lastd_in].
      - eapply (NoDup_disjoint (la' ++ (y :: lb')) [x] _ x ND); [solve_submseteq|done|left]. }
    destruct (IH la' (y :: lb') (P ++ [x]) h1 head fuel)
      as (h' & m1 & m2 & Hl & Em & F' & B' & Hn' & C' & R').
    { simpl in Hn |- *. lia. }
    { by apply (relinked_is_node _ _ _ R1). }
    { done. }
    { done. }
    { eapply chain_relinked; [exact R1| |done]. intros q Hq. apply Hfr. clear -Hq. in_solver. }
    { eapply chain_relinked; [exact R1| |done]. intros q Hq. apply Hfr. clear -Hq. in_solver. }
    { eapply submseteq_NoDup; [|exact ND]. solve_submseteq. }
    { eapply keyed_relinked; [done|]. eapply keyed_mono; [|done]. intros p. clear. in_solver. }
    { simpl in Hn. lia. }
    rewrite lastd_snoc in Hl. rewrite <- !(assoc_L (++)) in *. simpl in Hl, F', B', Hn'.
    exists h', (x :: m1), m2. split; [exact Hl|]. split; [simpl; by rewrite Em|].
    split; [done|]. split; [done|]. split; [done|]. split; [done|].
    eapply relinked_trans.
    + eapply relinked_mono; [|exact R1]. intros p.
      pose proof (lastd_in head P) as Hlp. clear -Hlp. in_solver.
    + eapply relinked_mono; [|exact R']. intros p. clear. in_solver.
  - rewrite bool_decide_false in Hm by done. subst m.
    destruct (final_step h head P y) as (F1 & B1 & R1 & Ht & Hx1); try done.
    { apply Hdisj. clear. in_solver. }
    rewrite store_next_ok by done. simpl.
    rewrite store_prev_ok by (by apply is_node_set_next). simpl.
    rewrite Ht. simpl. rewrite Hx1, Hyn. simpl.
    set (h1 := set_prev (set_next h (lastd head P) y) y (lastd head P)) in *.
    assert (∀ q, q ∈ (x :: la') ++ lb' → q ∉ [lastd head P; y]) as Hfr.
    { intros q Hq Hin. apply elem_of_cons in Hin as [->| ->%list_elem_of_singleton].
      - apply (Hdisj (lastd head P)); [clear -Hq; in_solver|apply lastd_in].
      - eapply (NoDup_disjoint ((x :: la') ++ lb') [y] _ y ND); [solve_submseteq|done|left]. }
    destruct (IH (x :: la') lb' (P ++ [y]) h1 head fuel)
      as (h' & m1 & m2 & Hl & Em & F' & B' & Hn' & C' & R').
    { simpl in Hn |- *. lia. }
    { by apply (relinked_is_node _ _ _ R1). }
    { done. }
    { done. }
    { eapply chain_relinked; [exact R1| |done]. intros q Hq. apply Hfr. clear -Hq. in_solver. }
    { eapply chain_relinked; [exact R1| |done]. intros q Hq. apply Hfr. clear -Hq. in_solver. }
    { eapply submseteq_NoDup; [|exact ND]. solve_submseteq. }
    { eapply keyed_relinked; [done|]. eapply keyed_mono; [|done]. intros p. clear. in_solver. }
    { simpl in Hn. lia. }
    rewrite lastd_snoc in Hl. rewrite <- !(assoc_L (++)) in *. simpl in Hl, F', B', Hn'.
    exists h', (y :: m1), m2. split; [exact Hl|]. split; [simpl; by rewrite Em|].
    split; [done|]. split; [done|]. split; [done|]. split; [done|].
    eapply relinked_trans.
    + eapply relinked_mono; [|exact R1]. intros p.
      pose proof (lastd_in head P) as Hlp. clear -Hlp. in_solver.
    + eapply relinked_mono; [|exact R']. intros p. clear. in_solver.
Qed.

Lemma merge_final_spec k h head la lb fuel :
  h !! NULL = None → is_node h head →
  chain h (hd NULL la) la → chain h (hd NULL lb) lb →
  NoDup (head :: la ++ lb) → keyed h k (la ++ lb) →
  (length la + length lb ≤ fuel)%nat →
  ∃ h', Part1.merge_final fuel h head (hd NULL la) (hd NULL lb) = Ok h' ∧
    ring h' head (merge_lists (le_key k) la lb) ∧
    relinked (head :: la ++ lb) h h'.
Proof.
  intros H0 Nh Ca Cb ND Hk Hf.
  destruct (final_loop_spec k _ la lb [] h head fuel eq_refl Nh I I Ca Cb ND Hk Hf)
    as (h1 & m1 & m2 & Hl & Em & F1 & B1 & Hn1 & C1 & R1).
  simpl in Hl, F1, B1, Hn1.
  assert (m1 ++ m2 ≡ₚ la ++ lb) as Hp by (by rewrite Em, merge_perm).
  destruct (relink_close h1 head m1 m2 fuel) as (h2 & h' & Hr & Hs1 & Hs2 & Hring & R2).
  { by apply (relinked_lookup_None _ _ _ R1). }
  { by apply (relinked_is_node _ _ _ R1). }
  { apply NoDup_cons in ND as (Hh & ND). apply NoDup_cons. rewrite Hp. done. }
  { done. }
  { done. }
  { done. }
  { done. }
  { apply (f_equal length) in Em. rewrite merge_length, length_app in Em. lia. }
  exists h'. unfold Part1.merge_final. simpl in Hl. rewrite Hl. simpl.
  rewrite Hr. simpl. rewrite Hs1. simpl. rewrite Hs2.
  split; [done|]. rewrite <- Em. split; [done|].
  eapply relinked_trans; [exact R1|].
  eapply relinked_mono; [|exact R2]. intros z.
  rewrite !elem_of_cons, Hp. tauto.
Qed.

(** ** [q_sort] *)

Lemma Forall2_chain_replicate h n : Forall2 (chain h) (replicate n NULL) (replicate n []).
Proof. induction n; simpl; constructor; [by apply chain_nil|done]. Qed.

Lemma concat_replicate_nil {A} n : concat (replicate n (@nil A)) = [].
Proof. induction n; simpl; done. Qed.

Lemma queue_keyed h head ns : queue h head ns → keyed h (key h) ns.
Proof. intros Q p Hp. by eapply queue_strval. Qed.

Section q_sort.
  Context (merge : nat → heap → Z → Z → res (heap * Z)).
  Context (Hmerge : ∀ k, merge_spec k merge).

  (** The part that both revisions share: the circle is cut, and the
      elements go into the pending runs. *)
Lemma sort_fill h head x l fuel :
    queue h head (x :: l) → l ≠ [] → (length (x :: l) ≤ fuel)%nat →
    ∃ h1 h2 pending,
      load_next h head = Ok x ∧ load_prev h head = Ok (lastd x l) ∧ x ≠ lastd x l ∧
      store_next h (lastd x l) NULL = Ok h1 ∧
      sort_loop merge fuel fuel h1 (replicate SORT_BUFSIZE NULL) x = Ok (h2, pending) ∧
      Forall2 (chain h2) pending
        (fill_runs (le_key (key h)) (replicate SORT_BUFSIZE []) (x :: l)) ∧
      relinked (x :: l) h h2.
  Proof.
    intros Q Hl Hf. pose proof Q as (Hr & _).
    pose proof (ring_next_head _ _ _ Hr) as Hfirst. simpl in Hfirst.
    pose proof Hr as (H0 & ND & F & B)%ring_open. simpl in B.
    assert (x ≠ lastd x l) as Hne.
    { intros E. apply NoDup_cons in ND as (_ & ND). apply NoDup_cons in ND as (Hx & _).
      apply Hx. rewrite E. by apply lastd_in_ne. }
    assert (is_node h (lastd x l)) as Nl.
    { eapply ring_is_node; [done|]. right. apply lastd_in. }
    set (h1 := set_next h (lastd x l) NULL).
    assert (relinked [lastd x l] h h1) as R1 by (apply relinked_set_next; left).
    assert (chain h1 x (x :: l)) as C1.
    { apply chain_snoc.
      - intros Hin. eapply (ring_nonnull _ _ _ NULL Hr); [by right|done].
      - eapply fwd_ext_nolast; [by apply NoDup_cons in ND as (_ & ?)| |by eapply fwd_tail].
        intros p Hp Hpl. apply load_next_set_next_ne. done.
      - by apply load_next_set_next_eq. }
    destruct (sort_loop_spec (key h) merge (Hmerge _) (x :: l)
                (replicate SORT_BUFSIZE NULL) (replicate SORT_BUFSIZE []) h1 fuel fuel)
      as (h2 & pending & Hs & Ff & R2).
    { apply Forall2_chain_replicate. }
    { apply length_replicate. }
    { done. }
    { rewrite concat_replicate_nil. simpl. by apply NoDup_cons in ND as (_ & ?). }
    { rewrite concat_replicate_nil. simpl. eapply keyed_relinked; [done|].
      by eapply queue_keyed. }
    { done. }
    { rewrite concat_replicate_nil. simpl in Hf |- *. lia. }
    exists h1, h2, pending. split; [done|]. destruct B as (B & _).
    split; [|split; [done|split; [by apply store_next_ok|split; [done|split; [done|]]]]].
    { apply ring_open in Hr as (_ & _ & _ & _ & _ & Hp). exact Hp. }
    rewrite concat_replicate_nil in R2. simpl in R2.
    eapply relinked_trans; [|exact R2].
    eapply relinked_mono; [|exact R1]. intros z ->%list_elem_of_singleton.
    right. by apply lastd_in_ne.
  Qed.

Lemma sort_fill_frame h head x l h2 :
    queue h head (x :: l) → relinked (x :: l) h h2 →
    h2 !! NULL = None ∧ is_node h2 head ∧ keyed h2 (key h) (x :: l) ∧ NoDup (head :: x :: l).
  Proof.
    intros Q R. pose proof Q as (Hr & _). pose proof Hr as (H0 & ND & _).
    split; [by apply (relinked_lookup_None _ _ _ R)|].
    split; [apply (relinked_is_node _ _ _ R); eapply ring_is_node; [done|left]|].
    split; [|done]. eapply keyed_relinked; [done|]. by eapply queue_keyed.
  Qed.
End q_sort.

Lemma q_sort_small (l : list Z) le : (length l ≤ 1)%nat → sort0 le l = l ∧ sort1 le l = l.
Proof. destruct l as [|x [|y l]]; simpl; [done|done|lia]. Qed.

Lemma q_sort0_spec h head ns fuel :
  queue h head ns → (length ns ≤ fuel)%nat →
  ∃ h', Part0.q_sort fuel h head = Ok h' ∧
    queue h' head (sort0 (le_key (key h)) ns) ∧ relinked (head :: ns) h h'.
Proof.
  intros Q Hf. pose proof Q as (Hr & _).
  assert (head ≠ NULL) as Hh by (eapply ring_nonnull; [done|left]).
  unfold Part0.q_sort. rewrite decide_False by done.
  destruct ns as [|x l].
  { exists h. apply ring_open in Hr as (_ & _ & _ & _ & Hn & Hp). simpl in Hn, Hp.
    rewrite Hn, Hp. simpl. rewrite decide_True by done.
    split; [done|]. split; [done|apply relinked_refl]. }
  destruct (decide (l = [])) as [->|Hl].
  { exists h. apply ring_open in Hr as (_ & _ & (Hn & _) & _ & _ & Hp). simpl in Hn, Hp.
    rewrite Hn, Hp. simpl. rewrite decide_True by done.
    split; [done|]. split; [done|apply relinked_refl]. }
  destruct (sort_fill Part0.merge merge0_spec h head x l fuel Q Hl Hf)
    as (h1 & h2 & pending & Hn & Hp & Hne & Hs1 & Hs & Ff & R2).
  destruct (sort_fill_frame h head x l h2 Q R2) as (H02 & Nh2 & Hk2 & ND).
  rewrite Hn, Hp. cbn [mbind res_bind]. rewrite decide_False by done.
  rewrite Hs1. cbn [mbind res_bind]. rewrite Hs. cbn [mbind res_bind].
  set (runs := fill_runs (le_key (key h)) (replicate SORT_BUFSIZE []) (x :: l)) in *.
  assert (concat runs ≡ₚ x :: l) as Hperm.
  { unfold runs. rewrite fill_runs_perm by done. by rewrite concat_replicate_nil. }
  destruct (merge_all_spec (key h) Part0.merge (merge0_spec _) SORT_BUFSIZE
              runs [] [] pending [] h2 [] SORT_BUFSIZE fuel) as (h3 & Ha & Ca & R3).
  { done. }
  { done. }
  { unfold runs. rewrite fill_runs_length, length_replicate. done. }
  { by apply chain_nil. }
  { rewrite app_nil_r, Hperm. by apply NoDup_cons in ND as (_ & ?). }
  { rewrite app_nil_r. intros p Hq. apply Hk2. by rewrite <- Hperm. }
  { unfold runs. rewrite fill_runs_length, length_replicate. done. }
  { rewrite Hperm. simpl in Hf |- *. lia. }
  cbn [app length hd] in Ha. rewrite app_nil_r in Ha. rewrite Ha. cbn [mbind res_bind].
  change (sort0 (le_key (key h)) (x :: l)) with (merge_runs (le_key (key h)) runs []).
  set (m := merge_runs (le_key (key h)) runs []) in *.
  assert (m ≡ₚ x :: l) as Hm.
  { unfold m. by rewrite merge_runs_perm, app_nil_r. }
  rewrite app_nil_r in R3.
  assert (is_node h3 head) as Nh3 by (by apply (relinked_is_node _ _ _ R3)).
  rewrite store_next_ok by done. cbn [mbind res_bind].
  destruct (relink_close (set_next h3 head (hd NULL m)) head [] m fuel)
    as (h5 & h' & Hrl & Hs2 & Hs3 & Hring & R5).
  { apply lookup_NULL_set_next. by apply (relinked_lookup_None _ _ _ R3). }
  { by apply is_node_set_next. }
  { simpl. rewrite Hm. done. }
  { done. }
  { done. }
  { simpl. by apply load_next_set_next_eq. }
  { eapply chain_ext; [|done]. intros q Hq. apply load_next_set_next_ne.
    intros ->. apply NoDup_cons in ND as (ND & _). apply ND. by rewrite <- Hm. }
  { rewrite Hm. done. }
  cbn [app lastd] in Hrl, Hs2, Hs3, Hring, R5. rewrite Hrl. cbn [mbind res_bind]. rewrite Hs2. cbn [mbind res_bind]. rewrite Hs3.
  exists h'. split; [done|].
  assert (relinked (head :: x :: l) h h') as R.
  { eapply relinked_trans; [|eapply relinked_trans; [|eapply relinked_trans]].
    - eapply relinked_mono; [|exact R2]. intros z. clear. in_solver.
    - eapply relinked_mono; [|exact R3]. intros z. rewrite Hperm. clear. in_solver.
    - apply relinked_set_next. left.
    - eapply relinked_mono; [|exact R5]. intros z. rewrite !elem_of_cons, Hm, elem_of_cons. tauto. }
  split; [|done]. eapply queue_relinked; [exact R|done| |done]. by rewrite Hm.
Qed.

Lemma list_snoc_length {A} (l : list A) n :
  length l = S n → ∃ l' x, l = l' ++ [x] ∧ length l' = n.
Proof.
  destruct l as [|y l] using rev_ind; [done|]. rewrite length_app. simpl.
  intros E. exists l, y. split; [done|lia].
Qed.

Lemma q_sort1_spec h head ns fuel :
  queue h head ns → (length ns ≤ fuel)%nat →
  ∃ h', Part1.q_sort fuel h head = Ok h' ∧
    queue h' head (sort1 (le_key (key h)) ns) ∧ relinked (head :: ns) h h'.
Proof.
  intros Q Hf. pose proof Q as (Hr & _).
  assert (head ≠ NULL) as Hh by (eapply ring_nonnull; [done|left]).
  unfold Part1.q_sort. rewrite decide_False by done.
  destruct ns as [|x l].
  { exists h. apply ring_open in Hr as (_ & _ & _ & _ & Hn & Hp). simpl in Hn, Hp.
    rewrite Hn, Hp. simpl. rewrite decide_True by done.
    split; [done|]. split; [done|apply relinked_refl]. }
  destruct (decide (l = [])) as [->|Hl].
  { exists h. apply ring_open in Hr as (_ & _ & (Hn & _) & _ & _ & Hp). simpl in Hn, Hp.
    rewrite Hn, Hp. simpl. rewrite decide_True by done.
    split; [done|]. split; [done|apply relinked_refl]. }
  destruct (sort_fill Part1.merge merge1_spec h head x l fuel Q Hl Hf)
    as (h1 & h2 & pending & Hn & Hp & Hne & Hs1 & Hs & Ff & R2).
  destruct (sort_fill_frame h head x l h2 Q R2) as (H02 & Nh2 & Hk2 & ND).
  rewrite Hn, Hp. cbn [mbind res_bind]. rewrite decide_False by done.
  rewrite Hs1. cbn [mbind res_bind]. rewrite Hs. cbn [mbind res_bind].
  assert (sort1 (le_key (key h)) (x :: l) =
            let runs := fill_runs (le_key (key h)) (replicate SORT_BUFSIZE []) (x :: l) in
            merge_lists (le_key (key h)) (merge_runs (le_key (key h)) (take (SORT_BUFSIZE - 1) runs) [])
                (nth (SORT_BUFSIZE - 1)%nat runs [])) as Esort by done.
  cbv zeta in Esort.
  set (runs := fill_runs (le_key (key h)) (replicate SORT_BUFSIZE []) (x :: l)) in *.
  assert (concat runs ≡ₚ x :: l) as Hperm.
  { unfold runs. rewrite fill_runs_perm by done. by rewrite concat_replicate_nil. }
  assert (length runs = SORT_BUFSIZE) as Hlen.
  { unfold runs. by rewrite fill_runs_length, length_replicate. }
  destruct (list_snoc_length runs (SORT_BUFSIZE - 1)) as (mid & r31 & Eruns & Hmid); [done|].
  rewrite Eruns in Ff, Hperm, Esort.
  apply Forall2_app_inv_r in Ff as (pmid & plast & Fmid & Flast & ->).
  apply Forall2_cons_inv_r in Flast as (p31 & ? & C31 & ->%Forall2_nil_inv_r & ->).
  pose proof (Forall2_length _ _ _ Fmid) as Hpmid.
  rewrite take_app_length' in Esort by done.
  rewrite <- Hmid in Esort at 1. rewrite nth_middle in Esort.
  rewrite concat_app in Hperm. simpl in Hperm. rewrite app_nil_r in Hperm.
  destruct (merge_all_spec (key h) Part1.merge (merge1_spec _) (SORT_BUFSIZE - 1)
              mid [] [] pmid [p31] h2 [] SORT_BUFSIZE fuel) as (h3 & Ha & Ca & R3).
  { done. }
  { done. }
  { done. }
  { by apply chain_nil. }
  { rewrite app_nil_r. eapply submseteq_NoDup; [|exact ND]. rewrite <- Hperm. solve_submseteq. }
  { rewrite app_nil_r. intros p Hq. apply Hk2. rewrite <- Hperm. clear -Hq. in_solver. }
  { rewrite Hmid. unfold SORT_BUFSIZE. lia. }
  { pose proof (Permutation_length Hperm) as Hpl. rewrite length_app in Hpl.
    simpl in Hf, Hpl |- *. lia. }
  cbn [app length hd] in Ha. rewrite Ha. cbn [mbind res_bind]. rewrite app_nil_r in R3.
  replace (SORT_BUFSIZE - 1)%nat with (length pmid) by lia.
  rewrite array_get_app. cbn [mbind res_bind].
  set (m := merge_runs (le_key (key h)) mid []) in *.
  assert (m ≡ₚ concat mid) as Hm.
  { unfold m. by rewrite merge_runs_perm, app_nil_r. }
  assert (p31 = hd NULL r31) as -> by (by apply chain_hd in C31).
  destruct (merge_final_spec (key h) h3 head m r31 fuel) as (h' & Hmf & Hring & R4).
  { by apply (relinked_lookup_None _ _ _ R3). }
  { by apply (relinked_is_node _ _ _ R3). }
  { done. }
  { eapply chain_relinked; [exact R3| |done]. intros q Hq.
    eapply (NoDup_disjoint r31 (concat mid) _ q ND); [|done].
    rewrite <- Hperm. solve_submseteq. }
  { rewrite Hm, Hperm. done. }
  { eapply keyed_relinked; [exact R3|]. intros p Hq. apply Hk2. by rewrite <- Hperm, <- Hm. }
  { rewrite Hm. pose proof (Permutation_length Hperm) as Hpl. rewrite length_app in Hpl.
    simpl in Hf, Hpl |- *. lia. }
  rewrite Hmf. exists h'. split; [done|]. rewrite Esort.
  assert (merge_lists (le_key (key h)) m r31 ≡ₚ x :: l) as Hout.
  { by rewrite merge_perm, Hm. }
  assert (relinked (head :: x :: l) h h') as R.
  { eapply relinked_trans; [|eapply relinked_trans].
    - eapply relinked_mono; [|exact R2]. intros z. clear. in_solver.
    - eapply relinked_mono; [|exact R3]. intros z Hz. right. rewrite <- Hperm. clear -Hz. in_solver.
    - eapply relinked_mono; [|exact R4]. intros z. rewrite !elem_of_cons, Hm, Hperm, elem_of_cons. tauto. }
  split; [|done]. eapply queue_relinked; [exact R|done| |done]. by rewrite Hout.
Qed.

(** ** The order of [strcmp] *)

Lemma byte_nonneg c : 0 ≤ byte c.
Proof. unfold byte. lia. Qed.

Lemma strcmp_antisym s t : strcmp t s = - strcmp s t.
Proof.
  revert t. induction s as [|c s IH]; intros [|d t]; simpl; try lia.
  repeat case_decide; try lia; try congruence.
Qed.

Lemma strcmp_refl s : strcmp s s = 0.
Proof. pose proof (strcmp_antisym s s). lia. Qed.

Lemma strcmp_trans s t u : strcmp s t ≤ 0 → strcmp t u ≤ 0 → strcmp s u ≤ 0.
Proof.
  revert t u. induction s as [|c s IH]; intros [|d t] [|e u]; simpl;
    repeat match goal with
           | a : ascii |- _ => lazymatch goal with
                               | _ : 0 ≤ byte a |- _ => fail
                               | _ => pose proof (byte_nonneg a)
                               end
           end;
    repeat case_decide; try lia; try congruence.
  by eapply IH.
Qed.

Lemma strcmp_eq_trans s t u : strcmp s t = 0 → strcmp t u = 0 → strcmp s u = 0.
Proof.
  intros H1 H2.
  pose proof (strcmp_trans s t u). pose proof (strcmp_trans u t s).
  pose proof (strcmp_antisym s t). pose proof (strcmp_antisym t u).
  pose proof (strcmp_antisym s u). lia.
Qed.

Section order.
  Context (k : Z → string).

Lemma le_key_true x y : le_key k x y = true ↔ strcmp (k x) (k y) ≤ 0.
  Proof. unfold le_key. apply bool_decide_eq_true. Qed.

Lemma le_key_false x y : le_key k x y = false ↔ 0 < strcmp (k x) (k y).
  Proof. unfold le_key. rewrite bool_decide_eq_false. lia. Qed.

Lemma le_key_total x y : le_key k x y = true ∨ le_key k y x = true.
  Proof. rewrite !le_key_true. pose proof (strcmp_antisym (k x) (k y)). lia. Qed.

Lemma le_key_trans x y z :
    le_key k x y = true → le_key k y z = true → le_key k x z = true.
  Proof. rewrite !le_key_true. apply strcmp_trans. Qed.

Lemma same_key_true x y : same_key k x y = true ↔ strcmp (k x) (k y) = 0.
  Proof. unfold same_key. apply bool_decide_eq_true. Qed.

Lemma same_key_sym x y : same_key k x y = same_key k y x.
  Proof.
    unfold same_key. apply bool_decide_ext.
    pose proof (strcmp_antisym (k x) (k y)). lia.
  Qed.

  (** ** The merge of sorted runs is sorted and stable *)

Lemma merge_sorted a b :
    StronglySorted (λ x y, le_key k x y = true) a →
    StronglySorted (λ x y, le_key k x y = true) b →
    StronglySorted (λ x y, le_key k x y = true) (merge_lists (le_key k) a b).
  Proof.
    intros Sa. revert b. induction Sa as [|x a Sa IHa Fa]; intros b Sb.
    { by rewrite merge_nil_l. }
    induction Sb as [|y b Sb IHb Fb]; [rewrite merge_nil_r; by constructor|].
    rewrite merge_cons. destruct (le_key k x y) eqn:E.
    - constructor; [apply IHa; by constructor|].
      rewrite merge_perm. apply Forall_app. split; [done|].
      constructor; [done|]. eapply Forall_impl; [exact Fb|].
      intros z Hz. by eapply le_key_trans.
    - assert (le_key k y x = true) as E'.
      { destruct (le_key_total x y); congruence. }
      constructor; [done|].
      rewrite merge_perm. apply Forall_app. split; [|done].
      constructor; [done|]. eapply Forall_impl; [exact Fa|].
      intros z Hz. by eapply le_key_trans.
  Qed.

Lemma filter_none (P : Z → Prop) `{∀ x, Decision (P x)} l :
    Forall (λ z, ¬ P z) l → filter P l = [].
  Proof.
    induction 1 as [|z l Hz _ IH]; [done|]. by rewrite filter_cons_False.
  Qed.

  (** The elements of one key keep their order: those of [a] come first. *)
Lemma merge_stable c a b :
    StronglySorted (λ x y, le_key k x y = true) a →
    filter (λ y, same_key k c y = true) (merge_lists (le_key k) a b) =
      filter (λ y, same_key k c y = true) a ++ filter (λ y, same_key k c y = true) b.
  Proof.
    intros Sa. revert b. induction Sa as [|x a Sa IHa Fa]; intros b.
    { by rewrite merge_nil_l. }
    induction b as [|y b IHb]; [by rewrite merge_nil_r, app_nil_r|].
    rewrite merge_cons. destruct (le_key k x y) eqn:E.
    - rewrite !(filter_cons _ x). case_decide; simpl; by rewrite IHa.
    - rewrite (filter_cons _ y), (filter_cons _ y b). case_decide as Hc; [|by rewrite IHb].
      rewrite IHb. rewrite same_key_true in Hc. apply le_key_false in E.
      rewrite (filter_none _ (x :: a)); [done|].
      assert (Forall (λ z, strcmp (k x) (k z) ≤ 0) (x :: a)) as Fx.
      { constructor; [by rewrite strcmp_refl|].
        eapply Forall_impl; [exact Fa|]. intros z. by rewrite le_key_true. }
      eapply Forall_impl; [exact Fx|]. intros z Hz. simpl in Hz |- *. rewrite same_key_true. intros Hcz.
      pose proof (strcmp_antisym (k c) (k z)).
      pose proof (strcmp_trans (k x) (k z) (k c)).
      pose proof (strcmp_trans (k x) (k c) (k y)). lia.
  Qed.

  (** Where no element of [b] is smaller than one of [a], the merge is the
      concatenation. *)
Lemma merge_append a b :
    (∀ x y, x ∈ a → y ∈ b → le_key k x y = true) →
    merge_lists (le_key k) a b = a ++ b.
  Proof.
    induction a as [|x a IH]; intros Hle; [by rewrite merge_nil_l|].
    destruct b as [|y b]; [by rewrite merge_nil_r, app_nil_r|].
    rewrite merge_cons, (Hle x y) by (by left). simpl. f_equal.
    apply IH. intros x' y' Hx Hy. apply Hle; [by right|done].
  Qed.
End order.

(** ** The pending runs are sorted, and hold the input in a stable order *)

Lemma history_cons p rest : history (p :: rest) = history rest ++ p.
Proof. unfold history. rewrite reverse_cons, concat_app. simpl. by rewrite app_nil_r. Qed.

Lemma history_replicate_nil n : history (replicate n []) = [].
Proof.
  induction n as [|n IH]; [done|].
  change (replicate (S n) []) with (@nil Z :: replicate n []).
  by rewrite history_cons, IH.
Qed.

Lemma history_perm runs : history runs ≡ₚ concat runs.
Proof.
  induction runs as [|p rest IH]; [done|].
  rewrite history_cons, IH. simpl. apply Permutation_app_comm.
Qed.

Section sorting.
  Context (k : Z → string).

Lemma sorted_by_singleton x : sorted_by k [x].
  Proof. repeat constructor. Qed.

Lemma carry_runs_ok hi r :
    hi ≠ [] → Forall (sorted_by k) hi → sorted_by k r →
    Forall (sorted_by k) (carry_runs (le_key k) hi r) ∧
    ∀ c, filter (λ y, same_key k c y = true) (history (carry_runs (le_key k) hi r)) =
         filter (λ y, same_key k c y = true) (history hi) ++
         filter (λ y, same_key k c y = true) r.
  Proof.
    revert r. induction hi as [|p rest IH]; intros r Hne Fh Sr; [done|].
    apply Forall_cons in Fh as (Sp & Fr).
    destruct p as [|x p].
    { split; [by constructor|]. intros c. cbn [carry_runs].
      by rewrite !history_cons, !filter_app, app_nil_r. }
    destruct rest as [|q rest].
    { split.
      - cbn [carry_runs]. constructor; [|done]. by apply merge_sorted.
      - intros c. cbn [carry_runs]. rewrite !history_cons. simpl history.
        rewrite !app_nil_l. by apply merge_stable. }
    change (carry_runs (le_key k) ((x :: p) :: q :: rest) r)
      with ([] :: carry_runs (le_key k) (q :: rest) (merge_lists (le_key k) (x :: p) r)).
    destruct (IH (merge_lists (le_key k) (x :: p) r)) as (F' & H'); [done|done| |].
    { by apply merge_sorted. }
    split; [constructor; [constructor|done]|].
    intros c. rewrite (history_cons []), app_nil_r, H', merge_stable by done.
    rewrite (history_cons (x :: p)), filter_app. by rewrite <- (assoc_L (++)).
  Qed.

Lemma fill_runs_ok l : ∀ runs,
    runs ≠ [] → Forall (sorted_by k) runs →
    Forall (sorted_by k) (fill_runs (le_key k) runs l) ∧
    ∀ c, filter (λ y, same_key k c y = true) (history (fill_runs (le_key k) runs l)) =
         filter (λ y, same_key k c y = true) (history runs) ++
         filter (λ y, same_key k c y = true) l.
  Proof.
    induction l as [|x l IH]; intros runs Hne Fr.
    { split; [done|]. intros c. by rewrite filter_nil, app_nil_r. }
    destruct (carry_runs_ok runs [x] Hne Fr (sorted_by_singleton x)) as (F1 & H1).
    destruct (IH (carry_runs (le_key k) runs [x])) as (F2 & H2); [|done|].
    { intros E. apply (f_equal length) in E. rewrite carry_runs_length in E. by destruct runs. }
    split; [done|]. intros c. cbn [fill_runs foldl]. unfold fill_runs in H2. rewrite H2, H1.
    rewrite <- (assoc_L (++)). f_equal. change (x :: l) with ([x] ++ l). by rewrite filter_app.
  Qed.

Lemma merge_runs_ok runs : ∀ r,
    Forall (sorted_by k) runs → sorted_by k r →
    sorted_by k (merge_runs (le_key k) runs r) ∧
    ∀ c, filter (λ y, same_key k c y = true) (merge_runs (le_key k) runs r) =
         filter (λ y, same_key k c y = true) (history runs) ++
         filter (λ y, same_key k c y = true) r.
  Proof.
    induction runs as [|p rest IH]; intros r Fr Sr; [done|].
    apply Forall_cons in Fr as (Sp & Fr).
    destruct (IH (merge_lists (le_key k) p r)) as (S' & H'); [done|by apply merge_sorted|].
    split; [done|]. intros c.
    change (merge_runs (le_key k) (p :: rest) r)
      with (merge_runs (le_key k) rest (merge_lists (le_key k) p r)).
    rewrite H', merge_stable, history_cons, filter_app by done.
    by rewrite <- (assoc_L (++)).
  Qed.

Lemma Forall_sorted_replicate n : Forall (sorted_by k) (replicate n []).
  Proof. apply Forall_replicate. constructor. Qed.

Lemma replicate_SORT_BUFSIZE_ne : replicate SORT_BUFSIZE (@nil Z) ≠ [].
  Proof. done. Qed.

  (** The first revision sorts, and it is stable. *)
Lemma sort0_sorted l : sorted_by k (sort0 (le_key k) l).
  Proof.
    unfold sort0.
    destruct (fill_runs_ok l (replicate SORT_BUFSIZE [])) as (F & _);
      [done|apply Forall_sorted_replicate|].
    apply merge_runs_ok; [done|constructor].
  Qed.

Lemma sort0_stable l : stable_for k l (sort0 (le_key k) l).
  Proof.
    intros c. unfold sort0.
    destruct (fill_runs_ok l (replicate SORT_BUFSIZE [])) as (F & H);
      [done|apply Forall_sorted_replicate|].
    destruct (merge_runs_ok (fill_runs (le_key k) (replicate SORT_BUFSIZE []) l) [])
      as (_ & H'); [done|constructor|].
    rewrite H', H, history_replicate_nil. by rewrite filter_nil, app_nil_r.
  Qed.

Lemma sort0_perm l : sort0 (le_key k) l ≡ₚ l.
  Proof.
    unfold sort0. rewrite merge_runs_perm, app_nil_r, fill_runs_perm by done.
    by rewrite concat_replicate_nil.
  Qed.
End sorting.

(** ** The sizes of the pending runs *)

Lemma sized_cons i p q rest :
  sized i (p :: q :: rest) ↔
    (p = [] ∨ Z.of_nat (length p) = 2 ^ i) ∧ sized (i + 1) (q :: rest).
Proof. done. Qed.

Lemma sized_replicate n i : sized i (replicate n []).
Proof.
  revert i. induction n as [|n IH]; intros i; [done|].
  destruct n as [|n]; [by left|].
  change (replicate (S (S n)) []) with (@nil Z :: @nil Z :: replicate n []).
  apply sized_cons. split; [by left|apply (IH (i + 1))].
Qed.

Section sizes.
  Context (le : Z → Z → bool).

Lemma sized_carry hi : ∀ i r,
    0 ≤ i → hi ≠ [] → sized i hi → Z.of_nat (length r) = 2 ^ i →
    sized i (carry_runs le hi r).
  Proof.
    induction hi as [|p rest IH]; intros i r Hi Hne Hs Hr; [done|].
    destruct p as [|x p].
    { cbn [carry_runs]. destruct rest as [|q rest]; [right; lia|].
      apply sized_cons in Hs as (_ & Hs). apply sized_cons. split; [by right|done]. }
    destruct rest as [|q rest].
    { cbn [carry_runs]. right. rewrite merge_length. lia. }
    apply sized_cons in Hs as ([?|Hp] & Hs); [done|].
    change (carry_runs le ((x :: p) :: q :: rest) r)
      with ([] :: carry_runs le (q :: rest) (merge_lists le (x :: p) r)).
    assert (sized (i + 1) (carry_runs le (q :: rest) (merge_lists le (x :: p) r))) as Hc.
    { apply IH; [lia|done|done|].
      rewrite merge_length, Nat2Z.inj_add, Hp, Hr, Z.pow_add_r by lia. lia. }
    pose proof (carry_runs_length le (q :: rest) (merge_lists le (x :: p) r)) as Hl.
    destruct (carry_runs le (q :: rest) (merge_lists le (x :: p) r)) as [|c cs]; [done|].
    apply sized_cons. split; [by left|done].
  Qed.

Lemma sized_fill l : ∀ runs,
    runs ≠ [] → sized 0 runs → sized 0 (fill_runs le runs l).
  Proof.
    induction l as [|x l IH]; intros runs Hne Hs; [done|].
    cbn [fill_runs foldl]. apply IH.
    - intros E. apply (f_equal length) in E. rewrite carry_runs_length in E. by destruct runs.
    - by apply sized_carry.
  Qed.
End sizes.

Lemma sized_last mid : ∀ i r,
  sized i (mid ++ [r]) → r = [] ∨ 2 ^ (i + Z.of_nat (length mid)) ≤ Z.of_nat (length r).
Proof.
  induction mid as [|p mid IH]; intros i r Hs.
  { simpl in Hs |- *. by rewrite Z.add_0_r. }
  change ((p :: mid) ++ [r]) with (p :: (mid ++ [r])) in Hs.
  destruct (mid ++ [r]) as [|q rest] eqn:E; [by destruct mid|].
  apply sized_cons in Hs as (_ & Hs). rewrite <- E in Hs.
  destruct (IH _ _ Hs) as [?|Hle]; [by left|right].
  replace (i + Z.of_nat (length (p :: mid))) with (i + 1 + Z.of_nat (length mid)); [done|].
  simpl length. lia.
Qed.

Lemma sized_low mid : ∀ i r,
  0 ≤ i → sized i (mid ++ [r]) →
  Z.of_nat (length (concat mid)) ≤ 2 ^ (i + Z.of_nat (length mid)) - 2 ^ i.
Proof.
  induction mid as [|p mid IH]; intros i r Hi Hs.
  { simpl. rewrite Z.add_0_r. lia. }
  change ((p :: mid) ++ [r]) with (p :: (mid ++ [r])) in Hs.
  destruct (mid ++ [r]) as [|q rest] eqn:E; [by destruct mid|].
  apply sized_cons in Hs as (Hp & Hs). rewrite <- E in Hs.
  specialize (IH (i + 1) r ltac:(lia) Hs).
  replace (i + Z.of_nat (length (p :: mid))) with (i + 1 + Z.of_nat (length mid))
    by (simpl length; lia).
  rewrite concat_cons, length_app, Nat2Z.inj_add.
  rewrite (Z.pow_add_r 2 i 1) in IH by lia.
  assert (0 < 2 ^ i) by (by apply Z.pow_pos_nonneg).
  destruct Hp as [-> | Hp]; simpl length; lia.
Qed.

Lemma concat_nil_replicate (runs : list (list Z)) :
  concat runs = [] → runs = replicate (length runs) [].
Proof.
  induction runs as [|p runs IH]; [done|]. simpl.
  intros (-> & E)%app_eq_nil. by rewrite <- IH.
Qed.

(** ** The second revision: its last run is merged on the wrong side *)

Lemma history_snoc mid r : history (mid ++ [r]) = r ++ history mid.
Proof. unfold history. by rewrite reverse_snoc. Qed.

Lemma pow2_31 : 2 ^ 31 = 2147483648.
Proof. done. Qed.

Section sort1_theory.
  Context (k : Z → string).

Lemma runs_split l :
    ∃ mid r,
      fill_runs (le_key k) (replicate SORT_BUFSIZE []) l = mid ++ [r] ∧
      length mid = 31%nat ∧
      sort1 (le_key k) l = merge_lists (le_key k) (merge_runs (le_key k) mid []) r ∧
      sort0 (le_key k) l = merge_lists (le_key k) r (merge_runs (le_key k) mid []) ∧
      Forall (sorted_by k) mid ∧ sorted_by k r ∧
      (∀ c, filter (λ y, same_key k c y = true) l =
            filter (λ y, same_key k c y = true) r ++
            filter (λ y, same_key k c y = true) (history mid)) ∧
      concat mid ++ r ≡ₚ l ∧ sized 0 (mid ++ [r]).
  Proof.
    destruct (fill_runs_ok k l (replicate SORT_BUFSIZE [])) as (F & H);
      [done|apply Forall_sorted_replicate|].
    pose proof (fill_runs_perm (le_key k) (replicate SORT_BUFSIZE []) l
                  replicate_SORT_BUFSIZE_ne) as Hperm.
    pose proof (sized_fill (le_key k) l (replicate SORT_BUFSIZE [])
                  replicate_SORT_BUFSIZE_ne (sized_replicate _ _)) as Hs.
    pose proof (fill_runs_length (le_key k) (replicate SORT_BUFSIZE []) l) as Hlen.
    rewrite length_replicate in Hlen.
    assert (sort1 (le_key k) l =
              merge_lists (le_key k)
                (merge_runs (le_key k)
                   (take 31 (fill_runs (le_key k) (replicate SORT_BUFSIZE []) l)) [])
                (nth 31%nat (fill_runs (le_key k) (replicate SORT_BUFSIZE []) l) []))
      as E1 by done.
    assert (sort0 (le_key k) l =
              merge_runs (le_key k) (fill_runs (le_key k) (replicate SORT_BUFSIZE []) l) [])
      as E0 by done.
    destruct (list_snoc_length _ 31 Hlen) as (mid & r & Er & Hmid).
    rewrite Er in *. clear Er.
    exists mid, r. split; [done|]. split; [done|].
    apply Forall_app in F as (Fm & Fr). apply Forall_cons in Fr as (Sr & _).
    split; [|split; [|split; [done|split; [done|split; [|split; [|done]]]]]].
    - rewrite E1, take_app_length' by done. rewrite <- Hmid at 1. by rewrite nth_middle.
    - rewrite E0. unfold merge_runs. by rewrite foldl_snoc.
    - intros c. specialize (H c). rewrite history_replicate_nil, filter_nil, app_nil_l in H.
      by rewrite <- H, history_snoc, filter_app.
    - rewrite concat_replicate_nil, concat_app in Hperm. simpl in Hperm.
      by rewrite app_nil_r in Hperm.
  Qed.

Lemma sort1_sorted l : sorted_by k (sort1 (le_key k) l).
  Proof.
    destruct (runs_split l) as (mid & r & _ & _ & -> & _ & Fm & Sr & _).
    apply merge_sorted; [|done]. apply merge_runs_ok; [done|constructor].
  Qed.

Lemma sort1_perm l : sort1 (le_key k) l ≡ₚ l.
  Proof.
    destruct (runs_split l) as (mid & r & _ & _ & -> & _ & _ & _ & _ & Hp & _).
    by rewrite merge_perm, merge_runs_perm, app_nil_r.
  Qed.

  (** Up to [2^31] elements, the last run or all the others are empty. *)
Lemma runs_small l :
    Z.of_nat (length l) ≤ 2 ^ 31 →
    ∃ mid r, sort1 (le_key k) l = merge_lists (le_key k) (merge_runs (le_key k) mid []) r ∧
      Forall (sorted_by k) mid ∧ sorted_by k r ∧
      (∀ c, filter (λ y, same_key k c y = true) l =
            filter (λ y, same_key k c y = true) r ++
            filter (λ y, same_key k c y = true) (history mid)) ∧
      (r = [] ∨ mid = replicate 31 []).
  Proof.
    intros Hl.
    destruct (runs_split l) as (mid & r & _ & Hmid & E1 & _ & Fm & Sr & Hf & Hp & Hs).
    exists mid, r. split; [done|]. split; [done|]. split; [done|]. split; [done|].
    destruct (sized_last _ _ _ Hs) as [?|Hr]; [by left|right].
    pose proof (sized_low _ _ _ ltac:(done) Hs) as Hlow.
    pose proof (Permutation_length Hp) as Hlen. rewrite length_app in Hlen.
    rewrite Hmid in Hr, Hlow. change (0 + Z.of_nat 31) with 31 in *.
    rewrite <- Hmid. apply concat_nil_replicate.
    apply length_zero_iff_nil. rewrite pow2_31 in *. lia.
  Qed.

Lemma sort1_stable l :
    Z.of_nat (length l) ≤ 2 ^ 31 → stable_for k l (sort1 (le_key k) l).
  Proof.
    intros Hl c. destruct (runs_small l Hl) as (mid & r & -> & Fm & Sr & Hf & Hcase).
    destruct (merge_runs_ok k mid [] Fm ltac:(constructor)) as (Sm & Hm).
    rewrite merge_stable, Hm, Hf, filter_nil, app_nil_r by done.
    destruct Hcase as [-> | ->].
    - by rewrite filter_nil, app_nil_r.
    - by rewrite history_replicate_nil, filter_nil, app_nil_r.
  Qed.

  (** With [2^31] elements in the last run, one more element is merged
      with them as the left-hand run. *)
Lemma sort1_overflow l x :
    Z.of_nat (length l) = 2 ^ 31 →
    sort1 (le_key k) (l ++ [x]) = merge_lists (le_key k) [x] (sort0 (le_key k) l).
  Proof.
    intros Hl.
    destruct (runs_split l) as (mid & r & Er & Hmid & _ & E0 & Fm & Sr & Hf & Hp & Hs).
    assert (mid = replicate 31 []) as ->.
    { destruct (sized_last _ _ _ Hs) as [->|Hr].
      - pose proof (sized_low _ _ _ ltac:(done) Hs) as Hlow.
        pose proof (Permutation_length Hp) as Hlen. rewrite length_app in Hlen.
        rewrite Hmid in Hlow. change (0 + Z.of_nat 31) with 31 in *.
        rewrite pow2_31 in *. simpl in Hlen. lia.
      - pose proof (Permutation_length Hp) as Hlen. rewrite length_app in Hlen.
        rewrite Hmid in Hr. change (0 + Z.of_nat 31) with 31 in *.
        rewrite <- Hmid. apply concat_nil_replicate.
        apply length_zero_iff_nil. rewrite pow2_31 in *. lia. }
    rewrite E0.
    assert (sort1 (le_key k) (l ++ [x]) =
              merge_lists (le_key k)
                (merge_runs (le_key k)
                   (take 31 (fill_runs (le_key k) (replicate SORT_BUFSIZE []) (l ++ [x]))) [])
                (nth 31%nat (fill_runs (le_key k) (replicate SORT_BUFSIZE []) (l ++ [x])) []))
      as -> by done.
    unfold fill_runs in Er |- *. rewrite foldl_snoc, Er.
    remember (merge_lists (le_key k) r) as mr eqn:Emr.
    remember (merge_lists (le_key k) [x]) as mx eqn:Emx.
    cbn. rewrite Emr, Emx.
    destruct r; reflexivity.
  Qed.
End sort1_theory.

Lemma filter_all (P : Z → Prop) `{∀ x, Decision (P x)} l : Forall P l → filter P l = l.
Proof. induction 1 as [|z l Hz _ IH]; [done|]. by rewrite filter_cons_True, IH. Qed.

Section instability.
  Context (k : Z → string).

  (** The element that arrives after [2^31] others overtakes those of its
      own key. *)
Lemma sort1_unstable l x y :
    Z.of_nat (length l) = 2 ^ 31 → y ∈ l → same_key k x y = true → x ∉ l →
    ¬ stable_for k (l ++ [x]) (sort1 (le_key k) (l ++ [x])).
  Proof.
    intros Hl Hy Hxy Hx St. specialize (St x).
    rewrite sort1_overflow, merge_stable, (sort0_stable k l x), filter_app in St
      by (done || apply sorted_by_singleton).
    assert (filter (λ y0, same_key k x y0 = true) [x] = [x]) as Ex.
    { apply filter_all. constructor; [|done]. apply same_key_true, strcmp_refl. }
    rewrite Ex in St.
    assert (y ∈ filter (λ y0, same_key k x y0 = true) l) as Hin.
    { by apply list_elem_of_filter. }
    destruct (filter (λ y0, same_key k x y0 = true) l) as [|z zs] eqn:E.
    { by apply elem_of_nil in Hin. }
    simpl in St. injection St as -> _.
    apply Hx. assert (z ∈ filter (λ y0, same_key k z y0 = true) l) as Hz.
    { rewrite E. left. }
    by apply list_elem_of_filter in Hz as (_ & ?).
  Qed.

Lemma stable_all_same l out :
    stable_for k l out → out ≡ₚ l →
    (∀ a b, a ∈ l → b ∈ l → strcmp (k a) (k b) = 0) → out = l.
  Proof.
    intros St Hp Hsame. destruct l as [|c l].
    { by apply Permutation_nil_r in Hp. }
    specialize (St c). rewrite !filter_all in St; [done| |].
    - apply Forall_forall. intros z Hz. apply same_key_true, Hsame; [left|done].
    - apply Forall_forall. intros z Hz. rewrite Hp in Hz.
      apply same_key_true, Hsame; [left|done].
  Qed.

  (** All keys equal: the last element comes out first. *)
Lemma sort1_all_equal l x :
    Z.of_nat (length l) = 2 ^ 31 →
    (∀ a b, a ∈ l ++ [x] → b ∈ l ++ [x] → strcmp (k a) (k b) = 0) →
    sort1 (le_key k) (l ++ [x]) = x :: l.
  Proof.
    intros Hl Hsame. rewrite sort1_overflow by done.
    rewrite (stable_all_same l (sort0 (le_key k) l)).
    - apply (merge_append k [x] l). intros a b Ha Hb. apply le_key_true.
      rewrite Hsame; [done| |]; clear -Ha Hb; in_solver.
    - apply sort0_stable.
    - apply sort0_perm.
    - intros a b Ha Hb. apply Hsame; clear -Ha Hb; in_solver.
  Qed.

  (** The order on the elements, on their strings. *)
Lemma sorted_by_strings l :
    sorted_by k l → Sorted (λ s t, strcmp s t ≤ 0) (k <$> l).
  Proof.
    intros S. apply StronglySorted_Sorted.
    induction S as [|x l S IH F]; [constructor|].
    rewrite fmap_cons. constructor; [done|].
    apply Forall_fmap. eapply Forall_impl; [exact F|].
    intros z Hz. by apply le_key_true.
  Qed.
End instability.

(** ** Duplicates in a sorted list *)

Lemma dedup_ext (f g : Z → Z → bool) d l :
  (∀ a b, f a b = g a b) → dedup f d l = dedup g d l.
Proof.
  intros E. revert d. induction l as [|x l IH]; intros d; [done|].
  destruct l as [|y l]; [done|]. rewrite !dedup_cons2, E, !IH. done.
Qed.

Section unique.
  Context (k : Z → string).

Lemma no_same x l :
    length (filter (λ y, same_key k x y = true) l) = 0%nat ↔
      ∀ z, z ∈ l → same_key k x z = false.
  Proof.
    rewrite length_zero_iff_nil. split.
    - intros E z Hz. destruct (same_key k x z) eqn:Ez; [|done].
      exfalso. eapply (filter_nil_not_elem_of _ l z E); [|done]. done.
    - intros H. apply filter_none. apply Forall_forall. intros z Hz.
      rewrite (H z Hz). done.
  Qed.

Lemma unique_key_split pre x l :
    unique_key k (pre ++ x :: l) x ↔
      (∀ z, z ∈ pre → same_key k x z = false) ∧ (∀ z, z ∈ l → same_key k x z = false).
  Proof.
    unfold unique_key. rewrite filter_app, filter_cons_True, length_app
      by (apply same_key_true, strcmp_refl).
    simpl. rewrite <- !no_same. lia.
  Qed.

Lemma sorted_by_app a b : sorted_by k (a ++ b) → sorted_by k a ∧ sorted_by k b.
  Proof.
    induction a as [|x a IH]; simpl; intros S; [split; [constructor|done]|].
    apply StronglySorted_inv in S as (S & F). destruct (IH S) as (Sa & Sb).
    split; [|done]. constructor; [done|]. by apply Forall_app in F as (? & _).
  Qed.

  (** In a sorted list, what equals a later element equals the next one. *)
Lemma same_next x y l :
    sorted_by k (x :: y :: l) →
    same_key k x y = false → ∀ z, z ∈ y :: l → same_key k x z = false.
  Proof.
    intros S Hxy z Hz. apply StronglySorted_inv in S as (S & Fx).
    apply StronglySorted_inv in S as (_ & Fy).
    apply Forall_cons in Fx as (Hle & _). apply le_key_true in Hle.
    assert (strcmp (k y) (k z) ≤ 0) as Hyz.
    { apply elem_of_cons in Hz as [->|Hz]; [by rewrite strcmp_refl|].
      rewrite Forall_forall in Fy. by apply le_key_true, Fy. }
    apply not_true_iff_false. rewrite same_key_true. intros Hxz.
    apply not_true_iff_false in Hxy. apply Hxy. apply same_key_true.
    pose proof (strcmp_antisym (k x) (k z)).
    pose proof (strcmp_trans (k y) (k z) (k x)).
    pose proof (strcmp_antisym (k x) (k y)). lia.
  Qed.

  (** ... and what equals an earlier element equals the previous one. *)
Lemma same_prev pre x y :
    sorted_by k (pre ++ [x; y]) →
    same_key k x y = false → ∀ z, z ∈ pre ++ [x] → same_key k y z = false.
  Proof.
    intros S Hxy z Hz.
    assert (strcmp (k x) (k y) ≤ 0) as Hle.
    { clear -S. induction pre as [|p pre IH]; simpl in S.
      - apply StronglySorted_inv in S as (_ & Fx).
        apply Forall_cons in Fx as (Hle & _). by apply le_key_true in Hle.
      - apply StronglySorted_inv in S as (S & _). by apply IH. }
    assert (strcmp (k z) (k x) ≤ 0) as Hzx.
    { revert S Hz. clear. induction pre as [|p pre IH]; simpl; intros S Hz.
      - apply list_elem_of_singleton in Hz as ->. by rewrite strcmp_refl.
      - apply StronglySorted_inv in S as (S & Fp).
        apply elem_of_cons in Hz as [->|Hz]; [|by apply IH].
        rewrite Forall_forall in Fp. apply le_key_true, Fp. clear. in_solver. }
    apply not_true_iff_false. rewrite same_key_true. intros Hyz.
    apply not_true_iff_false in Hxy. apply Hxy. apply same_key_true.
    pose proof (strcmp_antisym (k y) (k z)).
    pose proof (strcmp_trans (k y) (k z) (k x)).
    pose proof (strcmp_antisym (k x) (k y)). lia.
  Qed.

Lemma dedup_unique_gen l : ∀ pre d,
    sorted_by k (pre ++ l) →
    (∀ x l', l = x :: l' → d = true ↔ ∃ z, z ∈ pre ∧ same_key k x z = true) →
    dedup (same_key k) d l = filter (unique_key k (pre ++ l)) l.
  Proof.
    induction l as [|x l IH]; intros pre d S Hd; [done|].
    specialize (Hd x l eq_refl).
    assert (pre ++ x :: l = (pre ++ [x]) ++ l) as Eassoc by (by rewrite <- (assoc_L (++))).
    assert (d = false ↔ ∀ z, z ∈ pre → same_key k x z = false) as Hd'.
    { split.
      - intros -> z Hz. apply not_true_iff_false. intros E.
        assert (false = true) as ?%eq_sym by (apply Hd; eauto). done.
      - intros H. apply not_true_iff_false. intros (z & Hz & E)%Hd.
        rewrite (H z Hz) in E. done. }
    destruct l as [|y l].
    { (* the last element *)
      simpl dedup. rewrite filter_cons, filter_nil.
      destruct d.
      - rewrite decide_False; [done|]. rewrite unique_key_split. intros (H & _).
        apply Hd' in H. done.
      - rewrite decide_True; [done|]. apply unique_key_split. split; [by apply Hd'|].
        intros z Hz. by apply elem_of_nil in Hz. }
    rewrite dedup_cons2, filter_cons.
    assert (sorted_by k (x :: y :: l)) as Sx by (by apply sorted_by_app in S as (_ & ?)).
    destruct (same_key k x y) eqn:Exy.
    - rewrite decide_False.
      2:{ rewrite unique_key_split. intros (_ & H). rewrite (H y) in Exy; [done|left]. }
      rewrite Eassoc. apply IH; [by rewrite <- Eassoc|].
      intros ? ? [= <- <-]. split; [intros _|done].
      exists x. split; [apply elem_of_app; right; left|]. by rewrite same_key_sym.
    - assert (dedup (same_key k) false (y :: l)
                = filter (unique_key k (pre ++ x :: y :: l)) (y :: l)) as Etail.
      { rewrite Eassoc. apply IH; [by rewrite <- Eassoc|].
        intros ? ? [= <- <-]. split; [done|]. intros (z & Hz & E).
        rewrite (same_prev pre x y) in E; [done| |done|done].
        apply (sorted_by_app (pre ++ [x; y]) l). by rewrite <- (assoc_L (++)). }
      destruct d.
      + rewrite decide_False; [done|]. rewrite unique_key_split. intros (H & _).
        apply Hd' in H. done.
      + rewrite decide_True; [by rewrite Etail|]. apply unique_key_split.
        split; [by apply Hd'|]. by apply same_next.
  Qed.

  (** On a sorted list [q_delete_dup] keeps the elements whose string
      occurs once. *)
Lemma dedup_unique ns :
    sorted_by k ns → dedup (same_key k) false ns = filter (unique_key k ns) ns.
  Proof.
    intros S. apply (dedup_unique_gen ns [] false S).
    intros x l' _. split; [done|]. intros (z & Hz & _). by apply elem_of_nil in Hz.
  Qed.

Lemma dedup_unique_flip ns :
    sorted_by k ns →
    dedup (λ a b, same_key k b a) false ns = filter (unique_key k ns) ns.
  Proof.
    intros S. rewrite <- dedup_unique by done. apply dedup_ext.
    intros a b. apply same_key_sym.
  Qed.
End unique.

(** ** The invariant in the words of the specification *)

Lemma ring_links h head ns x :
  ring h head ns → x ∈ head :: ns →
  ∃ n p, load_next h x = Ok n ∧ load_prev h n = Ok x ∧
         load_prev h x = Ok p ∧ load_next h p = Ok x.
Proof.
  intros R Hx. apply elem_of_cons in Hx as [->|Hx].
  - exists (hd head ns), (lastd head ns).
    pose proof R as (_ & _ & _ & _ & Hn & Hp)%ring_open.
    split; [by apply ring_next_head|]. split; [|done].
    destruct ns as [|y l]; [done|].
    by destruct (ring_at h head [] y l R) as (_ & ? & _).
  - apply list_elem_of_split in Hx as (l1 & l2 & ->).
    exists (hd head l2), (lastd head l1).
    destruct (ring_at h head l1 x l2 R) as (? & ? & ? & ?). done.
Qed.

Lemma ring_reachable h head ns x : ring h head ns → reachable h head x → x ∈ head :: ns.
Proof.
  intros R. induction 1 as [|x y _ IH Hn]; [left|].
  apply elem_of_cons in IH as [->|Hx].
  - rewrite (ring_next_head _ _ _ R) in Hn. injection Hn as <-. apply hd_in_cons.
  - apply list_elem_of_split in Hx as (l1 & l2 & ->).
    destruct (ring_at h head l1 x l2 R) as (Hn' & _). rewrite Hn' in Hn.
    injection Hn as <-. pose proof (hd_in_cons head l2) as Hin.
    clear -Hin. in_solver.
Qed.

Lemma ring_circular h head ns : ring h head ns → circular h head.
Proof. intros R x Hx. eapply ring_links; [done|]. by eapply ring_reachable. Qed.

Lemma ring_keeps_circular h head ns : ring h head ns → keeps_circular head (Ok h).
Proof.
  intros R. exists h. split; [done|]. split; [by eapply ring_circular|].
  intros Hn. pose proof R as (_ & ND & _ & _ & Hl & Hp)%ring_open.
  destruct ns as [|x l]; [done|].
  rewrite (ring_next_head _ _ _ R) in Hn. injection Hn as ->.
  apply NoDup_cons in ND as (ND & _). exfalso. apply ND. left.
Qed.

(** ** The copy into the caller's buffer *)

Lemma size_sub_pos bufsize : 1 ≤ bufsize < 2 ^ 64 → size_sub bufsize 1 = bufsize - 1.
Proof. intros H. unfold size_sub. apply Z.mod_small. lia. Qed.

Lemma size_sub_zero : size_sub 0 1 = SIZE_MAX.
Proof. done. Qed.

Lemma copy_out_ok h x v s buf bufsize :
  load_value h x = Ok v → load_chars h v = Ok s →
  1 ≤ bufsize ≤ Z.of_nat (length buf) → Z.of_nat (length buf) < 2 ^ 64 →
  copy_out h x (Some buf) bufsize = Ok (Some (copied buf s bufsize)).
Proof.
  intros Hv Hs Hb Hl. unfold copy_out. rewrite Hv. simpl. rewrite Hs. simpl.
  rewrite size_sub_pos by lia. rewrite strncpy_ok by lia. simpl.
  set (n := Z.to_nat (bufsize - 1)).
  set (chars := list_ascii_of_string (c_str s)).
  set (P := take n chars ++ replicate (n - length chars)%nat NUL).
  assert (length P = n) as HP.
  { unfold P. rewrite length_app, length_take, length_replicate. lia. }
  unfold store_char. rewrite decide_True.
  2:{ rewrite !length_app, length_take, length_replicate, length_drop. lia. }
  unfold copied. fold n chars. simpl. do 2 f_equal.
  rewrite !(assoc_L (++) (take n chars)). fold P.
  rewrite <- HP at 1. rewrite <- (Nat.add_0_r (length P)), insert_app_r.
  f_equal.
  destruct (drop n buf) as [|b r] eqn:E.
  { apply (f_equal length) in E. rewrite length_drop in E. simpl in E. lia. }
  simpl. f_equal. rewrite <- (Nat.add_1_r n), <- drop_drop, E. done.
Qed.

Lemma copy_out_zero h x v s buf :
  load_value h x = Ok v → load_chars h v = Ok s →
  Z.of_nat (length buf) < SIZE_MAX →
  copy_out h x (Some buf) 0 = Fault.
Proof.
  intros Hv Hs Hl. unfold copy_out. rewrite Hv. simpl. rewrite Hs. simpl.
  rewrite size_sub_zero. unfold strncpy. by rewrite decide_True.
Qed.

Lemma copied_length buf s bufsize :
  1 ≤ bufsize ≤ Z.of_nat (length buf) → length (copied buf s bufsize) = length buf.
Proof.
  intros Hb. unfold copied. cbv zeta.
  rewrite !length_app, length_take, length_replicate. simpl. rewrite length_drop. lia.
Qed.

Lemma copied_terminator buf s bufsize :
  1 ≤ bufsize ≤ Z.of_nat (length buf) →
  copied buf s bufsize !! Z.to_nat (bufsize - 1) = Some NUL.
Proof.
  intros Hb. unfold copied. cbv zeta. rewrite (assoc_L (++)).
  rewrite lookup_app_r; rewrite length_app, length_take, length_replicate; [|lia].
  match goal with |- _ !! ?i = _ => replace i with 0%nat by lia end. done.
Qed.

Lemma c_str_no_NUL s c : c ∈ list_ascii_of_string (c_str s) → byte c ≠ 0.
Proof.
  induction s as [|d s IH]; simpl; [by intros ?%elem_of_nil|].
  case_decide; simpl; [by intros ?%elem_of_nil|].
  intros [->|?]%elem_of_cons; auto.
Qed.

Lemma c_str_cut l r :
  (∀ c, c ∈ l → byte c ≠ 0) →
  c_str (string_of_list_ascii (l ++ NUL :: r)) = string_of_list_ascii l.
Proof.
  induction l as [|c l IH]; intros Hl; simpl.
  - done.
  - rewrite decide_False by (apply Hl; left). f_equal. apply IH.
    intros d Hd. apply Hl. by right.
Qed.

(** Read as a C string, the buffer holds the first [bufsize - 1]
    characters of the element's string. *)
Lemma copied_c_str buf s bufsize :
  c_str (string_of_list_ascii (copied buf s bufsize)) =
    string_of_list_ascii (take (Z.to_nat (bufsize - 1)) (list_ascii_of_string (c_str s))).
Proof.
  unfold copied. cbv zeta.
  set (n := Z.to_nat (bufsize - 1)). set (chars := list_ascii_of_string (c_str s)).
  assert (∀ c, c ∈ take n chars → byte c ≠ 0) as Hno.
  { intros c Hc. apply (c_str_no_NUL s). apply elem_of_take in Hc as (i & Hi & _).
    by eapply list_elem_of_lookup_2. }
  destruct (n - length chars)%nat as [|m]; simpl; by apply c_str_cut.
Qed.

(** ** Where an operation has nothing to do *)

Lemma load_node_eq h p a b :
  load_next h p = Ok a → load_prev h p = Ok b → load_node h p = Ok (LinkPair a b).
Proof.
  unfold load_next, load_prev. destruct (load_node h p) as [[n q]| |]; simpl; congruence.
Qed.

Lemma ring_empty_eq h h' head :
  ring h head [] → ring h' head [] → relinked [head] h h' → h' = h.
Proof.
  intros (_ & _ & (Hn & _) & (Hp & _)) (_ & _ & (Hn' & _) & (Hp' & _)) R.
  eapply relinked_eq; [done|]. intros p ->%list_elem_of_singleton.
  by rewrite (load_node_eq _ _ _ _ Hn Hp), (load_node_eq _ _ _ _ Hn' Hp').
Qed.

Lemma q_sort_noop h head ns fuel :
  queue h head ns → (length ns ≤ 1)%nat →
  Part0.q_sort fuel h head = Ok h ∧ Part1.q_sort fuel h head = Ok h.
Proof.
  intros (R & _) Hl.
  assert (head ≠ NULL) as Hh by (eapply ring_nonnull; [done|left]).
  assert (∃ p, load_next h head = Ok p ∧ load_prev h head = Ok p) as (p & Hn & Hp).
  { pose proof R as (_ & _ & _ & _ & _ & Hp)%ring_open.
    pose proof (ring_next_head _ _ _ R) as Hn.
    destruct ns as [|x [|y l]]; [by exists head|by exists x|simpl in Hl; lia]. }
  unfold Part0.q_sort, Part1.q_sort. rewrite !decide_False by done.
  rewrite Hn, Hp. simpl. by rewrite !decide_True.
Qed.

Lemma q_absent fuel h :
  Part0.q_sort fuel h NULL = Ok h ∧ Part1.q_sort fuel h NULL = Ok h ∧
  Part0.q_swap fuel h NULL = Ok h ∧ Part1.q_swap fuel h NULL = Ok h ∧
  Part0.q_reverse fuel h NULL = Ok h ∧ Part1.q_reverse fuel h NULL = Ok h ∧
  Part0.q_delete_dup fuel h NULL = Ok (h, false) ∧
  Part1.q_delete_dup fuel h NULL = Ok (h, false).
Proof. repeat split. Qed.

(** ** Pairs, by position *)

Lemma swap_pairs_lookup i : ∀ ns,
  (2 * i + 1 < length ns)%nat →
  swap_pairs ns !! (2 * i)%nat = ns !! (2 * i + 1)%nat ∧
  swap_pairs ns !! (2 * i + 1)%nat = ns !! (2 * i)%nat.
Proof.
  induction i as [|i IH]; intros ns Hi; destruct ns as [|a [|b l]]; simpl in Hi; try lia.
  { done. }
  replace (2 * S i)%nat with (S (S (2 * i))) by lia.
  replace (S (S (2 * i)) + 1)%nat with (S (S (2 * i + 1))) by lia.
  cbn [swap_pairs lookup list_lookup]. apply IH; simpl; lia.
Qed.

Lemma swap_pairs_last i : ∀ ns,
  length ns = (2 * i + 1)%nat → swap_pairs ns !! (2 * i)%nat = ns !! (2 * i)%nat.
Proof.
  induction i as [|i IH]; intros ns Hi; destruct ns as [|a [|b l]]; simpl in Hi; try lia.
  { done. }
  replace (2 * S i)%nat with (S (S (2 * i))) by lia.
  cbn [swap_pairs lookup list_lookup]. apply IH; simpl; lia.
Qed.

(** ** Queues of any size *)

Lemma key_inserted h head ns pe ps s p :
  queue h head ns → h !! pe = None → h !! ps = None → p ∈ ns →
  key (inserted h pe ps s) p = key h p.
Proof.
  intros Q He Hs Hp. pose proof Q as (_ & _ & Hc).
  rewrite Forall_forall in Hc. specialize (Hc p Hp).
  pose proof (queue_load_value _ _ _ _ Q Hp) as Hv.
  unfold key, strval, inserted.
  assert (p ≠ pe ∧ p ≠ ps) as (? & ?).
  { unfold load_value in Hv. split; intros ->; by rewrite ?He, ?Hs in Hv. }
  assert (valptr h p ≠ pe ∧ valptr h p ≠ ps) as (? & ?).
  { unfold is_chars in Hc. split; intros E; rewrite E in Hc; by rewrite ?He, ?Hs in Hc. }
  assert (load_value (<[pe:=Elem {| value := ps; links := {| next := NULL; prev := NULL |} |}]>
                        (<[ps:=Chars (c_str s)]> h)) p = Ok (valptr h p)) as ->.
  { unfold load_value in *. by rewrite !lookup_insert_ne. }
  rewrite Hv. simpl. unfold load_chars. by rewrite !lookup_insert_ne.
Qed.

Lemma fill_spec ss : ∀ h head base ns,
  queue h head ns → 0 < base → (∀ p, base ≤ p → h !! p = None) →
  ∃ h' ms, fill h head base ss = Ok h' ∧ queue h' head (ns ++ ms) ∧
    length ms = length ss ∧
    (∀ p, p ∈ ns → key h' p = key h p) ∧
    Forall2 (λ p s, key h' p = c_str s) ms ss.
Proof.
  induction ss as [|s ss IH]; intros h head base ns Q Hb Hfree.
  { exists h, []. rewrite app_nil_r. simpl. done. }
  assert (alloc_ok h base (base + 1)) as A.
  { unfold alloc_ok, NULL. repeat split; try lia; apply Hfree; lia. }
  destruct (q_insert_tail_ok h head ns s base (base + 1) Q A) as (h1 & Hi & Q1 & R1 & Hv & Hc).
  assert (key h1 base = c_str s) as Hk.
  { unfold key, strval.
    rewrite (queue_load_value _ _ _ _ Q1) by (apply elem_of_app; right; left).
    rewrite Hv. simpl. by rewrite Hc. }
  destruct (IH h1 head (base + 2) (ns ++ [base]) Q1 ltac:(lia)) as (h' & ms & Hf & Q' & Hl & Hold & Hnew).
  { intros p Hp. rewrite (relinked_lookup_None _ _ _ R1). unfold inserted.
    rewrite !lookup_insert_ne by lia. apply Hfree. lia. }
  exists h', (base :: ms). split; [|split; [|split; [|split]]].
  - simpl. rewrite Hi. simpl. done.
  - by rewrite <- (assoc_L (++)) in Q'.
  - simpl. by rewrite Hl.
  - intros p Hp. rewrite Hold by (apply elem_of_app; by left).
    rewrite (relinked_key _ _ _ R1).
    eapply key_inserted; [done| | |done]; apply Hfree; lia.
  - constructor; [|done]. rewrite Hold by (apply elem_of_app; right; left). done.
Qed.

Lemma queue_of_spec ss :
  ∃ h ns, queue_of ss = Ok h ∧ queue h 1 ns ∧ length ns = length ss ∧
    Forall2 (λ p s, key h p = c_str s) ns ss.
Proof.
  assert (q_new ∅ 1 = Ok ({[1 := Head (LinkPair 1 1)]}, 1)) as Hnew by (by vm_compute).
  destruct (fill_spec ss {[1 := Head (LinkPair 1 1)]} 1 2 []) as (h & ns & Hf & Q & Hl & _ & Hk).
  - apply (bool_decide_unpack _). by vm_compute.
  - done.
  - intros p Hp. apply lookup_singleton_ne. lia.
  - exists h, ns. unfold queue_of. rewrite Hnew. simpl. done.
Qed.

(** * The operations, one by one *)

Lemma keeps_circular_after {A} (f : A → heap) (r : res A) a head ns :
  r = Ok a → ring (f a) head ns → keeps_circular head (heap_after f r).
Proof. intros -> R. by eapply ring_keeps_circular. Qed.

(** ** Sorting *)

Lemma q_sort0_sorts h head ns fuel :
  queue h head ns → (length ns ≤ fuel)%nat → sorts_to h head ns (Part0.q_sort fuel h head).
Proof.
  intros Q Hf. destruct (q_sort0_spec h head ns fuel Q Hf) as (h' & Hs & Q' & R).
  exists h', (sort0 (le_key (key h)) ns). split; [done|]. split; [done|].
  split; [apply sort0_perm|]. split; [done|]. split.
  - unfold contents. rewrite (list_fmap_ext (key h') (key h)) by
      (intros; by apply (relinked_key _ _ _ R)).
    apply sorted_by_strings, sort0_sorted.
  - intros Hl. destruct (q_sort_noop h head ns fuel Q Hl) as (E & _). congruence.
Qed.

Lemma q_sort1_sorts h head ns fuel :
  queue h head ns → (length ns ≤ fuel)%nat → sorts_to h head ns (Part1.q_sort fuel h head).
Proof.
  intros Q Hf. destruct (q_sort1_spec h head ns fuel Q Hf) as (h' & Hs & Q' & R).
  exists h', (sort1 (le_key (key h)) ns). split; [done|]. split; [done|].
  split; [apply sort1_perm|]. split; [done|]. split.
  - unfold contents. rewrite (list_fmap_ext (key h') (key h)) by
      (intros; by apply (relinked_key _ _ _ R)).
    apply sorted_by_strings, sort1_sorted.
  - intros Hl. destruct (q_sort_noop h head ns fuel Q Hl) as (_ & E). congruence.
Qed.

Lemma q_sort0_stable h head ns fuel :
  queue h head ns → (length ns ≤ fuel)%nat →
  sorts_stably h head ns (Part0.q_sort fuel h head).
Proof.
  intros Q Hf. destruct (q_sort0_spec h head ns fuel Q Hf) as (h' & Hs & Q' & R).
  exists h', (sort0 (le_key (key h)) ns). split; [done|]. split; [done|]. apply sort0_stable.
Qed.

(** The queue after [q_sort] is one list only. *)
Lemma ring_unique h head ns ns' : ring h head ns → ring h head ns' → ns = ns'.
Proof.
  intros R. revert ns'.
  assert (∀ l1 l2 l2', ns = l1 ++ l2 → ring h head (l1 ++ l2') → l2 = l2') as Hgen.
  { intros l1 l2. revert l1. induction l2 as [|x l2 IH]; intros l1 l2' -> R'.
    - destruct l2' as [|y l2']; [done|]. exfalso.
      rewrite app_nil_r in R.
      pose proof R as (_ & _ & _ & _ & Hn & _)%ring_open.
      destruct (ring_at h head l1 y l2' R') as (_ & _ & Hn' & _).
      rewrite Hn in Hn'. injection Hn' as <-.
      destruct R' as (_ & ND & _). apply NoDup_cons in ND as (ND & _).
      apply ND. clear. in_solver.
    - destruct (ring_at h head l1 x l2 R) as (_ & _ & Hn & _).
      destruct l2' as [|y l2'].
      + exfalso. rewrite app_nil_r in R'.
        pose proof R' as (_ & _ & _ & _ & Hn' & _)%ring_open.
        rewrite Hn in Hn'. injection Hn' as ->.
        destruct R as (_ & ND & _). apply NoDup_cons in ND as (ND & _).
        apply ND. clear. in_solver.
      + destruct (ring_at h head l1 y l2' R') as (_ & _ & Hn' & _).
        rewrite Hn in Hn'. injection Hn' as <-. f_equal.
        apply (IH (l1 ++ [x])); by rewrite <- (assoc_L (++)). }
  intros ns' R'. by apply (Hgen [] ns ns').
Qed.

Lemma q_sort1_stable h head ns fuel :
  queue h head ns → (length ns ≤ fuel)%nat →
  ∃ h' out, Part1.q_sort fuel h head = Ok h' ∧ queue h' head out ∧
    (Z.of_nat (length ns) ≤ 2 ^ 31 → stable_for (key h) ns out) ∧
    (∀ l x y, ns = l ++ [x] → Z.of_nat (length l) = 2 ^ 31 → y ∈ l →
              strcmp (key h x) (key h y) = 0 → ¬ stable_for (key h) ns out).
Proof.
  intros Q Hf. destruct (q_sort1_spec h head ns fuel Q Hf) as (h' & Hs & Q' & R).
  exists h', (sort1 (le_key (key h)) ns). split; [done|]. split; [done|]. split.
  - apply sort1_stable.
  - intros l x y -> Hl Hy Hxy. apply (sort1_unstable (key h) l x y); try done.
    + by apply same_key_true.
    + destruct Q as ((_ & ND & _) & _). apply NoDup_cons in ND as (_ & ND).
      apply NoDup_app in ND as (_ & ND & _). intros Hx. apply (ND x Hx). left.
Qed.

(** ** Deleting duplicates *)

Lemma dedups_finish h head ns h' D kept :
  queue h head ns → queue h' head kept → ns ≡ₚ D ++ kept →
  reshaped (cells h D) (head :: ns) h h' → ns = [] → h' = h.
Proof.
  intros (R & _) (R' & _) Hp Hr ->.
  apply Permutation_nil_l in Hp. symmetry in Hp. apply app_eq_nil in Hp as (-> & ->).
  apply reshaped_nil in Hr. by eapply ring_empty_eq.
Qed.

Lemma q_delete_dup0_dedups h head ns fuel :
  queue h head ns → sorted_by (key h) ns → (length ns ≤ fuel)%nat →
  dedups_to h head ns (Part0.q_delete_dup fuel h head).
Proof.
  intros Q S Hf. destruct (q_delete_dup0_spec h head ns fuel Q Hf) as (h' & D & Hd & Q' & Hp & Hr).
  rewrite dedup_unique_flip in Q', Hp by done.
  exists h', D. split; [done|]. split; [done|]. split; [done|]. split; [done|].
  by eapply dedups_finish.
Qed.

Lemma q_delete_dup1_dedups h head ns fuel :
  queue h head ns → sorted_by (key h) ns → (length ns ≤ fuel)%nat →
  dedups_to h head ns (Part1.q_delete_dup fuel h head).
Proof.
  intros Q S Hf. destruct (q_delete_dup1_spec h head ns fuel Q Hf) as (h' & D & Hd & Q' & Hp & Hr).
  rewrite dedup_unique in Q', Hp by done.
  exists h', D. split; [done|]. split; [done|]. split; [done|]. split; [done|].
  by eapply dedups_finish.
Qed.

(** ** Swapping *)

Lemma swaps_finish h head ns h' :
  queue h head ns → ring h' head (swap_pairs ns) → relinked (head :: ns) h h' →
  queue h' head (swap_pairs ns) ∧ (ns = [] → h' = h).
Proof.
  intros Q R' Rl. split.
  - eapply queue_relinked; [done|done| |done]. by rewrite swap_pairs_perm.
  - intros ->. eapply ring_empty_eq; [by destruct Q|done|done].
Qed.

Lemma q_swap0_swaps h head ns fuel :
  queue h head ns → (length ns ≤ fuel)%nat → swaps_to h head ns (Part0.q_swap fuel h head).
Proof.
  intros Q Hf. destruct (q_swap0_spec h head ns fuel (queue_ring _ _ _ Q) Hf) as (h' & Hs & R' & Rl).
  destruct (swaps_finish h head ns h' Q R' Rl) as (Q' & He).
  by exists h'.
Qed.

Lemma q_swap1_swaps h head ns fuel :
  queue h head ns → (length ns ≤ fuel)%nat → swaps_to h head ns (Part1.q_swap fuel h head).
Proof.
  intros Q Hf. destruct (q_swap1_spec h head ns fuel (queue_ring _ _ _ Q) Hf) as (h' & Hs & R' & Rl).
  destruct (swaps_finish h head ns h' Q R' Rl) as (Q' & He).
  by exists h'.
Qed.

(** ** Removing *)

Lemma copy_out_queue h h' S head ns x sp bufsize :
  queue h head ns → x ∈ ns → relinked S h h' → buffer_ok sp bufsize →
  copy_out h' x sp bufsize = Ok ((λ buf, copied buf (key h x) bufsize) <$> sp) ∧
  strval h' x = Ok (key h x).
Proof.
  intros Q Hx R Hb.
  pose proof (queue_strval _ _ _ _ Q Hx) as Hs.
  pose proof (queue_load_value _ _ _ _ Q Hx) as Hv.
  split; [|by rewrite (relinked_strval _ _ _ R)].
  destruct sp as [buf|]; [|done]. destruct Hb as (Hb & Hl). simpl.
  apply (copy_out_ok h' x (valptr h x)); [by rewrite (relinked_load_value _ _ _ R)| |done|done].
  rewrite (relinked_load_chars _ _ _ R). unfold strval in Hs. rewrite Hv in Hs. done.
Qed.

Lemma q_remove_head_removes h head x l sp bufsize :
  queue h head (x :: l) → buffer_ok sp bufsize →
  removes h head x l sp bufsize (q_remove_head h head sp bufsize).
Proof.
  intros Q Hb. destruct (q_remove_head_spec h head x l sp bufsize Q) as (Hr & Q' & R).
  destruct (copy_out_queue h _ _ head (x :: l) x sp bufsize Q ltac:(left) R Hb) as (Hc & Hs).
  eexists. split; [rewrite Hr, Hc; done|].
  split; [eapply ring_nonnull; [by destruct Q|right; left]|].
  split; [done|]. split; [|done]. intros p. by destruct (R p).
Qed.

Lemma q_remove_tail_removes h head l x sp bufsize :
  queue h head (l ++ [x]) → buffer_ok sp bufsize →
  removes h head x l sp bufsize (q_remove_tail h head sp bufsize).
Proof.
  intros Q Hb. destruct (q_remove_tail_spec h head l x sp bufsize Q) as (Hr & Q' & R).
  destruct (copy_out_queue h _ _ head (l ++ [x]) x sp bufsize Q
              ltac:(apply elem_of_app; right; left) R Hb) as (Hc & Hs).
  eexists. split; [rewrite Hr, Hc; done|].
  split; [eapply ring_nonnull; [by destruct Q|right; apply elem_of_app; right; left]|].
  split; [done|]. split; [|done]. intros p. by destruct (R p).
Qed.

(** ** Inserting *)

Lemma inserts_finish h head ns ns' s pe ps h' :
  queue h' head ns' → pe ∈ ns' → (∀ p, p ∈ pe :: head :: ns → p ∈ head :: ns') →
  relinked (pe :: head :: ns) (inserted h pe ps s) h' →
  valptr h' pe = ps → load_chars h' ps = Ok (c_str s) →
  relinked (head :: ns') (inserted h pe ps s) h' ∧ strval h' pe = Ok (c_str s).
Proof.
  intros Q Hpe Hsub R Hv Hc. split; [by eapply relinked_mono|].
  unfold strval. rewrite (queue_load_value _ _ _ _ Q Hpe), Hv. simpl. done.
Qed.

Lemma q_insert_head_inserts h head ns s pe ps :
  queue h head ns → alloc_ok h pe ps →
  inserts h head (pe :: ns) s pe ps (q_insert_head h head s pe ps).
Proof.
  intros Q A. destruct (q_insert_head_ok h head ns s pe ps Q A) as (h' & Hi & Q' & R & Hv & Hc).
  destruct (inserts_finish h head ns (pe :: ns) s pe ps h') as (R' & Hs); try done.
  { left. }
  { intros p. clear. in_solver. }
  by exists h'.
Qed.

Lemma q_insert_tail_inserts h head ns s pe ps :
  queue h head ns → alloc_ok h pe ps →
  inserts h head (ns ++ [pe]) s pe ps (q_insert_tail h head s pe ps).
Proof.
  intros Q A. destruct (q_insert_tail_ok h head ns s pe ps Q A) as (h' & Hi & Q' & R & Hv & Hc).
  destruct (inserts_finish h head ns (ns ++ [pe]) s pe ps h') as (R' & Hs); try done.
  { apply elem_of_app. right. left. }
  { intros p. clear. in_solver. }
  by exists h'.
Qed.

(** ** Every operation keeps the circle *)

Section circle.
  Context (h : heap) (head : Z) (ns : list Z) (Q : queue h head ns).

Lemma q_insert_head_circular s pe ps :
    keeps_circular head (heap_after fst (q_insert_head h head s pe ps)).
  Proof using Q.
    destruct (decide (alloc_ok h pe ps)) as [A|A].
    - destruct (q_insert_head_ok h head ns s pe ps Q A) as (h' & Hi & (R' & _) & _).
      by eapply (keeps_circular_after fst _ (h', true)).
    - eapply (keeps_circular_after fst _ (h, false)).
      + apply q_insert_fail. by right.
      + by destruct Q.
  Qed.

Lemma q_insert_tail_circular s pe ps :
    keeps_circular head (heap_after fst (q_insert_tail h head s pe ps)).
  Proof using Q.
    destruct (decide (alloc_ok h pe ps)) as [A|A].
    - destruct (q_insert_tail_ok h head ns s pe ps Q A) as (h' & Hi & (R' & _) & _).
      by eapply (keeps_circular_after fst _ (h', true)).
    - eapply (keeps_circular_after fst _ (h, false)).
      + apply q_insert_fail. by right.
      + by destruct Q.
  Qed.

Lemma q_remove_head_circular sp bufsize :
    buffer_ok sp bufsize →
    keeps_circular head (heap_after (λ r, r.1.1) (q_remove_head h head sp bufsize)).
  Proof using Q.
    intros Hb. destruct ns as [|x l].
    - eapply (keeps_circular_after _ _ (h, NULL, sp)); [|by destruct Q].
      apply q_remove_empty. by destruct Q.
    - destruct (q_remove_head_removes h head x l sp bufsize Q Hb) as (h' & Hr & _ & (R' & _) & _).
      by eapply (keeps_circular_after _ _ (h', x, _)).
  Qed.

Lemma q_remove_tail_circular sp bufsize :
    buffer_ok sp bufsize →
    keeps_circular head (heap_after (λ r, r.1.1) (q_remove_tail h head sp bufsize)).
  Proof using Q.
    intros Hb. destruct ns as [|x l _] using rev_ind.
    - eapply (keeps_circular_after _ _ (h, NULL, sp)); [|by destruct Q].
      apply q_remove_empty. by destruct Q.
    - destruct (q_remove_tail_removes h head l x sp bufsize Q Hb) as (h' & Hr & _ & (R' & _) & _).
      by eapply (keeps_circular_after _ _ (h', x, _)).
  Qed.

Lemma q_delete_mid_circular fuel :
    (length ns < fuel)%nat →
    keeps_circular head (heap_after fst (Part0.q_delete_mid fuel h head)) ∧
    keeps_circular head (heap_after fst (Part1.q_delete_mid fuel h head)).
  Proof using Q.
    intros Hf. destruct (decide (ns = [])) as [->|Hne].
    - destruct (q_delete_mid_none h head (or_intror (queue_ring _ _ _ Q)) fuel) as (E0 & E1).
      split; eapply (keeps_circular_after fst _ (h, false)); try done; by destruct Q.
    - destruct (q_delete_mid0_spec h head ns fuel Q Hne ltac:(lia)) as (h0 & x0 & _ & E0 & (R0 & _) & _).
      destruct (q_delete_mid1_spec h head ns fuel Q Hne Hf) as (h1 & x1 & _ & E1 & (R1 & _) & _).
      split; [by eapply (keeps_circular_after fst _ (h0, true))
             |by eapply (keeps_circular_after fst _ (h1, true))].
  Qed.

Lemma q_delete_dup_circular fuel :
    (length ns < fuel)%nat →
    keeps_circular head (heap_after fst (Part0.q_delete_dup fuel h head)) ∧
    keeps_circular head (heap_after fst (Part1.q_delete_dup fuel h head)).
  Proof using Q.
    intros Hf.
    destruct (q_delete_dup0_spec h head ns fuel Q ltac:(lia)) as (h0 & D0 & E0 & (R0 & _) & _).
    destruct (q_delete_dup1_spec h head ns fuel Q ltac:(lia)) as (h1 & D1 & E1 & (R1 & _) & _).
    split; [by eapply (keeps_circular_after fst _ (h0, true))
           |by eapply (keeps_circular_after fst _ (h1, true))].
  Qed.

Lemma q_swap_circular fuel :
    (length ns < fuel)%nat →
    keeps_circular head (Part0.q_swap fuel h head) ∧
    keeps_circular head (Part1.q_swap fuel h head).
  Proof using Q.
    intros Hf.
    destruct (q_swap0_spec h head ns fuel (queue_ring _ _ _ Q) ltac:(lia)) as (h0 & -> & R0 & _).
    destruct (q_swap1_spec h head ns fuel (queue_ring _ _ _ Q) ltac:(lia)) as (h1 & -> & R1 & _).
    split; by eapply ring_keeps_circular.
  Qed.

Lemma q_reverse_circular fuel :
    (length ns < fuel)%nat →
    keeps_circular head (Part0.q_reverse fuel h head) ∧
    keeps_circular head (Part1.q_reverse fuel h head).
  Proof using Q.
    intros Hf.
    rewrite (q_reverse0_spec h head ns fuel (queue_ring _ _ _ Q)) by lia.
    rewrite (q_reverse1_spec h head ns fuel (queue_ring _ _ _ Q)) by lia.
    split; eapply ring_keeps_circular; apply exchange_ring; by destruct Q.
  Qed.

Lemma q_sort_circular fuel :
    (length ns < fuel)%nat →
    keeps_circular head (Part0.q_sort fuel h head) ∧
    keeps_circular head (Part1.q_sort fuel h head).
  Proof using Q.
    intros Hf.
    destruct (q_sort0_spec h head ns fuel Q ltac:(lia)) as (h0 & -> & (R0 & _) & _).
    destruct (q_sort1_spec h head ns fuel Q ltac:(lia)) as (h1 & -> & (R1 & _) & _).
    split; by eapply ring_keeps_circular.
  Qed.
End circle.

(** ** Reversing twice *)

Lemma q_reverse_twice h head ns :
  queue h head ns →
  queue (exchange (head :: ns) h) head (reverse ns) ∧
  relinked (head :: ns) h (exchange (head :: ns) h) ∧
  exchange (head :: reverse ns) (exchange (head :: ns) h) = h ∧
  (ns = [] → exchange (head :: ns) h = h).
Proof.
  intros Q. pose proof Q as (R & _). pose proof R as (_ & ND & _).
  assert (relinked (head :: ns) h (exchange (head :: ns) h)) as Rl by (by apply exchange_relinked).
  split; [|split; [done|split]].
  - eapply queue_relinked; [done|by apply exchange_ring| |done]. by rewrite reverse_Permutation.
  - apply exchange_exchange; [done| |].
    + apply NoDup_cons in ND as (? & ?). apply NoDup_cons.
      by rewrite elem_of_reverse, reverse_Permutation.
    + intros p. by rewrite !elem_of_cons, elem_of_reverse.
  - intros ->. by apply exchange_empty_ring.
Qed.

(** ** A queue on which the second revision is not stable *)

Lemma big_queue (n : nat) :
  ∃ h l x, queue_of (replicate (S n) "a"%string) = Ok h ∧
    queue h 1 (l ++ [x]) ∧ length l = n ∧
    ∀ a b, a ∈ l ++ [x] → b ∈ l ++ [x] → strcmp (key h a) (key h b) = 0.
Proof.
  destruct (queue_of_spec (replicate (S n) "a"%string)) as (h & ns & Hq & Q & Hl & Hk).
  rewrite length_replicate in Hl.
  destruct (list_snoc_length ns n Hl) as (l & x & -> & Hn).
  exists h, l, x. split; [done|]. split; [done|]. split; [done|].
  assert (∀ a, a ∈ l ++ [x] → key h a = "a"%string) as Hall.
  { intros a Ha. apply list_elem_of_lookup in Ha as (i & Hi).
    destruct (Forall2_lookup_l _ _ _ _ _ Hk Hi) as (s & Hs & ->).
    apply lookup_replicate in Hs as (-> & _). done. }
  intros a b Ha Hb. by rewrite (Hall a Ha), (Hall b Hb).
Qed.

(** Where all strings are equal the first revision leaves the order. *)
Lemma sort0_all_equal k l :
  (∀ a b, a ∈ l → b ∈ l → strcmp (k a) (k b) = 0) → sort0 (le_key k) l = l.
Proof.
  intros Hsame. apply (stable_all_same k); [apply sort0_stable|apply sort0_perm|done].
Qed.

(** * The claims of the specification *)

(** A decidable fact about a concrete heap, by evaluation. *)
Ltac by_evaluation := apply (bool_decide_unpack _); vm_compute; exact I.

(** C1. [q_sort] on a list handle that is present: the same elements, none
    allocated and none released, relinked so that their strings are in
    non-decreasing order under [strcmp]; on a list of at most one element
    and on an absent handle the heap is left as it was.  Both revisions. *)
Theorem q_sort_sorts h head ns fuel :
  queue h head ns → (length ns ≤ fuel)%nat →
  sorts_to h head ns (Part0.q_sort fuel h head) ∧
  sorts_to h head ns (Part1.q_sort fuel h head) ∧
  Part0.q_sort fuel h NULL = Ok h ∧ Part1.q_sort fuel h NULL = Ok h.
Proof.
  intros Q Hf. split; [by apply q_sort0_sorts|]. split; [by apply q_sort1_sorts|]. done.
Qed.

Lemma q_sort_sorts_witness :
  queue fruits 1 [2; 4; 6] ∧
  (sorts_to fruits 1 [2; 4; 6] (Part0.q_sort 3 fruits 1) ∧
   sorts_to fruits 1 [2; 4; 6] (Part1.q_sort 3 fruits 1) ∧
   Part0.q_sort 3 fruits NULL = Ok fruits ∧ Part1.q_sort 3 fruits NULL = Ok fruits) ∧
  (h' ← Part0.q_sort 3 fruits 1; to_list 3 h' 1) = Ok ["apple"; "banana"; "cherry"]%string ∧
  (h' ← Part1.q_sort 3 fruits 1; to_list 3 h' 1) = Ok ["apple"; "banana"; "cherry"]%string.
Proof.
  assert (queue fruits 1 [2; 4; 6]) as Q by by_evaluation.
  split; [exact Q|]. split; [apply (q_sort_sorts fruits 1 [2; 4; 6] 3 Q); simpl; lia|].
  split; vm_compute; reflexivity.
Defined.

(** C2. Stability of [q_sort].  The two-way merge takes the element of
    the left-hand run on a tie, and the first revision is stable on every
    list.  The second revision is stable on lists of up to [2^31]
    elements; on a list of [2^31 + 1] elements whose last element has the
    string of an earlier one it is not: [merge_final] is called with the
    last pending run on the right. *)
Theorem q_sort_stability h head ns fuel :
  queue h head ns → (length ns ≤ fuel)%nat →
  (∀ c a b, sorted_by (key h) a →
     filter (λ y, same_key (key h) c y = true) (merge_lists (le_key (key h)) a b) =
       filter (λ y, same_key (key h) c y = true) a ++
       filter (λ y, same_key (key h) c y = true) b) ∧
  sorts_stably h head ns (Part0.q_sort fuel h head) ∧
  ∃ h' out, Part1.q_sort fuel h head = Ok h' ∧ queue h' head out ∧
    (Z.of_nat (length ns) ≤ 2 ^ 31 → stable_for (key h) ns out) ∧
    (∀ l x y, ns = l ++ [x] → Z.of_nat (length l) = 2 ^ 31 → y ∈ l →
              strcmp (key h x) (key h y) = 0 → ¬ stable_for (key h) ns out).
Proof.
  intros Q Hf. split; [intros c a b; apply merge_stable|].
  split; [by apply q_sort0_stable|by apply q_sort1_stable].
Qed.

Lemma q_sort_stability_witness :
  queue tagged 1 [2; 4; 6] ∧
  sorts_stably tagged 1 [2; 4; 6] (Part0.q_sort 3 tagged 1) ∧
  (h' ← Part0.q_sort 3 tagged 1; nodes 3 h' 1) = Ok [4; 2; 6] ∧
  (h' ← Part1.q_sort 3 tagged 1; nodes 3 h' 1) = Ok [4; 2; 6].
Proof.
  assert (queue tagged 1 [2; 4; 6]) as Q by by_evaluation.
  split; [exact Q|].
  split; [apply (q_sort_stability tagged 1 [2; 4; 6] 3 Q); simpl; lia|].
  split; vm_compute; reflexivity.
Defined.

(** The queue that [q_new] and [2^31 + 1] calls of [q_insert_tail] with
    the string "a" build: [q_sort] of the second revision puts its last
    element first, [q_sort] of the first revision leaves it as it is. *)
Lemma q_sort_unstable_input :
  ∃ h l x h0 h1,
    queue_of (replicate (S (Z.to_nat (2 ^ 31))) "a"%string) = Ok h ∧
    queue h 1 (l ++ [x]) ∧ Z.of_nat (length (l ++ [x])) = 2 ^ 31 + 1 ∧
    Part0.q_sort (length (l ++ [x])) h 1 = Ok h0 ∧ queue h0 1 (l ++ [x]) ∧
    Part1.q_sort (length (l ++ [x])) h 1 = Ok h1 ∧ queue h1 1 (x :: l) ∧
    ¬ stable_for (key h) (l ++ [x]) (x :: l).
Proof.
  destruct (big_queue (Z.to_nat (2 ^ 31))) as (h & l & x & Hq & Q & Hl & Hsame).
  assert (Z.of_nat (length l) = 2 ^ 31) as Hl'.
  { rewrite Hl. apply Z2Nat.id. done. }
  destruct (q_sort0_spec h 1 (l ++ [x]) (length (l ++ [x])) Q) as (h0 & Hs0 & Q0 & _); [done|].
  destruct (q_sort1_spec h 1 (l ++ [x]) (length (l ++ [x])) Q) as (h1 & Hs1 & Q1 & _); [done|].
  rewrite (sort0_all_equal (key h) (l ++ [x]) Hsame) in Q0.
  rewrite (sort1_all_equal (key h) l x Hl' Hsame) in Q1.
  exists h, l, x, h0, h1.
  split; [done|]. split; [done|].
  split; [rewrite length_app, Nat2Z.inj_add, Hl'; done|].
  split; [done|]. split; [done|]. split; [done|]. split; [done|].
  rewrite <- (sort1_all_equal (key h) l x Hl' Hsame).
  destruct l as [|y l]; [simpl in Hl'; rewrite pow2_31 in Hl'; lia|].
  apply (sort1_unstable (key h) (y :: l) x y Hl'); [left| |].
  - apply same_key_true, Hsame; clear; in_solver.
  - destruct Q as ((_ & ND & _) & _). apply NoDup_cons in ND as (_ & ND).
    apply NoDup_app in ND as (_ & ND & _). intros Hx. apply (ND x Hx). left.
Qed.

(** C3. Every public operation of both revisions returns with the
    circular doubly linked invariant in place: for every node [x] that the
    sentinel reaches, [x.next.prev = x] and [x.prev.next = x], and an
    empty list is the sentinel linked to itself in both directions.  The
    queue is well formed before the call, the iteration budget covers its
    length, and a buffer handed to a removal has room for [bufsize >= 1]
    bytes. *)
Theorem operations_keep_circular h head ns fuel :
  queue h head ns → (length ns < fuel)%nat →
  (∀ s pe ps, keeps_circular head (heap_after fst (q_insert_head h head s pe ps)) ∧
              keeps_circular head (heap_after fst (q_insert_tail h head s pe ps))) ∧
  (∀ sp bufsize, buffer_ok sp bufsize →
     keeps_circular head (heap_after (λ r, r.1.1) (q_remove_head h head sp bufsize)) ∧
     keeps_circular head (heap_after (λ r, r.1.1) (q_remove_tail h head sp bufsize))) ∧
  (keeps_circular head (heap_after fst (Part0.q_delete_mid fuel h head)) ∧
   keeps_circular head (heap_after fst (Part1.q_delete_mid fuel h head))) ∧
  (keeps_circular head (heap_after fst (Part0.q_delete_dup fuel h head)) ∧
   keeps_circular head (heap_after fst (Part1.q_delete_dup fuel h head))) ∧
  (keeps_circular head (Part0.q_swap fuel h head) ∧
   keeps_circular head (Part1.q_swap fuel h head)) ∧
  (keeps_circular head (Part0.q_reverse fuel h head) ∧
   keeps_circular head (Part1.q_reverse fuel h head)) ∧
  (keeps_circular head (Part0.q_sort fuel h head) ∧
   keeps_circular head (Part1.q_sort fuel h head)).
Proof.
  intros Q Hf.
  split; [intros s pe ps; split;
          [by eapply q_insert_head_circular|by eapply q_insert_tail_circular]|].
  split; [intros sp bufsize Hb; split;
          [by eapply q_remove_head_circular|by eapply q_remove_tail_circular]|].
  split; [by eapply q_delete_mid_circular|].
  split; [by eapply q_delete_dup_circular|].
  split; [by eapply q_swap_circular|].
  split; [by eapply q_reverse_circular|by eapply q_sort_circular].
Qed.

Lemma operations_keep_circular_witness :
  queue fruits 1 [2; 4; 6] ∧
  keeps_circular 1 (Part1.q_sort 4 fruits 1) ∧
  keeps_circular 1 (heap_after fst (Part0.q_delete_dup 4 fruits 1)) ∧
  (h' ← Part1.q_sort 4 fruits 1; nodes 4 h' 1) = Ok [4; 2; 6] ∧
  (h' ← Part1.q_sort 4 fruits 1; last ← load_prev h' 1; walk_back 4 h' 1 last) = Ok [6; 2; 4].
Proof.
  assert (queue fruits 1 [2; 4; 6]) as Q by by_evaluation.
  assert (length [2; 4; 6] < 4)%nat as Hf by (simpl; lia).
  split; [exact Q|].
  split; [apply (operations_keep_circular fruits 1 [2; 4; 6] 4 Q Hf)|].
  split; [apply (operations_keep_circular fruits 1 [2; 4; 6] 4 Q Hf)|].
  split; vm_compute; reflexivity.
Defined.

(** C4. [q_delete_dup] on a list that is sorted by its strings: what is
    left are exactly the elements whose string occurred once, in their
    order; every element of a run of two or more equal strings is unlinked
    and released with its string.  The call returns true for every list
    handle that is present, without a change on an empty list, and false
    for an absent one.  Both revisions. *)
Theorem q_delete_dup_unique h head ns fuel :
  queue h head ns → sorted_by (key h) ns → (length ns ≤ fuel)%nat →
  dedups_to h head ns (Part0.q_delete_dup fuel h head) ∧
  dedups_to h head ns (Part1.q_delete_dup fuel h head) ∧
  Part0.q_delete_dup fuel h NULL = Ok (h, false) ∧
  Part1.q_delete_dup fuel h NULL = Ok (h, false).
Proof.
  intros Q S Hf.
  split; [by apply q_delete_dup0_dedups|]. split; [by apply q_delete_dup1_dedups|]. done.
Qed.

Lemma q_delete_dup_unique_witness :
  queue digits 1 [2; 4; 6; 8; 10; 12] ∧
  sorted_by (key digits) [2; 4; 6; 8; 10; 12] ∧
  dedups_to digits 1 [2; 4; 6; 8; 10; 12] (Part1.q_delete_dup 6 digits 1) ∧
  filter (unique_key (key digits) [2; 4; 6; 8; 10; 12]) [2; 4; 6; 8; 10; 12] = [6] ∧
  ('(h', _) ← Part0.q_delete_dup 6 digits 1; to_list 6 h' 1) = Ok ["2"]%string ∧
  ('(h', _) ← Part1.q_delete_dup 6 digits 1; to_list 6 h' 1) = Ok ["2"]%string.
Proof.
  assert (queue digits 1 [2; 4; 6; 8; 10; 12]) as Q by by_evaluation.
  assert (sorted_by (key digits) [2; 4; 6; 8; 10; 12]) as S by by_evaluation.
  split; [exact Q|]. split; [exact S|].
  split; [apply (q_delete_dup_unique digits 1 [2; 4; 6; 8; 10; 12] 6 Q S); simpl; lia|].
  split; [vm_compute; reflexivity|]. split; vm_compute; reflexivity.
Defined.

(** C5. [q_delete_mid] on a list of [n >= 1] elements unlinks and releases
    the element at index [n / 2], counted from 0 at the first element,
    returns true and leaves the other elements in their order; on an
    empty list and on an absent handle it returns false and changes
    nothing.  Both revisions. *)
Theorem q_delete_mid_middle h head ns fuel :
  queue h head ns → (length ns < fuel)%nat →
  (ns ≠ [] →
     ∃ x, ns !! (length ns / 2)%nat = Some x ∧
       deletes_mid h head ns x (Part0.q_delete_mid fuel h head) ∧
       deletes_mid h head ns x (Part1.q_delete_mid fuel h head)) ∧
  (ns = [] → Part0.q_delete_mid fuel h head = Ok (h, false) ∧
             Part1.q_delete_mid fuel h head = Ok (h, false)) ∧
  Part0.q_delete_mid fuel h NULL = Ok (h, false) ∧
  Part1.q_delete_mid fuel h NULL = Ok (h, false).
Proof.
  intros Q Hf. split; [|split].
  - intros Hne.
    destruct (q_delete_mid0_spec h head ns fuel Q Hne ltac:(lia)) as (h0 & x & Hx & E0 & Q0 & R0).
    destruct (q_delete_mid1_spec h head ns fuel Q Hne Hf) as (h1 & x' & Hx' & E1 & Q1 & R1).
    assert (x' = x) as -> by congruence.
    exists x. split; [done|]. split; [by exists h0|by exists h1].
  - intros ->. apply q_delete_mid_none. right. by destruct Q.
  - apply q_delete_mid_none. by left.
Qed.

Lemma q_delete_mid_middle_witness :
  queue letters 1 [2; 4; 6; 8; 10; 12] ∧
  (∃ x, [2; 4; 6; 8; 10; 12] !! (length [2; 4; 6; 8; 10; 12] / 2)%nat = Some x ∧
     deletes_mid letters 1 [2; 4; 6; 8; 10; 12] x (Part0.q_delete_mid 7 letters 1) ∧
     deletes_mid letters 1 [2; 4; 6; 8; 10; 12] x (Part1.q_delete_mid 7 letters 1)) ∧
  ('(h', _) ← Part0.q_delete_mid 7 letters 1; to_list 7 h' 1)
    = Ok ["a"; "b"; "c"; "e"; "f"]%string ∧
  ('(h', _) ← Part1.q_delete_mid 7 letters 1; to_list 7 h' 1)
    = Ok ["a"; "b"; "c"; "e"; "f"]%string.
Proof.
  assert (queue letters 1 [2; 4; 6; 8; 10; 12]) as Q by by_evaluation.
  assert (length [2; 4; 6; 8; 10; 12] < 7)%nat as Hf by (simpl; lia).
  split; [exact Q|].
  split; [by apply (q_delete_mid_middle letters 1 [2; 4; 6; 8; 10; 12] 7 Q Hf)|].
  split; vm_compute; reflexivity.
Defined.

(** C6. [q_remove_head] and [q_remove_tail] return NULL exactly when the
    list handle is absent or the list is empty, and then change nothing.
    Otherwise they unlink the first (last) element and return it: the
    other elements stay a well-formed queue, no block is freed or changed
    but in its links, and the element still reads its own string.  With a
    buffer of room for [bufsize >= 1] bytes, the buffer gets the string
    cut to [bufsize - 1] characters and a NUL terminator. *)
Theorem q_remove_contract h head ns sp bufsize :
  queue h head ns → buffer_ok sp bufsize →
  (q_remove_head h NULL sp bufsize = Ok (h, NULL, sp) ∧
   q_remove_tail h NULL sp bufsize = Ok (h, NULL, sp)) ∧
  (ns = [] → q_remove_head h head sp bufsize = Ok (h, NULL, sp) ∧
             q_remove_tail h head sp bufsize = Ok (h, NULL, sp)) ∧
  (∀ x l, ns = x :: l → removes h head x l sp bufsize (q_remove_head h head sp bufsize)) ∧
  (∀ l x, ns = l ++ [x] → removes h head x l sp bufsize (q_remove_tail h head sp bufsize)) ∧
  (∀ buf s, c_str (string_of_list_ascii (copied buf s bufsize)) =
     string_of_list_ascii (take (Z.to_nat (bufsize - 1)) (list_ascii_of_string (c_str s)))).
Proof.
  intros Q Hb. split; [done|]. split; [|split; [|split]].
  - intros ->. split; apply q_remove_empty; by destruct Q.
  - intros x l ->. by apply q_remove_head_removes.
  - intros l x ->. by apply q_remove_tail_removes.
  - intros buf s. apply copied_c_str.
Qed.

Lemma q_remove_contract_witness :
  queue fruits 1 [2; 4; 6] ∧
  buffer_ok (Some ["x"; "x"; "x"; "x"; "x"]%char) 4 ∧
  removes fruits 1 2 [4; 6] (Some ["x"; "x"; "x"; "x"; "x"]%char) 4
    (q_remove_head fruits 1 (Some ["x"; "x"; "x"; "x"; "x"]%char) 4) ∧
  removes fruits 1 6 [2; 4] (Some ["x"; "x"; "x"; "x"; "x"]%char) 4
    (q_remove_tail fruits 1 (Some ["x"; "x"; "x"; "x"; "x"]%char) 4) ∧
  ('(_, x, buf) ← q_remove_head fruits 1 (Some ["x"; "x"; "x"; "x"; "x"]%char) 4; Ok (x, buf))
    = Ok (2, Some ["b"; "a"; "n"; NUL; "x"]%char) ∧
  ('(_, x, buf) ← q_remove_tail fruits 1 (Some ["x"; "x"; "x"; "x"; "x"]%char) 4; Ok (x, buf))
    = Ok (6, Some ["c"; "h"; "e"; NUL; "x"]%char).
Proof.
  assert (queue fruits 1 [2; 4; 6]) as Q by by_evaluation.
  assert (buffer_ok (Some ["x"; "x"; "x"; "x"; "x"]%char) 4) as Hb by by_evaluation.
  destruct (q_remove_contract fruits 1 [2; 4; 6] _ 4 Q Hb) as (_ & _ & Hh & Ht & _).
  split; [exact Q|]. split; [exact Hb|].
  split; [by apply Hh|]. split; [by apply (Ht [2; 4] 6)|].
  split; vm_compute; reflexivity.
Defined.

(** C7. [q_insert_head] and [q_insert_tail] are all or nothing.  When
    both allocations succeed they return true, the new element is the
    first (last) of the queue and owns a fresh copy of the string, and
    nothing else has changed but links.  When the element or the copy of
    the string cannot be allocated they return false and the heap is the
    one before the call: an element that was allocated is freed again.
    An absent list handle gives false and no change. *)
Theorem q_insert_all_or_nothing h head ns s pe ps :
  queue h head ns →
  (alloc_ok h pe ps →
     inserts h head (pe :: ns) s pe ps (q_insert_head h head s pe ps) ∧
     inserts h head (ns ++ [pe]) s pe ps (q_insert_tail h head s pe ps)) ∧
  (¬ alloc_ok h pe ps →
     q_insert_head h head s pe ps = Ok (h, false) ∧
     q_insert_tail h head s pe ps = Ok (h, false)) ∧
  q_insert_head h NULL s pe ps = Ok (h, false) ∧
  q_insert_tail h NULL s pe ps = Ok (h, false).
Proof.
  intros Q. split; [|split; [|done]].
  - intros A. split; [by apply q_insert_head_inserts|by apply q_insert_tail_inserts].
  - intros A. split; apply q_insert_fail; by right.
Qed.

Lemma q_insert_all_or_nothing_witness :
  queue fruits 1 [2; 4; 6] ∧ alloc_ok fruits 8 9 ∧ ¬ alloc_ok fruits 8 3 ∧
  inserts fruits 1 (8 :: [2; 4; 6]) "date" 8 9 (q_insert_head fruits 1 "date" 8 9) ∧
  inserts fruits 1 ([2; 4; 6] ++ [8]) "date" 8 9 (q_insert_tail fruits 1 "date" 8 9) ∧
  q_insert_head fruits 1 "date" 8 3 = Ok (fruits, false) ∧
  ('(h', _) ← q_insert_head fruits 1 "date" 8 9; to_list 4 h' 1)
    = Ok ["date"; "banana"; "apple"; "cherry"]%string ∧
  ('(h', _) ← q_insert_tail fruits 1 "date" 8 9; to_list 4 h' 1)
    = Ok ["banana"; "apple"; "cherry"; "date"]%string.
Proof.
  assert (queue fruits 1 [2; 4; 6]) as Q by by_evaluation.
  assert (alloc_ok fruits 8 9) as A by by_evaluation.
  assert (¬ alloc_ok fruits 8 3) as A' by by_evaluation.
  split; [exact Q|]. split; [exact A|]. split; [exact A'|].
  split; [by apply (q_insert_all_or_nothing fruits 1 [2; 4; 6] "date" 8 9 Q)|].
  split; [by apply (q_insert_all_or_nothing fruits 1 [2; 4; 6] "date" 8 9 Q)|].
  split; [by apply (q_insert_all_or_nothing fruits 1 [2; 4; 6] "date" 8 3 Q)|].
  split; vm_compute; reflexivity.
Defined.

(** C8. [q_swap] exchanges the elements of each pair, the first with the
    second, the third with the fourth and so on, and leaves the last
    element of an odd list where it is.  It only relinks: every block
    keeps its payload.  An empty list and an absent handle are left as
    they are.  Both revisions. *)
Theorem q_swap_pairs h head ns fuel :
  queue h head ns → (length ns ≤ fuel)%nat →
  swaps_to h head ns (Part0.q_swap fuel h head) ∧
  swaps_to h head ns (Part1.q_swap fuel h head) ∧
  (∀ i, (2 * i + 1 < length ns)%nat →
     swap_pairs ns !! (2 * i)%nat = ns !! (2 * i + 1)%nat ∧
     swap_pairs ns !! (2 * i + 1)%nat = ns !! (2 * i)%nat) ∧
  (∀ i, length ns = (2 * i + 1)%nat → swap_pairs ns !! (2 * i)%nat = ns !! (2 * i)%nat) ∧
  Part0.q_swap fuel h NULL = Ok h ∧ Part1.q_swap fuel h NULL = Ok h.
Proof.
  intros Q Hf. split; [by apply q_swap0_swaps|]. split; [by apply q_swap1_swaps|].
  split; [intros i; apply swap_pairs_lookup|]. split; [intros i; apply swap_pairs_last|done].
Qed.

Lemma q_swap_pairs_witness :
  queue five 1 [2; 4; 6; 8; 10] ∧
  swaps_to five 1 [2; 4; 6; 8; 10] (Part0.q_swap 5 five 1) ∧
  swaps_to five 1 [2; 4; 6; 8; 10] (Part1.q_swap 5 five 1) ∧
  (h' ← Part0.q_swap 5 five 1; to_list 5 h' 1) = Ok ["2"; "1"; "4"; "3"; "5"]%string ∧
  (h' ← Part1.q_swap 5 five 1; to_list 5 h' 1) = Ok ["2"; "1"; "4"; "3"; "5"]%string.
Proof.
  assert (queue five 1 [2; 4; 6; 8; 10]) as Q by by_evaluation.
  assert (length [2; 4; 6; 8; 10] ≤ 5)%nat as Hf by (simpl; lia).
  split; [exact Q|].
  split; [apply (q_swap_pairs five 1 [2; 4; 6; 8; 10] 5 Q Hf)|].
  split; [apply (q_swap_pairs five 1 [2; 4; 6; 8; 10] 5 Q Hf)|].
  split; vm_compute; reflexivity.
Defined.

(** C9. [q_reverse] exchanges the [next] and [prev] of the sentinel and of
    every element, and of nothing else: the queue is then the reversed
    list, in the same blocks.  Applied to its own result it gives back the
    heap it started from, link by link.  An empty list and an absent
    handle are left as they are.  Both revisions. *)
Theorem q_reverse_involution h head ns fuel :
  queue h head ns → (length ns < fuel)%nat →
  (Part0.q_reverse fuel h head = Ok (exchange (head :: ns) h) ∧
   Part1.q_reverse fuel h head = Ok (exchange (head :: ns) h)) ∧
  queue (exchange (head :: ns) h) head (reverse ns) ∧
  relinked (head :: ns) h (exchange (head :: ns) h) ∧
  (Part0.q_reverse fuel (exchange (head :: ns) h) head = Ok h ∧
   Part1.q_reverse fuel (exchange (head :: ns) h) head = Ok h) ∧
  (ns = [] → exchange (head :: ns) h = h) ∧
  Part0.q_reverse fuel h NULL = Ok h ∧ Part1.q_reverse fuel h NULL = Ok h.
Proof.
  intros Q Hf. destruct (q_reverse_twice h head ns Q) as (Q' & R & E & He).
  pose proof (queue_ring _ _ _ Q) as Rg. pose proof (queue_ring _ _ _ Q') as Rg'.
  split; [split; [apply q_reverse0_spec|apply q_reverse1_spec]; (done || lia)|].
  split; [done|]. split; [done|]. split; [|done].
  rewrite (q_reverse0_spec _ head (reverse ns) fuel Rg') by (rewrite length_reverse; lia).
  rewrite (q_reverse1_spec _ head (reverse ns) fuel Rg') by (rewrite length_reverse; lia).
  by rewrite E.
Qed.

Lemma q_reverse_involution_witness :
  queue fruits 1 [2; 4; 6] ∧
  Part1.q_reverse 4 fruits 1 = Ok (exchange (1 :: [2; 4; 6]) fruits) ∧
  Part1.q_reverse 4 (exchange (1 :: [2; 4; 6]) fruits) 1 = Ok fruits ∧
  (h' ← Part0.q_reverse 4 fruits 1; to_list 4 h' 1) = Ok ["cherry"; "apple"; "banana"]%string ∧
  (h' ← Part0.q_reverse 4 fruits 1; Part0.q_reverse 4 h' 1) = Ok fruits.
Proof.
  assert (queue fruits 1 [2; 4; 6]) as Q by by_evaluation.
  assert (length [2; 4; 6] < 4)%nat as Hf by (simpl; lia).
  split; [exact Q|].
  split; [apply (q_reverse_involution fruits 1 [2; 4; 6] 4 Q Hf)|].
  split; [apply (q_reverse_involution fruits 1 [2; 4; 6] 4 Q Hf)|].
  split; vm_compute; reflexivity.
Defined.

(** C10. A removal from a non-empty list into a buffer computes
    [bufsize - 1] in [size_t] as the length of the copy and as the index
    of the terminator.  For [bufsize >= 1], within the room of the buffer,
    nothing wraps around, the terminator is written inside the buffer and
    the removal returns.  For [bufsize = 0] the subtraction wraps to
    [SIZE_MAX], and the copy leaves the buffer: the call is undefined. *)
Theorem q_remove_bufsize h head ns buf bufsize :
  queue h head ns → ns ≠ [] →
  0 ≤ bufsize ≤ Z.of_nat (length buf) → Z.of_nat (length buf) < SIZE_MAX →
  (1 ≤ bufsize →
     size_sub bufsize 1 = bufsize - 1 ∧ 0 ≤ bufsize - 1 < Z.of_nat (length buf) ∧
     ∃ h0 x0 h1 x1 buf0 buf1,
       q_remove_head h head (Some buf) bufsize = Ok (h0, x0, Some buf0) ∧
       q_remove_tail h head (Some buf) bufsize = Ok (h1, x1, Some buf1) ∧
       length buf0 = length buf ∧ buf0 !! Z.to_nat (bufsize - 1) = Some NUL ∧
       length buf1 = length buf ∧ buf1 !! Z.to_nat (bufsize - 1) = Some NUL) ∧
  (bufsize = 0 →
     size_sub bufsize 1 = SIZE_MAX ∧
     q_remove_head h head (Some buf) bufsize = Fault ∧
     q_remove_tail h head (Some buf) bufsize = Fault).
Proof.
  intros Q Hne Hb Hl.
  assert (∃ x l, ns = x :: l) as (x & l & Ex) by (destruct ns; [done|eauto]).
  assert (∃ l' x', ns = l' ++ [x']) as (l' & x' & Ex').
  { destruct ns as [|y k _] using rev_ind; [done|eauto]. }
  assert (Z.of_nat (length buf) < 2 ^ 64) as Hl' by (unfold SIZE_MAX in Hl; lia).
  split.
  - intros H1. split; [apply size_sub_pos; lia|]. split; [lia|].
    assert (buffer_ok (Some buf) bufsize) as Hok by (split; [lia|done]).
    pose proof Q as Q1. rewrite Ex in Q1. pose proof Q as Q2. rewrite Ex' in Q2.
    destruct (q_remove_head_removes h head x l _ bufsize Q1 Hok) as (h0 & E0 & _).
    destruct (q_remove_tail_removes h head l' x' _ bufsize Q2 Hok) as (h1 & E1 & _).
    simpl in E0, E1. eexists h0, x, h1, x', _, _.
    split; [exact E0|]. split; [exact E1|].
    rewrite !copied_length, !copied_terminator by lia. done.
  - intros ->. split; [done|].
    pose proof Q as Q1. rewrite Ex in Q1. pose proof Q as Q2. rewrite Ex' in Q2.
    destruct (q_remove_head_spec h head x l (Some buf) 0 Q1) as (E0 & Q0 & R0).
    destruct (q_remove_tail_spec h head l' x' (Some buf) 0 Q2) as (E1 & Q1' & R1).
    rewrite E0, E1.
    pose proof (queue_strval _ _ _ _ Q1 ltac:(left)) as Hs0.
    pose proof (queue_load_value _ _ _ _ Q1 ltac:(left)) as Hv0.
    pose proof (queue_strval _ _ _ _ Q2 ltac:(apply elem_of_app; right; left)) as Hs1.
    pose proof (queue_load_value _ _ _ _ Q2 ltac:(apply elem_of_app; right; left)) as Hv1.
    unfold strval in Hs0, Hs1. rewrite Hv0 in Hs0. rewrite Hv1 in Hs1. simpl in Hs0, Hs1.
    rewrite (copy_out_zero _ x (valptr h x) (key h x)), (copy_out_zero _ x' (valptr h x') (key h x'));
      try done.
    + by rewrite (relinked_load_value _ _ _ R1).
    + by rewrite (relinked_load_chars _ _ _ R1).
    + by rewrite (relinked_load_value _ _ _ R0).
    + by rewrite (relinked_load_chars _ _ _ R0).
Qed.

Lemma q_remove_bufsize_witness :
  queue fruits 1 [2; 4; 6] ∧
  (size_sub 0 1 = SIZE_MAX ∧
   q_remove_head fruits 1 (Some ["x"; "x"; "x"; "x"; "x"]%char) 0 = Fault ∧
   q_remove_tail fruits 1 (Some ["x"; "x"; "x"; "x"; "x"]%char) 0 = Fault) ∧
  ('(_, x, buf) ← q_remove_head fruits 1 (Some ["x"; "x"; "x"; "x"; "x"]%char) 1; Ok (x, buf))
    = Ok (2, Some [NUL; "x"; "x"; "x"; "x"]%char) ∧
  ('(_, x, buf) ← q_remove_tail fruits 1 (Some ["x"; "x"; "x"; "x"; "x"]%char) 5; Ok (x, buf))
    = Ok (6, Some ["c"; "h"; "e"; "r"; NUL]%char).
Proof.
  assert (queue fruits 1 [2; 4; 6]) as Q by by_evaluation.
  split; [exact Q|].
  split; [apply (q_remove_bufsize fruits 1 [2; 4; 6] ["x"; "x"; "x"; "x"; "x"]%char 0 Q);
          [done|simpl; lia|by vm_compute|done]|].
  split; vm_compute; reflexivity.
Defined.

(** * The rest of queue.c, and how the operations compose *)

(** ** A ring fixes the links of its nodes *)

Lemma ring_load_node h h' head ns p :
  ring h head ns → ring h' head ns → p ∈ head :: ns → load_node h' p = load_node h p.
Proof.
  intros R R' Hp.
  assert (∃ a b, load_next h p = Ok a ∧ load_prev h p = Ok b ∧
                 load_next h' p = Ok a ∧ load_prev h' p = Ok b) as (a & b & H1 & H2 & H3 & H4).
  { apply elem_of_cons in Hp as [->|Hp].
    - exists (hd head ns), (lastd head ns).
      pose proof R as (_ & _ & _ & _ & _ & Hq)%ring_open.
      pose proof R' as (_ & _ & _ & _ & _ & Hq')%ring_open.
      by rewrite !(ring_next_head _ _ ns).
    - apply list_elem_of_split in Hp as (l1 & l2 & ->).
      exists (hd head l2), (lastd head l1).
      destruct (ring_at h head l1 p l2 R) as (? & ? & _).
      destruct (ring_at h' head l1 p l2 R') as (? & ? & _). done. }
  by rewrite (load_node_eq _ _ _ _ H1 H2), (load_node_eq _ _ _ _ H3 H4).
Qed.

Lemma ring_relinked_eq S h h' head ns :
  ring h head ns → ring h' head ns → relinked S h h' → S ⊆ head :: ns → h' = h.
Proof.
  intros R R' Rl Hsub. eapply relinked_eq; [done|].
  intros p Hp. eapply ring_load_node; [done|done|]. by apply Hsub.
Qed.

(** ** [q_new] *)

Lemma q_new_ok h pick :
  pick ≠ NULL → h !! pick = None → h !! NULL = None →
  q_new h pick = Ok (<[pick := Head (LinkPair pick pick)]> h, pick) ∧
  queue (<[pick := Head (LinkPair pick pick)]> h) pick [].
Proof.
  intros Hp Hf H0. split.
  - unfold q_new, malloc. rewrite decide_False by done. rewrite Hf.
    rewrite decide_False by done. unfold INIT_LIST_HEAD, blank_head.
    unfold store_next, store_prev, load_node, set_next, set_prev.
    rewrite lookup_insert_eq. simpl. rewrite alter_insert_eq. simpl.
    rewrite lookup_insert_eq. simpl. rewrite alter_insert_eq. simpl. done.
  - split; [|split; [constructor|constructor]].
    assert (load_node (<[pick:=Head (LinkPair pick pick)]> h) pick = Ok (LinkPair pick pick)) as Hn.
    { unfold load_node. by rewrite lookup_insert_eq. }
    split; [by rewrite lookup_insert_ne|]. split; [repeat constructor; by intros ?%elem_of_nil|].
    simpl. unfold load_next, load_prev. by rewrite Hn.
Qed.

Lemma q_new_fail h pick :
  pick = NULL ∨ is_Some (h !! pick) → q_new h pick = Ok (h, NULL).
Proof.
  intros Hf. unfold q_new, malloc. case_decide; [done|].
  destruct Hf as [?|[b Hb]]; [done|]. by rewrite Hb.
Qed.

(** ** [q_size] *)

Lemma size_loop_spec h head ns : ∀ R D fuel,
  ring h head ns → ns = D ++ R → (length R ≤ fuel)%nat →
  Z.of_nat (length ns) ≤ INT_MAX →
  size_loop fuel h head (hd head R) (Z.of_nat (length D)) = Ok (Z.of_nat (length ns)).
Proof.
  induction R as [|x R IH]; intros D fuel Rg -> Hf Hmax.
  { rewrite app_nil_r. destruct fuel; simpl; by rewrite decide_True. }
  destruct fuel as [|fuel]; [simpl in Hf; lia|].
  assert (x ≠ head) as Hx.
  { destruct Rg as (_ & ND & _). apply NoDup_cons in ND as (ND & _). intros ->.
    apply ND. clear. in_solver. }
  cbn [size_loop hd]. rewrite decide_False by done.
  rewrite decide_False by (rewrite length_app in Hmax; simpl in Hmax; lia).
  destruct (ring_at h head D x R Rg) as (Hn & _). rewrite Hn. simpl.
  replace (Z.of_nat (length D) + 1) with (Z.of_nat (length (D ++ [x])))
    by (rewrite length_app; simpl; lia).
  replace (D ++ x :: R) with ((D ++ [x]) ++ R) in * by (by rewrite <- (assoc_L (++))).
  apply IH; [done|done|simpl in Hf; lia|done].
Qed.

Lemma size_loop_overflow h head ns : ∀ R D fuel,
  ring h head ns → ns = D ++ R → (length R ≤ fuel)%nat →
  Z.of_nat (length D) ≤ INT_MAX < Z.of_nat (length ns) →
  size_loop fuel h head (hd head R) (Z.of_nat (length D)) = Fault.
Proof.
  induction R as [|x R IH]; intros D fuel Rg -> Hf Hmax.
  { rewrite app_nil_r in Hmax. lia. }
  destruct fuel as [|fuel]; [simpl in Hf; lia|].
  assert (x ≠ head) as Hx.
  { destruct Rg as (_ & ND & _). apply NoDup_cons in ND as (ND & _). intros ->.
    apply ND. clear. in_solver. }
  cbn [size_loop hd]. rewrite decide_False by done.
  case_decide as Hlen; [done|].
  destruct (ring_at h head D x R Rg) as (Hn & _). rewrite Hn. simpl.
  replace (Z.of_nat (length D) + 1) with (Z.of_nat (length (D ++ [x])))
    by (rewrite length_app; simpl; lia).
  replace (D ++ x :: R) with ((D ++ [x]) ++ R) in * by (by rewrite <- (assoc_L (++))).
  apply IH; [done|done|simpl in Hf; lia|].
  rewrite length_app. simpl. lia.
Qed.

Lemma q_size_ring h head ns fuel :
  ring h head ns → (length ns ≤ fuel)%nat → Z.of_nat (length ns) ≤ INT_MAX →
  q_size fuel h head = Ok (Z.of_nat (length ns)).
Proof.
  intros R Hf Hmax. unfold q_size.
  rewrite decide_False by (eapply ring_nonnull; [done|left]).
  rewrite (ring_next_head _ _ _ R). simpl.
  by apply (size_loop_spec h head ns ns []).
Qed.

(** ** [q_free] *)

Lemma cells_snoc h D x p :
  p ∈ cells h (D ++ [x]) ↔ p ∈ cells h D ∨ p = x ∨ p = valptr h x.
Proof.
  unfold cells. rewrite fmap_app. simpl.
  rewrite !elem_of_app, !list_elem_of_singleton. tauto.
Qed.

Lemma free_loop_spec h head ns : ∀ R D hc fuel,
  ring h head ns → ns = D ++ R →
  hc !! NULL = None → payload hc R →
  (∀ p, p ∈ head :: R → hc !! p = h !! p) →
  freed (cells h D) h hc → (length R ≤ fuel)%nat →
  ∃ h', free_loop fuel hc head (hd head R)
          (match R with _ :: R' => hd head R' | [] => hd head ns end) = Ok h' ∧
        freed (cells h ns) h h' ∧ h' !! head = h !! head.
Proof.
  induction R as [|x R IH]; intros D hc fuel Rg E H0 P Hsame Hfr Hf.
  { exists hc. rewrite app_nil_r in E. subst D.
    split; [|split; [done|apply Hsame; left]].
    destruct fuel; simpl; by rewrite decide_True. }
  destruct fuel as [|fuel]; [simpl in Hf; lia|].
  pose proof Rg as Rg'. rewrite E in Rg'.
  assert (x ≠ head) as Hx.
  { destruct Rg' as (_ & ND & _). apply NoDup_cons in ND as (ND & _). intros ->.
    apply ND. clear. in_solver. }
  cbn [free_loop hd]. rewrite decide_False by done.
  destruct (release_frame hc x R H0 P) as (Hr & P' & H0' & Hs & Hk & HxR).
  rewrite Hr. cbn [mbind res_bind].
  set (h1 := delete x (delete (valptr hc x) hc)) in *.
  assert (∀ p, p ∈ head :: R → h1 !! p = h !! p) as Hsame1.
  { intros p Hp. rewrite <- Hsame by (clear -Hp; in_solver). apply Hs.
    - unfold is_node. rewrite Hsame by (clear -Hp; in_solver).
      eapply ring_is_node; [exact Rg'|]. clear -Hp. in_solver.
    - intros ->. apply elem_of_cons in Hp as [?|?]; done. }
  assert (valptr hc x = valptr h x) as Hv.
  { unfold valptr. rewrite Hsame; [done|]. right. left. }
  assert (load_next h1 (hd head R)
            = Ok (match R with _ :: R' => hd head R' | [] => hd head ns end)) as Hn.
  { unfold load_next, load_node. rewrite Hsame1 by apply hd_in_cons.
    destruct R as [|y R'].
    - apply (ring_next_head h head ns Rg).
    - replace (D ++ x :: y :: R') with ((D ++ [x]) ++ y :: R') in Rg'
        by (by rewrite <- (assoc_L (++))).
      by destruct (ring_at h head (D ++ [x]) y R' Rg') as (? & _). }
  rewrite Hn. cbn [mbind res_bind].
  destruct (IH (D ++ [x]) h1 fuel) as (h' & Hl & Hfr' & Hh); try done.
  { by rewrite <- (assoc_L (++)). }
  { intros p. unfold h1. rewrite Hv. destruct (decide (p = x)) as [->|Hpx].
    - rewrite lookup_delete_eq. rewrite decide_True; [done|]. apply cells_snoc. auto.
    - rewrite lookup_delete_ne by done. destruct (decide (p = valptr h x)) as [->|Hpv].
      + rewrite lookup_delete_eq. rewrite decide_True; [done|]. apply cells_snoc. auto.
      + rewrite lookup_delete_ne by done. rewrite (Hfr p).
        apply decide_ext. rewrite cells_snoc. tauto. }
  { simpl in Hf. lia. }
  by exists h'.
Qed.

Lemma q_free_queue h head ns fuel :
  queue h head ns → (length ns ≤ fuel)%nat →
  ∃ h', q_free fuel h head = Ok h' ∧ freed (head :: cells h ns) h h'.
Proof.
  intros (Rg & P) Hf. pose proof Rg as (H0 & ND & _).
  assert (head ≠ NULL) as Hh by (eapply ring_nonnull; [done|left]).
  unfold q_free. rewrite decide_False by done.
  rewrite (ring_next_head _ _ _ Rg). cbn [mbind res_bind].
  assert (load_next h (hd head ns)
            = Ok (match ns with _ :: R' => hd head R' | [] => hd head ns end)) as Hn.
  { destruct ns as [|y R']; [apply (ring_next_head _ _ _ Rg)|].
    by destruct (ring_at h head [] y R' Rg) as (? & _). }
  rewrite Hn. cbn [mbind res_bind].
  destruct (free_loop_spec h head ns ns [] h fuel) as (h' & Hl & Hfr & Hhd); try done.
  rewrite Hl. cbn [mbind res_bind].
  assert (is_Some (h' !! head)) as (b & Hb).
  { rewrite Hhd. apply is_node_lookup. eapply ring_is_node; [done|left]. }
  exists (delete head h'). split.
  - unfold free. rewrite decide_False by done. by rewrite Hb.
  - intros p. destruct (decide (p = head)) as [->|Hp].
    + rewrite lookup_delete_eq. rewrite decide_True; [done|left].
    + rewrite lookup_delete_ne by done. rewrite (Hfr p). apply decide_ext.
      rewrite elem_of_cons. tauto.
Qed.

Lemma q_new_free h pick fuel :
  pick ≠ NULL → h !! pick = None → h !! NULL = None →
  ∃ h1, q_new h pick = Ok (h1, pick) ∧ queue h1 pick [] ∧
        q_size fuel h1 pick = Ok 0 ∧ q_free fuel h1 pick = Ok h.
Proof.
  intros Hp Hf H0. destruct (q_new_ok h pick Hp Hf H0) as (Hn & Q).
  eexists. split; [exact Hn|]. split; [exact Q|]. split.
  - apply (q_size_ring _ pick [] fuel); [by destruct Q|simpl; lia|done].
  - destruct (q_free_queue _ pick [] fuel Q ltac:(simpl; lia)) as (h' & Hq & Hfr).
    rewrite Hq. f_equal. apply map_eq. intros p. rewrite (Hfr p).
    unfold cells. simpl. case_decide as Hin.
    + apply list_elem_of_singleton in Hin as ->. done.
    + rewrite lookup_insert_ne; [done|]. intros ->. apply Hin. left.
Qed.

(** ** The strings of a queue after an insertion *)

Lemma contents_inserted h head ns ns' s pe ps h' :
  queue h head ns → alloc_ok h pe ps → inserts h head ns' s pe ps (Ok (h', true)) →
  key h' pe = c_str s ∧ ∀ p, p ∈ ns → key h' p = key h p.
Proof.
  intros Q (_ & _ & _ & He & Hs) (h0 & [= <-] & Q' & R & Hstr).
  split; [unfold key; by rewrite Hstr|].
  intros p Hp. rewrite (relinked_key _ _ _ R). by eapply key_inserted.
Qed.

Lemma q_insert_head_contents h head ns s pe ps :
  queue h head ns → alloc_ok h pe ps →
  ∃ h', q_insert_head h head s pe ps = Ok (h', true) ∧ queue h' head (pe :: ns) ∧
        contents h' (pe :: ns) = c_str s :: contents h ns.
Proof.
  intros Q A. pose proof (q_insert_head_inserts h head ns s pe ps Q A) as I.
  pose proof I as (h' & E & Q' & _). exists h'. split; [done|]. split; [done|].
  rewrite E in I. destruct (contents_inserted _ _ _ _ _ _ _ _ Q A I) as (Hk & Hold).
  unfold contents. rewrite fmap_cons, Hk. f_equal. apply list_fmap_ext. intros i x Hx. apply Hold. by eapply list_elem_of_lookup_2.
Qed.

Lemma q_insert_tail_contents h head ns s pe ps :
  queue h head ns → alloc_ok h pe ps →
  ∃ h', q_insert_tail h head s pe ps = Ok (h', true) ∧ queue h' head (ns ++ [pe]) ∧
        contents h' (ns ++ [pe]) = contents h ns ++ [c_str s].
Proof.
  intros Q A. pose proof (q_insert_tail_inserts h head ns s pe ps Q A) as I.
  pose proof I as (h' & E & Q' & _). exists h'. split; [done|]. split; [done|].
  rewrite E in I. destruct (contents_inserted _ _ _ _ _ _ _ _ Q A I) as (Hk & Hold).
  unfold contents. rewrite fmap_app. simpl. rewrite Hk. f_equal. apply list_fmap_ext. intros i x Hx. apply Hold. by eapply list_elem_of_lookup_2.
Qed.

(** ** Inserting, removing and releasing an element *)

Lemma restore h head ns s pe ps h1 h2 S1 S2 :
  queue h head ns → alloc_ok h pe ps →
  relinked S1 (inserted h pe ps s) h1 → relinked S2 h1 h2 →
  S1 ⊆ pe :: head :: ns → S2 ⊆ pe :: head :: ns →
  ring (delete pe (delete ps h2)) head ns →
  delete pe (delete ps h2) = h.
Proof.
  intros (Rg & _) (_ & _ & Hne & He & Hs) R1 R2 H1 H2 Rg'.
  eapply (ring_relinked_eq (head :: ns)); [done|done| |done].
  assert (∀ p, p ≠ pe → p ≠ ps → inserted h pe ps s !! p = h !! p) as Hins.
  { intros p ? ?. unfold inserted. by rewrite !lookup_insert_ne. }
  intros p. destruct (decide (p = pe)) as [->|Hpe].
  { rewrite lookup_delete_eq, He. done. }
  rewrite lookup_delete_ne by done.
  destruct (decide (p = ps)) as [->|Hps].
  { rewrite lookup_delete_eq, Hs. done. }
  rewrite lookup_delete_ne by done.
  destruct (R1 p) as (E1 & F1), (R2 p) as (E2 & F2). split.
  - by rewrite E2, E1, Hins.
  - intros Hp. rewrite F2, F1, Hins; try done.
    + intros Hin%H1. apply elem_of_cons in Hin as [?|?]; done.
    + intros Hin%H2. apply elem_of_cons in Hin as [?|?]; done.
Qed.

Lemma insert_remove_release_head h head ns s pe ps sp bufsize :
  queue h head ns → alloc_ok h pe ps → buffer_ok sp bufsize →
  ∃ h1 h2,
    q_insert_head h head s pe ps = Ok (h1, true) ∧
    q_remove_head h1 head sp bufsize
      = Ok (h2, pe, (λ buf, copied buf (c_str s) bufsize) <$> sp) ∧
    q_release_element h2 pe = Ok h.
Proof.
  intros Q A Hb.
  destruct (q_insert_head_ok h head ns s pe ps Q A) as (h1 & Hi & Q1 & R1 & Hv & Hc).
  destruct (q_remove_head_spec h1 head pe ns sp bufsize Q1) as (Hr & Q2 & R2).
  destruct (copy_out_queue h1 _ _ head (pe :: ns) pe sp bufsize Q1 ltac:(left) R2 Hb)
    as (Hco & _).
  assert (key h1 pe = c_str s) as Hk.
  { unfold key, strval. rewrite (queue_load_value _ _ _ _ Q1) by left.
    rewrite Hv. simpl. by rewrite Hc. }
  rewrite Hk in Hco. rewrite Hco in Hr. simpl in Hr.
  eexists h1, _. split; [done|]. split; [exact Hr|].
  pose proof Q1 as ((_ & ND & _) & P1).
  destruct (q_release_element_spec _ head ns pe (queue_ring _ _ _ Q2)) as (Hrel & Q3).
  { eapply payload_relinked; [exact R2|done|done]. }
  { apply NoDup_cons in ND as (Hh & ND). apply NoDup_cons in ND as (Hpe & _).
    intros [->|?]%elem_of_cons; [|done]. apply Hh. left. }
  rewrite Hrel. f_equal. rewrite (relinked_valptr _ _ _ R2), Hv in Q3 |- *.
  eapply (restore h head ns s pe ps h1); [done|done|exact R1|exact R2|done| |by destruct Q3].
  intros p. pose proof (hd_in_cons head ns) as Hhd. clear -Hhd. in_solver.
Qed.

Lemma insert_remove_release_tail h head ns s pe ps sp bufsize :
  queue h head ns → alloc_ok h pe ps → buffer_ok sp bufsize →
  ∃ h1 h2,
    q_insert_tail h head s pe ps = Ok (h1, true) ∧
    q_remove_tail h1 head sp bufsize
      = Ok (h2, pe, (λ buf, copied buf (c_str s) bufsize) <$> sp) ∧
    q_release_element h2 pe = Ok h.
Proof.
  intros Q A Hb.
  destruct (q_insert_tail_ok h head ns s pe ps Q A) as (h1 & Hi & Q1 & R1 & Hv & Hc).
  destruct (q_remove_tail_spec h1 head ns pe sp bufsize Q1) as (Hr & Q2 & R2).
  destruct (copy_out_queue h1 _ _ head (ns ++ [pe]) pe sp bufsize Q1
              ltac:(apply elem_of_app; right; left) R2 Hb) as (Hco & _).
  assert (key h1 pe = c_str s) as Hk.
  { unfold key, strval.
    rewrite (queue_load_value _ _ _ _ Q1) by (apply elem_of_app; right; left).
    rewrite Hv. simpl. by rewrite Hc. }
  rewrite Hk in Hco. rewrite Hco in Hr. simpl in Hr.
  eexists h1, _. split; [done|]. split; [exact Hr|].
  pose proof Q1 as ((_ & ND & _) & P1).
  destruct (q_release_element_spec _ head ns pe (queue_ring _ _ _ Q2)) as (Hrel & Q3).
  { eapply payload_relinked; [exact R2| |done]. by rewrite Permutation_app_comm. }
  { apply NoDup_cons in ND as (Hh & ND). apply NoDup_app in ND as (_ & Hd & _).
    intros [->|Hin]%elem_of_cons.
    - apply Hh. apply elem_of_app. right. left.
    - apply (Hd pe Hin). left. }
  rewrite Hrel. f_equal. rewrite (relinked_valptr _ _ _ R2), Hv in Q3 |- *.
  eapply (restore h head ns s pe ps h1); [done|done|exact R1|exact R2|done| |by destruct Q3].
  intros p. pose proof (lastd_in head ns) as Hl. clear -Hl. in_solver.
Qed.

(** A queue is first in, first out: what [q_insert_tail] appends comes
    out of [q_remove_head] after the elements that were there. *)
Lemma insert_tail_remove_head h head x l s pe ps sp bufsize :
  queue h head (x :: l) → alloc_ok h pe ps → buffer_ok sp bufsize →
  ∃ h1 h2,
    q_insert_tail h head s pe ps = Ok (h1, true) ∧
    q_remove_head h1 head sp bufsize
      = Ok (h2, x, (λ buf, copied buf (key h x) bufsize) <$> sp) ∧
    queue h2 head (l ++ [pe]).
Proof.
  intros Q A Hb.
  pose proof (q_insert_tail_inserts h head (x :: l) s pe ps Q A) as I.
  pose proof I as (h1 & Hi & Q1 & R1 & _). rewrite Hi in I.
  destruct (contents_inserted _ _ _ _ _ _ _ _ Q A I) as (_ & Hold).
  destruct (q_remove_head_removes h1 head x (l ++ [pe]) sp bufsize Q1 Hb)
    as (h2 & Hr & _ & Q2 & _).
  rewrite (Hold x) in Hr by left. by exists h1, h2.
Qed.

(** ** One sorted and stable arrangement *)

Lemma heap_eq h0 h1 :
  (∀ p, erase <$> h0 !! p = erase <$> h1 !! p) →
  (∀ p, load_node h0 p = load_node h1 p) → h0 = h1.
Proof.
  intros He Hl. apply map_eq. intros p. specialize (He p). specialize (Hl p).
  unfold load_node in Hl.
  destruct (h0 !! p) as [b0|], (h1 !! p) as [b1|]; simpl in *; try done.
  f_equal. injection He as He. apply block_eq; [done|].
  destruct (node_of b0), (node_of b1); congruence.
Qed.

Section unique_sort.
  Context (k : Z → string).

Lemma sorted_stable_unique a : ∀ b,
    sorted_by k a → sorted_by k b → a ≡ₚ b →
    (∀ c, filter (λ y, same_key k c y = true) a = filter (λ y, same_key k c y = true) b) →
    a = b.
  Proof.
    induction a as [|x a IH]; intros b Sa Sb Hp Hf.
    { by apply Permutation_nil_l in Hp. }
    destruct b as [|y b]; [by apply Permutation_nil_r in Hp|].
    apply StronglySorted_inv in Sa as (Sa & Fa). apply StronglySorted_inv in Sb as (Sb & Fb).
    rewrite Forall_forall in Fa, Fb.
    assert (same_key k x x = true) as Hxx by apply same_key_true, strcmp_refl.
    assert (x = y) as <-.
    { pose proof (Hf x) as Hx. rewrite filter_cons_True in Hx by done.
      destruct (same_key k x y) eqn:Exy.
      - rewrite filter_cons_True in Hx by done. congruence.
      - exfalso. apply not_true_iff_false in Exy. apply Exy. apply same_key_true.
        assert (x ∈ y :: b) as Hxb by (rewrite <- Hp; left).
        assert (y ∈ x :: a) as Hya by (rewrite Hp; left).
        assert (strcmp (k y) (k x) ≤ 0) as H1.
        { apply elem_of_cons in Hxb as [->|Hxb]; [by rewrite strcmp_refl|].
          by apply le_key_true, Fb. }
        assert (strcmp (k x) (k y) ≤ 0) as H2.
        { apply elem_of_cons in Hya as [->|Hya]; [by rewrite strcmp_refl|].
          by apply le_key_true, Fa. }
        pose proof (strcmp_antisym (k x) (k y)). lia. }
    f_equal. apply IH; [done|done|by apply Permutation_cons_inv in Hp|].
    intros c. specialize (Hf c). rewrite !(filter_cons _ x) in Hf.
    case_decide; [by injection Hf|done].
  Qed.

Lemma sort0_sorted_id l : sorted_by k l → sort0 (le_key k) l = l.
  Proof.
    intros S. apply sorted_stable_unique;
      [apply sort0_sorted|done|apply sort0_perm|apply sort0_stable].
  Qed.

Lemma sort1_sorted_id l :
    Z.of_nat (length l) ≤ 2 ^ 31 → sorted_by k l → sort1 (le_key k) l = l.
  Proof.
    intros Hl S. apply sorted_stable_unique;
      [apply sort1_sorted|done|apply sort1_perm|by apply sort1_stable].
  Qed.

End unique_sort.

Lemma sorted_by_ext k k' l :
  (∀ p, k' p = k p) → sorted_by k l → sorted_by k' l.
Proof.
  intros E S. induction S as [|x l S IH F]; [constructor|].
  constructor; [done|]. eapply Forall_impl; [exact F|].
  intros y. unfold le_key. by rewrite !E.
Qed.

(** ** Sorting what is sorted, and sorting twice *)

Lemma q_sort_sorted_same h head ns fuel :
  queue h head ns → sorted_by (key h) ns → (length ns ≤ fuel)%nat →
  Part0.q_sort fuel h head = Ok h ∧
  (Z.of_nat (length ns) ≤ 2 ^ 31 → Part1.q_sort fuel h head = Ok h).
Proof.
  intros Q S Hf. pose proof (queue_ring _ _ _ Q) as Rg. split.
  - destruct (q_sort0_spec h head ns fuel Q Hf) as (h' & Hs & (R' & _) & Rl).
    rewrite sort0_sorted_id in R' by done. rewrite Hs. f_equal.
    by eapply (ring_relinked_eq (head :: ns)).
  - intros Hl. destruct (q_sort1_spec h head ns fuel Q Hf) as (h' & Hs & (R' & _) & Rl).
    rewrite sort1_sorted_id in R' by done. rewrite Hs. f_equal.
    by eapply (ring_relinked_eq (head :: ns)).
Qed.


(** ** Swapping twice, and the two revisions side by side *)

Lemma swap_pairs_involutive l : swap_pairs (swap_pairs l) = l.
Proof.
  induction l as [l IH] using (induction_ltof1 _ (@length Z)). unfold ltof in IH.
  destruct l as [|a [|b l]]; [done|done|]. simpl. rewrite IH by (simpl; lia). done.
Qed.

Lemma swaps_agree h head ns h0 h1 :
  ring h0 head (swap_pairs ns) → ring h1 head (swap_pairs ns) →
  relinked (head :: ns) h h0 → relinked (head :: ns) h h1 → h1 = h0.
Proof.
  intros R0 R1 L0 L1. eapply (ring_relinked_eq (head :: ns)); [done|done| |].
  - eapply relinked_trans; [apply relinked_sym; exact L0|exact L1].
  - intros p. by rewrite !elem_of_cons, swap_pairs_perm.
Qed.

Lemma q_swap_twice h head ns fuel :
  queue h head ns → (length ns ≤ fuel)%nat →
  ∃ h1, Part0.q_swap fuel h head = Ok h1 ∧ Part1.q_swap fuel h head = Ok h1 ∧
        Part0.q_swap fuel h1 head = Ok h ∧ Part1.q_swap fuel h1 head = Ok h.
Proof.
  intros Q Hf. pose proof (queue_ring _ _ _ Q) as Rg.
  destruct (q_swap0_spec h head ns fuel Rg Hf) as (h0 & E0 & R0 & L0).
  destruct (q_swap1_spec h head ns fuel Rg Hf) as (h1 & E1 & R1 & L1).
  assert (h1 = h0) as -> by (by eapply swaps_agree).
  exists h0. split; [done|]. split; [done|].
  assert (length (swap_pairs ns) ≤ fuel)%nat as Hf' by (by rewrite swap_pairs_length).
  destruct (q_swap0_spec h0 head _ fuel R0 Hf') as (h2 & E2 & R2 & L2).
  destruct (q_swap1_spec h0 head _ fuel R0 Hf') as (h3 & E3 & R3 & L3).
  rewrite swap_pairs_involutive in R2, R3.
  assert (∀ h', ring h' head ns → relinked (head :: swap_pairs ns) h0 h' → h' = h) as Hback.
  { intros h' R' L'. eapply (ring_relinked_eq (head :: ns)); [done|done| |done].
    eapply relinked_trans; [exact L0|].
    eapply relinked_mono; [|exact L']. intros p. by rewrite !elem_of_cons, swap_pairs_perm. }
  rewrite E2, E3. by rewrite (Hback h2), (Hback h3).
Qed.

Lemma q_delete_mid_agree h head ns fuel :
  queue h head ns → (length ns < fuel)%nat →
  Part1.q_delete_mid fuel h head = Part0.q_delete_mid fuel h head.
Proof.
  intros Q Hf. destruct (decide (ns = [])) as [->|Hne].
  { destruct (q_delete_mid_none h head (or_intror (queue_ring _ _ _ Q)) fuel) as (-> & ->). done. }
  destruct (q_delete_mid0_spec h head ns fuel Q Hne ltac:(lia)) as (h0 & x & Hx & E0 & (R0 & _) & L0).
  destruct (q_delete_mid1_spec h head ns fuel Q Hne Hf) as (h1 & x' & Hx' & E1 & (R1 & _) & L1).
  assert (x' = x) as -> by congruence. rewrite E0, E1. do 2 f_equal.
  eapply relinked_eq.
  { eapply relinked_trans; [apply relinked_sym; exact L0|exact L1]. }
  intros p Hp.
  assert (∀ h', relinked (head :: ns) (released h [x] h) h' → h' !! x = None) as Hgone.
  { intros h' L. destruct (L x) as (E & _). simpl in E. rewrite lookup_delete_eq in E.
    by destruct (h' !! x). }
  destruct (decide (p = x)) as [->|Hpx].
  { unfold load_node. by rewrite (Hgone h0), (Hgone h1). }
  eapply ring_load_node; [done|done|].
  rewrite delete_take_drop. rewrite <- (take_drop_middle _ _ _ Hx) in Hp.
  clear -Hp Hpx. in_solver.
Qed.

Lemma q_delete_dup_agree h head ns fuel :
  queue h head ns → (length ns ≤ fuel)%nat →
  Part1.q_delete_dup fuel h head = Part0.q_delete_dup fuel h head.
Proof.
  intros Q Hf.
  destruct (q_delete_dup0_spec h head ns fuel Q Hf) as (h0 & D0 & E0 & (R0 & _) & P0 & L0).
  destruct (q_delete_dup1_spec h head ns fuel Q Hf) as (h1 & D1 & E1 & (R1 & _) & P1 & L1).
  rewrite (dedup_ext _ (same_key (key h))) in R0, P0 by (intros; apply same_key_sym).
  set (K := dedup (same_key (key h)) false ns) in *.
  assert (D0 ≡ₚ D1) as HD.
  { apply (Permutation_app_inv_r K). by rewrite <- P0, <- P1. }
  assert (∀ p, p ∈ cells h D1 ↔ p ∈ cells h D0) as Hcells.
  { intros p. unfold cells. by rewrite HD. }
  rewrite E0, E1. do 2 f_equal. apply heap_eq.
  - intros p. destruct (L0 p) as (A0 & B0), (L1 p) as (A1 & B1).
    destruct (decide (p ∈ cells h D0)) as [Hin|Hout].
    + by rewrite A0, A1 by (done || by apply Hcells).
    + destruct B0 as (-> & _); [done|]. destruct B1 as (-> & _); [by rewrite Hcells|]. done.
  - intros p. destruct (L0 p) as (A0 & B0), (L1 p) as (A1 & B1).
    destruct (decide (p ∈ cells h D0)) as [Hin|Hout].
    { unfold load_node. by rewrite A0, A1 by (done || by apply Hcells). }
    destruct B0 as (_ & F0); [done|]. destruct B1 as (_ & F1); [by rewrite Hcells|].
    destruct (decide (p ∈ head :: ns)) as [Hp|Hp].
    + eapply ring_load_node; [done|done|].
      apply elem_of_cons in Hp as [->|Hp]; [left|right].
      rewrite P0 in Hp. apply elem_of_app in Hp as [Hp|Hp]; [|done].
      exfalso. apply Hout. unfold cells. apply elem_of_app. by left.
    + unfold load_node. by rewrite F0, F1.
Qed.

Lemma q_reverse_agree h head ns fuel :
  queue h head ns → (length ns < fuel)%nat →
  Part1.q_reverse fuel h head = Part0.q_reverse fuel h head.
Proof.
  intros Q Hf. pose proof (queue_ring _ _ _ Q) as Rg.
  by rewrite (q_reverse0_spec h head ns fuel Rg), (q_reverse1_spec h head ns fuel Rg) by lia.
Qed.
(** ** The size of a queue, before and after the operations *)

Lemma q_size_total h head ns fuel :
  ring h head ns → (length ns ≤ fuel)%nat →
  q_size fuel h head =
    if decide (Z.of_nat (length ns) ≤ INT_MAX) then Ok (Z.of_nat (length ns)) else Fault.
Proof.
  intros R Hf. case_decide as Hmax; [by apply q_size_ring|].
  unfold q_size. rewrite decide_False by (eapply ring_nonnull; [done|left]).
  rewrite (ring_next_head _ _ _ R). simpl.
  apply (size_loop_overflow h head ns ns []); [done|done|done|].
  simpl. unfold INT_MAX in *. lia.
Qed.

Lemma q_size_queue h head ns fuel :
  queue h head ns → (length ns ≤ fuel)%nat → Z.of_nat (length ns) ≤ INT_MAX →
  q_size fuel h head = Ok (Z.of_nat (length ns)).
Proof. intros (R & _). by apply q_size_ring. Qed.

Lemma q_size_inserted h head ns s pe ps fuel :
  queue h head ns → alloc_ok h pe ps →
  (length ns < fuel)%nat → Z.of_nat (length ns) < INT_MAX →
  ('(h', _) ← q_insert_head h head s pe ps; q_size fuel h' head)
    = Ok (Z.of_nat (length ns) + 1) ∧
  ('(h', _) ← q_insert_tail h head s pe ps; q_size fuel h' head)
    = Ok (Z.of_nat (length ns) + 1).
Proof.
  intros Q A Hf Hmax.
  destruct (q_insert_head_ok h head ns s pe ps Q A) as (h1 & E1 & Q1 & _).
  destruct (q_insert_tail_ok h head ns s pe ps Q A) as (h2 & E2 & Q2 & _).
  rewrite E1, E2. cbn [mbind res_bind].
  rewrite (q_size_queue h1 head (pe :: ns)), (q_size_queue h2 head (ns ++ [pe]));
    rewrite ?length_app; simpl; try done; try lia.
  split; f_equal; lia.
Qed.

Lemma q_size_removed_head h head x l sp bufsize fuel :
  queue h head (x :: l) → buffer_ok sp bufsize →
  (length l ≤ fuel)%nat → Z.of_nat (length l) ≤ INT_MAX →
  ('(h', _, _) ← q_remove_head h head sp bufsize; q_size fuel h' head)
    = Ok (Z.of_nat (length l)).
Proof.
  intros Q Hb Hf Hmax.
  destruct (q_remove_head_removes h head x l sp bufsize Q Hb) as (h' & E & _ & Q' & _).
  rewrite E. cbn [mbind res_bind]. by apply (q_size_queue h' head l).
Qed.

Lemma q_size_removed_tail h head l x sp bufsize fuel :
  queue h head (l ++ [x]) → buffer_ok sp bufsize →
  (length l ≤ fuel)%nat → Z.of_nat (length l) ≤ INT_MAX →
  ('(h', _, _) ← q_remove_tail h head sp bufsize; q_size fuel h' head)
    = Ok (Z.of_nat (length l)).
Proof.
  intros Q Hb Hf Hmax.
  destruct (q_remove_tail_removes h head l x sp bufsize Q Hb) as (h' & E & _ & Q' & _).
  rewrite E. cbn [mbind res_bind]. by apply (q_size_queue h' head l).
Qed.

(** ** [q_delete_dup] on a list in any order *)

Lemma dedup_sublist same d l : dedup same d l `sublist_of` l.
Proof.
  revert d. induction l as [|x l IH]; intros d; [done|].
  destruct l as [|y l].
  { simpl. destruct d; [by apply sublist_cons|done]. }
  rewrite dedup_cons2. destruct (same x y); [apply sublist_cons, IH|].
  destruct d; [apply sublist_cons, IH|apply sublist_skip, IH].
Qed.

Lemma dedup_no_twins k l : no_twins k l → dedup (same_key k) false l = l.
Proof.
  induction l as [|x l IH]; [done|]. destruct l as [|y l]; [done|].
  intros (E & N). rewrite dedup_cons2, E. f_equal. by apply IH.
Qed.

Lemma key_erase h h' p :
  erase <$> h' !! p = erase <$> h !! p →
  (∀ v, load_value h p = Ok v → erase <$> h' !! v = erase <$> h !! v) →
  key h' p = key h p.
Proof.
  intros E Hv. unfold key, strval, load_value, load_chars in *.
  destruct (h' !! p) as [b'|], (h !! p) as [b|]; simpl in E; try done.
  injection E as E. apply erase_eq_value in E. destruct b', b; try done.
  rewrite E. simpl. specialize (Hv _ eq_refl).
  destruct (h' !! value e0) as [c'|], (h !! value e0) as [c|]; simpl in Hv; try done.
  injection Hv as Hv. apply erase_eq_value in Hv. destruct c', c; try done; by rewrite Hv.
Qed.

Lemma kept_key h head ns D kept S h' p :
  queue h head ns → ns ≡ₚ D ++ kept → reshaped (cells h D) S h h' → p ∈ kept →
  key h' p = key h p.
Proof.
  intros Q Hp R Hk. pose proof Q as ((_ & ND & _) & NV & Hc).
  apply NoDup_cons in ND as (_ & ND). rewrite Hp in ND.
  rewrite Forall_forall in Hc.
  assert (∀ q, q ∈ D ++ kept → q ∈ ns) as Hin by (intros q; by rewrite Hp).
  assert (∀ a b, a ∈ ns → b ∈ ns → a ≠ valptr h b) as Hne.
  { intros a b Ha Hb ->. specialize (Hc b Hb).
    pose proof (queue_load_value _ _ _ _ Q Ha) as Hl.
    unfold is_chars in Hc. unfold load_value in Hl.
    by destruct (h !! valptr h b) as [[| |]|]. }
  assert (valptr h <$> ns ≡ₚ (valptr h <$> D) ++ (valptr h <$> kept)) as Hv.
  { by rewrite Hp, fmap_app. }
  rewrite Hv in NV. apply NoDup_app in NV as (_ & NV & _).
  apply NoDup_app in ND as (_ & ND & _).
  assert (p ∈ ns) as Hpn by (apply Hin, elem_of_app; by right).
  assert (p ∉ cells h D) as H1.
  { unfold cells. intros [H|H]%elem_of_app.
    - by apply (ND p).
    - apply list_elem_of_fmap in H as (d & -> & Hd).
      apply (Hne (valptr h d) d); [done|apply Hin, elem_of_app; by left|done]. }
  assert (valptr h p ∉ cells h D) as H2.
  { unfold cells. intros [H|H]%elem_of_app.
    - apply (Hne (valptr h p) p); [apply Hin, elem_of_app; by left|done|done].
    - apply (NV (valptr h p) H). apply list_elem_of_fmap. by exists p. }
  apply key_erase.
  - by destruct (R p) as (_ & (? & _)).
  - intros v Hl. rewrite (queue_load_value _ _ _ _ Q Hpn) in Hl. injection Hl as <-.
    by destruct (R (valptr h p)) as (_ & (? & _)).
Qed.

Lemma q_delete_dup_any h head ns fuel :
  queue h head ns → (length ns ≤ fuel)%nat →
  ∃ h' kept,
    Part0.q_delete_dup fuel h head = Ok (h', true) ∧
    Part1.q_delete_dup fuel h head = Ok (h', true) ∧
    queue h' head kept ∧ kept `sublist_of` ns ∧
    contents h' kept = contents h kept ∧
    (no_twins (key h) ns → h' = h).
Proof.
  intros Q Hf. pose proof (q_delete_dup_agree h head ns fuel Q Hf) as Ha.
  destruct (q_delete_dup1_spec h head ns fuel Q Hf) as (h' & D & E & Q' & Hp & R).
  exists h', (dedup (same_key (key h)) false ns).
  split; [by rewrite <- Ha|]. split; [done|]. split; [done|].
  split; [apply dedup_sublist|]. split.
  - unfold contents. apply list_fmap_ext. intros i x Hx.
    eapply kept_key; [done|done|done|]. by eapply list_elem_of_lookup_2.
  - intros N. rewrite dedup_no_twins in Q', Hp by done.
    assert (D = []) as ->.
    { pose proof (Permutation_length Hp) as Hl.
      rewrite length_app in Hl. destruct D; [done|simpl in Hl; lia]. }
    apply reshaped_nil in R.
    eapply (ring_relinked_eq (head :: ns)); [by destruct Q|by destruct Q'|done|done].
Qed.

(** ** Sorting, then deleting the duplicates *)

Lemma unique_key_perm k k' l l' x :
  (∀ p, k' p = k p) → l' ≡ₚ l → unique_key k' l' x ↔ unique_key k l x.
Proof.
  intros Hk Hp. unfold unique_key.
  rewrite Hp. rewrite (list_filter_iff _ (λ y, same_key k x y = true)); [done|].
  intros y. unfold same_key. by rewrite !Hk.
Qed.

Lemma sorted_then_dedup h head ns out h1 fuel :
  queue h head ns → queue h1 head out → out ≡ₚ ns → relinked (head :: ns) h h1 →
  sorted_by (key h) out → (length ns ≤ fuel)%nat →
  ∃ h2, Part0.q_delete_dup fuel h1 head = Ok (h2, true) ∧
        Part1.q_delete_dup fuel h1 head = Ok (h2, true) ∧
        queue h2 head (filter (unique_key (key h) ns) out) ∧
        contents h2 (filter (unique_key (key h) ns) out)
          = contents h (filter (unique_key (key h) ns) out).
Proof.
  intros Q Q1 Hp R S Hf.
  assert (length out ≤ fuel)%nat as Hf1 by (by rewrite Hp).
  assert (sorted_by (key h1) out) as S1.
  { eapply sorted_by_ext; [|exact S]. intros p. apply (relinked_key _ _ _ R). }
  pose proof (q_delete_dup_agree h1 head out fuel Q1 Hf1) as Ha.
  destruct (q_delete_dup1_spec h1 head out fuel Q1 Hf1) as (h2 & D & E & Q2 & HD & R2).
  rewrite dedup_unique in Q2, HD by done.
  assert (filter (unique_key (key h1) out) out = filter (unique_key (key h) ns) out) as Ef.
  { apply list_filter_iff. intros x. apply unique_key_perm; [|done].
    intros p. apply (relinked_key _ _ _ R). }
  rewrite Ef in Q2, HD.
  exists h2. split; [by rewrite <- Ha|]. split; [done|]. split; [done|].
  unfold contents. apply list_fmap_ext. intros i x Hx.
  rewrite <- (relinked_key _ _ _ R).
  eapply kept_key; [exact Q1|exact HD|exact R2|]. by eapply list_elem_of_lookup_2.
Qed.

(** ** The measurements of the timing test *)

Lemma differentiate_loop_spec before after : ∀ count i exec,
  (i + count ≤ length exec)%nat → (i + count ≤ length before)%nat →
  (i + count ≤ length after)%nat →
  Forall (λ d, - 2 ^ 63 ≤ d < 2 ^ 63)
    (zip_with Z.sub (take count (drop i after)) (take count (drop i before))) →
  differentiate_loop count i exec before after
    = Ok (take i exec
            ++ zip_with Z.sub (take count (drop i after)) (take count (drop i before))
            ++ drop (i + count) exec).
Proof.
  induction count as [|count IH]; intros i exec He Hb Ha Hr.
  { simpl. by rewrite Nat.add_0_r, take_drop. }
  destruct (lookup_lt_is_Some_2 after i) as [a Ea]; [lia|].
  destruct (lookup_lt_is_Some_2 before i) as [b Eb]; [lia|].
  rewrite (drop_S _ _ _ Ea), (drop_S _ _ _ Eb) in Hr |- *.
  cbn [take zip_with] in Hr |- *. apply Forall_cons in Hr as (Hd & Hr).
  cbn [differentiate_loop]. unfold array_get, array_set. rewrite Ea, Eb.
  cbn [mbind res_bind]. unfold int64. rewrite decide_True by done.
  cbn [mbind res_bind]. rewrite decide_True by lia. cbn [mbind res_bind].
  rewrite IH; rewrite ?length_insert; try done; try lia.
  rewrite (take_S_r _ _ (a - b)) by (apply list_lookup_insert_eq; lia).
  rewrite take_insert_ge by lia. rewrite drop_insert_lt by lia.
  rewrite <- (assoc_L (++)). cbn [app].
  by replace (S i + count)%nat with (i + S count)%nat by lia.
Qed.

Lemma update_loop_spec {T} (t_push : T → Z → Z → T) exec classes : ∀ count i t,
  (i + count ≤ length exec)%nat → (i + count ≤ length classes)%nat →
  update_loop t_push count i t exec classes
    = Ok (pushed t_push t (take count (drop i exec)) (drop i classes)).
Proof.
  induction count as [|count IH]; intros i t He Hc; [done|].
  destruct (lookup_lt_is_Some_2 exec i) as [d Ed]; [lia|].
  destruct (lookup_lt_is_Some_2 classes i) as [c Ec]; [lia|].
  rewrite (drop_S _ _ _ Ed), (drop_S _ _ _ Ec).
  cbn [update_loop]. unfold array_get. rewrite Ed. cbn [mbind res_bind].
  unfold pushed. cbn [take zip zip_with]. rewrite filter_cons. cbn [fst].
  case_decide as Hd.
  - rewrite decide_False by lia. rewrite IH by lia. done.
  - rewrite decide_True by lia. rewrite Ec. cbn [mbind res_bind foldl fst snd].
    rewrite IH by lia. done.
Qed.

(** ** After the sort, the strings that are left are strictly ascending *)

Lemma unique_strict k ns : ∀ out,
  (∀ x, x ∈ out → x ∈ ns) → NoDup out → sorted_by k out →
  StronglySorted (λ x y, strcmp (k x) (k y) < 0) (filter (unique_key k ns) out).
Proof.
  induction out as [|x l IH]; intros Hin ND S; [constructor|].
  apply NoDup_cons in ND as (Hx & ND). apply StronglySorted_inv in S as (S & F).
  assert (∀ y, y ∈ l → y ∈ ns) as Hin' by (intros y ?; apply Hin; by right).
  rewrite filter_cons. case_decide as U; [|by apply IH].
  constructor; [by apply IH|].
  apply Forall_forall. intros y (_ & Hy)%list_elem_of_filter.
  rewrite Forall_forall in F. specialize (F y Hy). apply le_key_true in F.
  assert (x ∈ ns) as Hxn by (apply Hin; left).
  apply list_elem_of_split in Hxn as (pre & post & ->).
  apply unique_key_split in U as (U1 & U2).
  assert (same_key k x y = false) as E.
  { specialize (Hin' y Hy). apply elem_of_app in Hin' as [?|Hc]; [by apply U1|].
    apply elem_of_cons in Hc as [->|?]; [done|by apply U2]. }
  unfold same_key in E. apply bool_decide_eq_false in E. lia.
Qed.

Lemma sort_then_dedup h head ns out h1 fuel :
  queue h head ns → queue h1 head out → out ≡ₚ ns → relinked (head :: ns) h h1 →
  sorted_by (key h) out → (length ns ≤ fuel)%nat →
  uniques_of h head ns (Part0.q_delete_dup fuel h1 head) ∧
  uniques_of h head ns (Part1.q_delete_dup fuel h1 head).
Proof.
  intros Q Q1 Hp R S Hf.
  destruct (sorted_then_dedup h head ns out h1 fuel Q Q1 Hp R S Hf)
    as (h2 & E0 & E1 & Q2 & Hc).
  assert (uniques_of h head ns (Ok (h2, true))) as U.
  { exists h2, (filter (unique_key (key h) ns) out).
    split; [done|]. split; [done|]. split; [by rewrite Hp|]. split; [done|].
    rewrite Hc. unfold contents.
    apply (StronglySorted_fmap _ (λ x y, strcmp (key h x) (key h y) < 0)); [done|].
    apply unique_strict; [intros x; by rewrite Hp| |done].
    rewrite Hp. destruct Q as ((_ & ND & _) & _). by apply NoDup_cons in ND as (_ & ND). }
  by rewrite E0, E1.
Qed.
(** * Further properties of the queue operations *)

(** X1. [q_new] with an allocation that succeeds returns a well-formed
    empty queue: its size is 0, and [q_free] gives back the heap as it was
    before the call.  With an allocation that fails it returns NULL and
    leaves the heap as it is. *)
Theorem q_new_empty_queue h pick fuel :
  h !! NULL = None →
  (pick ≠ NULL → h !! pick = None →
     ∃ h1, q_new h pick = Ok (h1, pick) ∧ queue h1 pick [] ∧
           q_size fuel h1 pick = Ok 0 ∧ q_free fuel h1 pick = Ok h) ∧
  (pick = NULL ∨ is_Some (h !! pick) → q_new h pick = Ok (h, NULL)).
Proof. intros H0. split; [intros; by apply q_new_free|apply q_new_fail]. Qed.

Lemma q_new_empty_queue_witness :
  fruits !! NULL = None ∧
  (∃ h1, q_new fruits 100 = Ok (h1, 100) ∧ queue h1 100 [] ∧
         q_size 0 h1 100 = Ok 0 ∧ q_free 0 h1 100 = Ok fruits) ∧
  q_new fruits 2 = Ok (fruits, NULL).
Proof.
  assert (fruits !! NULL = None) as H0 by (vm_compute; reflexivity).
  destruct (q_new_empty_queue fruits 100 0 H0) as (Hs & _).
  destruct (q_new_empty_queue fruits 2 0 H0) as (_ & Hf).
  split; [exact H0|]. split; [apply Hs; [done|vm_compute; reflexivity]|].
  apply Hf. right. by_evaluation.
Defined.

(** X2. [q_size] counts the elements of the circle behind the sentinel: it
    returns their number as long as that fits an [int]; from [INT_MAX + 1]
    elements on the counter overflows, which is undefined.  For an absent
    handle it returns 0. *)
Theorem q_size_counts h head ns fuel :
  ring h head ns → (length ns ≤ fuel)%nat →
  q_size fuel h head =
    (if decide (Z.of_nat (length ns) ≤ INT_MAX) then Ok (Z.of_nat (length ns)) else Fault) ∧
  q_size fuel h NULL = Ok 0.
Proof. intros R Hf. split; [by apply q_size_total|done]. Qed.

Lemma q_size_counts_witness :
  ring fruits 1 [2; 4; 6] ∧ q_size 3 fruits 1 = Ok 3 ∧ q_size 3 fruits NULL = Ok 0.
Proof.
  assert (ring fruits 1 [2; 4; 6]) as R by by_evaluation.
  destruct (q_size_counts fruits 1 [2; 4; 6] 3 R ltac:(simpl; lia)) as (E & E0).
  split; [exact R|]. split; [rewrite E; vm_compute; reflexivity|exact E0].
Defined.

(** X3. The size follows the operations: on a queue of [n] elements
    [q_size] returns [n]; after a successful [q_insert_head] or
    [q_insert_tail] it returns [n + 1], and after [q_remove_head] or
    [q_remove_tail] on a queue that is not empty it returns [n - 1]. *)
Theorem q_size_tracks h head ns s pe ps sp bufsize fuel :
  queue h head ns → alloc_ok h pe ps → buffer_ok sp bufsize →
  (length ns < fuel)%nat → Z.of_nat (length ns) < INT_MAX →
  q_size fuel h head = Ok (Z.of_nat (length ns)) ∧
  ('(h', _) ← q_insert_head h head s pe ps; q_size fuel h' head)
    = Ok (Z.of_nat (length ns) + 1) ∧
  ('(h', _) ← q_insert_tail h head s pe ps; q_size fuel h' head)
    = Ok (Z.of_nat (length ns) + 1) ∧
  (ns ≠ [] →
   ('(h', _, _) ← q_remove_head h head sp bufsize; q_size fuel h' head)
     = Ok (Z.of_nat (length ns) - 1) ∧
   ('(h', _, _) ← q_remove_tail h head sp bufsize; q_size fuel h' head)
     = Ok (Z.of_nat (length ns) - 1)).
Proof.
  intros Q A Hb Hf Hmax.
  split; [apply (q_size_queue h head ns); [done|lia|lia]|].
  destruct (q_size_inserted h head ns s pe ps fuel Q A Hf Hmax) as (E1 & E2).
  split; [done|]. split; [done|]. intros Hne. split.
  - destruct ns as [|x l]; [done|].
    rewrite (q_size_removed_head h head x l sp bufsize fuel Q Hb);
      simpl in *; [f_equal; lia|lia|lia].
  - destruct ns as [|x l _] using rev_ind; [done|]. rewrite length_app in *. simpl in *.
    rewrite (q_size_removed_tail h head l x sp bufsize fuel Q Hb); [f_equal; lia|lia|lia].
Qed.

Lemma q_size_tracks_witness :
  queue fruits 1 [2; 4; 6] ∧
  q_size 4 fruits 1 = Ok 3 ∧
  ('(h', _) ← q_insert_head fruits 1 "kiwi" 100 101; q_size 4 h' 1) = Ok 4 ∧
  ('(h', _, _) ← q_remove_tail fruits 1 None 0; q_size 4 h' 1) = Ok 2.
Proof.
  assert (queue fruits 1 [2; 4; 6]) as Q by by_evaluation.
  assert (alloc_ok fruits 100 101) as A by by_evaluation.
  destruct (q_size_tracks fruits 1 [2; 4; 6] "kiwi" 100 101 None 0 4 Q A I
              ltac:(simpl; lia) ltac:(vm_compute; reflexivity)) as (E & Eh & _ & Er).
  destruct (Er ltac:(done)) as (_ & Et).
  split; [exact Q|]. split; [exact E|]. split; [exact Eh|exact Et].
Defined.

(** X4. [q_free] on a well-formed queue releases the sentinel, every element
    and every string, and nothing else: every other block of the heap is as
    it was.  For an absent handle it does nothing. *)
Theorem q_free_releases_all h head ns fuel :
  queue h head ns → (length ns ≤ fuel)%nat →
  (∃ h', q_free fuel h head = Ok h' ∧ freed (head :: cells h ns) h h') ∧
  q_free fuel h NULL = Ok h.
Proof. intros Q Hf. split; [by apply q_free_queue|done]. Qed.

Lemma q_free_releases_all_witness :
  queue fruits 1 [2; 4; 6] ∧
  (∃ h', q_free 3 fruits 1 = Ok h' ∧ freed (1 :: cells fruits [2; 4; 6]) fruits h') ∧
  q_free 3 fruits 1 = Ok ∅ ∧
  q_free 3 (<[50 := Chars "other"]> fruits) 1 = Ok {[50 := Chars "other"]}.
Proof.
  assert (queue fruits 1 [2; 4; 6]) as Q by by_evaluation.
  destruct (q_free_releases_all fruits 1 [2; 4; 6] 3 Q ltac:(simpl; lia)) as (E & _).
  split; [exact Q|]. split; [exact E|]. split; vm_compute; reflexivity.
Defined.

(** X5. Inserting a string and removing it again at the same end is a round
    trip: the removal returns the element that the insertion made, the
    buffer receives the string (cut to [bufsize - 1] characters), and after
    [q_release_element] the heap is exactly the heap before the insertion.
    At the head as at the tail. *)
Theorem insert_remove_round_trip h head ns s pe ps sp bufsize :
  queue h head ns → alloc_ok h pe ps → buffer_ok sp bufsize →
  (∃ h1 h2,
     q_insert_head h head s pe ps = Ok (h1, true) ∧
     q_remove_head h1 head sp bufsize
       = Ok (h2, pe, (λ buf, copied buf (c_str s) bufsize) <$> sp) ∧
     q_release_element h2 pe = Ok h) ∧
  (∃ h1 h2,
     q_insert_tail h head s pe ps = Ok (h1, true) ∧
     q_remove_tail h1 head sp bufsize
       = Ok (h2, pe, (λ buf, copied buf (c_str s) bufsize) <$> sp) ∧
     q_release_element h2 pe = Ok h).
Proof.
  intros Q A Hb.
  split; [by apply (insert_remove_release_head h head ns)|
          by apply (insert_remove_release_tail h head ns)].
Qed.

Lemma insert_remove_round_trip_witness :
  queue fruits 1 [2; 4; 6] ∧ alloc_ok fruits 100 101 ∧
  buffer_ok (Some (replicate 8 "x"%char)) 4 ∧
  (∃ h1 h2,
     q_insert_tail fruits 1 "kiwi" 100 101 = Ok (h1, true) ∧
     q_remove_tail h1 1 (Some (replicate 8 "x"%char)) 4
       = Ok (h2, 100, Some (list_ascii_of_string "kiw" ++ NUL :: replicate 4 "x"%char)) ∧
     q_release_element h2 100 = Ok fruits).
Proof.
  assert (queue fruits 1 [2; 4; 6]) as Q by by_evaluation.
  assert (alloc_ok fruits 100 101) as A by by_evaluation.
  assert (buffer_ok (Some (replicate 8 "x"%char)) 4) as Hb by by_evaluation.
  split; [exact Q|]. split; [exact A|]. split; [exact Hb|].
  destruct (insert_remove_round_trip fruits 1 [2; 4; 6] "kiwi" 100 101
              (Some (replicate 8 "x"%char)) 4 Q A Hb) as (_ & E).
  exact E.
Defined.

(** X6. First in, first out: after [q_insert_tail] on a queue that is not
    empty, [q_remove_head] still returns the element that was first, with
    its string in the buffer, and the new element is the last of what is
    left. *)
Theorem queue_is_fifo h head x l s pe ps sp bufsize :
  queue h head (x :: l) → alloc_ok h pe ps → buffer_ok sp bufsize →
  ∃ h1 h2,
    q_insert_tail h head s pe ps = Ok (h1, true) ∧
    q_remove_head h1 head sp bufsize
      = Ok (h2, x, (λ buf, copied buf (key h x) bufsize) <$> sp) ∧
    queue h2 head (l ++ [pe]).
Proof. apply insert_tail_remove_head. Qed.

Lemma queue_is_fifo_witness :
  queue fruits 1 [2; 4; 6] ∧ alloc_ok fruits 100 101 ∧
  (∃ h1 h2,
     q_insert_tail fruits 1 "kiwi" 100 101 = Ok (h1, true) ∧
     q_remove_head h1 1 (Some (replicate 8 "x"%char)) 8
       = Ok (h2, 2, Some (list_ascii_of_string "banana" ++ [NUL; NUL])) ∧
     queue h2 1 [4; 6; 100]).
Proof.
  assert (queue fruits 1 [2; 4; 6]) as Q by by_evaluation.
  assert (alloc_ok fruits 100 101) as A by by_evaluation.
  assert (buffer_ok (Some (replicate 8 "x"%char)) 8) as Hb by by_evaluation.
  split; [exact Q|]. split; [exact A|].
  exact (queue_is_fifo fruits 1 2 [4; 6] "kiwi" 100 101 (Some (replicate 8 "x"%char)) 8 Q A Hb).
Defined.

(** X7. The strings of the queue after a successful insertion: the copy of
    the new string in front of the old strings for [q_insert_head], behind
    them for [q_insert_tail]; the old strings are unchanged and in their
    order. *)
Theorem q_insert_contents h head ns s pe ps :
  queue h head ns → alloc_ok h pe ps →
  (∃ h', q_insert_head h head s pe ps = Ok (h', true) ∧ queue h' head (pe :: ns) ∧
         contents h' (pe :: ns) = c_str s :: contents h ns) ∧
  (∃ h', q_insert_tail h head s pe ps = Ok (h', true) ∧ queue h' head (ns ++ [pe]) ∧
         contents h' (ns ++ [pe]) = contents h ns ++ [c_str s]).
Proof.
  intros Q A. split; [by apply q_insert_head_contents|by apply q_insert_tail_contents].
Qed.

Lemma q_insert_contents_witness :
  queue fruits 1 [2; 4; 6] ∧ alloc_ok fruits 100 101 ∧
  (∃ h', q_insert_head fruits 1 "kiwi" 100 101 = Ok (h', true) ∧
         queue h' 1 [100; 2; 4; 6] ∧
         contents h' [100; 2; 4; 6] = ["kiwi"; "banana"; "apple"; "cherry"]%string).
Proof.
  assert (queue fruits 1 [2; 4; 6]) as Q by by_evaluation.
  assert (alloc_ok fruits 100 101) as A by by_evaluation.
  split; [exact Q|]. split; [exact A|].
  destruct (q_insert_contents fruits 1 [2; 4; 6] "kiwi" 100 101 Q A) as (E & _).
  exact E.
Defined.

(** X8. [q_swap] is its own inverse on the heap: both revisions compute the
    same heap, and swapping that heap again, with either revision, gives
    back exactly the heap before the first call. *)
Theorem q_swap_involution h head ns fuel :
  queue h head ns → (length ns ≤ fuel)%nat →
  ∃ h1, Part0.q_swap fuel h head = Ok h1 ∧ Part1.q_swap fuel h head = Ok h1 ∧
        Part0.q_swap fuel h1 head = Ok h ∧ Part1.q_swap fuel h1 head = Ok h.
Proof. apply q_swap_twice. Qed.

Lemma q_swap_involution_witness :
  queue five 1 [2; 4; 6; 8; 10] ∧
  (∃ h1, Part0.q_swap 5 five 1 = Ok h1 ∧ Part1.q_swap 5 five 1 = Ok h1 ∧
         Part0.q_swap 5 h1 1 = Ok five ∧ Part1.q_swap 5 h1 1 = Ok five) ∧
  (h1 ← Part1.q_swap 5 five 1; to_list 5 h1 1) = Ok ["2"; "1"; "4"; "3"; "5"]%string.
Proof.
  assert (queue five 1 [2; 4; 6; 8; 10]) as Q by by_evaluation.
  split; [exact Q|].
  split; [exact (q_swap_involution five 1 [2; 4; 6; 8; 10] 5 Q ltac:(simpl; lia))|].
  vm_compute; reflexivity.
Defined.

(** X9. [q_sort] on a queue that is sorted already changes nothing: the heap
    after the call is the heap before it.  For the second revision up to
    [2^31] elements. *)
Theorem q_sort_keeps_sorted h head ns fuel :
  queue h head ns → sorted_by (key h) ns → (length ns ≤ fuel)%nat →
  Part0.q_sort fuel h head = Ok h ∧
  (Z.of_nat (length ns) ≤ 2 ^ 31 → Part1.q_sort fuel h head = Ok h).
Proof. apply q_sort_sorted_same. Qed.

Lemma q_sort_keeps_sorted_witness :
  queue sorted_fruits 1 [2; 4; 6] ∧ sorted_by (key sorted_fruits) [2; 4; 6] ∧
  Part0.q_sort 3 sorted_fruits 1 = Ok sorted_fruits ∧
  Part1.q_sort 3 sorted_fruits 1 = Ok sorted_fruits.
Proof.
  assert (queue sorted_fruits 1 [2; 4; 6]) as Q by by_evaluation.
  assert (sorted_by (key sorted_fruits) [2; 4; 6]) as S by by_evaluation.
  destruct (q_sort_keeps_sorted sorted_fruits 1 [2; 4; 6] 3 Q S ltac:(simpl; lia)) as (E0 & E1).
  split; [exact Q|]. split; [exact S|]. split; [exact E0|].
  apply E1. vm_compute. discriminate.
Defined.



(** X11. The second revision rewrites [q_delete_mid], [q_delete_dup],
    [q_swap] and [q_reverse] without a change of behaviour: on every
    well-formed queue the two revisions return the same result and the same
    heap. *)
Theorem revisions_agree h head ns fuel :
  queue h head ns → (length ns < fuel)%nat →
  Part1.q_delete_mid fuel h head = Part0.q_delete_mid fuel h head ∧
  Part1.q_delete_dup fuel h head = Part0.q_delete_dup fuel h head ∧
  Part1.q_swap fuel h head = Part0.q_swap fuel h head ∧
  Part1.q_reverse fuel h head = Part0.q_reverse fuel h head.
Proof.
  intros Q Hf. split; [by eapply q_delete_mid_agree|].
  split; [eapply q_delete_dup_agree; [done|lia]|].
  split; [|by eapply q_reverse_agree].
  destruct (q_swap_twice h head ns fuel Q ltac:(lia)) as (h1 & -> & -> & _). done.
Qed.

Lemma revisions_agree_witness :
  queue mixed 1 [2; 4; 6; 8; 10] ∧
  Part1.q_delete_mid 6 mixed 1 = Part0.q_delete_mid 6 mixed 1 ∧
  Part1.q_delete_dup 6 mixed 1 = Part0.q_delete_dup 6 mixed 1 ∧
  Part1.q_swap 6 mixed 1 = Part0.q_swap 6 mixed 1 ∧
  Part1.q_reverse 6 mixed 1 = Part0.q_reverse 6 mixed 1.
Proof.
  assert (queue mixed 1 [2; 4; 6; 8; 10]) as Q by by_evaluation.
  split; [exact Q|].
  exact (revisions_agree mixed 1 [2; 4; 6; 8; 10] 6 Q ltac:(simpl; lia)).
Defined.

(** X12. [q_sort] followed by [q_delete_dup] leaves exactly the elements
    whose string occurred once in the queue, with their strings, in
    strictly ascending order; every other element is gone.  Both
    revisions, for a queue in any order. *)
Theorem q_sort_then_delete_dup h head ns fuel :
  queue h head ns → (length ns ≤ fuel)%nat →
  uniques_of h head ns (h1 ← Part0.q_sort fuel h head; Part0.q_delete_dup fuel h1 head) ∧
  uniques_of h head ns (h1 ← Part1.q_sort fuel h head; Part1.q_delete_dup fuel h1 head).
Proof.
  intros Q Hf.
  destruct (q_sort0_spec h head ns fuel Q Hf) as (h0 & E0 & Q0 & R0).
  destruct (q_sort1_spec h head ns fuel Q Hf) as (h1 & E1 & Q1 & R1).
  rewrite E0, E1. cbn [mbind res_bind]. split.
  - eapply (sort_then_dedup h head ns (sort0 (le_key (key h)) ns));
      [done|done|apply sort0_perm|done|apply sort0_sorted|done].
  - eapply (sort_then_dedup h head ns (sort1 (le_key (key h)) ns));
      [done|done|apply sort1_perm|done|apply sort1_sorted|done].
Qed.

Lemma q_sort_then_delete_dup_witness :
  queue mixed 1 [2; 4; 6; 8; 10] ∧
  uniques_of mixed 1 [2; 4; 6; 8; 10]
    (h1 ← Part1.q_sort 5 mixed 1; Part1.q_delete_dup 5 h1 1) ∧
  filter (unique_key (key mixed) [2; 4; 6; 8; 10]) [2; 4; 6; 8; 10] = [8] ∧
  (h1 ← Part1.q_sort 5 mixed 1; '(h2, _) ← Part1.q_delete_dup 5 h1 1; to_list 5 h2 1)
    = Ok ["c"]%string.
Proof.
  assert (queue mixed 1 [2; 4; 6; 8; 10]) as Q by by_evaluation.
  destruct (q_sort_then_delete_dup mixed 1 [2; 4; 6; 8; 10] 5 Q ltac:(simpl; lia)) as (_ & E).
  split; [exact Q|]. split; [exact E|]. split; vm_compute; reflexivity.
Defined.

(** X13. [q_delete_dup] on a queue in any order returns true and leaves a
    well-formed queue of some of the old elements, in their old order and
    with their strings unchanged; when no two neighbours have the same
    string, the heap stays exactly as it is.  Both revisions, with the same
    heap. *)
Theorem q_delete_dup_unsorted h head ns fuel :
  queue h head ns → (length ns ≤ fuel)%nat →
  ∃ h' kept,
    Part0.q_delete_dup fuel h head = Ok (h', true) ∧
    Part1.q_delete_dup fuel h head = Ok (h', true) ∧
    queue h' head kept ∧ kept `sublist_of` ns ∧
    contents h' kept = contents h kept ∧
    (no_twins (key h) ns → h' = h).
Proof. apply q_delete_dup_any. Qed.

Lemma q_delete_dup_unsorted_witness :
  queue tagged 1 [2; 4; 6] ∧ no_twins (key tagged) [2; 4; 6] ∧
  Part0.q_delete_dup 3 tagged 1 = Ok (tagged, true) ∧
  Part1.q_delete_dup 3 tagged 1 = Ok (tagged, true).
Proof.
  assert (queue tagged 1 [2; 4; 6]) as Q by by_evaluation.
  assert (no_twins (key tagged) [2; 4; 6]) as N by by_evaluation.
  destruct (q_delete_dup_unsorted tagged 1 [2; 4; 6] 3 Q ltac:(simpl; lia))
    as (h' & kept & E0 & E1 & _ & _ & _ & Hsame).
  rewrite (Hsame N) in E0, E1.
  split; [exact Q|]. split; [exact N|]. split; [exact E0|exact E1].
Defined.



(** X15. [merge_final] of the second revision merges two sorted runs behind
    the sentinel and closes the circle: afterwards the sentinel and all the
    elements form a well-linked circular list, next and prev, in sorted
    order, elements with equal strings in the order first run, second run;
    only links change.  With two empty runs the sentinel is linked to
    itself. *)
Theorem merge_final_closes_ring h head la lb fuel :
  h !! NULL = None → is_node h head →
  chain h (hd NULL la) la → chain h (hd NULL lb) lb →
  NoDup (head :: la ++ lb) → keyed h (key h) (la ++ lb) →
  sorted_by (key h) la → sorted_by (key h) lb →
  (length la + length lb ≤ fuel)%nat →
  ∃ h' m, Part1.merge_final fuel h head (hd NULL la) (hd NULL lb) = Ok h' ∧
    ring h' head m ∧ m ≡ₚ la ++ lb ∧ sorted_by (key h) m ∧
    (∀ c, filter (λ y, same_key (key h) c y = true) m
          = filter (λ y, same_key (key h) c y = true) la
            ++ filter (λ y, same_key (key h) c y = true) lb) ∧
    relinked (head :: la ++ lb) h h' ∧
    (la = [] → lb = [] → m = []).
Proof.
  intros H0 Nh Ca Cb ND Hk Sa Sb Hf.
  destruct (merge_final_spec (key h) h head la lb fuel H0 Nh Ca Cb ND Hk Hf)
    as (h' & E & Rg & R).
  exists h', (merge_lists (le_key (key h)) la lb).
  split; [done|]. split; [done|]. split; [apply merge_perm|].
  split; [by apply merge_sorted|]. split; [intros c; by apply merge_stable|].
  split; [done|]. intros -> ->. done.
Qed.

Lemma merge_final_closes_ring_witness :
  is_node two_runs 1 ∧ chain two_runs 2 [2; 4] ∧ chain two_runs 6 [6] ∧
  (∃ h' m, Part1.merge_final 3 two_runs 1 2 6 = Ok h' ∧ ring h' 1 m ∧
           sorted_by (key two_runs) m) ∧
  (h' ← Part1.merge_final 3 two_runs 1 2 6; to_list 3 h' 1) = Ok ["a"; "b"; "c"]%string ∧
  (h' ← Part1.merge_final 3 two_runs 1 2 6; to_list_back 3 h' 1)
    = Ok ["c"; "b"; "a"]%string.
Proof.
  assert (two_runs !! NULL = None) as H0 by (vm_compute; reflexivity).
  assert (is_node two_runs 1) as Nh by by_evaluation.
  assert (chain two_runs 2 [2; 4]) as Ca by by_evaluation.
  assert (chain two_runs 6 [6]) as Cb by by_evaluation.
  assert (NoDup (1 :: [2; 4] ++ [6])) as ND by by_evaluation.
  assert (keyed two_runs (key two_runs) ([2; 4] ++ [6])) as Hk by by_evaluation.
  assert (sorted_by (key two_runs) [2; 4]) as Sa by by_evaluation.
  assert (sorted_by (key two_runs) [6]) as Sb by by_evaluation.
  destruct (merge_final_closes_ring two_runs 1 [2; 4] [6] 3 H0 Nh Ca Cb ND Hk Sa Sb
              ltac:(simpl; lia)) as (h' & m & E & Rg & _ & Sm & _).
  split; [exact Nh|]. split; [exact Ca|]. split; [exact Cb|].
  split; [exists h', m; split; [exact E|]; split; [exact Rg|exact Sm]|].
  split; vm_compute; reflexivity.
Defined.

(** X16. One round of measurements in the timing test: [differentiate]
    stores, for each of the [n_measure] measurements, the ticks after minus
    the ticks before and leaves the rest of [exec_times] as it is;
    [update_statistics] then hands to [t_push] exactly the differences that
    are greater than zero, each with the class of its measurement, in the
    order of the measurements.  A difference of zero or below is never
    pushed. *)
Theorem measurements_pushed {T} (t_push : T → Z → Z → T) n_measure t
    exec_times before_ticks after_ticks classes :
  (n_measure ≤ length exec_times)%nat → (n_measure ≤ length before_ticks)%nat →
  (n_measure ≤ length after_ticks)%nat → (n_measure ≤ length classes)%nat →
  Forall (λ d, - 2 ^ 63 ≤ d < 2 ^ 63)
    (zip_with Z.sub (take n_measure after_ticks) (take n_measure before_ticks)) →
  ∃ times,
    differentiate n_measure exec_times before_ticks after_ticks = Ok times ∧
    take n_measure times
      = zip_with Z.sub (take n_measure after_ticks) (take n_measure before_ticks) ∧
    drop n_measure times = drop n_measure exec_times ∧
    update_statistics t_push n_measure t times classes
      = Ok (pushed t_push t
              (zip_with Z.sub (take n_measure after_ticks) (take n_measure before_ticks))
              classes).
Proof.
  intros He Hb Ha Hc Hr.
  pose proof (differentiate_loop_spec before_ticks after_ticks n_measure 0 exec_times)
    as Hd.
  rewrite !drop_0 in Hd. cbn [take app Nat.add] in Hd.
  specialize (Hd He Hb Ha Hr).
  set (diffs := zip_with Z.sub (take n_measure after_ticks) (take n_measure before_ticks))
    in *.
  assert (length diffs = n_measure) as Hl.
  { unfold diffs. rewrite length_zip_with, !length_take. lia. }
  exists (diffs ++ drop n_measure exec_times). split; [exact Hd|].
  split; [by rewrite take_app_length'|]. split; [by rewrite drop_app_length'|].
  unfold update_statistics. rewrite update_loop_spec.
  - by rewrite !drop_0, take_app_length'.
  - rewrite length_app, length_drop. lia.
  - lia.
Qed.

Lemma measurements_pushed_witness :
  ∃ times,
    differentiate 3 [0; 0; 0] [10; 20; 30; 0] [15; 20; 29; 0] = Ok times ∧
    times = [5; 0; -1] ∧
    update_statistics (λ t d c, t ++ [(d, c)]) 3 [] times [1; 0; 1] = Ok [(5, 1)].
Proof.
  destruct (measurements_pushed (λ (t : list (Z * Z)) d c, t ++ [(d, c)]) 3 []
              [0; 0; 0] [10; 20; 30; 0] [15; 20; 29; 0] [1; 0; 1]
              ltac:(simpl; lia) ltac:(simpl; lia) ltac:(simpl; lia) ltac:(simpl; lia)
              ltac:(by_evaluation)) as (times & Ed & Et & Edrop & Eu).
  exists times. split; [exact Ed|]. split.
  - rewrite <- (take_drop 3 times), Et, Edrop. reflexivity.
  - rewrite Eu. reflexivity.
Defined.
